(** * Stylotron: segment maps, position queries, layered markup, replacement

    A shallow embedding of [src/lib/stylotron.js] (the [SOT] object) and the
    properties of its text-map engine.

    Conventions of the embedding:
    - text offsets are JavaScript numbers holding integers: [Z];
    - a JavaScript string is a [string]; positions count its characters, and
      [slice], [substring] and [replace] follow the language's rules for
      negative, swapped and out-of-range arguments and for replacement
      templates;
    - a JavaScript array is a [list]; [push] appends at the end;
    - an object used as an ordered dictionary ([defs], [attrs], [starts],
      [replacewiths]) is an association list in insertion order (keys are
      class or attribute names, never array indices);
    - a loop over [p.i] or [i] runs over the part of the array from that
      index on, and returns the index reached;
    - a [TypeError] raised by the source is the result [None];
    - a regular expression is an external collaborator, represented by what
      the engine observes of it: its [g] flag and the matches it yields;
    - the halves and quarters of [map.length] that the binary search adds up
      are exact in a JavaScript number for every map that fits in memory;
      they are rationals here. *)

From Stdlib Require Import ZArith List String Ascii Bool Lia QArith Qround Lqa.
Import ListNotations.
Open Scope Z_scope.

(** ** Data model *)

(** [{start, end}] of a segment. *)
Record Range := mkRange { rstart : Z; rend : Z }.

(** [{start, end, setindex}] of an origin: the extent the origin was added
    with, and its zero-based sequence number within one [addmatches] call. *)
Record OrigRange := mkOrigRange { ostart : Z; oend : Z; setindex : Z }.

(** One element of [origs]: [{setname, range}]. *)
Record Orig := mkOrig { setname : string; orange : OrigRange }.

(** One element of a map: [{range, origs}]. *)
Record Seg := mkSeg { range : Range; origs : list Orig }.

Definition TextMap := list Seg.

Definition sstart (s : Seg) : Z := rstart (range s).
Definition send (s : Seg) : Z := rend (range s).

(** The insertion cursor [p = {newmap, i, setindex}]. *)
Record Cursor := mkCursor { newmap : list Seg; p_i : nat; p_setindex : Z }.

Definition p0 : Cursor := {| newmap := []; p_i := 0; p_setindex := 0 |}.

Definition push {A} (l : list A) (x : A) : list A := l ++ [x].

(** [Array.prototype.pop]: the array without its last element, and that
    element; [None] on the empty array. *)
Fixpoint pop {A} (l : list A) : option (list A * A) :=
  match l with
  | [] => None
  | x :: l' =>
      match pop l' with
      | None => Some ([], x)
      | Some (init, y) => Some (x :: init, y)
      end
  end.

Module SOT_text_map.

(** [SOT.text.map.range.neworigs] for a string [setname]. *)
Definition neworigs (name : string) (r : OrigRange) : list Orig :=
  [ {| setname := name;
       orange := {| ostart := ostart r; oend := oend r; setindex := setindex r |} |} ].

(** [SOT.text.map.range.mk] *)
Definition mk (start end_ : Z) (os : list Orig) : Seg :=
  {| range := {| rstart := start; rend := end_ |}; origs := os |}.

(** [SOT.text.map._seg2]: split the incoming [m] against the segment [i].
    The left remainder is pushed when non-empty, the intersection is pushed
    unconditionally, the right remainder is returned. *)
Definition _seg2 (m i : Seg) (p : Cursor) : Seg * Cursor :=
  let r1s := Z.min (sstart m) (sstart i) in
  let r1e := Z.max (sstart m) (sstart i) in
  let nm1 :=
    if r1s <? r1e
    then push (newmap p) (mk r1s r1e (if r1s <? sstart i then origs m else origs i))
    else newmap p in
  let r2s := Z.max (sstart m) (sstart i) in
  let r2e := Z.min (send m) (send i) in
  let nm2 := push nm1 (mk r2s r2e (origs i ++ origs m)) in
  let r3s := Z.min (send m) (send i) in
  let r3e := Z.max (send m) (send i) in
  (mk r3s r3e (if r3s <? send m then origs m else origs i),
   {| newmap := nm2; p_i := p_i p; p_setindex := p_setindex p |}).

(** The loop of [_segment]:
    [for (; p.i < map.length && map[p.i].range.start < m.range.end; p.i++)
       m = _seg2(m, map[p.i], p)].
    [rest] is the part of [map] from index [p.i] on. *)
Fixpoint _segment_loop (rest : list Seg) (m : Seg) (p : Cursor) : Seg * Cursor :=
  match rest with
  | [] => (m, p)
  | s :: rest' =>
      if sstart s <? send m then
        let '(m', p') := _seg2 m s p in
        _segment_loop rest' m'
          {| newmap := newmap p'; p_i := S (p_i p'); p_setindex := p_setindex p' |}
      else (m, p)
  end.

(** [SOT.text.map._segment] *)
Definition _segment (start end_ : Z) (os : list Orig) (map : TextMap) (p : Cursor)
  : Cursor :=
  let m := mk start end_ os in
  let '(m1, p1) :=
    match pop (newmap p) with
    | Some (init, i) =>
        if sstart m <? send i
        then _seg2 m i {| newmap := init; p_i := p_i p; p_setindex := p_setindex p |}
        else (m, p)
    | None => (m, p)
    end in
  let '(m2, p2) := _segment_loop (skipn (p_i p1) map) m1 p1 in
  if sstart m2 <? send m2
  then {| newmap := push (newmap p2) m2; p_i := p_i p2; p_setindex := p_setindex p2 |}
  else p2.

(** The two loops of [_overwrite], over the part of [map] from [p.i] on. *)
Fixpoint _overwrite_skip (rest : list Seg) (end_ : Z) (i : nat) : nat :=
  match rest with
  | [] => i
  | s :: rest' => if send s <=? end_ then _overwrite_skip rest' end_ (S i) else i
  end.

(** [SOT.text.map._overwrite] *)
Definition _overwrite (start end_ : Z) (os : list Orig) (map : TextMap) (p : Cursor)
  : Cursor :=
  let nm := push (newmap p) (mk start end_ os) in
  let i1 := _overwrite_skip (skipn (p_i p) map) end_ (p_i p) in
  let i2 :=
    match nth_error map i1 with
    | Some s => if sstart s <? end_ then S i1 else i1
    | None => i1
    end in
  {| newmap := nm; p_i := i2; p_setindex := p_setindex p |}.

(** The first loop of [_insertrange]: copy the entries that end at or before
    [start]. *)
Fixpoint _copy_before (rest : list Seg) (start : Z) (p : Cursor) : Cursor :=
  match rest with
  | [] => p
  | s :: rest' =>
      if send s <=? start
      then _copy_before rest' start
             {| newmap := push (newmap p) s; p_i := S (p_i p); p_setindex := p_setindex p |}
      else p
  end.

(** [SOT.text.map._insertrange] *)
Definition _insertrange (start end_ : Z) (set : string) (map : TextMap)
    (segment : bool) (p : Cursor) : Cursor :=
  let p1 := _copy_before (skipn (p_i p) map) start p in
  let os := neworigs set {| ostart := start; oend := end_; setindex := p_setindex p1 |} in
  if segment then _segment start end_ os map p1 else _overwrite start end_ os map p1.

(** [SOT.text.map._addendranges] *)
Definition _addendranges (map : TextMap) (p : Cursor) : TextMap :=
  newmap p ++ skipn (p_i p) map.

(** A regular expression as the engine sees it: whether it carries the [g]
    flag ([matchAll] throws without it) and the [(index, index + length)]
    pairs that [text.matchAll(regex)] yields. *)
Record Regex := mkRegex { global : bool; matchAll : string -> list (Z * Z) }.

(** The body of the [for (const match of matches)] loop of [addmatches]. *)
Definition _addmatch (set : string) (map : TextMap) (segment : bool)
    (p : Cursor) (mt : Z * Z) : Cursor :=
  let p' := _insertrange (fst mt) (snd mt) set map segment p in
  {| newmap := newmap p'; p_i := p_i p'; p_setindex := p_setindex p' + 1 |}.

(** [addmatches] on the matches already produced by the matcher. *)
Definition addmatchlist (matches : list (Z * Z)) (set : string) (segment : bool)
    (map : TextMap) : TextMap :=
  _addendranges map (fold_left (_addmatch set map segment) matches p0).

(** [SOT.text.map.addmatches] *)
Definition addmatches (text : string) (regex : Regex) (set : string)
    (segment : bool) (map : TextMap) : TextMap :=
  if global regex
  then addmatchlist (matchAll regex text) set segment map
  else map.

(** [SOT.text.map.addrange] *)
Definition addrange (text : string) (r : Range) (set : string) (segment : bool)
    (map : TextMap) : TextMap :=
  let r' := if rend r <? rstart r then {| rstart := rend r; rend := rstart r |} else r in
  _addendranges map (_insertrange (rstart r') (rend r') set map segment p0).

End SOT_text_map.
Import SOT_text_map.

Definition orig (name : string) (s e k : Z) : Orig :=
  {| setname := name; orange := {| ostart := s; oend := e; setindex := k |} |}.

(** ** The map invariant *)

Section Ordering.

(** [strict = true]: every segment is non-empty ([start < end]);
    [strict = false]: zero-length segments are tolerated ([start <= end]). *)
Variable strict : bool.

Definition span_ok (a b : Z) : Prop := if strict then a < b else a <= b.

(** [chain lo l]: the segments of [l] lie at or after [lo], in order, each
    starting at or after the end of the one before. *)
Fixpoint chain (lo : Z) (l : list Seg) : Prop :=
  match l with
  | [] => True
  | s :: l' => lo <= sstart s /\ span_ok (sstart s) (send s) /\ chain (send s) l'
  end.

(** End of the last segment of [l], or [lo] when [l] is empty. *)
Definition last_end (lo : Z) (l : list Seg) : Z :=
  fold_left (fun _ s => send s) l lo.

Definition ordered (l : list Seg) : Prop := exists lo, chain lo l.

End Ordering.

(** The map invariant of the data model: ranges non-empty, ascending and
    non-overlapping. *)
Definition map_ok (l : TextMap) : Prop := ordered true l.

(** [x] lies in the half-open range of [s]. *)
Definition inseg (s : Seg) (x : Z) : Prop := sstart s <= x < send s.

(** [x] lies in the union of the ranges of [l]. *)
Definition covers (l : list Seg) (x : Z) : Prop := exists s, In s l /\ inseg s x.

(** ** Invariants of Segment-mode insertion

    [Qold] describes the origin lists of the segments already in the map,
    [Qnew] those of the segments after the insertion of the origin list [os]. *)

(** State of the loop of [_segment]: the carried fragment [m], the array
    [nm] built so far and the part [rest] of the old map still to visit,
    for an insertion ending at [e] and a target coverage [C]. *)
Definition loop_inv (strict : bool) (Qold Qnew : list Orig -> Prop) (os : list Orig)
    (lo e : Z) (C : Z -> Prop) (m : Seg) (nm rest : list Seg) : Prop :=
  chain strict lo nm /\
  chain strict (last_end lo nm) rest /\
  last_end lo nm <= sstart m /\
  sstart m <= send m /\
  sstart m <= e /\
  match rest with
  | s :: _ => sstart s < send m ->
              span_ok strict (Z.max (sstart m) (sstart s)) (Z.min (send m) (send s))
  | [] => True
  end /\
  ((origs m = os /\ send m = e) \/ (Qold (origs m) /\ chain strict (send m) rest)) /\
  Forall (fun s => sstart s <= e) nm /\
  Forall (fun s => Qnew (origs s)) nm /\
  Forall (fun s => Qold (origs s)) rest /\
  (forall x, covers nm x \/ inseg m x \/ covers rest x <-> C x).

(** State of the cursor between two matches of one [addmatches] call: [nm]
    is [p.newmap], [rest] the part of the old map from [p.i] on, [b] the end
    of the last match inserted, [C] the coverage reached. *)
Definition cursor_inv (strict : bool) (Qold Qnew : list Orig -> Prop)
    (b : Z) (C : Z -> Prop) (nm rest : list Seg) : Prop :=
  ordered strict (nm ++ rest) /\
  Forall (fun s => sstart s <= b) nm /\
  Forall (fun s => Qnew (origs s)) nm /\
  Forall (fun s => b < send s -> Qold (origs s)) nm /\
  Forall (fun s => Qold (origs s)) rest /\
  (forall x, covers (nm ++ rest) x <-> C x).

(** ** Inputs of an insertion *)

(** The matches of one call, from [b] on: each starts at or after the end of
    the one before and has [start < end] (or [start <= end] when
    [strict = false]). *)
Fixpoint matches_from (strict : bool) (b : Z) (ms : list (Z * Z)) : Prop :=
  match ms with
  | [] => True
  | (s, e) :: ms' => b <= s /\ span_ok strict s e /\ matches_from strict e ms'
  end.

(** Ordered, non-overlapping matches. *)
Definition matches_ordered (strict : bool) (ms : list (Z * Z)) : Prop :=
  match ms with
  | [] => True
  | (s, _) :: _ => matches_from strict s ms
  end.

(** [x] lies in one of the matches. *)
Definition in_matches (ms : list (Z * Z)) (x : Z) : Prop :=
  exists s e, In (s, e) ms /\ s <= x < e.

(** [x] lies in the range [r], taken in either direction. *)
Definition in_range (r : Range) (x : Z) : Prop :=
  Z.min (rstart r) (rend r) <= x < Z.max (rstart r) (rend r).

(** One Segment-mode insertion through the public interface. *)
Inductive Insertion :=
| InsMatches (text : string) (regex : Regex) (name : string)
| InsRange (text : string) (r : Range) (name : string).

Definition insert (map : TextMap) (ins : Insertion) : TextMap :=
  match ins with
  | InsMatches text regex name => addmatches text regex name true map
  | InsRange text r name => addrange text r name true map
  end.

(** The map built by a sequence of insertions into the empty map. *)
Definition build (inss : list Insertion) : TextMap := fold_left insert inss [].

(** What an insertion contributes: matches that are ordered and do not
    overlap, ranges of either direction; with [strict = true] none of them is
    zero-length. *)
Definition ins_ok (strict : bool) (ins : Insertion) : Prop :=
  match ins with
  | InsMatches text regex _ => matches_ordered strict (matchAll regex text)
  | InsRange _ r _ => if strict then rstart r <> rend r else True
  end.

Definition inserted (ins : Insertion) (x : Z) : Prop :=
  match ins with
  | InsMatches text regex _ => global regex = true /\ in_matches (matchAll regex text) x
  | InsRange _ r _ => in_range r x
  end.

(** ** JavaScript string primitives used by the engine *)

Module JS.

Definition strlen (s : string) : Z := Z.of_nat (String.length s).

(** The string of one double-quote character. *)
Definition dq : string := String (ascii_of_nat 34) EmptyString.

(** Truthiness of a string. *)
Definition nonempty (s : string) : bool :=
  match s with EmptyString => false | String _ _ => true end.

(** Truthiness of a value that is a string, [null] or [undefined]. *)
Definition truthy (v : option string) : bool :=
  match v with Some s => nonempty s | None => false end.

(** How [slice] resolves one of its arguments: a negative index counts from
    the end, and the result is clamped to [0 .. len]. *)
Definition slice_index (len k : Z) : Z :=
  if k <? 0 then Z.max (len + k) 0 else Z.min k len.

(** [s.slice(a, b)] *)
Definition slice (s : string) (a b : Z) : string :=
  let len := strlen s in
  let from := slice_index len a in
  let to := slice_index len b in
  substring (Z.to_nat from) (Z.to_nat (Z.max (to - from) 0)) s.

(** [s.slice(a)] *)
Definition slice_from (s : string) (a : Z) : string := slice s a (strlen s).

(** [s.substring(a, b)]: both arguments clamped to [0 .. len], then swapped
    when out of order. *)
Definition substring (s : string) (a b : Z) : string :=
  let len := strlen s in
  let fs := Z.min (Z.max a 0) len in
  let fe := Z.min (Z.max b 0) len in
  String.substring (Z.to_nat (Z.min fs fe)) (Z.to_nat (Z.max fs fe - Z.min fs fe)) s.

(** [s.replace(/c/g, by)] for a one-character pattern [c] and a replacement
    [by] without [$]. *)
Fixpoint replace_all_char (c : ascii) (by_ : string) (s : string) : string :=
  match s with
  | EmptyString => EmptyString
  | String a s' =>
      if Ascii.eqb a c
      then by_ ++ replace_all_char c by_ s'
      else String a (replace_all_char c by_ s')
  end.

(** The replacement text of [String.prototype.replace] when the pattern is a
    string (no capture groups): in the template, [$$] stands for [$], [$&]
    for the matched text, [$`] for the text before the match and [$'] for
    the text after it; any other character, and a [$] followed by anything
    else, stands for itself. *)
Fixpoint get_substitution (matched before after template : string) : string :=
  match template with
  | EmptyString => EmptyString
  | String c tl =>
      if Ascii.eqb c "$" then
        match tl with
        | String d rest =>
            if Ascii.eqb d "$" then
              String "$" (get_substitution matched before after rest)
            else if Ascii.eqb d "&" then
              matched ++ get_substitution matched before after rest
            else if Ascii.eqb d "`" then
              before ++ get_substitution matched before after rest
            else if Ascii.eqb d "'" then
              after ++ get_substitution matched before after rest
            else String c (get_substitution matched before after tl)
        | EmptyString => String c EmptyString
        end
      else String c (get_substitution matched before after tl)
  end.

(** [s.replace(search, template)] for a string [search]: the first
    occurrence is replaced, the template is expanded. *)
Definition replace (s search template : string) : string :=
  match index 0 search s with
  | None => s
  | Some pos =>
      let before := String.substring 0 pos s in
      let after := String.substring (pos + String.length search)
                     (String.length s - (pos + String.length search)) s in
      before ++ get_substitution search before after template ++ after
  end.

End JS.

(** ** Text helpers: [SOT.text] *)

Module SOT_text.

(** [SOT.text.raw2HTML]: three passes, [&] first. *)
Definition raw2HTML (text : string) : string :=
  let newtext := JS.replace_all_char "&" "&amp;" text in
  let newtext := JS.replace_all_char ">" "&gt;" newtext in
  JS.replace_all_char "<" "&lt;" newtext.

(** The character class [[A-Za-z0-9-_]]. *)
Definition is_tagchar (c : ascii) : bool :=
  let n := N_of_ascii c in
  ((65 <=? n) && (n <=? 90) || (97 <=? n) && (n <=? 122)
   || (48 <=? n) && (n <=? 57) || (n =? 45) || (n =? 95))%N.

Fixpoint take_tagchars (s : string) : string :=
  match s with
  | EmptyString => EmptyString
  | String c s' => if is_tagchar c then String c (take_tagchars s') else EmptyString
  end.

(** [SOT.text.extractto(tag, /^[A-Za-z0-9-_]+/)]; without a match the source
    reads [null[0]]. *)
Definition extractto_tagname (tag : string) : option string :=
  let t := take_tagchars tag in
  if JS.nonempty t then Some t else None.

(** [SOT.text.paste] *)
Definition paste (text : string) (r : Range) (replacewith : string) : string :=
  let newtext := JS.slice text 0 (rstart r) in
  let token := JS.substring text (rstart r) (rend r) in
  (newtext ++ JS.replace token token replacewith ++ JS.slice_from text (rend r))%string.

End SOT_text.

(** ** Pattern definitions and render configuration *)

(** One attribute specification of [htmlattrs]: a regular expression (seen
    through what [SOT.text.extract] returns for it), a string, or a value
    that is neither and is skipped. *)
Inductive AttrSpec :=
| AttrRegex (extract : string -> option string)
| AttrString (s : string)
| AttrOther.

(** One entry of [defs]. *)
Record Def := mkDef {
  regex : option Regex;
  drange : option Range;
  htmltag : option string;
  htmltagend : option string;
  htmlattrs : option (list (string * AttrSpec)) }.

Definition Defs := list (string * Def).

(** [obj[key]] on an ordered dictionary. *)
Fixpoint lookup {A} (key : string) (obj : list (string * A)) : option A :=
  match obj with
  | [] => None
  | (k, v) :: obj' => if String.eqb k key then Some v else lookup key obj'
  end.

(** [obj[key] = v]: an existing key keeps its place. *)
Fixpoint assign {A} (key : string) (v : A) (obj : list (string * A)) : list (string * A) :=
  match obj with
  | [] => [(key, v)]
  | (k, w) :: obj' =>
      if String.eqb k key then (k, v) :: obj' else (k, w) :: assign key v obj'
  end.

(** [delete obj[key]] *)
Fixpoint delete {A} (key : string) (obj : list (string * A)) : list (string * A) :=
  match obj with
  | [] => []
  | (k, w) :: obj' =>
      if String.eqb k key then delete key obj' else (k, w) :: delete key obj'
  end.

Record Opts := mkOpts { o_htmltag : option string; overlayranges : bool }.

(** The attributes of a tag; a value is a string or [null]. *)
Definition Attrs := list (string * option string).

(** What the per-tag callback receives. *)
Record CallbackParams := mkCallbackParams {
  cb_attrs : Attrs;
  cb_class : string;
  cb_map : TextMap;
  cb_mapindex : nat;
  cb_layerindex : nat;
  cb_opts : option Opts }.

Definition Callback := CallbackParams -> Attrs.

(** An entry of [starts]: where the class list of the last tag opened for a
    name ends. *)
Record Start := mkStart { pos : Z; pieceindex : nat; st_j : nat; st_seg : Range }.

(** ** The renderer: [SOT.map.markup] *)

Module SOT_map.

Section Markup.
Variable fulltext : string.
Variable map : TextMap.
Variable opts : option Opts.
Variable defs : option Defs.
Variable callback : option Callback.

(** [_tag]; [None] when [defs] is given and has no entry for the name. *)
Definition _tag (layer : Orig) (end_ : bool) : option string :=
  let tag := "mark"%string in
  let tag :=
    match opts with
    | Some o => match o_htmltag o with
                | Some t => if JS.nonempty t then t else tag
                | None => tag
                end
    | None => tag
    end in
  match defs with
  | None => Some tag
  | Some ds =>
      match lookup (setname layer) ds with
      | None => None
      | Some d =>
          match (if end_ then htmltagend d else None) with
          | Some t => Some t
          | None =>
              match htmltag d with
              | Some t => if JS.nonempty t then Some t else Some tag
              | None => Some tag
              end
          end
      end
  end.

(** [_addattrs] *)
Fixpoint _addattrs (attrs : Attrs) (addattrs : list (string * AttrSpec))
    (origrange : OrigRange) : Attrs :=
  match addattrs with
  | [] => attrs
  | (a, spec) :: rest =>
      let matched := JS.slice fulltext (ostart origrange) (oend origrange) in
      let attrs' :=
        match spec with
        | AttrRegex extract => assign a (extract matched) attrs
        | AttrString s => assign a (Some (JS.replace s "$_&" matched)) attrs
        | AttrOther => attrs
        end in
      _addattrs attrs' rest origrange
  end.

(** [_istagdif]: two layers differ when their names or their [setindex]
    differ; the ranges are not compared.  The index is below
    [seg.origs.length] at every call. *)
Definition _istagdif (seg : Seg) (compareseg : option Seg) (layerindex : nat) : bool :=
  match compareseg with
  | None => true
  | Some cs =>
      match nth_error (origs cs) layerindex, nth_error (origs seg) layerindex with
      | None, _ => true
      | Some c, Some o =>
          negb (String.eqb (setname o) (setname c))
          || negb (setindex (orange o) =? setindex (orange c))
      | Some _, None => true
      end
  end.

(** The loop of [_difdepth], [n] iterations before [depth] reaches
    [seg.origs.length]. *)
Fixpoint _difdepth_loop (seg : Seg) (compareseg : option Seg) (n depth : nat) : nat :=
  match n with
  | O => depth
  | S n' =>
      if _istagdif seg compareseg depth then depth
      else _difdepth_loop seg compareseg n' (S depth)
  end.

(** [_difdepth] *)
Definition _difdepth (seg : Seg) (compareseg : option Seg) : nat :=
  _difdepth_loop seg compareseg (List.length (origs seg)) 0.

(** The loop over [attrs] of [_tagstart]. *)
Fixpoint _tagstart_attrs (attrs : Attrs) (seg : Range) (layer : Orig) (j : nat)
    (pieceindex : nat) (offset : Z) (t : string) (starts : list (string * Start))
  : string * list (string * Start) :=
  match attrs with
  | [] => (t, starts)
  | (a, v) :: rest =>
      let t1 := (t ++ " " ++ a ++
                 (if JS.truthy v
                  then "=" ++ JS.dq ++ match v with Some s => s | None => "" end
                  else ""))%string in
      let '(t2, starts2) :=
        if String.eqb a "class" then
          let t' := (t1 ++ "  ")%string in
          (t', assign (setname layer)
                 {| pos := offset + JS.strlen t' - 1; pieceindex := pieceindex;
                    st_j := j; st_seg := seg |} starts)
        else (t1, starts) in
      let t3 := (t2 ++ (if JS.truthy v then JS.dq else ""))%string in
      _tagstart_attrs rest seg layer j pieceindex offset t3 starts2
  end.

(** [_tagstart] *)
Definition _tagstart (seg : Range) (layer : Orig) (mapindex j pieceindex : nat)
    (offset : Z) (starts : list (string * Start))
  : option (string * list (string * Start)) :=
  match _tag layer false with
  | None => None
  | Some tag =>
      let attrs : Attrs :=
        [("class"%string,
          Some (setname layer ++
                (if (ostart (orange layer) =? rstart seg)%Z then " L" else ""))%string)] in
      let attrs :=
        match defs with
        | Some ds =>
            match lookup (setname layer) ds with
            | Some d => match htmlattrs d with
                        | Some add => _addattrs attrs add (orange layer)
                        | None => attrs
                        end
            | None => attrs
            end
        | None => attrs
        end in
      let attrs :=
        match callback with
        | Some cb => cb {| cb_attrs := attrs; cb_class := setname layer; cb_map := map;
                           cb_mapindex := mapindex; cb_layerindex := j;
                           cb_opts := opts |}
        | None => attrs
        end in
      let '(t, starts') :=
        _tagstart_attrs attrs seg layer j pieceindex offset ("<" ++ tag)%string starts in
      Some ((t ++ ">")%string, starts')
  end.

(** The loop of [_layersstart] over the layers from index [j] on. *)
Fixpoint _layersstart_loop (seg : Seg) (layers : list Orig) (mapindex j pieceindex : nat)
    (tags : string) (starts : list (string * Start))
  : option (string * list (string * Start)) :=
  match layers with
  | [] => Some (tags, starts)
  | layer :: rest =>
      match _tagstart (range seg) layer mapindex j pieceindex (JS.strlen tags) starts with
      | None => None
      | Some (t, starts') =>
          _layersstart_loop seg rest mapindex (S j) pieceindex (tags ++ t)%string starts'
      end
  end.

(** [_layersstart]: the opening tags of the layers from the open depth on. *)
Definition _layersstart (prevseg : option Seg) (seg : Seg) (mapindex pieceindex : nat)
    (starts : list (string * Start)) : option (string * list (string * Start)) :=
  let j := _difdepth seg prevseg in
  _layersstart_loop seg (skipn j (origs seg)) mapindex j pieceindex ""%string starts.

(** [_tagend] *)
Definition _tagend (layer : Orig) : option string :=
  match _tag layer true with
  | None => None
  | Some tag =>
      if JS.nonempty tag then
        match SOT_text.extractto_tagname tag with
        | Some name => Some ("</" ++ name ++ ">")%string
        | None => None
        end
      else Some ""%string
  end.

(** The loop of [_layersend], over the layers to close, deepest first. *)
Fixpoint _layersend_loop (layers : list Orig) (t : string) : option string :=
  match layers with
  | [] => Some t
  | layer :: rest =>
      match _tagend layer with
      | None => None
      | Some e => _layersend_loop rest (t ++ e)%string
      end
  end.

(** [_layersend]: the closing tags of the layers from the close depth on. *)
Definition _layersend (seg : Seg) (nextseg : option Seg) : option string :=
  let j := _difdepth seg nextseg in
  _layersend_loop (rev (skipn j (origs seg))) ""%string.

(** [html[k] = piece] for [k] below [html.length]. *)
Fixpoint set_piece (html : list string) (k : nat) (piece : string) : list string :=
  match html, k with
  | [], _ => []
  | _ :: html', O => piece :: html'
  | h :: html', S k' => h :: set_piece html' k' piece
  end.

(** [_setlayerright]: for each layer ending where the segment ends, put [R]
    at the position recorded for its name and forget the record. *)
Fixpoint _setlayerright_loop (layers : list Orig) (seg : Seg) (html : list string)
    (starts : list (string * Start)) : option (list string * list (string * Start)) :=
  match layers with
  | [] => Some (html, starts)
  | layer :: rest =>
      match lookup (setname layer) starts with
      | Some st =>
          if oend (orange layer) =? send seg then
            match nth_error html (pieceindex st) with
            | None => None
            | Some piece =>
                let piece' := (JS.slice piece 0 (pos st) ++ "R"
                               ++ JS.slice_from piece (pos st + 1))%string in
                _setlayerright_loop rest seg (set_piece html (pieceindex st) piece')
                  (delete (setname layer) starts)
            end
          else _setlayerright_loop rest seg html starts
      | None => _setlayerright_loop rest seg html starts
      end
  end.

Definition _setlayerright (seg : Seg) (html : list string)
    (starts : list (string * Start)) : option (list string * list (string * Start)) :=
  _setlayerright_loop (origs seg) seg html starts.

(** [htmladd] *)
Definition htmladd (html : list string) (piece : string) : list string :=
  if JS.nonempty piece then push html piece else html.

(** [htmlstring] *)
Definition htmlstring (html : list string) : string :=
  fold_left String.append html ""%string.

(** The variables of the main loop. *)
Record RenderState := mkRenderState {
  html : list string;
  text : string;
  starts : list (string * Start);
  n : Z }.

(** The body of the main loop for the segment [seg] at index [i]. *)
Definition markup_step (prevseg : option Seg) (seg : Seg) (nextseg : option Seg)
    (i : nat) (st : RenderState) : option RenderState :=
  let html1 := htmladd (html st) (SOT_text.raw2HTML (JS.slice fulltext (n st) (sstart seg))) in
  let pieceindex := if JS.nonempty (text st) then S (List.length html1) else List.length html1 in
  let insidetext := SOT_text.raw2HTML (JS.slice fulltext (sstart seg) (send seg)) in
  match _layersstart prevseg seg i pieceindex (starts st) with
  | None => None
  | Some (tags, starts1) =>
      let '(html2, text2) :=
        if JS.nonempty tags
        then (htmladd (htmladd (htmladd html1 (text st)) tags) insidetext, ""%string)
        else (html1, (text st ++ insidetext)%string) in
      match _layersend seg nextseg with
      | None => None
      | Some endtags =>
          if JS.nonempty endtags then
            let '(html3, text3) :=
              if JS.nonempty text2
              then (htmladd html2 (text2 ++ endtags)%string, ""%string)
              else (htmladd html2 endtags, text2) in
            match _setlayerright seg html3 starts1 with
            | None => None
            | Some (html4, starts4) =>
                Some {| html := html4; text := text3; starts := starts4; n := send seg |}
            end
          else Some {| html := html2; text := text2; starts := starts1; n := send seg |}
      end
  end.

(** The main loop, over the segments from index [i] on. *)
Fixpoint markup_loop (prevseg : option Seg) (segs : list Seg) (i : nat)
    (st : RenderState) : option RenderState :=
  match segs with
  | [] => Some st
  | seg :: rest =>
      match markup_step prevseg seg (hd_error rest) i st with
      | None => None
      | Some st' => markup_loop (Some seg) rest (S i) st'
      end
  end.

(** [SOT.map.markup] *)
Definition markup : option string :=
  match markup_loop None map 0
          {| html := []; text := ""; starts := []; n := 0 |} with
  | None => None
  | Some st =>
      Some (htmlstring (html st) ++ SOT_text.raw2HTML (JS.slice_from fulltext (n st)))%string
  end.

End Markup.
End SOT_map.

(** ** The pattern series: [SOT.PatternSeries] *)

Module PatternSeries.

Section Series.
Variable defs : Defs.
Variable markupcallback : option Callback.

(** [buildmatchesmap] *)
Definition buildmatchesmap (text : string) (map : TextMap) : TextMap :=
  fold_left (fun m (e : string * Def) =>
               match regex (snd e) with
               | Some rx => addmatches text rx (fst e) true m
               | None => m
               end) defs map.

(** [buildrangesmap] *)
Definition buildrangesmap (text : string) (map : TextMap) : TextMap :=
  fold_left (fun m (e : string * Def) =>
               match drange (snd e) with
               | Some r => addrange text r (fst e) true m
               | None => m
               end) defs map.

(** [buildmap] *)
Definition buildmap (text : string) (map : TextMap) (overlay : bool) : TextMap :=
  if overlay then buildrangesmap text (buildmatchesmap text map)
  else
    fold_left (fun m (e : string * Def) =>
                 match regex (snd e) with
                 | Some rx => addmatches text rx (fst e) true m
                 | None =>
                     match drange (snd e) with
                     | Some r => addrange text r (fst e) true m
                     | None => m
                     end
                 end) defs map.

(** The default [opts] of [markup]. *)
Definition default_opts : Opts := {| o_htmltag := None; overlayranges := true |}.

(** [markup] *)
Definition markup (text : string) (map : TextMap) (opts : Opts) : option string :=
  SOT_map.markup text (buildmap text map (overlayranges opts)) (Some opts) (Some defs)
    markupcallback.

End Series.
End PatternSeries.

(** ** Position queries: [SOT.text.map.range] *)

Module SOT_text_map_range.

(** [map[k]]; reading a field of the result fails when it is [undefined]. *)
Definition get (map : TextMap) (k : Z) : option Seg :=
  if k <? 0 then None else nth_error map (Z.to_nat k).

(** [SOT.text.map.range.isposin] *)
Definition isposin (pos : Z) (map : TextMap) (i : Z) : bool :=
  (0 <=? i) && (i <? Z.of_nat (List.length map)) &&
  match get map i with
  | Some s => (sstart s <=? pos) && (pos <=? send s)
  | None => false
  end.

(** [Math.round]: the nearest integer, halves rounded up. *)
Definition Math_round (x : Q) : Z := Qfloor (x + (1 # 2)).

(** The bisection of [next]:
    [for (i = j; Math.round(j);
          j /= 2, map[Math.round(i)].range.end <= pos ? i += j : i -= j) ;].
    The numbers [i] and [j] are sums of halves, quarters, ... of the map
    length; they are rationals here.  [fuel] bounds the number of
    iterations. *)
Fixpoint bisect (fuel : nat) (pos : Z) (map : TextMap) (i j : Q) : option Q :=
  if Math_round j =? 0 then Some i
  else
    match fuel with
    | O => None
    | S fuel' =>
        let j' := (j / 2)%Q in
        match get map (Math_round i) with
        | None => None
        | Some s =>
            bisect fuel' pos map (if send s <=? pos then i + j' else i - j')%Q j'
        end
    end.

(** The final scan of [next]:
    [for (; i < map.length && map[i].range.end <= pos; i++) ;],
    over the part of [map] from index [i] on. *)
Fixpoint scan (rest : list Seg) (pos : Z) (i : Z) : Z :=
  match rest with
  | [] => i
  | s :: rest' => if send s <=? pos then scan rest' pos (i + 1) else i
  end.

(** [SOT.text.map.range.next]: index of the first segment whose end exceeds
    [pos]; [map.length] when there is none, [-1] on the empty map.  The
    bisection halves [j] until it rounds to zero, which takes fewer than
    [map.length + 2] iterations. *)
Definition next (pos : Z) (map : TextMap) : option Z :=
  match map with
  | [] => Some (-1)
  | first :: _ =>
      let len := Z.of_nat (List.length map) in
      let start :=
        if pos <? send first then Some 0
        else
          match get map (len - 1) with
          | None => None
          | Some last =>
              if pos <? sstart last then
                match bisect (List.length map + 2) pos map
                        (inject_Z len / 2)%Q (inject_Z len / 2)%Q with
                | Some i => Some (Math_round i)
                | None => None
                end
              else Some (len - 1)
          end in
      match start with
      | None => None
      | Some i =>
          if i <? 0 then None
          else Some (scan (skipn (Z.to_nat i) map) pos i)
      end
  end.

(** [SOT.text.map.range.atpos] *)
Definition atpos (pos : Z) (map : TextMap) : option Z :=
  match next pos map with
  | None => None
  | Some i => if isposin pos map i then Some i else Some (-1)
  end.

(** [SOT.text.map.range.before] *)
Definition before (pos : Z) (map : TextMap) : option Z :=
  match next pos map with
  | None => None
  | Some i =>
      let i1 := if (0 <=? i) && isposin pos map i then i + 1 else i in
      Some (if 0 <=? i1 then Z.max 0 (i1 - 1) else i1)
  end.

(** [SOT.text.map.range.after] *)
Definition after (pos : Z) (map : TextMap) : option Z :=
  match next pos map with
  | None => None
  | Some i => Some (if isposin pos map i then i + 1 else i)
  end.

(** [x < y] on the numbers of the midpoint test. *)
Definition Qltb (x y : Q) : bool := negb (Qle_bool y x).

(** [SOT.text.map.range.nearest]; the midpoint of a gap may be a half. *)
Definition nearest (pos : Z) (map : TextMap) : option Z :=
  match next pos map with
  | None => None
  | Some i0 =>
      let i := Z.min i0 (Z.of_nat (List.length map) - 1) in
      if (0 <? i) && negb (isposin pos map i) then
        match get map i, get map (i - 1) with
        | Some si, Some sp =>
            if Qltb (inject_Z pos)
                 (inject_Z (sstart si - send sp) / 2 + inject_Z (send sp))%Q
            then Some (i - 1) else Some i
        | _, _ => None
        end
      else Some i
  end.

End SOT_text_map_range.

(** ** Replacement: [SOT.text.map.replaceall], [SOT.text.map.replace] *)

Module SOT_text_map_replace.

(** The template that [token.replace(token, replacewiths[name])] receives:
    a missing entry is [undefined], which [replace] turns into a string. *)
Definition template_of (replacewiths : list (string * string)) (name : string) : string :=
  match lookup name replacewiths with
  | Some s => s
  | None => "undefined"%string
  end.

(** The test of [replaceall]: one origin, whose range is the segment's. *)
Definition exact (s : Seg) : bool :=
  match origs s with
  | [o] => (ostart (orange o) =? sstart s) && (oend (orange o) =? send s)
  | _ => false
  end.

(** The loop of [replaceall]. *)
Fixpoint replaceall_loop (text : string) (segs : list Seg)
    (replacewiths : list (string * string)) (newtext : string) (n : Z) : string * Z :=
  match segs with
  | [] => (newtext, n)
  | s :: rest =>
      let newtext1 := (newtext ++ JS.slice text n (sstart s))%string in
      let token := JS.substring text (sstart s) (send s) in
      let newtext2 :=
        if exact s then
          match origs s with
          | o :: _ => (newtext1 ++ JS.replace token token
                                     (template_of replacewiths (setname o)))%string
          | [] => newtext1
          end
        else (newtext1 ++ token)%string in
      replaceall_loop text rest replacewiths newtext2 (send s)
  end.

(** [SOT.text.map.replaceall] *)
Definition replaceall (text : string) (map : TextMap)
    (replacewiths : list (string * string)) : string :=
  match map with
  | [] => text
  | _ =>
      let '(newtext, n) := replaceall_loop text map replacewiths ""%string 0 in
      (newtext ++ JS.slice_from text n)%string
  end.

(** [SOT.text.map.replace]; [None] when [map[i]] or [map[i].origs[0]] is
    [undefined]. *)
Definition replace (text : string) (map : TextMap) (i : Z) (newtext : string)
  : option string :=
  if Z.of_nat (List.length map) <=? i then Some text
  else
    match SOT_text_map_range.get map i with
    | None => None
    | Some s =>
        match origs s with
        | [] => None
        | o :: _ => Some (replaceall text [s] [(setname o, newtext)])
        end
    end.

End SOT_text_map_replace.

(** ** Order of application of a pattern series *)

(** [l1] is [l2] with some elements left out, the order kept. *)
Fixpoint subseq (l1 l2 : list string) {struct l2} : Prop :=
  match l2 with
  | [] => l1 = []
  | y :: l2' =>
      match l1 with
      | [] => True
      | x :: l1' => (x = y /\ subseq l1' l2') \/ subseq l1 l2'
      end
  end.

(** The names of the origins of a segment, outermost first. *)
Definition layer_names (s : Seg) : list string := List.map setname (origs s).

Definition registration_order (defs : Defs) : list string := List.map fst defs.

(** Names of the entries that [buildmatchesmap] applies, in its order. *)
Definition regex_names (defs : Defs) : list string :=
  flat_map (fun e : string * Def =>
              match regex (snd e) with Some _ => [fst e] | None => [] end) defs.

(** Names of the entries that [buildrangesmap] applies, in its order. *)
Definition range_names (defs : Defs) : list string :=
  flat_map (fun e : string * Def =>
              match drange (snd e) with Some _ => [fst e] | None => [] end) defs.

(** Names of the entries that the single pass of [buildmap] applies. *)
Definition entry_names (defs : Defs) : list string :=
  flat_map (fun e : string * Def =>
              match regex (snd e) with
              | Some _ => [fst e]
              | None => match drange (snd e) with Some _ => [fst e] | None => [] end
              end) defs.

(** The order in which [buildmap] applies the entries: with [overlayranges]
    all matchers, then all ranges; without it, the entries as registered. *)
Definition application_order (overlay : bool) (defs : Defs) : list string :=
  if overlay then regex_names defs ++ range_names defs else entry_names defs.

(** The matchers of a series yield ordered, non-overlapping matches on
    [text] (zero-length matches included). *)
Definition matchers_ok (defs : Defs) (text : string) : Prop :=
  forall name d rx, In (name, d) defs -> regex d = Some rx ->
    matches_ordered false (matchAll rx text).

(** The names of the origin list [os], in order, are among [a], in order. *)
Definition names_within (a : list string) (os : list Orig) : Prop :=
  subseq (List.map setname os) a.

(** ** Vocabulary of the statements *)

(** A replacement template in which no [$] occurs. *)
Fixpoint no_dollar (s : string) : Prop :=
  match s with
  | EmptyString => True
  | String c s' => c <> "$"%char /\ no_dollar s'
  end.

(** Length of the longest common leading part of two origin lists, two
    origins being the same when [same] says so. *)
Fixpoint common_prefix_length (same : Orig -> Orig -> bool) (l1 l2 : list Orig) : nat :=
  match l1, l2 with
  | o1 :: l1', o2 :: l2' =>
      if same o1 o2 then S (common_prefix_length same l1' l2') else O
  | _, _ => O
  end.

(** Two origins agree on name and sequence number. *)
Definition same_name_seq (a b : Orig) : bool :=
  String.eqb (setname a) (setname b)
  && (setindex (orange a) =? setindex (orange b)).

(** Two origins agree on name, range and sequence number. *)
Definition same_origin (a b : Orig) : bool :=
  String.eqb (setname a) (setname b)
  && (ostart (orange a) =? ostart (orange b))
  && (oend (orange a) =? oend (orange b))
  && (setindex (orange a) =? setindex (orange b)).

(** The opening tag [<tag class="cls">]. *)
Definition class_tag (tag cls : string) : string :=
  ("<" ++ tag ++ " class=" ++ JS.dq ++ cls ++ JS.dq ++ ">")%string.

(** A definition that is a matcher and nothing else: ['class': regex]. *)
Definition matcher_def (rx : Regex) : Def :=
  {| regex := Some rx; drange := None; htmltag := None; htmltagend := None;
     htmlattrs := None |}.

(** A definition that is a range and nothing else:
    ['class': {'range': ..}]. *)
Definition range_def (r : Range) : Def :=
  {| regex := None; drange := Some r; htmltag := None; htmltagend := None;
     htmlattrs := None |}.

(** A matcher that yields the given matches on every text. *)
Definition matcher_of (ms : list (Z * Z)) : Regex :=
  {| global := true; matchAll := fun _ => ms |}.

(** The escape of one character. *)
Definition escape_char (c : ascii) : string :=
  if Ascii.eqb c "&" then "&amp;"
  else if Ascii.eqb c ">" then "&gt;"
  else if Ascii.eqb c "<" then "&lt;"
  else String c EmptyString.

(** A text with every character escaped, each one once. *)
Fixpoint escaped (s : string) : string :=
  match s with
  | EmptyString => EmptyString
  | String c s' => (escape_char c ++ escaped s')%string
  end.

(** [t] is an opening tag that [_tagstart] writes for [layer] in the segment
    [seg]. *)
Definition opening_tag_of (fulltext : string) (map : TextMap) (opts : option Opts)
    (defs : option Defs) (callback : option Callback) (seg : Seg)
    (layer : Orig) (t : string) : Prop :=
  exists mapindex j pieceindex offset sts sts',
    SOT_map._tagstart fulltext map opts defs callback (range seg) layer
      mapindex j pieceindex offset sts = Some (t, sts').

(** [t] is the closing tag that [_tagend] writes for [layer]. *)
Definition closing_tag_of (opts : option Opts) (defs : option Defs)
    (layer : Orig) (t : string) : Prop :=
  SOT_map._tagend opts defs layer = Some t.

(** No character of [s] is [<] or [>]: [s] holds no tag. *)
Fixpoint no_angle (s : string) : Prop :=
  match s with
  | EmptyString => True
  | String c s' => c <> "<"%char /\ c <> ">"%char /\ no_angle s'
  end.

(** ** Vocabulary of the further properties *)

(** Distance from [pos] to the range of [s], its two ends included. *)
Definition dist (s : Seg) (pos : Z) : Z :=
  if pos <? sstart s then sstart s - pos
  else if send s <? pos then pos - send s
  else 0.

(** [x] shares no position with any of the matches [ms]. *)
Definition clear_of (x : Seg) (ms : list (Z * Z)) : Prop :=
  forall s e, In (s, e) ms -> send x <= s \/ e <= sstart x.

(** The segment that Overwrite-mode insertion stores for the match number
    [j], [(s, e)], of a call with origin name [name]. *)
Definition overwrite_seg (name : string) (j : nat) (m : Z * Z) : Seg :=
  SOT_text_map.mk (fst m) (snd m) [orig name (fst m) (snd m) (Z.of_nat j)].

(** State of the cursor between two matches of one Overwrite-mode
    [addmatches] call: [done] are the matches inserted so far, [b] the end of
    the last of them. *)
Definition over_inv (name : string) (map : TextMap) (b : Z) (done : list (Z * Z))
    (p : Cursor) : Prop :=
  p_setindex p = Z.of_nat (List.length done) /\
  map_ok (newmap p ++ skipn (p_i p) map) /\
  Forall (fun x => send x <= b) (newmap p) /\
  Forall (fun x => b <= sstart x) (skipn (p_i p) map) /\
  Forall (fun m => snd m <= b) done /\
  (forall x, In x (newmap p ++ skipn (p_i p) map) <->
     (exists j m, nth_error done j = Some m /\ x = overwrite_seg name j m)
     \/ (In x map /\ clear_of x done)).

(** A text cut into pieces: each piece is a stretch of plain text, [p_gap],
    followed by a token, [p_token], that one origin of name [p_name] and
    sequence number [p_index] covers exactly. *)
Record Piece := mkPiece { p_gap : string; p_token : string; p_name : string; p_index : Z }.

(** The text of the pieces, followed by [tail]. *)
Fixpoint piece_text (ps : list Piece) (tail : string) : string :=
  match ps with
  | [] => tail
  | p :: ps' => (p_gap p ++ p_token p ++ piece_text ps' tail)%string
  end.

(** The map of the pieces, the first piece starting at offset [off]: one
    single-origin segment per token. *)
Fixpoint piece_map (off : Z) (ps : list Piece) : TextMap :=
  match ps with
  | [] => []
  | p :: ps' =>
      let a := off + JS.strlen (p_gap p) in
      let b := a + JS.strlen (p_token p) in
      SOT_text_map.mk a b [orig (p_name p) a b (p_index p)] :: piece_map b ps'
  end.

(** The text of the pieces with every token replaced by the expansion of the
    template registered for its name. *)
Fixpoint piece_subst (replacewiths : list (string * string)) (ps : list Piece)
    (tail : string) : string :=
  match ps with
  | [] => tail
  | p :: ps' =>
      (p_gap p
       ++ JS.get_substitution (p_token p) "" ""
            (SOT_text_map_replace.template_of replacewiths (p_name p))
       ++ piece_subst replacewiths ps' tail)%string
  end.

(** The rendering of the pieces: every gap escaped, every token escaped
    inside a [mark] tag whose class list is the name of the token followed
    by [L] and [R]. *)
Fixpoint piece_html (ps : list Piece) (tail : string) : string :=
  match ps with
  | [] => SOT_text.raw2HTML tail
  | p :: ps' =>
      (SOT_text.raw2HTML (p_gap p)
       ++ class_tag "mark" (p_name p ++ " L R")
       ++ SOT_text.raw2HTML (p_token p)
       ++ "</mark>"
       ++ piece_html ps' tail)%string
  end.

(** No two neighbouring pieces carry the same name with the same sequence
    number; [prev] is the name and number of the piece before the first, if
    there is one. *)
Fixpoint pieces_alternate (prev : option (string * Z)) (ps : list Piece) : Prop :=
  match ps with
  | [] => True
  | p :: ps' =>
      match prev with
      | Some (nm, k) => p_name p <> nm \/ p_index p <> k
      | None => True
      end
      /\ pieces_alternate (Some (p_name p, p_index p)) ps'
  end.

(** A definition that names no tag, no closing tag and no attributes. *)
Definition plain_def (d : Def) : Prop :=
  htmltag d = None /\ htmltagend d = None /\ htmlattrs d = None.

(** [defs] is absent, or defines [name] plainly. *)
Definition plain_for (defs : option Defs) (name : string) : Prop :=
  match defs with
  | None => True
  | Some ds => exists d, lookup name ds = Some d /\ plain_def d
  end.

(** [opts] is absent, or names no tag. *)
Definition plain_opts (opts : option Opts) : Prop :=
  match opts with
  | None => True
  | Some o => o_htmltag o = None
  end.

(** The tag named by [opts], when there is one, begins with a character of
    a tag name, so that its closing tag can be formed. *)
Definition closable (opts : option Opts) : Prop :=
  forall o t, opts = Some o -> o_htmltag o = Some t -> JS.nonempty t = true ->
  SOT_text.extractto_tagname t <> None.

(** Every record of [starts] points at a piece that [html] holds. *)
Definition starts_ok (html : list string) (starts : list (string * Start)) : Prop :=
  forall name e, lookup name starts = Some e -> (pieceindex e < List.length html)%nat.

(** ** The registry of a pattern series: [get], [addregex], [addrange],
    [del], [delregexs], [delranges], [clear]

    The private [defs] of [SOT.PatternSeries] is passed in and returned.  A
    class name is taken not to be the name of a property that every object
    inherits ([constructor], [toString], ...), for which [defs[cls]] is not
    [undefined]. *)

Module SOT_PatternSeries.

(** [get] *)
Definition get (cls : string) (defs : Defs) : option Def := lookup cls defs.

(** [addregex] for a regular expression object. *)
Definition addregex (rx : Regex) (cls : string) (defs : Defs) : Defs :=
  assign cls (matcher_def rx) defs.

(** [addrange]: the new [defs] and whether the range was stored ([true], or
    [undefined], here [false]); [None] when [defs[cls]] exists and has no
    [range], so that reading [range.start] fails. *)
Definition addrange (r : Range) (cls : string) (defs : Defs) : option (Defs * bool) :=
  match lookup cls defs with
  | None => Some (assign cls (range_def r) defs, true)
  | Some d =>
      match drange d with
      | None => None
      | Some r0 =>
          if negb (rstart r0 =? rstart r) || negb (rend r0 =? rend r)
          then Some (assign cls (range_def r) defs, true)
          else Some (defs, false)
      end
  end.

(** [del]: the new [defs] and whether an entry was deleted. *)
Definition del (cls : string) (defs : Defs) : Defs * bool :=
  match lookup cls defs with
  | Some _ => (delete cls defs, true)
  | None => (defs, false)
  end.

(** [delregexs] *)
Definition delregexs (defs : Defs) : Defs :=
  filter (fun e : string * Def =>
            match regex (snd e) with Some _ => false | None => true end) defs.

(** [delranges] *)
Definition delranges (defs : Defs) : Defs :=
  filter (fun e : string * Def =>
            match drange (snd e) with Some _ => false | None => true end) defs.

(** [clear] *)
Definition clear (defs : Defs) : Defs := [].

End SOT_PatternSeries.

(** ** [SOT.text.startswith] *)

Module SOT_text_tests.

(** [startswith(s, sub)], as the condition it is used for: the value of
    [s && sub && s.substring(0, sub.length) == sub] is truthy.  An argument
    is a string, or [undefined] ([None]). *)
Definition startswith (s sub : option string) : bool :=
  match s, sub with
  | Some s', Some sub' =>
      JS.nonempty s' && JS.nonempty sub'
      && String.eqb (JS.substring s' 0 (JS.strlen sub')) sub'
  | _, _ => false
  end.

End SOT_text_tests.

(** ** Layers at a position *)

(** The origin list of the first segment of [map] that holds position [x];
    empty when no segment does. *)
Fixpoint origs_at (map : TextMap) (x : Z) : list Orig :=
  match map with
  | [] => []
  | s :: map' =>
      if (sstart s <=? x) && (x <? send s) then origs s else origs_at map' x
  end.

(** The layers at [x] once the origins [os], of range [[s, e)], are laid
    over the layers [G]. *)
Definition add_layer (G : Z -> list Orig) (s e : Z) (os : list Orig) (x : Z)
  : list Orig :=
  G x ++ (if (s <=? x) && (x <? e) then os else []).

(** The origin that the matches [ms] of one call, numbered from [k] on, lay
    at position [x]: that of the first match that holds [x]. *)
Fixpoint match_layer (name : string) (k : Z) (ms : list (Z * Z)) (x : Z) : list Orig :=
  match ms with
  | [] => []
  | (s, e) :: ms' =>
      if (s <=? x) && (x <? e) then [orig name s e k]
      else match_layer name (k + 1) ms' x
  end.

(** Every segment of [l] carries, at each of its positions, the origins that
    [F] gives. *)
Definition agrees (F : Z -> list Orig) (l : list Seg) : Prop :=
  Forall (fun f => forall x, inseg f x -> origs f = F x) l.

(** The origin that one insertion lays at position [x], if any. *)
Definition layer_of (ins : Insertion) (x : Z) : list Orig :=
  match ins with
  | InsMatches text regex name =>
      if global regex then match_layer name 0 (matchAll regex text) x else []
  | InsRange _ r name =>
      let lo := Z.min (rstart r) (rend r) in
      let hi := Z.max (rstart r) (rend r) in
      if (lo <=? x) && (x <? hi) then [orig name lo hi 0] else []
  end.

(** ** Reading the output as HTML *)

(** The reader is inside a tag from a [<] to the next [>]; [next_state]
    gives its state after the character [c]. *)
Definition next_state (intag : bool) (c : ascii) : bool :=
  if intag then negb (Ascii.eqb c ">") else Ascii.eqb c "<".

(** The state of the reader after [s]. *)
Fixpoint tag_state (intag : bool) (s : string) : bool :=
  match s with
  | EmptyString => intag
  | String c s' => tag_state (next_state intag c) s'
  end.

(** What remains of [s] when the tags are taken out. *)
Fixpoint strip_tags (intag : bool) (s : string) : string :=
  match s with
  | EmptyString => EmptyString
  | String c s' =>
      if intag || Ascii.eqb c "<" then strip_tags (next_state intag c) s'
      else String c (strip_tags false s')
  end.

(** The text that a browser shows for the markup [s], entities left as
    they are. *)
Definition visible (s : string) : string := strip_tags false s.

(** A piece that begins and ends outside every tag. *)
Definition closed (s : string) : Prop := tag_state false s = false.

(** Position [n] of [s] exists, lies inside a tag and does not hold the [>]
    that ends it. *)
Fixpoint in_tag_at (n : nat) (intag : bool) (s : string) {struct s} : bool :=
  match s with
  | EmptyString => false
  | String c s' =>
      match n with
      | O => intag && negb (Ascii.eqb c ">")
      | S n' => in_tag_at n' (next_state intag c) s'
      end
  end.

(** [s] with the character at position [n] replaced by [R]. *)
Fixpoint put_R_at (n : nat) (s : string) {struct s} : string :=
  match s with
  | EmptyString => EmptyString
  | String c s' =>
      match n with
      | O => String "R" s'
      | S n' => String c (put_R_at n' s')
      end
  end.

(** Every record of [starts] points into a tag of a piece that [html]
    holds. *)
Definition starts_valid (html : list string) (starts : list (string * Start)) : Prop :=
  forall name e, lookup name starts = Some e ->
    exists piece, nth_error html (pieceindex e) = Some piece
                  /\ 0 <= pos e
                  /\ in_tag_at (Z.to_nat (pos e)) false piece = true.

(** Two consecutive segments with text between them differ in the name or
    in the sequence number of their first origins. *)
Fixpoint gaps_separate (segs : list Seg) : Prop :=
  match segs with
  | a :: (b :: _) as rest =>
      (send a < sstart b ->
       forall oa ob, hd_error (origs a) = Some oa -> hd_error (origs b) = Some ob ->
                     same_name_seq oa ob = false)
      /\ gaps_separate rest
  | _ => True
  end.

(** A layer whose name [defs] defines plainly, if at all, and whose name
    holds no [<] or [>]. *)
Definition good_layer (defs : option Defs) (o : Orig) : Prop :=
  plain_for defs (setname o) /\ no_angle (setname o).

(** A string of complete tags: it reads as nothing and ends outside every
    tag. *)
Definition only_tags (s : string) : Prop :=
  tag_state false s = false /\ strip_tags false s = EmptyString.

(** What is pending when a turn of the main loop of the renderer begins:
    text is only held back for a segment that starts where the last one
    ended, and nothing is held back once the segments are used up. *)
Definition pending_ok (segs : list Seg) (st : SOT_map.RenderState) : Prop :=
  match segs with
  | [] => SOT_map.text st = EmptyString
  | seg :: _ => JS.nonempty (SOT_map.text st) = true -> sstart seg = SOT_map.n st
  end.

(** The escaped gaps, and the escaped tokens, of a list of pieces, each
    joined in order. *)
Fixpoint run_gaps (ps : list Piece) : string :=
  match ps with
  | [] => EmptyString
  | p :: ps' => (SOT_text.raw2HTML (p_gap p) ++ run_gaps ps')%string
  end.

Fixpoint run_tokens (ps : list Piece) : string :=
  match ps with
  | [] => EmptyString
  | p :: ps' => (SOT_text.raw2HTML (p_token p) ++ run_tokens ps')%string
  end.

(** The opening [mark] tag of a layer that starts with its segment, as it
    is first written: up to the place kept for [R], and whole. *)
Definition mark_head (name : string) : string :=
  ("<mark class=" ++ JS.dq ++ name ++ " L ")%string.

Definition mark_open (name : string) : string :=
  (mark_head name ++ " " ++ JS.dq ++ ">")%string.

(** The set name of an insertion. *)
Definition ins_name (ins : Insertion) : string :=
  match ins with
  | InsMatches _ _ name => name
  | InsRange _ _ name => name
  end.

(** Every match, or the range, of the insertion lies within a text of
    length [len]. *)
Definition ins_within (len : Z) (ins : Insertion) : Prop :=
  match ins with
  | InsMatches text regex _ =>
      Forall (fun m => 0 <= fst m /\ snd m <= len) (matchAll regex text)
  | InsRange _ r _ =>
      0 <= Z.min (rstart r) (rend r) /\ Z.max (rstart r) (rend r) <= len
  end.

(** The insertions that [buildmap] makes for the definitions [defs], in
    the order in which it makes them. *)
Definition matcher_insertions (text : string) (e : string * Def) : list Insertion :=
  match regex (snd e) with
  | Some rx => [InsMatches text rx (fst e)]
  | None => []
  end.

Definition range_insertions (text : string) (e : string * Def) : list Insertion :=
  match drange (snd e) with
  | Some r => [InsRange text r (fst e)]
  | None => []
  end.

Definition mixed_insertions (text : string) (e : string * Def) : list Insertion :=
  match regex (snd e) with
  | Some rx => [InsMatches text rx (fst e)]
  | None => range_insertions text e
  end.

Definition series_insertions (defs : Defs) (text : string) (overlay : bool)
  : list Insertion :=
  if overlay
  then (flat_map (matcher_insertions text) defs
        ++ flat_map (range_insertions text) defs)%list
  else flat_map (mixed_insertions text) defs.

(** A definition that [buildmap] can lay over [text]: a matcher whose
    matches are ordered, non-empty and within the text, and no range beside
    it; or a non-empty range within the text; or neither. *)
Definition def_fits (text : string) (d : Def) : Prop :=
  match regex d with
  | Some rx =>
      drange d = None
      /\ matches_ordered true (matchAll rx text)
      /\ Forall (fun m => 0 <= fst m /\ snd m <= JS.strlen text) (matchAll rx text)
  | None =>
      match drange d with
      | Some r =>
          rstart r <> rend r
          /\ 0 <= Z.min (rstart r) (rend r)
          /\ Z.max (rstart r) (rend r) <= JS.strlen text
      | None => True
      end
  end.

(** ** Reading the nesting of the output

    The reader below follows the markup character by character.  Outside a
    tag every character is text.  An opening tag pushes the first word of
    its first quoted attribute value, which in the tags that the renderer
    writes is the class name, the class being the first attribute; a tag
    without a quoted value pushes the empty name.  A closing tag pops. *)

Definition dqc : ascii := ascii_of_nat 34.

Inductive Ctl :=
| COut                  (* outside every tag *)
| CLt                   (* after the [<] that begins a tag *)
| CClose                (* in a closing tag *)
| CPre                  (* in an opening tag, before the first quote *)
| CName (acc : string)  (* in the first word of the quoted value *)
| CPost.                (* in an opening tag, after that word *)

Definition cnext (ctl : Ctl) (c : ascii) : Ctl :=
  match ctl with
  | COut => if Ascii.eqb c "<" then CLt else COut
  | CLt => if Ascii.eqb c ">" then COut else if Ascii.eqb c "/" then CClose else CPre
  | CClose => if Ascii.eqb c ">" then COut else CClose
  | CPre => if Ascii.eqb c ">" then COut else if Ascii.eqb c dqc then CName EmptyString
            else CPre
  | CName acc =>
      if Ascii.eqb c ">" then COut
      else if Ascii.eqb c " " || Ascii.eqb c dqc then CPost
      else CName (acc ++ String c EmptyString)
  | CPost => if Ascii.eqb c ">" then COut else CPost
  end.

(** The open elements, innermost first. *)
Definition snext (ctl : Ctl) (stack : list string) (c : ascii) : list string :=
  match ctl with
  | COut => stack
  | CLt => if Ascii.eqb c ">" then EmptyString :: stack else stack
  | CClose => if Ascii.eqb c ">" then tl stack else stack
  | CPre => if Ascii.eqb c ">" then EmptyString :: stack else stack
  | CName acc =>
      if Ascii.eqb c ">" || Ascii.eqb c " " || Ascii.eqb c dqc then acc :: stack
      else stack
  | CPost => stack
  end.

Fixpoint ctl_after (ctl : Ctl) (s : string) : Ctl :=
  match s with
  | EmptyString => ctl
  | String c s' => ctl_after (cnext ctl c) s'
  end.

Fixpoint stack_after (ctl : Ctl) (stack : list string) (s : string) : list string :=
  match s with
  | EmptyString => stack
  | String c s' => stack_after (cnext ctl c) (snext ctl stack c) s'
  end.

(** The characters of text in [s], each with the names of the elements
    that enclose it, outermost first. *)
Fixpoint read_html (ctl : Ctl) (stack : list string) (s : string)
  : list (ascii * list string) :=
  match s with
  | EmptyString => []
  | String c s' =>
      match ctl with
      | COut => if Ascii.eqb c "<" then [] else [(c, rev stack)]
      | _ => []
      end ++ read_html (cnext ctl c) (snext ctl stack c) s'
  end.

Definition annotate (h : string) : list (ascii * list string) := read_html COut [] h.

(** The characters of [s], all enclosed by [names]. *)
Definition annot (names : list string) (s : string) : list (ascii * list string) :=
  List.map (fun c => (c, names)) (list_ascii_of_string s).

(** A character that the reader passes over in the state [ctl], as it
    passes over an [R]. *)
Definition inert (ctl : Ctl) (c : ascii) : bool :=
  match ctl with
  | CPre => negb (Ascii.eqb c ">") && negb (Ascii.eqb c dqc)
  | CPost => negb (Ascii.eqb c ">")
  | _ => false
  end.

(** Position [n] of [s] exists and holds a character that the reader passes
    over. *)
Fixpoint free_at (n : nat) (ctl : Ctl) (s : string) {struct s} : bool :=
  match s with
  | EmptyString => false
  | String c s' =>
      match n with
      | O => inert ctl c
      | S n' => free_at n' (cnext ctl c) s'
      end
  end.

(** A piece that begins and ends outside every tag. *)
Definition rclosed (p : string) : Prop := ctl_after COut p = COut.

(** Every record of [starts] points at a character of a piece of [html]
    that the reader passes over. *)
Definition starts_free (html : list string) (starts : list (string * Start)) : Prop :=
  forall name e, lookup name starts = Some e ->
    exists piece, nth_error html (pieceindex e) = Some piece
                  /\ 0 <= pos e
                  /\ free_at (Z.to_nat (pos e)) COut piece = true.

(** A name that is one word of a class list: no angle bracket, no space, no
    quote. *)
Fixpoint class_word (s : string) : Prop :=
  match s with
  | EmptyString => True
  | String c s' =>
      c <> "<"%char /\ c <> ">"%char /\ c <> " "%char /\ c <> dqc /\ class_word s'
  end.

(** A layer rendered with the default tag under a one-word name. *)
Definition good_class (defs : option Defs) (o : Orig) : Prop :=
  plain_for defs (setname o) /\ class_word (setname o).

(** What the reader is to find for the segments [map] of [text] from offset
    [n] on: the text between segments bare, the text of a segment inside
    the elements of its layers. *)
Fixpoint seg_expected (text : string) (n : Z) (map : TextMap)
  : list (ascii * list string) :=
  match map with
  | [] => annot [] (SOT_text.raw2HTML (JS.slice_from text n))
  | seg :: rest =>
      (annot [] (SOT_text.raw2HTML (JS.slice text n (sstart seg)))
       ++ annot (layer_names seg)
            (SOT_text.raw2HTML (JS.slice text (sstart seg) (send seg)))
       ++ seg_expected text (send seg) rest)%list
  end.

(** ** Entries that hold a position *)

(** The insertion [ins] holds position [x]. *)
Definition holds (ins : Insertion) (x : Z) : bool :=
  match ins with
  | InsMatches text regex _ =>
      global regex
      && existsb (fun m => (fst m <=? x) && (x <? snd m)) (matchAll regex text)
  | InsRange _ r _ =>
      (Z.min (rstart r) (rend r) <=? x) && (x <? Z.max (rstart r) (rend r))
  end.

(** The names of the insertions of [inss] that hold [x], in the order of
    [inss]. *)
Definition names_at (inss : list Insertion) (x : Z) : list string :=
  flat_map (fun ins => if holds ins x then [ins_name ins] else []) inss.

(** What the reader is to find for the text [s] that begins at offset [x]:
    every character escaped, inside the elements named by [F] at its
    offset. *)
Fixpoint expected_from (F : Z -> list string) (x : Z) (s : string)
  : list (ascii * list string) :=
  match s with
  | EmptyString => []
  | String c s' => (annot (F x) (escape_char c) ++ expected_from F (x + 1) s')%list
  end.

(** The matchers of [defs] yield ordered, non-overlapping, non-empty matches
    on [text], and its ranges are non-empty. *)
Definition entries_ok (defs : Defs) (text : string) : Prop :=
  forall name d, In (name, d) defs ->
    (forall rx, regex d = Some rx -> matches_ordered true (matchAll rx text))
    /\ (forall r, drange d = Some r -> rstart r <> rend r).

(** The open elements after the pieces [html], and what the reader finds in
    them. *)
Definition stack_of (html : list string) : list string :=
  stack_after COut [] (SOT_map.htmlstring html).

Definition reading_of (html : list string) : list (ascii * list string) :=
  read_html COut [] (SOT_map.htmlstring html).
(** * Properties *)

Example ex_overlap :
  addrange "" (mkRange 3 6) "B" true (addrange "" (mkRange 0 10) "A" true [])
  = [ mk 0 3 [orig "A" 0 10 0];
      mk 3 6 [orig "A" 0 10 0; orig "B" 3 6 0];
      mk 6 10 [orig "A" 0 10 0] ].
Proof. reflexivity. Qed.

Example ex_degenerate :
  addrange "" (mkRange 3 3) "B" true (addrange "" (mkRange 0 10) "A" true [])
  = [ mk 0 3 [orig "A" 0 10 0];
      mk 3 3 [orig "A" 0 10 0; orig "B" 3 3 0];
      mk 3 10 [orig "A" 0 10 0] ].
Proof. reflexivity. Qed.


(** ** Arrays *)

Lemma pop_push {A} (l : list A) (x : A) : pop (push l x) = Some (l, x).
Proof.
  unfold push. induction l as [|a l IH]; simpl; [reflexivity|].
  rewrite IH. reflexivity.
Qed.

Lemma pop_some {A} (l init : list A) (x : A) :
  pop l = Some (init, x) -> l = init ++ [x].
Proof.
  revert init. induction l as [|a l IH]; simpl; intros init H; [discriminate|].
  destruct (pop l) as [[i y]|] eqn:E.
  - inversion H; subst. rewrite (IH i eq_refl). reflexivity.
  - inversion H; subst. destruct l; [reflexivity|].
    simpl in E. destruct (pop l) as [[? ?]|]; discriminate.
Qed.

Lemma pop_none {A} (l : list A) : pop l = None -> l = [].
Proof.
  destruct l; simpl; [reflexivity|]. destruct (pop l) as [[? ?]|]; discriminate.
Qed.

Lemma skipn_skipn_add {A} (a b : nat) (l : list A) :
  skipn a (skipn b l) = skipn (b + a) l.
Proof.
  revert l. induction b as [|b IH]; intros l; simpl; [reflexivity|].
  destruct l; simpl; [now rewrite skipn_nil | apply IH].
Qed.

(** ** Chains of segments *)

Section ChainFacts.
Variable strict : bool.

Lemma span_ok_le a b : span_ok strict a b -> a <= b.
Proof. unfold span_ok. destruct strict; lia. Qed.

Lemma span_ok_lt a b : a < b -> span_ok strict a b.
Proof. unfold span_ok. destruct strict; lia. Qed.

Lemma last_end_push lo l s : last_end lo (l ++ [s]) = send s.
Proof. unfold last_end. rewrite fold_left_app. reflexivity. Qed.

Lemma last_end_app lo l1 l2 : last_end lo (l1 ++ l2) = last_end (last_end lo l1) l2.
Proof. unfold last_end. apply fold_left_app. Qed.

Lemma chain_weaken lo lo' l : lo' <= lo -> chain strict lo l -> chain strict lo' l.
Proof. destruct l; simpl; [trivial|]. intros H (H1 & H2 & H3). repeat split; trivial; lia. Qed.

Lemma chain_app lo l1 l2 :
  chain strict lo (l1 ++ l2) <-> chain strict lo l1 /\ chain strict (last_end lo l1) l2.
Proof.
  revert lo. induction l1 as [|s l1 IH]; intros lo; simpl.
  - unfold last_end; simpl. tauto.
  - rewrite IH. unfold last_end at 2; simpl. fold (last_end (send s) l1). tauto.
Qed.

Lemma chain_last_end lo l : chain strict lo l -> lo <= last_end lo l.
Proof.
  revert lo. induction l as [|s l IH]; intros lo; simpl.
  - unfold last_end; simpl; lia.
  - intros (H1 & H2 & H3). apply IH in H3. apply span_ok_le in H2.
    unfold last_end in *; simpl. lia.
Qed.

Lemma chain_ends lo l : chain strict lo l -> Forall (fun s => send s <= last_end lo l) l.
Proof.
  revert lo. induction l as [|s l IH]; intros lo; simpl; [constructor|].
  intros (H1 & H2 & H3). constructor.
  - apply chain_last_end in H3. unfold last_end in *; simpl. exact H3.
  - apply IH in H3. unfold last_end in *; simpl. exact H3.
Qed.

Lemma chain_starts lo l : chain strict lo l -> Forall (fun s => lo <= sstart s) l.
Proof.
  revert lo. induction l as [|s l IH]; intros lo; simpl; [constructor|].
  intros (H1 & H2 & H3). constructor; [exact H1|].
  apply IH in H3. apply span_ok_le in H2.
  eapply Forall_impl; [|exact H3]. simpl. intros; lia.
Qed.

Lemma chain_spans lo l : chain strict lo l -> Forall (fun s => span_ok strict (sstart s) (send s)) l.
Proof.
  revert lo. induction l as [|s l IH]; intros lo; simpl; [constructor|].
  intros (H1 & H2 & H3). constructor; [exact H2 | eapply IH; exact H3].
Qed.

End ChainFacts.

Lemma covers_nil x : covers [] x <-> False.
Proof. unfold covers; simpl. split; [intros (s & [] & _) | tauto]. Qed.

Lemma covers_app l1 l2 x : covers (l1 ++ l2) x <-> covers l1 x \/ covers l2 x.
Proof.
  unfold covers. split.
  - intros (s & Hin & Hx). apply in_app_or in Hin. destruct Hin; [left|right]; eauto.
  - intros [(s & Hin & Hx)|(s & Hin & Hx)]; exists s; split; trivial; apply in_or_app; tauto.
Qed.

Lemma covers_cons s l x : covers (s :: l) x <-> inseg s x \/ covers l x.
Proof.
  unfold covers; simpl. split.
  - intros (s' & [->|Hin] & Hx); [left; trivial | right; eauto].
  - intros [Hx|(s' & Hin & Hx)]; eauto.
Qed.

Lemma covers_one s x : covers [s] x <-> inseg s x.
Proof. rewrite covers_cons, covers_nil. tauto. Qed.

(** ** One split: [_seg2] *)

(** The fragments that [_seg2 m s] pushes. *)
Lemma seg2_unfold m s p :
  exists frags,
    _seg2 m s p =
      (mk (Z.min (send m) (send s)) (Z.max (send m) (send s))
          (if Z.min (send m) (send s) <? send m then origs m else origs s),
       {| newmap := newmap p ++ frags; p_i := p_i p; p_setindex := p_setindex p |})
    /\ (forall x, Z.max (sstart m) (sstart s) <= Z.min (send m) (send s) ->
          (covers frags x \/ Z.min (send m) (send s) <= x < Z.max (send m) (send s)
           <-> inseg m x \/ inseg s x))
    /\ (Z.max (sstart m) (sstart s) <= Z.min (send m) (send s) ->
        Forall (fun f =>
         Z.min (sstart m) (sstart s) <= sstart f
         /\ sstart f <= Z.max (sstart m) (sstart s)
         /\ send f <= Z.min (send m) (send s)
         /\ (origs f = origs s ++ origs m
             \/ (origs f = origs m /\ sstart m < sstart s)
             \/ (origs f = origs s /\ sstart s < sstart m))) frags)
    /\ (forall strict lo l,
          chain strict lo l -> last_end lo l <= Z.min (sstart m) (sstart s) ->
          span_ok strict (Z.max (sstart m) (sstart s)) (Z.min (send m) (send s)) ->
          chain strict lo (l ++ frags)
          /\ last_end lo (l ++ frags) = Z.min (send m) (send s)).
Proof.
  unfold _seg2, push.
  destruct (Z.min (sstart m) (sstart s) <? Z.max (sstart m) (sstart s)) eqn:E1.
  - eexists [_; _]. split; [rewrite <- app_assoc; reflexivity|].
    apply Z.ltb_lt in E1. split; [|split].
    + intros x Hov. rewrite !covers_cons, covers_nil. unfold inseg, mk, sstart, send; simpl.
      unfold sstart, send in *. lia.
    + intros Hov. constructor; [|constructor; [|constructor]];
        unfold mk, sstart, send in *; simpl.
      * repeat (split; [lia|]).
        destruct (Z.min (rstart (range m)) (rstart (range s)) <? rstart (range s)) eqn:E2;
          [apply Z.ltb_lt in E2; right; left | apply Z.ltb_ge in E2; right; right];
          split; trivial; lia.
      * repeat (split; [lia|]). left; reflexivity.
    + intros strict lo l Hc Hl Hs. rewrite chain_app. simpl.
      change (l ++ [?a; ?b]) with (l ++ [a] ++ [b]). rewrite app_assoc, last_end_push.
      unfold mk, sstart, send in *; simpl.
      repeat split; trivial; try lia; try (apply span_ok_lt; lia).
  - eexists [_]. split; [reflexivity|].
    apply Z.ltb_ge in E1. split; [|split].
    + intros x Hov. rewrite covers_one. unfold inseg, mk, sstart, send; simpl.
      unfold sstart, send in *. lia.
    + intros Hov. constructor; [|constructor]. unfold mk, sstart, send in *; simpl.
      repeat (split; [lia|]). left; reflexivity.
    + intros strict lo l Hc Hl Hs. rewrite chain_app. simpl. rewrite last_end_push.
      unfold mk, sstart, send in *; simpl.
      repeat split; trivial; lia.
Qed.

(** ** The loop of [_segment] *)

#[local] Arguments _seg2 : simpl never.

Section SegmentMode.
Variable strict : bool.
Variables Qold Qnew : list Orig -> Prop.
Variable os : list Orig.
Hypothesis Qold_new : forall o, Qold o -> Qnew o.
Hypothesis Qold_app : forall o, Qold o -> Qnew (o ++ os).
Hypothesis Qnew_os : Qnew os.

Ltac spans := unfold span_ok in *; destruct strict; lia.

Lemma segment_loop_inv lo e C rest : forall m p,
  loop_inv strict Qold Qnew os lo e C m (newmap p) rest ->
  exists k m' nm',
    _segment_loop rest m p
      = (m', {| newmap := nm'; p_i := (p_i p + k)%nat; p_setindex := p_setindex p |})
    /\ loop_inv strict Qold Qnew os lo e C m' nm' (skipn k rest)
    /\ match skipn k rest with s :: _ => send m' <= sstart s | [] => True end.
Proof.
  induction rest as [|s rest IH]; intros m p Hinv.
  - exists 0%nat, m, (newmap p). simpl. rewrite Nat.add_0_r. destruct p; auto.
  - cbn [_segment_loop]. destruct (sstart s <? send m) eqn:Ec.
    2:{ apply Z.ltb_ge in Ec. exists 0%nat, m, (newmap p). simpl.
        rewrite Nat.add_0_r. destruct p; auto. }
    apply Z.ltb_lt in Ec.
    destruct Hinv as (Hc & Hr & Hle & Hm & Hme & HN & Ho & Fe & Fq & Fo & Hcov).
    simpl in Hr. destruct Hr as (Hr1 & Hr2 & Hr3).
    specialize (HN Ec).
    assert (Hos : origs m = os /\ send m = e).
    { destruct Ho as [Ho|[_ Ho]]; [exact Ho|]. simpl in Ho. lia. }
    destruct Hos as [Hos He].
    assert (Hov : Z.max (sstart m) (sstart s) <= Z.min (send m) (send s)).
    { apply span_ok_le in HN. exact HN. }
    destruct (seg2_unfold m s p) as (frags & Eq & Scov & Sfr & Sch).
    rewrite Eq. specialize (Sfr Hov).
    destruct (Sch strict lo (newmap p) Hc ltac:(lia) HN) as [Sc Sl].
    set (m' := mk (Z.min (send m) (send s)) (Z.max (send m) (send s))
                  (if Z.min (send m) (send s) <? send m then origs m else origs s)) in *.
    destruct (IH m' {| newmap := newmap p ++ frags; p_i := S (p_i p);
                       p_setindex := p_setindex p |}) as (k & m'' & nm'' & E2 & I2 & X2).
    { simpl. unfold loop_inv. rewrite Sl.
      assert (Hs' : sstart m' = Z.min (send m) (send s)) by reflexivity.
      assert (He' : send m' = Z.max (send m) (send s)) by reflexivity.
      rewrite Hs', He'.
      split; [exact Sc|]. split; [eapply chain_weaken; [|exact Hr3]; lia|].
      split; [lia|]. split; [lia|]. split; [lia|]. split.
      { destruct rest as [|s' rest']; [trivial|]. simpl in Hr3.
        destruct Hr3 as (A1 & A2 & _). intros Hc'. clear - A1 A2 Hc' Hov. spans. }
      split.
      { unfold m'; simpl. destruct (Z.min (send m) (send s) <? send m) eqn:E3.
        - apply Z.ltb_lt in E3. left. split; [exact Hos | lia].
        - apply Z.ltb_ge in E3. right. split; [inversion Fo; assumption|].
          eapply chain_weaken; [|exact Hr3]. lia. }
      split.
      { apply Forall_app. split; [exact Fe|].
        eapply Forall_impl; [|exact Sfr]. simpl. intros f Hf. lia. }
      split.
      { apply Forall_app. split; [exact Fq|].
        eapply Forall_impl; [|exact Sfr]. simpl.
        intros f (_ & _ & _ & [Hf|[[Hf _]|[Hf _]]]); rewrite Hf.
        - rewrite Hos. apply Qold_app. inversion Fo; assumption.
        - rewrite Hos. exact Qnew_os.
        - apply Qold_new. inversion Fo; assumption. }
      split; [inversion Fo; assumption|].
      intros x. rewrite covers_app. rewrite <- Hcov, covers_cons.
      specialize (Scov x Hov). unfold inseg at 1. rewrite Hs', He'. tauto. }
    exists (S k), m'', nm''. simpl in E2. simpl.
    rewrite E2. rewrite Nat.add_succ_r. auto.
Qed.

(** ** Copying the entries before the insertion point *)

Lemma copy_before_spec start rest : forall p,
  exists k,
    _copy_before rest start p
      = {| newmap := newmap p ++ firstn k rest; p_i := (p_i p + k)%nat;
           p_setindex := p_setindex p |}
    /\ Forall (fun s => send s <= start) (firstn k rest)
    /\ match skipn k rest with s :: _ => start < send s | [] => True end.
Proof.
  induction rest as [|s rest IH]; intros p.
  - exists 0%nat. simpl. rewrite app_nil_r, Nat.add_0_r. destruct p; auto.
  - simpl. destruct (send s <=? start) eqn:E.
    + apply Z.leb_le in E.
      destruct (IH {| newmap := push (newmap p) s; p_i := S (p_i p);
                      p_setindex := p_setindex p |}) as (k & Ek & Fk & Xk).
      exists (S k). rewrite Ek. simpl. unfold push. rewrite <- app_assoc. simpl.
      rewrite Nat.add_succ_r. auto.
    + apply Z.leb_gt in E. exists 0%nat. simpl.
      rewrite app_nil_r, Nat.add_0_r. destruct p; auto.
Qed.

Lemma segment_entry C p rest s e :
  cursor_inv strict Qold Qnew s C (newmap p) rest ->
  match rest with x :: _ => s < send x | [] => True end ->
  span_ok strict s e ->
  exists lo m1 nm1,
    match pop (newmap p) with
    | Some (init, i) =>
        if sstart (mk s e os) <? send i
        then _seg2 (mk s e os) i
               {| newmap := init; p_i := p_i p; p_setindex := p_setindex p |}
        else (mk s e os, p)
    | None => (mk s e os, p)
    end = (m1, {| newmap := nm1; p_i := p_i p; p_setindex := p_setindex p |})
    /\ loop_inv strict Qold Qnew os lo e (fun x => C x \/ s <= x < e) m1 nm1 rest.
Proof.
  intros ([lo0 Hch] & Fb & Fq & Fo & Fr & Hcov) Hx Hse.
  assert (Hch' : chain strict (Z.min lo0 s) (newmap p ++ rest))
    by (eapply chain_weaken; [|exact Hch]; lia).
  clear Hch. set (lo := Z.min lo0 s) in *. assert (Hlo : lo <= s) by (unfold lo; lia).
  apply chain_app in Hch'. destruct Hch' as [Hc Hr].
  assert (Hse' : s <= e) by (apply span_ok_le in Hse; exact Hse).
  assert (HN : forall l', chain strict l' rest ->
            match rest with
            | x :: _ => sstart x < e ->
                span_ok strict (Z.max s (sstart x)) (Z.min e (send x))
            | [] => True
            end).
  { intros l' Hl'. destruct rest as [|x rest']; [trivial|]. simpl in Hl'.
    destruct Hl' as (_ & A2 & _). intros A3. clear - A2 A3 Hx Hse. spans. }
  destruct (pop (newmap p)) as [[init i]|] eqn:Ep.
  - apply pop_some in Ep.
    change (sstart (mk s e os)) with s.
    destruct (s <? send i) eqn:Ei.
    + apply Z.ltb_lt in Ei. rewrite Ep in *.
      apply chain_app in Hc. destruct Hc as [Hc Hi]. simpl in Hi.
      destruct Hi as (Hi1 & Hi2 & _). rewrite last_end_push in Hr.
      apply Forall_app in Fb, Fq, Fo. destruct Fb as [Fb Fbi], Fq as [Fq Fqi], Fo as [Fo Foi].
      inversion Fbi as [|? ? Hbi _]; inversion Foi as [|? ? Hoi _]; subst.
      specialize (Hoi Ei).
      destruct (seg2_unfold (mk s e os) i
                  {| newmap := init; p_i := p_i p; p_setindex := p_setindex p |})
        as (frags & Eq & Scov & Sfr & Sch).
      change (sstart (mk s e os)) with s in *. change (send (mk s e os)) with e in *.
      change (origs (mk s e os)) with os in *. simpl newmap in *.
      assert (Hov : Z.max s (sstart i) <= Z.min e (send i)) by lia.
      specialize (Sfr Hov).
      destruct (Sch strict lo init Hc ltac:(lia)) as [Sc Sl].
      { clear - Hse Ei Hbi. spans. }
      exists lo. eexists. exists (init ++ frags). split; [exact Eq|].
      unfold loop_inv. rewrite Sl.
      match goal with |- context [sstart ?m] =>
        change (sstart m) with (Z.min e (send i));
        change (send m) with (Z.max e (send i)) end.
      split; [exact Sc|]. split; [eapply chain_weaken; [|exact Hr]; lia|].
      split; [lia|]. split; [lia|]. split; [lia|]. split.
      { destruct rest as [|x rest']; [trivial|]. simpl in Hr.
        destruct Hr as (A1 & A2 & _). intros A3. clear - A1 A2 A3 Hov. spans. }
      split.
      { simpl. destruct (Z.min e (send i) <? e) eqn:E3.
        - apply Z.ltb_lt in E3. left. split; [reflexivity | lia].
        - apply Z.ltb_ge in E3. right. split; [exact Hoi|].
          eapply chain_weaken; [|exact Hr]. lia. }
      split.
      { apply Forall_app. split.
        - eapply Forall_impl; [|exact Fb]. simpl. intros; lia.
        - eapply Forall_impl; [|exact Sfr]. simpl. intros f Hf. lia. }
      split.
      { apply Forall_app. split; [exact Fq|].
        eapply Forall_impl; [|exact Sfr]. simpl.
        intros f (_ & _ & _ & [Hf|[[Hf Hlt]|[Hf _]]]); rewrite Hf.
        - apply Qold_app. exact Hoi.
        - exact Qnew_os.
        - apply Qold_new. exact Hoi. }
      split; [exact Fr|].
      intros x. rewrite covers_app. rewrite <- Hcov, !covers_app, covers_one.
      specialize (Scov x Hov). unfold inseg at 1.
      match goal with |- context [sstart ?m] =>
        change (sstart m) with (Z.min e (send i));
        change (send m) with (Z.max e (send i)) end.
      unfold inseg in Scov at 1. simpl in Scov. unfold inseg in *. simpl in *.
      tauto.
    + apply Z.ltb_ge in Ei. exists lo, (mk s e os), (newmap p).
      split; [destruct p; reflexivity|]. unfold loop_inv.
      change (sstart (mk s e os)) with s. change (send (mk s e os)) with e.
      assert (Hl : last_end lo (newmap p) = send i)
        by (rewrite Ep; apply last_end_push).
      split; [exact Hc|]. split; [exact Hr|]. split; [lia|]. split; [lia|].
      split; [lia|]. split; [exact (HN _ Hr)|]. split; [left; auto|].
      split; [eapply Forall_impl; [|exact Fb]; simpl; intros; lia|].
      split; [exact Fq|]. split; [exact Fr|].
      intros x. rewrite <- Hcov, covers_app. unfold inseg; simpl. tauto.
  - apply pop_none in Ep. exists lo, (mk s e os), (newmap p).
    split; [destruct p; reflexivity|]. unfold loop_inv. rewrite Ep in *.
    change (sstart (mk s e os)) with s. change (send (mk s e os)) with e.
    unfold last_end in *; simpl in *.
    split; [exact I|]. split; [exact Hr|]. split; [lia|]. split; [lia|].
    split; [lia|]. split; [exact (HN _ Hr)|]. split; [left; auto|].
    split; [constructor|]. split; [constructor|]. split; [exact Fr|].
    intros x. rewrite <- Hcov, covers_nil. unfold inseg; simpl. tauto.
Qed.

Lemma segment_exit lo e C m nm rest :
  loop_inv strict Qold Qnew os lo e C m nm rest ->
  match rest with x :: _ => send m <= sstart x | [] => True end ->
  cursor_inv strict Qold Qnew e C (if sstart m <? send m then push nm m else nm) rest.
Proof.
  intros (Hc & Hr & Hle & Hm & Hme & HN & Ho & Fe & Fq & Fo & Hcov) Hx.
  assert (Fends : Forall (fun x => e < send x -> Qold (origs x)) nm).
  { eapply Forall_impl; [|exact (chain_ends strict lo nm Hc)]. simpl. intros; lia. }
  unfold cursor_inv, push. destruct (sstart m <? send m) eqn:Em.
  - apply Z.ltb_lt in Em. split.
    { exists lo. rewrite <- app_assoc. apply chain_app. split; [exact Hc|]. simpl.
      split; [exact Hle|]. split; [apply span_ok_lt; exact Em|].
      destruct rest as [|x rest']; [exact I|]. simpl in *.
      destruct Hr as (_ & A2 & A3). auto. }
    split; [apply Forall_app; split; [exact Fe | repeat constructor; exact Hme]|].
    split.
    { apply Forall_app; split; [exact Fq|]. repeat constructor.
      destruct Ho as [[-> _]|[Ho _]]; auto. }
    split.
    { apply Forall_app; split; [exact Fends|]. repeat constructor.
      intros Hlt. destruct Ho as [[_ Ho]|[Ho _]]; [lia | exact Ho]. }
    split; [exact Fo|].
    intros x. rewrite <- Hcov, <- app_assoc, !covers_app, covers_one. tauto.
  - apply Z.ltb_ge in Em. split.
    { exists lo. apply chain_app. auto. }
    split; [exact Fe|]. split; [exact Fq|]. split; [exact Fends|]. split; [exact Fo|].
    intros x. rewrite <- Hcov, !covers_app. unfold inseg. split; [tauto|].
    intros [H|[H|H]]; auto. lia.
Qed.

(** [_segment], entered once the entries before [s] have been copied. *)
Lemma segment_spec map C p s e :
  cursor_inv strict Qold Qnew s C (newmap p) (skipn (p_i p) map) ->
  match skipn (p_i p) map with x :: _ => s < send x | [] => True end ->
  span_ok strict s e ->
  let p' := _segment s e os map p in
  cursor_inv strict Qold Qnew e (fun x => C x \/ s <= x < e)
    (newmap p') (skipn (p_i p') map)
  /\ p_setindex p' = p_setindex p.
Proof.
  intros Hinv Hx Hse. unfold _segment.
  destruct (segment_entry C p _ s e Hinv Hx Hse) as (lo & m1 & nm1 & E1 & I1).
  rewrite E1. cbn [p_i].
  destruct (segment_loop_inv lo e _ (skipn (p_i p) map) m1
              {| newmap := nm1; p_i := p_i p; p_setindex := p_setindex p |} I1)
    as (k & m2 & nm2 & E2 & I2 & X2).
  rewrite E2. cbn [p_i newmap p_setindex] in *.
  rewrite skipn_skipn_add in I2, X2.
  pose proof (segment_exit _ _ _ _ _ _ I2 X2) as Hfin.
  destruct (sstart m2 <? send m2); cbn [newmap p_i p_setindex]; auto.
Qed.

End SegmentMode.

(** ** One insertion in Segment mode *)

Section InsertRange.
Variable strict : bool.
Variables Qold Qnew : list Orig -> Prop.
Variable name : string.
Hypothesis Qold_new : forall o, Qold o -> Qnew o.
Hypothesis Qold_app : forall o r, Qold o -> Qnew (o ++ neworigs name r).
Hypothesis Qnew_os : forall r, Qnew (neworigs name r).

Lemma insertrange_spec map b C p s e :
  cursor_inv strict Qold Qnew b C (newmap p) (skipn (p_i p) map) ->
  b <= s -> span_ok strict s e ->
  let p' := _insertrange s e name map true p in
  cursor_inv strict Qold Qnew e (fun x => C x \/ s <= x < e)
    (newmap p') (skipn (p_i p') map)
  /\ p_setindex p' = p_setindex p.
Proof.
  intros (Ho & Fb & Fq & Fo & Fr & Hcov) Hb Hse. unfold _insertrange.
  destruct (copy_before_spec s (skipn (p_i p) map) p) as (k & Ek & Fk & Xk).
  rewrite Ek. cbn [p_setindex].
  set (p1 := {| newmap := newmap p ++ firstn k (skipn (p_i p) map);
                p_i := (p_i p + k)%nat; p_setindex := p_setindex p |}).
  assert (Hrest : skipn (p_i p1) map = skipn k (skipn (p_i p) map))
    by (symmetry; apply skipn_skipn_add).
  assert (Happ : newmap p1 ++ skipn (p_i p1) map = newmap p ++ skipn (p_i p) map).
  { rewrite Hrest. unfold p1; cbn [newmap]. rewrite <- app_assoc, firstn_skipn.
    reflexivity. }
  assert (Fk' : Forall (fun x => Qold (origs x)) (firstn k (skipn (p_i p) map))).
  { rewrite <- (firstn_skipn k (skipn (p_i p) map)) in Fr.
    apply Forall_app in Fr. tauto. }
  assert (Fr' : Forall (fun x => Qold (origs x)) (skipn k (skipn (p_i p) map))).
  { rewrite <- (firstn_skipn k (skipn (p_i p) map)) in Fr.
    apply Forall_app in Fr. tauto. }
  assert (Hspans : Forall (fun x => sstart x <= send x) (firstn k (skipn (p_i p) map))).
  { destruct Ho as [lo Ho]. rewrite <- Happ in Ho. unfold p1 in Ho; cbn [newmap] in Ho.
    rewrite <- app_assoc in Ho. apply chain_app in Ho. destruct Ho as [_ Ho].
    apply chain_app in Ho. destruct Ho as [Ho _]. apply chain_spans in Ho.
    eapply Forall_impl; [|exact Ho]. simpl. intros x. apply span_ok_le. }
  assert (Hinv1 : cursor_inv strict Qold Qnew s C (newmap p1) (skipn (p_i p1) map)).
  { unfold cursor_inv. rewrite Happ. split; [exact Ho|]. unfold p1; cbn [newmap].
    split.
    { apply Forall_app. split.
      - eapply Forall_impl; [|exact Fb]. simpl. intros; lia.
      - apply Forall_forall. intros x Hin.
        rewrite Forall_forall in Fk, Hspans. specialize (Fk x Hin).
        specialize (Hspans x Hin). simpl in *. lia. }
    split.
    { apply Forall_app. split; [exact Fq|].
      eapply Forall_impl; [|exact Fk']. simpl. auto. }
    split.
    { apply Forall_app. split.
      - eapply Forall_impl; [|exact Fo]. simpl. intros x Hx Hlt. apply Hx. lia.
      - eapply Forall_impl; [|exact Fk']. simpl. auto. }
    split; [cbn [p_i]; rewrite <- skipn_skipn_add; exact Fr' | exact Hcov]. }
  apply (segment_spec strict Qold Qnew _ Qold_new (fun o => Qold_app o _) (Qnew_os _)
           map C p1 s e Hinv1); [|exact Hse].
  match goal with |- match ?l with _ => _ end =>
    replace l with (skipn k (skipn (p_i p) map)) by (symmetry; exact Hrest) end.
  exact Xk.
Qed.

End InsertRange.

(** ** A whole call: [addmatches], [addrange] *)

Section Insertions.
Variable strict : bool.
Variables Qold Qnew : list Orig -> Prop.
Variable name : string.
Hypothesis Qold_new : forall o, Qold o -> Qnew o.
Hypothesis Qold_app : forall o r, Qold o -> Qnew (o ++ neworigs name r).
Hypothesis Qnew_os : forall r, Qnew (neworigs name r).

Lemma in_matches_cons s e ms x :
  in_matches ((s, e) :: ms) x <-> s <= x < e \/ in_matches ms x.
Proof.
  unfold in_matches; simpl. split.
  - intros (s' & e' & [H|H] & Hx); [inversion H; subst; auto | right; eauto].
  - intros [H|(s' & e' & H & Hx)]; eauto 6.
Qed.

Lemma fold_matches_spec map ms : forall b C p,
  cursor_inv strict Qold Qnew b C (newmap p) (skipn (p_i p) map) ->
  matches_from strict b ms ->
  exists b',
    cursor_inv strict Qold Qnew b' (fun x => C x \/ in_matches ms x)
      (newmap (fold_left (_addmatch name map true) ms p))
      (skipn (p_i (fold_left (_addmatch name map true) ms p)) map).
Proof.
  induction ms as [|[s e] ms IH]; intros b C p Hinv Hms; simpl.
  - exists b. destruct Hinv as (H1 & H2 & H3 & H4 & H5 & H6).
    unfold cursor_inv. repeat (split; [assumption|]). intros x. rewrite H6.
    split; [tauto|]. intros [H|(s & e & [] & _)]; exact H.
  - destruct Hms as (Hb & Hse & Hms).
    destruct (insertrange_spec strict Qold Qnew name Qold_new Qold_app Qnew_os
                map b C p s e Hinv Hb Hse) as [Hinv' _].
    destruct (IH e (fun x => C x \/ s <= x < e) (_addmatch name map true p (s, e)))
      as [b' Hb']; [exact Hinv' | exact Hms |].
    exists b'. destruct Hb' as (H1 & H2 & H3 & H4 & H5 & H6).
    unfold cursor_inv. repeat (split; [assumption|]). intros x. rewrite H6.
    rewrite in_matches_cons. tauto.
Qed.

Lemma cursor_inv_p0 map b :
  ordered strict map -> Forall (fun s => Qold (origs s)) map ->
  cursor_inv strict Qold Qnew b (covers map) (newmap p0) (skipn (p_i p0) map).
Proof.
  intros Ho Fo. unfold cursor_inv; simpl. repeat (split; [auto|]). tauto.
Qed.

Lemma cursor_inv_result map b C p :
  cursor_inv strict Qold Qnew b C (newmap p) (skipn (p_i p) map) ->
  ordered strict (_addendranges map p)
  /\ Forall (fun s => Qnew (origs s)) (_addendranges map p)
  /\ (forall x, covers (_addendranges map p) x <-> C x).
Proof.
  intros (H1 & H2 & H3 & H4 & H5 & H6). unfold _addendranges.
  split; [exact H1|]. split; [|exact H6].
  apply Forall_app. split; [exact H3|]. eapply Forall_impl; [|exact H5]. auto.
Qed.

Lemma addmatchlist_spec map ms :
  ordered strict map -> Forall (fun s => Qold (origs s)) map ->
  matches_ordered strict ms ->
  ordered strict (addmatchlist ms name true map)
  /\ Forall (fun s => Qnew (origs s)) (addmatchlist ms name true map)
  /\ (forall x, covers (addmatchlist ms name true map) x
                <-> covers map x \/ in_matches ms x).
Proof.
  intros Ho Fo Hms. unfold addmatchlist.
  assert (exists b, matches_from strict b ms) as [b Hb].
  { destruct ms as [|[s e] ms]; [exists 0; exact I | exists s; exact Hms]. }
  destruct (fold_matches_spec map ms b _ p0 (cursor_inv_p0 map b Ho Fo) Hb) as [b' Hb'].
  apply (cursor_inv_result _ _ _ _ Hb').
Qed.

Lemma addmatches_spec text regex map :
  ordered strict map -> Forall (fun s => Qold (origs s)) map ->
  matches_ordered strict (matchAll regex text) ->
  ordered strict (addmatches text regex name true map)
  /\ Forall (fun s => Qnew (origs s)) (addmatches text regex name true map)
  /\ (forall x, covers (addmatches text regex name true map) x
                <-> covers map x \/ inserted (InsMatches text regex name) x).
Proof.
  intros Ho Fo Hms. unfold addmatches, inserted. destruct (global regex).
  - destruct (addmatchlist_spec map _ Ho Fo Hms) as (A & B & D).
    split; [exact A|]. split; [exact B|]. intros x. rewrite D. tauto.
  - split; [exact Ho|]. split; [eapply Forall_impl; [|exact Fo]; auto|].
    intros x. split; [tauto|]. intros [H|[H _]]; [exact H | discriminate].
Qed.

Lemma addrange_spec text r map :
  ordered strict map -> Forall (fun s => Qold (origs s)) map ->
  (if strict then rstart r <> rend r else True) ->
  ordered strict (addrange text r name true map)
  /\ Forall (fun s => Qnew (origs s)) (addrange text r name true map)
  /\ (forall x, covers (addrange text r name true map) x
                <-> covers map x \/ in_range r x).
Proof.
  intros Ho Fo Hr. unfold addrange.
  set (r' := if rend r <? rstart r then _ else r).
  assert (Hr' : span_ok strict (rstart r') (rend r')
                /\ forall x, in_range r x <-> rstart r' <= x < rend r').
  { unfold r', in_range, span_ok. destruct (rend r <? rstart r) eqn:E;
      [apply Z.ltb_lt in E | apply Z.ltb_ge in E]; simpl; split;
      try (destruct strict; lia); intros x; lia. }
  destruct Hr' as [Hs Hin].
  destruct (insertrange_spec strict Qold Qnew name Qold_new Qold_app Qnew_os
              map (rstart r') _ p0 (rstart r') (rend r')
              (cursor_inv_p0 map _ Ho Fo) ltac:(lia) Hs) as [Hinv _].
  destruct (cursor_inv_result _ _ _ _ Hinv) as (A & B & D).
  split; [exact A|]. split; [exact B|]. intros x. rewrite D, Hin. tauto.
Qed.

End Insertions.

(** ** Sequences of insertions *)

Lemma insert_spec strict ins map :
  ordered strict map -> ins_ok strict ins ->
  ordered strict (insert map ins)
  /\ (forall x, covers (insert map ins) x <-> covers map x \/ inserted ins x).
Proof.
  intros Ho Hi.
  assert (Ft : Forall (fun s : Seg => True) map) by (apply Forall_forall; auto).
  destruct ins as [text rx name | text r name]; simpl in *.
  - destruct (addmatches_spec strict (fun _ => True) (fun _ => True) name
                (fun _ _ => I) (fun _ _ _ => I) (fun _ => I) text rx map Ho Ft Hi)
      as (A & _ & B). auto.
  - destruct (addrange_spec strict (fun _ => True) (fun _ => True) name
                (fun _ _ => I) (fun _ _ _ => I) (fun _ => I) text r map Ho Ft Hi)
      as (A & _ & B). auto.
Qed.

Lemma fold_insert_spec strict inss : forall map,
  ordered strict map -> Forall (ins_ok strict) inss ->
  ordered strict (fold_left insert inss map)
  /\ (forall x, covers (fold_left insert inss map) x
                <-> covers map x \/ Exists (fun ins => inserted ins x) inss).
Proof.
  induction inss as [|ins inss IH]; intros map Ho Hok; simpl.
  - split; [exact Ho|]. intros x. rewrite Exists_nil. tauto.
  - inversion Hok as [|? ? H1 H2]; subst.
    destruct (insert_spec strict ins map Ho H1) as [Ho' Hc'].
    destruct (IH _ Ho' H2) as [Ho'' Hc''].
    split; [exact Ho''|]. intros x. rewrite Hc'', Hc', Exists_cons. tauto.
Qed.

(** A map that satisfies the invariant, read pairwise: every segment is
    non-empty and ends at or before the start of every later one. *)
Lemma chain_pairwise strict lo l :
  chain strict lo l ->
  forall i j si sj, (i < j)%nat ->
    nth_error l i = Some si -> nth_error l j = Some sj ->
    span_ok strict (sstart si) (send si) /\ send si <= sstart sj
    /\ span_ok strict (sstart sj) (send sj).
Proof.
  revert lo. induction l as [|s l IH]; intros lo Hc i j si sj Hij Hi Hj.
  - destruct i; discriminate.
  - simpl in Hc. destruct Hc as (H1 & H2 & H3).
    destruct j as [|j]; [lia|]. simpl in Hj.
    destruct i as [|i]; simpl in Hi.
    + inversion Hi; subst si. apply nth_error_In in Hj.
      pose proof (chain_starts strict _ _ H3) as Fs.
      pose proof (chain_spans strict _ _ H3) as Fp.
      rewrite Forall_forall in Fs, Fp. specialize (Fs _ Hj). specialize (Fp _ Hj).
      auto.
    + apply (IH _ H3 i j si sj); trivial; lia.
Qed.

Lemma map_ok_pairwise l :
  map_ok l ->
  forall i j si sj, (i < j)%nat ->
    nth_error l i = Some si -> nth_error l j = Some sj ->
    sstart si < send si /\ send si <= sstart sj /\ sstart sj < send sj.
Proof.
  intros [lo Hc] i j si sj Hij Hi Hj.
  exact (chain_pairwise true lo l Hc i j si sj Hij Hi Hj).
Qed.

(** For every sequence of Segment-mode insertions of non-empty ranges
    ([addmatches] with ordered, non-overlapping matches, or [addrange]) into
    the empty map, the ranges of the resulting map are non-empty, ascending
    and pairwise non-overlapping, and their union is the union of the
    inserted ranges. *)
Theorem partition_invariant inss :
  Forall (ins_ok true) inss ->
  (forall i j si sj, (i < j)%nat ->
     nth_error (build inss) i = Some si -> nth_error (build inss) j = Some sj ->
     sstart si < send si /\ send si <= sstart sj /\ sstart sj < send sj)
  /\ (forall x, covers (build inss) x <-> Exists (fun ins => inserted ins x) inss).
Proof.
  intros Hok.
  destruct (fold_insert_spec true inss [] (ex_intro _ 0 I) Hok) as [Ho Hc].
  split; [apply map_ok_pairwise; exact Ho|].
  intros x. unfold build. rewrite Hc, covers_nil. tauto.
Qed.

(** With zero-length ranges among the inputs, the resulting map is still
    ascending in the weak sense ([start <= end], each segment at or after the
    end of the one before) and the union is unchanged. *)
Theorem partition_invariant_weak inss :
  Forall (ins_ok false) inss ->
  ordered false (build inss)
  /\ (forall x, covers (build inss) x <-> Exists (fun ins => inserted ins x) inss).
Proof.
  intros Hok.
  destruct (fold_insert_spec false inss [] (ex_intro _ 0 I) Hok) as [Ho Hc].
  split; [exact Ho|].
  intros x. unfold build. rewrite Hc, covers_nil. tauto.
Qed.

(** ** Zero-length ranges *)

Lemma pop_last_in {A} (l init : list A) (x : A) : pop l = Some (init, x) -> In x l.
Proof. intros H. apply pop_some in H. subst. apply in_or_app. right. left. reflexivity. Qed.

(** A zero-length range that falls strictly inside no segment is dropped:
    the map comes back as it was. *)
Lemma zero_length_range_outside_is_dropped text map s name :
  (forall seg, In seg map -> ~ (sstart seg < s < send seg)) ->
  addrange text (mkRange s s) name true map = map.
Proof.
  intros Hout. unfold addrange. cbn [rstart rend]. rewrite Z.ltb_irrefl.
  cbn [rstart rend]. unfold _insertrange.
  destruct (copy_before_spec s (skipn (p_i p0) map) p0) as (k & Ek & Fk & Xk).
  rewrite Ek. cbn [p0 p_i newmap p_setindex skipn app Nat.add] in *.
  unfold _segment. cbn [newmap p_i p_setindex].
  assert (E1 : match pop (firstn k map) with
               | Some (init, i) =>
                   if sstart (mk s s (neworigs name (mkOrigRange s s 0))) <? send i
                   then _seg2 (mk s s (neworigs name (mkOrigRange s s 0))) i
                          {| newmap := init; p_i := k; p_setindex := 0 |}
                   else (mk s s (neworigs name (mkOrigRange s s 0)),
                         {| newmap := firstn k map; p_i := k; p_setindex := 0 |})
               | None => (mk s s (neworigs name (mkOrigRange s s 0)),
                          {| newmap := firstn k map; p_i := k; p_setindex := 0 |})
               end
               = (mk s s (neworigs name (mkOrigRange s s 0)),
                  {| newmap := firstn k map; p_i := k; p_setindex := 0 |})).
  { destruct (pop (firstn k map)) as [[init i]|] eqn:Ep; [|reflexivity].
    apply pop_last_in in Ep. rewrite Forall_forall in Fk. specialize (Fk i Ep).
    change (sstart (mk s s _)) with s.
    destruct (s <? send i) eqn:E; [apply Z.ltb_lt in E; simpl in Fk; lia | reflexivity]. }
  rewrite E1. cbn [p_i].
  assert (E2 : _segment_loop (skipn k map) (mk s s (neworigs name (mkOrigRange s s 0)))
                 {| newmap := firstn k map; p_i := k; p_setindex := 0 |}
               = (mk s s (neworigs name (mkOrigRange s s 0)),
                  {| newmap := firstn k map; p_i := k; p_setindex := 0 |})).
  { destruct (skipn k map) as [|x rest] eqn:Es; [reflexivity|].
    cbn [_segment_loop]. change (send (mk s s _)) with s.
    destruct (sstart x <? s) eqn:E; [|reflexivity].
    apply Z.ltb_lt in E. exfalso. apply (Hout x); [|lia].
    rewrite <- (firstn_skipn k map), Es. apply in_or_app. right. left. reflexivity. }
  rewrite E2. change (sstart (mk s s _)) with s. change (send (mk s s _)) with s.
  rewrite Z.ltb_irrefl. unfold _addendranges. cbn [newmap p_i].
  apply firstn_skipn.
Qed.

(** ** Strings *)

Section Strings.
Local Open Scope string_scope.

Lemma append_nil_r s : s ++ "" = s.
Proof. induction s as [|c s IH]; simpl; [reflexivity | now rewrite IH]. Qed.

Lemma append_assoc a b c : (a ++ b) ++ c = a ++ (b ++ c).
Proof. induction a as [|x a IH]; simpl; [reflexivity | now rewrite IH]. Qed.

Lemma length_append a b :
  String.length (a ++ b) = (String.length a + String.length b)%nat.
Proof. induction a as [|x a IH]; simpl; [reflexivity | now rewrite IH]. Qed.

Lemma substring_n_0 s : forall k, String.substring k 0 s = "".
Proof.
  induction s as [|c s IH]; intros k; destruct k; simpl; trivial.
Qed.

Lemma substring_0_length s : String.substring 0 (String.length s) s = s.
Proof. induction s as [|c s IH]; simpl; [reflexivity | now rewrite IH]. Qed.

Lemma substring_app_l a b : String.substring 0 (String.length a) (a ++ b) = a.
Proof.
  induction a as [|x a IH]; simpl; [apply substring_n_0 | now rewrite IH].
Qed.

Lemma substring_app_skip a b k :
  String.substring (String.length a) k (a ++ b) = String.substring 0 k b.
Proof. induction a as [|x a IH]; simpl; [reflexivity | exact IH]. Qed.

Lemma prefix_refl s : prefix s s = true.
Proof.
  induction s as [|c s IH]; simpl; [reflexivity|].
  destruct (ascii_dec c c); [exact IH | congruence].
Qed.

Lemma index_self s : index 0 s s = Some 0%nat.
Proof.
  destruct s as [|c s]; [reflexivity|].
  cbn [index]. rewrite prefix_refl. reflexivity.
Qed.

Lemma nonempty_append_l a b : JS.nonempty a = true -> JS.nonempty (a ++ b) = true.
Proof. destruct a; simpl; [discriminate | trivial]. Qed.

Lemma strlen_append a b : JS.strlen (a ++ b) = (JS.strlen a + JS.strlen b)%Z.
Proof. unfold JS.strlen. rewrite length_append. lia. Qed.

Lemma strlen_nonneg s : (0 <= JS.strlen s)%Z.
Proof. unfold JS.strlen. lia. Qed.

Lemma slice_index_in len k : (0 <= k <= len)%Z -> JS.slice_index len k = k.
Proof.
  intros H. unfold JS.slice_index.
  destruct (k <? 0)%Z eqn:E; [apply Z.ltb_lt in E|]; lia.
Qed.

(** [s.slice(a, a)] is empty. *)
Lemma slice_empty s a : JS.slice s a a = "".
Proof.
  unfold JS.slice. rewrite Z.sub_diag. simpl. apply substring_n_0.
Qed.

(** The three parts of a text cut at two offsets. *)
Lemma slice_prefix a b : JS.slice (a ++ b) 0 (JS.strlen a) = a.
Proof.
  unfold JS.slice. pose proof (strlen_nonneg a). pose proof (strlen_nonneg b).
  rewrite !slice_index_in by (rewrite strlen_append; lia).
  rewrite Z.sub_0_r, Z.max_l by lia. simpl Z.to_nat at 1.
  unfold JS.strlen at 1. rewrite Nat2Z.id. apply substring_app_l.
Qed.

Lemma slice_middle a b c :
  JS.slice (a ++ b ++ c) (JS.strlen a) (JS.strlen a + JS.strlen b) = b.
Proof.
  unfold JS.slice. pose proof (strlen_nonneg a). pose proof (strlen_nonneg b).
  pose proof (strlen_nonneg c).
  rewrite !slice_index_in by (rewrite !strlen_append; lia).
  replace (JS.strlen a + JS.strlen b - JS.strlen a)%Z with (JS.strlen b) by lia.
  rewrite Z.max_l by lia. unfold JS.strlen. rewrite !Nat2Z.id.
  rewrite substring_app_skip. apply substring_app_l.
Qed.

Lemma substring_middle a b c :
  JS.substring (a ++ b ++ c) (JS.strlen a) (JS.strlen a + JS.strlen b) = b.
Proof.
  unfold JS.substring. pose proof (strlen_nonneg a). pose proof (strlen_nonneg b).
  pose proof (strlen_nonneg c). rewrite !strlen_append.
  replace (Z.min (Z.max (JS.strlen a) 0) (JS.strlen a + (JS.strlen b + JS.strlen c)))
    with (JS.strlen a) by lia.
  replace (Z.min (Z.max (JS.strlen a + JS.strlen b) 0)
             (JS.strlen a + (JS.strlen b + JS.strlen c)))
    with (JS.strlen a + JS.strlen b)%Z by lia.
  rewrite Z.min_l, Z.max_r by lia.
  replace (JS.strlen a + JS.strlen b - JS.strlen a)%Z with (JS.strlen b) by lia.
  unfold JS.strlen. rewrite !Nat2Z.id.
  rewrite substring_app_skip. apply substring_app_l.
Qed.

Lemma slice_suffix a b : JS.slice_from (a ++ b) (JS.strlen a) = b.
Proof.
  unfold JS.slice_from, JS.slice. pose proof (strlen_nonneg a).
  pose proof (strlen_nonneg b).
  rewrite !slice_index_in by (rewrite ?strlen_append; lia).
  rewrite strlen_append.
  replace (JS.strlen a + JS.strlen b - JS.strlen a)%Z with (JS.strlen b) by lia.
  rewrite Z.max_l by lia. unfold JS.strlen. rewrite !Nat2Z.id.
  rewrite substring_app_skip. apply substring_0_length.
Qed.

Lemma slice_whole s : JS.slice s 0 (JS.strlen s) = s.
Proof. rewrite <- (append_nil_r s) at 1. apply slice_prefix. Qed.

Lemma slice_from_end s : JS.slice_from s (JS.strlen s) = "".
Proof. rewrite <- (append_nil_r s) at 1. apply slice_suffix. Qed.

(** [token.replace(token, template)] expands the template against the whole
    token. *)
Lemma replace_self token template :
  JS.replace token token template = JS.get_substitution token "" "" template.
Proof.
  unfold JS.replace. rewrite index_self. simpl String.substring at 1.
  rewrite Nat.add_0_l, Nat.sub_diag, !substring_n_0. simpl.
  apply append_nil_r.
Qed.

End Strings.

(** ** Nesting follows the order of application *)

Lemma subseq_nil l : subseq [] l.
Proof. destruct l; simpl; auto. Qed.

Lemma subseq_app_r l a b : subseq l a -> subseq l (a ++ b).
Proof.
  revert l. induction a as [|y a IH]; intros l H; simpl in *.
  - subst. apply subseq_nil.
  - destruct l as [|x l]; [trivial|]. destruct H as [[-> H]|H]; auto.
Qed.

Lemma subseq_snoc l a n : subseq l a -> subseq (l ++ [n]) (a ++ [n]).
Proof.
  revert l. induction a as [|y a IH]; intros l H; simpl in *.
  - subst. simpl. left. auto.
  - destruct l as [|x l]; simpl.
    + right. apply (IH [] (subseq_nil a)).
    + destruct H as [[-> H]|H]; [left; split; auto | right].
      apply (IH (x :: l) H).
Qed.

Lemma subseq_last a n : subseq [n] (a ++ [n]).
Proof. apply (subseq_snoc [] a n), subseq_nil. Qed.

Section Nesting.
Variable text : string.

Lemma names_within_old a n o : names_within a o -> names_within (a ++ [n]) o.
Proof. apply subseq_app_r. Qed.

Lemma names_within_app a n o r : names_within a o -> names_within (a ++ [n]) (o ++ neworigs n r).
Proof. unfold names_within. rewrite map_app. simpl. apply subseq_snoc. Qed.

Lemma names_within_new a n r : names_within (a ++ [n]) (neworigs n r).
Proof. unfold names_within. simpl. apply subseq_last. Qed.

Lemma addmatches_nesting a n rx map :
  ordered false map -> Forall (fun s => names_within a (origs s)) map ->
  matches_ordered false (matchAll rx text) ->
  ordered false (addmatches text rx n true map)
  /\ Forall (fun s => names_within (a ++ [n]) (origs s)) (addmatches text rx n true map).
Proof.
  intros Ho Fo Hm.
  destruct (addmatches_spec false (names_within a) (names_within (a ++ [n])) n (names_within_old a n)
              (names_within_app a n) (names_within_new a n) text rx map Ho Fo Hm) as (A & B & _).
  auto.
Qed.

Lemma addrange_nesting a n r map :
  ordered false map -> Forall (fun s => names_within a (origs s)) map ->
  ordered false (addrange text r n true map)
  /\ Forall (fun s => names_within (a ++ [n]) (origs s)) (addrange text r n true map).
Proof.
  intros Ho Fo.
  destruct (addrange_spec false (names_within a) (names_within (a ++ [n])) n (names_within_old a n)
              (names_within_app a n) (names_within_new a n) text r map Ho Fo I) as (A & B & _).
  auto.
Qed.

Lemma buildmatchesmap_nesting defs : forall a map,
  matchers_ok defs text ->
  ordered false map -> Forall (fun s => names_within a (origs s)) map ->
  ordered false (PatternSeries.buildmatchesmap defs text map)
  /\ Forall (fun s => names_within (a ++ regex_names defs) (origs s))
       (PatternSeries.buildmatchesmap defs text map).
Proof.
  unfold PatternSeries.buildmatchesmap.
  induction defs as [|[n d] defs IH]; intros a map Hm Ho Fo; simpl.
  - rewrite app_nil_r. auto.
  - assert (Hm' : matchers_ok defs text).
    { intros n' d' rx' Hin. apply (Hm n' d' rx'). right; exact Hin. }
    unfold regex_names; simpl. fold (regex_names defs).
    destruct (regex d) as [rx|] eqn:Er; simpl.
    + destruct (addmatches_nesting a n rx map Ho Fo) as [Ho' Fo'].
      { apply (Hm n d rx); [left; reflexivity | exact Er]. }
      destruct (IH (a ++ [n]) _ Hm' Ho' Fo') as [A B].
      rewrite <- app_assoc in B. auto.
    + apply IH; auto.
Qed.

Lemma buildrangesmap_nesting defs : forall a map,
  ordered false map -> Forall (fun s => names_within a (origs s)) map ->
  ordered false (PatternSeries.buildrangesmap defs text map)
  /\ Forall (fun s => names_within (a ++ range_names defs) (origs s))
       (PatternSeries.buildrangesmap defs text map).
Proof.
  unfold PatternSeries.buildrangesmap.
  induction defs as [|[n d] defs IH]; intros a map Ho Fo; simpl.
  - rewrite app_nil_r. auto.
  - unfold range_names; simpl. fold (range_names defs).
    destruct (drange d) as [r|] eqn:Er; simpl.
    + destruct (addrange_nesting a n r map Ho Fo) as [Ho' Fo'].
      destruct (IH (a ++ [n]) _ Ho' Fo') as [A B].
      rewrite <- app_assoc in B. auto.
    + apply IH; auto.
Qed.

Lemma buildmap_inorder_nesting defs : forall a map,
  matchers_ok defs text ->
  ordered false map -> Forall (fun s => names_within a (origs s)) map ->
  ordered false (PatternSeries.buildmap defs text map false)
  /\ Forall (fun s => names_within (a ++ entry_names defs) (origs s))
       (PatternSeries.buildmap defs text map false).
Proof.
  unfold PatternSeries.buildmap.
  induction defs as [|[n d] defs IH]; intros a map Hm Ho Fo; simpl.
  - rewrite app_nil_r. auto.
  - assert (Hm' : matchers_ok defs text).
    { intros n' d' rx' Hin. apply (Hm n' d' rx'). right; exact Hin. }
    unfold entry_names; simpl. fold (entry_names defs).
    destruct (regex d) as [rx|] eqn:Er; simpl.
    + destruct (addmatches_nesting a n rx map Ho Fo) as [Ho' Fo'].
      { apply (Hm n d rx); [left; reflexivity | exact Er]. }
      destruct (IH (a ++ [n]) _ Hm' Ho' Fo') as [A B].
      rewrite <- app_assoc in B. auto.
    + destruct (drange d) as [r|] eqn:Ed; simpl.
      * destruct (addrange_nesting a n r map Ho Fo) as [Ho' Fo'].
        destruct (IH (a ++ [n]) _ Hm' Ho' Fo') as [A B].
        rewrite <- app_assoc in B. auto.
      * apply IH; auto.
Qed.

Lemma buildmap_nesting defs overlay :
  matchers_ok defs text ->
  Forall (fun s => subseq (layer_names s) (application_order overlay defs))
    (PatternSeries.buildmap defs text [] overlay).
Proof.
  intros Hm. unfold application_order. destruct overlay.
  - unfold PatternSeries.buildmap.
    destruct (buildmatchesmap_nesting defs [] [] Hm (ex_intro _ 0 I) (Forall_nil _))
      as [Ho Fo].
    destruct (buildrangesmap_nesting defs _ _ Ho Fo) as [_ B]. exact B.
  - destruct (buildmap_inorder_nesting defs [] [] Hm (ex_intro _ 0 I) (Forall_nil _))
      as [_ B]. exact B.
Qed.

End Nesting.

(** ** Position queries *)

Import SOT_text_map_range.

Section Scan.
Variable pos : Z.

Lemma scan_shift rest : forall i, scan rest pos i = i + scan rest pos 0.
Proof.
  induction rest as [|s rest IH]; intros i; simpl; [lia|].
  destruct (send s <=? pos); [|lia]. rewrite (IH (i + 1)), (IH 1). lia.
Qed.

Lemma scan_bounds rest : 0 <= scan rest pos 0 <= Z.of_nat (List.length rest).
Proof.
  induction rest as [|s rest IH]; simpl; [lia|].
  destruct (send s <=? pos); [rewrite scan_shift|]; lia.
Qed.

(** Every segment before the index found ends at or before [pos]. *)
Lemma scan_before rest : forall k s,
  nth_error rest k = Some s -> Z.of_nat k < scan rest pos 0 -> send s <= pos.
Proof.
  induction rest as [|a rest IH]; intros k s Hk Hlt; [destruct k; discriminate|].
  simpl in Hlt. destruct (send a <=? pos) eqn:E; [|lia].
  apply Z.leb_le in E. destruct k as [|k]; simpl in Hk.
  - inversion Hk; subst; exact E.
  - rewrite scan_shift in Hlt. apply (IH k s Hk). lia.
Qed.

(** In an ordered map, every segment from the index found on ends after
    [pos]. *)
Lemma scan_after strict lo rest : chain strict lo rest -> forall k s,
  nth_error rest k = Some s -> scan rest pos 0 <= Z.of_nat k -> pos < send s.
Proof.
  revert lo. induction rest as [|a rest IH]; intros lo Hc k s Hk Hle;
    [destruct k; discriminate|].
  simpl in Hc. destruct Hc as (H1 & H2 & H3).
  simpl in Hle. destruct (send a <=? pos) eqn:E.
  - rewrite scan_shift in Hle. pose proof (scan_bounds rest).
    destruct k as [|k]; [lia|]. simpl in Hk. apply (IH _ H3 k s Hk). lia.
  - apply Z.leb_gt in E. destruct k as [|k]; simpl in Hk.
    + inversion Hk; subst; exact E.
    + apply nth_error_In in Hk.
      pose proof (chain_starts strict _ _ H3) as Fs.
      pose proof (chain_spans strict _ _ H3) as Fp.
      rewrite Forall_forall in Fs, Fp.
      specialize (Fs _ Hk). specialize (Fp _ Hk). apply span_ok_le in Fp. lia.
Qed.

(** Scanning from any index at or before the one found finds it too. *)
Lemma scan_skipn rest : forall r i,
  Z.of_nat r <= scan rest pos 0 ->
  scan (skipn r rest) pos (i + Z.of_nat r) = scan rest pos i.
Proof.
  induction rest as [|a rest IH]; intros r i Hr.
  - rewrite skipn_nil. simpl in *. lia.
  - destruct r as [|r]; [simpl skipn; f_equal; lia|].
    cbn [scan] in Hr. cbn [skipn scan]. destruct (send a <=? pos); [|lia].
    rewrite scan_shift in Hr.
    replace (i + Z.of_nat (S r)) with ((i + 1) + Z.of_nat r) by lia.
    apply IH. lia.
Qed.

End Scan.

(** *** Rounding *)

Lemma round_spec (x : Q) :
  (inject_Z (Math_round x) <= x + (1 # 2) < inject_Z (Math_round x) + 1)%Q.
Proof.
  unfold Math_round. split.
  - apply Qfloor_le.
  - pose proof (Qlt_floor (x + (1 # 2))) as H. rewrite inject_Z_plus in H. exact H.
Qed.

Lemma round_unique (x : Q) (r : Z) :
  (inject_Z r <= x + (1 # 2) < inject_Z r + 1)%Q -> Math_round x = r.
Proof.
  intros [H1 H2]. destruct (round_spec x) as [H3 H4].
  assert (A : (inject_Z (Math_round x) < inject_Z (r + 1))%Q)
    by (rewrite inject_Z_plus; change (inject_Z 1) with 1%Q; lra).
  assert (B : (inject_Z r < inject_Z (Math_round x + 1))%Q)
    by (rewrite inject_Z_plus; change (inject_Z 1) with 1%Q; lra).
  rewrite <- Zlt_Qlt in A, B. lia.
Qed.

Lemma inject_Z_succ_le (a b : Z) : a < b -> (inject_Z a + 1 <= inject_Z b)%Q.
Proof.
  intros H. assert (A : a + 1 <= b) by lia. rewrite Zle_Qle, inject_Z_plus in A.
  exact A.
Qed.

Lemma get_in_range map r :
  0 <= r < Z.of_nat (List.length map) ->
  exists s, get map r = Some s /\ nth_error map (Z.to_nat r) = Some s.
Proof.
  intros Hr. unfold get. destruct (r <? 0) eqn:E; [apply Z.ltb_lt in E; lia|].
  destruct (nth_error map (Z.to_nat r)) as [s|] eqn:En; [eauto|].
  apply nth_error_None in En. lia.
Qed.

(** *** The bisection stops at the index sought or just before it *)

Section Bisect.
Variable strict : bool.
Variable lo pos : Z.
Variable map : TextMap.
Hypothesis Hchain : chain strict lo map.

Lemma bisect_spec :
  1 <= scan map pos 0 <= Z.of_nat (List.length map) - 1 -> forall fuel i j,
  (0 < j)%Q -> (j * 2 < inject_Z (2 ^ Z.of_nat fuel))%Q ->
  (inject_Z (scan map pos 0) - (1 # 2) - j <= i)%Q ->
  (i < inject_Z (scan map pos 0) - (1 # 2) + j)%Q ->
  (j <= i)%Q -> (i <= inject_Z (Z.of_nat (List.length map)) - j)%Q ->
  exists i', bisect fuel pos map i j = Some i'
             /\ scan map pos 0 - 1 <= Math_round i' <= scan map pos 0.
Proof.
  set (t := scan map pos 0). set (len := Z.of_nat (List.length map)).
  intros Ht. induction fuel as [|fuel IH]; intros i j Hj Hfuel Hlo Hhi Hji Hij.
  - change (inject_Z (2 ^ Z.of_nat 0)) with 1%Q in Hfuel.
    assert (Hr : Math_round j = 0)
      by (apply round_unique; change (inject_Z 0) with 0%Q; lra).
    simpl. rewrite Hr. simpl. exists i. split; [reflexivity|].
    destruct (round_spec i) as [R1 R2].
    assert (A : (inject_Z t < inject_Z (Math_round i + 2))%Q)
      by (rewrite inject_Z_plus; change (inject_Z 2) with 2%Q; lra).
    assert (B : (inject_Z (Math_round i) < inject_Z (t + 1))%Q)
      by (rewrite inject_Z_plus; change (inject_Z 1) with 1%Q; lra).
    rewrite <- Zlt_Qlt in A, B. lia.
  - cbn [bisect]. destruct (Math_round j =? 0) eqn:Er.
    + apply Z.eqb_eq in Er. exists i. split; [reflexivity|].
      pose proof (round_spec j) as [_ R0]. rewrite Er in R0.
      change (inject_Z 0) with 0%Q in R0.
      destruct (round_spec i) as [R1 R2].
      assert (A : (inject_Z t < inject_Z (Math_round i + 2))%Q)
        by (rewrite inject_Z_plus; change (inject_Z 2) with 2%Q; lra).
      assert (B : (inject_Z (Math_round i) < inject_Z (t + 1))%Q)
        by (rewrite inject_Z_plus; change (inject_Z 1) with 1%Q; lra).
      rewrite <- Zlt_Qlt in A, B. lia.
    + apply Z.eqb_neq in Er.
      assert (Hj2 : (1 # 2 <= j)%Q).
      { destruct (Qlt_le_dec j (1 # 2)) as [Hlt|Hge]; [|exact Hge].
        exfalso. apply Er. apply round_unique. change (inject_Z 0) with 0%Q. lra. }
      destruct (round_spec i) as [R1 R2].
      assert (Hlen : (inject_Z t + 1 <= inject_Z len)%Q)
        by (apply inject_Z_succ_le; lia).
      assert (HR : 0 <= Math_round i < len).
      { assert (A : (inject_Z 0 < inject_Z (Math_round i + 1))%Q)
          by (rewrite inject_Z_plus; change (inject_Z 1) with 1%Q;
              change (inject_Z 0) with 0%Q; lra).
        assert (B : (inject_Z (Math_round i) < inject_Z len)%Q) by lra.
        rewrite <- Zlt_Qlt in A, B. lia. }
      destruct (get_in_range map (Math_round i) HR) as (s & Eg & En).
      rewrite Eg.
      assert (Hfuel' : (j / 2 * 2 < inject_Z (2 ^ Z.of_nat fuel))%Q).
      { rewrite Nat2Z.inj_succ, Z.pow_succ_r, inject_Z_mult in Hfuel by lia.
        change (inject_Z 2) with 2%Q in Hfuel.
        change (j / 2)%Q with (j * (1 # 2))%Q. lra. }
      destruct (send s <=? pos) eqn:Es.
      * apply Z.leb_le in Es.
        assert (Hlt : Math_round i < t).
        { destruct (Z_lt_le_dec (Math_round i) t) as [H|H]; [exact H|].
          pose proof (scan_after pos strict lo map Hchain _ s En) as Ha.
          rewrite Z2Nat.id in Ha by lia. specialize (Ha H). lia. }
        apply inject_Z_succ_le in Hlt.
        apply IH; trivial; change (j / 2)%Q with (j * (1 # 2))%Q in *; lra.
      * apply Z.leb_gt in Es.
        assert (Hge : t <= Math_round i).
        { destruct (Z_lt_le_dec (Math_round i) t) as [H|H]; [|exact H].
          pose proof (scan_before pos map _ s En) as Hb.
          rewrite Z2Nat.id in Hb by lia. specialize (Hb H). lia. }
        rewrite Zle_Qle in Hge.
        apply IH; trivial; change (j / 2)%Q with (j * (1 # 2))%Q in *; lra.
Qed.

End Bisect.

(** *** [next] finds the first segment whose end exceeds [pos] *)

Lemma last_index_le_scan strict lo map pos last :
  chain strict lo map ->
  nth_error map (Z.to_nat (Z.of_nat (List.length map) - 1)) = Some last ->
  (0 < List.length map)%nat ->
  sstart last <= pos ->
  Z.of_nat (List.length map) - 1 <= scan map pos 0.
Proof.
  intros Hc Hl Hn Hp.
  destruct (Z_lt_le_dec (scan map pos 0) (Z.of_nat (List.length map) - 1)) as [H|H];
    [|exact H].
  exfalso. pose proof (scan_bounds pos map) as Hb.
  set (t := scan map pos 0) in *.
  destruct (nth_error map (Z.to_nat t)) as [s|] eqn:Es.
  2:{ apply nth_error_None in Es. lia. }
  pose proof (scan_after pos strict lo map Hc _ s Es) as Ha.
  rewrite Z2Nat.id in Ha by lia. specialize (Ha (Z.le_refl _)).
  destruct (chain_pairwise strict lo map Hc (Z.to_nat t)
              (Z.to_nat (Z.of_nat (List.length map) - 1)) s last) as (_ & B & _);
    trivial; lia.
Qed.

Lemma pow2_gt (n : nat) : Z.of_nat n < 2 ^ Z.of_nat (n + 2).
Proof.
  pose proof (Z.pow_gt_lin_r 2 (Z.of_nat (n + 2))) as H. lia.
Qed.

Lemma next_spec strict lo map pos :
  chain strict lo map -> map <> [] -> next pos map = Some (scan map pos 0).
Proof.
  intros Hc Hne. destruct map as [|first rest] eqn:Em; [congruence|].
  rewrite <- Em in *. unfold next. rewrite Em at 1.
  assert (Hlen : (0 < List.length map)%nat) by (rewrite Em; simpl; lia).
  set (len := Z.of_nat (List.length map)).
  destruct (pos <? send first) eqn:E1.
  - reflexivity.
  - apply Z.ltb_ge in E1.
    assert (Ht1 : 1 <= scan map pos 0).
    { rewrite Em. simpl. destruct (send first <=? pos) eqn:E2;
        [|apply Z.leb_gt in E2; lia].
      rewrite scan_shift. pose proof (scan_bounds pos rest). lia. }
    destruct (get_in_range map (len - 1)) as (last & Eg & En); [unfold len; lia|].
    rewrite Eg.
    assert (Hfin : forall R, 0 <= R <= scan map pos 0 ->
              (if R <? 0 then None else Some (scan (skipn (Z.to_nat R) map) pos R))
              = Some (scan map pos 0)).
    { intros R HR. destruct (R <? 0) eqn:ER; [apply Z.ltb_lt in ER; lia|].
      f_equal. pose proof (scan_skipn pos map (Z.to_nat R) 0) as Hs.
      rewrite Z2Nat.id in Hs by lia. simpl in Hs. apply Hs. lia. }
    destruct (pos <? sstart last) eqn:E3.
    + apply Z.ltb_lt in E3.
      assert (Ht2 : scan map pos 0 <= len - 1).
      { destruct (Z_lt_le_dec (len - 1) (scan map pos 0)) as [H|H]; [|lia].
        pose proof (scan_before pos map _ last En) as Hb.
        rewrite Z2Nat.id in Hb by (unfold len; lia). specialize (Hb H).
        pose proof (chain_spans strict lo map Hc) as Fp.
        rewrite Forall_forall in Fp. apply nth_error_In in En.
        specialize (Fp _ En). apply span_ok_le in Fp. lia. }
      assert (HtQ : (inject_Z 1 <= inject_Z (scan map pos 0))%Q)
        by (rewrite <- Zle_Qle; lia).
      assert (HtQ2 : (inject_Z (scan map pos 0) + 1 <= inject_Z len)%Q)
        by (apply inject_Z_succ_le; lia).
      assert (HlQ : (inject_Z len < inject_Z (2 ^ Z.of_nat (List.length map + 2)))%Q)
        by (rewrite <- Zlt_Qlt; apply pow2_gt).
      change (inject_Z 1) with 1%Q in HtQ.
      destruct (bisect_spec strict lo pos map Hc ltac:(fold len; lia)
                  (List.length map + 2)%nat (inject_Z len / 2)%Q (inject_Z len / 2)%Q)
        as (i' & Eb & Hi');
        try (fold len; change (inject_Z len / 2)%Q with (inject_Z len * (1 # 2))%Q; lra).
      fold len in Eb. rewrite Eb. apply Hfin. lia.
    + apply Z.ltb_ge in E3. apply Hfin.
      pose proof (last_index_le_scan strict lo map pos last Hc En Hlen E3).
      fold len in H. lia.
Qed.

(** *** [atpos] *)

Lemma atpos_empty pos : atpos pos [] = Some (-1).
Proof. reflexivity. Qed.

Lemma atpos_unfold strict lo map pos :
  chain strict lo map -> map <> [] ->
  atpos pos map
  = if isposin pos map (scan map pos 0) then Some (scan map pos 0) else Some (-1).
Proof.
  intros Hc Hne. unfold atpos. rewrite (next_spec strict lo map pos Hc Hne).
  reflexivity.
Qed.

Lemma atpos_inside strict lo map pos i s :
  chain strict lo map -> nth_error map i = Some s -> inseg s pos ->
  atpos pos map = Some (Z.of_nat i).
Proof.
  intros Hc Hi [Hs He].
  assert (Hne : map <> []) by (intros ->; destruct i; discriminate).
  rewrite (atpos_unfold strict lo map pos Hc Hne).
  pose proof (scan_bounds pos map) as Hb. set (t := scan map pos 0) in *.
  assert (Hil : (i < List.length map)%nat) by (apply nth_error_Some; congruence).
  assert (Ht : t = Z.of_nat i).
  { destruct (Z_lt_le_dec (Z.of_nat i) t) as [H|H].
    - pose proof (scan_before pos map i s Hi H). lia.
    - destruct (Z_lt_le_dec t (Z.of_nat i)) as [H'|H']; [|lia]. exfalso.
      destruct (nth_error map (Z.to_nat t)) as [s'|] eqn:Es.
      2:{ apply nth_error_None in Es. lia. }
      pose proof (scan_after pos strict lo map Hc _ s' Es) as Ha.
      rewrite Z2Nat.id in Ha by lia. specialize (Ha (Z.le_refl _)).
      destruct (chain_pairwise strict lo map Hc (Z.to_nat t) i s' s) as (_ & B & _);
        trivial; lia. }
  rewrite Ht. unfold isposin, get.
  destruct (Z.of_nat i <? 0) eqn:E0; [apply Z.ltb_lt in E0; lia|].
  rewrite Nat2Z.id, Hi.
  replace (0 <=? Z.of_nat i) with true by (symmetry; apply Z.leb_le; lia).
  replace (Z.of_nat i <? Z.of_nat (List.length map)) with true
    by (symmetry; apply Z.ltb_lt; lia).
  replace (sstart s <=? pos) with true by (symmetry; apply Z.leb_le; lia).
  replace (pos <=? send s) with true by (symmetry; apply Z.leb_le; lia).
  reflexivity.
Qed.

Lemma atpos_outside strict lo map pos :
  chain strict lo map -> (forall s, In s map -> ~ inseg s pos) ->
  atpos pos map = Some (-1).
Proof.
  intros Hc Hout. destruct map as [|a rest] eqn:Em; [reflexivity|].
  rewrite <- Em in *.
  assert (Hne : map <> []) by (rewrite Em; discriminate).
  rewrite (atpos_unfold strict lo map pos Hc Hne).
  destruct (isposin pos map (scan map pos 0)) eqn:Ein; [|reflexivity].
  exfalso. unfold isposin in Ein.
  apply andb_true_iff in Ein. destruct Ein as [Eb Es].
  apply andb_true_iff in Eb. destruct Eb as [Eb1 Eb2].
  apply Z.leb_le in Eb1. apply Z.ltb_lt in Eb2.
  destruct (get_in_range map (scan map pos 0)) as (s & Eg & En); [lia|].
  rewrite Eg in Es. apply andb_true_iff in Es. destruct Es as [Es1 Es2].
  apply Z.leb_le in Es1.
  pose proof (scan_after pos strict lo map Hc _ s En) as Ha.
  rewrite Z2Nat.id in Ha by lia. specialize (Ha (Z.le_refl _)).
  apply (Hout s); [eapply nth_error_In; exact En | split; lia].
Qed.

(** ** Replacement *)

Section Replace.
Import SOT_text_map_replace.
Local Open Scope string_scope.

Lemma get_substitution_no_dollar m b a template :
  no_dollar template -> JS.get_substitution m b a template = template.
Proof.
  induction template as [|c tl IH]; simpl; [reflexivity|].
  intros [Hc Hn]. destruct (Ascii.eqb c "$") eqn:E.
  - apply Ascii.eqb_eq in E. contradiction.
  - rewrite (IH Hn). reflexivity.
Qed.

(** On an exact segment, [replace] keeps the text before and after the
    segment and puts the expanded template in its place. *)
Lemma replace_exact t1 t2 t3 map i s o newtext :
  nth_error map i = Some s -> origs s = [o] ->
  sstart s = JS.strlen t1 -> send s = (JS.strlen t1 + JS.strlen t2)%Z ->
  ostart (orange o) = sstart s -> oend (orange o) = send s ->
  replace (t1 ++ t2 ++ t3) map (Z.of_nat i) newtext
  = Some (t1 ++ JS.get_substitution t2 "" "" newtext ++ t3).
Proof.
  intros Hi Ho Hs He Hos Hoe. unfold replace.
  assert (Hlt : (i < List.length map)%nat) by (apply nth_error_Some; congruence).
  destruct (Z.of_nat (List.length map) <=? Z.of_nat i)%Z eqn:E;
    [apply Z.leb_le in E; lia|].
  unfold SOT_text_map_range.get.
  destruct (Z.of_nat i <? 0)%Z eqn:E0; [apply Z.ltb_lt in E0; lia|].
  rewrite Nat2Z.id, Hi, Ho. f_equal.
  unfold replaceall, replaceall_loop, exact. rewrite Ho, Hos, Hoe, !Z.eqb_refl.
  simpl andb. cbv iota. unfold template_of. simpl lookup. rewrite String.eqb_refl.
  rewrite Hs, He, slice_prefix, substring_middle, replace_self.
  rewrite <- (append_assoc t1 t2 t3), <- strlen_append, slice_suffix.
  simpl. apply append_assoc.
Qed.

(** On a segment that is not exact, [replace] returns the text. *)
Lemma replace_not_exact t1 t2 t3 map i s newtext :
  nth_error map i = Some s -> origs s <> [] -> exact s = false ->
  sstart s = JS.strlen t1 -> send s = (JS.strlen t1 + JS.strlen t2)%Z ->
  replace (t1 ++ t2 ++ t3) map (Z.of_nat i) newtext = Some (t1 ++ t2 ++ t3).
Proof.
  intros Hi Ho Hx Hs He. unfold replace.
  assert (Hlt : (i < List.length map)%nat) by (apply nth_error_Some; congruence).
  destruct (Z.of_nat (List.length map) <=? Z.of_nat i)%Z eqn:E;
    [apply Z.leb_le in E; lia|].
  unfold SOT_text_map_range.get.
  destruct (Z.of_nat i <? 0)%Z eqn:E0; [apply Z.ltb_lt in E0; lia|].
  rewrite Nat2Z.id, Hi. destruct (origs s) as [|o os] eqn:Eo; [congruence|].
  f_equal. unfold replaceall, replaceall_loop. rewrite Hx.
  rewrite Hs, He, slice_prefix, substring_middle.
  rewrite <- (append_assoc t1 t2 t3), <- strlen_append, slice_suffix.
  simpl. reflexivity.
Qed.

End Replace.

(** ** Rendering *)

Lemma raw2HTML_empty : SOT_text.raw2HTML "" = ""%string.
Proof. reflexivity. Qed.

(** Symbolic evaluation of the renderer on a concrete map and an arbitrary
    text: slices of the concrete pieces are computed, and each escaped slice
    of the text is split into the empty and the non-empty case when the
    renderer tests it. *)
Ltac ground_string p :=
  lazymatch p with
  | EmptyString => idtac
  | String _ ?s => ground_string s
  end.

Ltac eval_slices :=
  repeat match goal with
  | |- context [JS.slice ?p ?a ?b] =>
      ground_string p;
      let v := eval vm_compute in (JS.slice p a b) in
      change (JS.slice p a b) with v
  | |- context [JS.slice_from ?p ?a] =>
      ground_string p;
      let v := eval vm_compute in (JS.slice_from p a) in
      change (JS.slice_from p a) with v
  end.

Ltac case_text :=
  match goal with
  | |- context [SOT_map.htmladd _ (SOT_text.raw2HTML ?s)] =>
      destruct (SOT_text.raw2HTML s)
  | |- context [JS.nonempty (SOT_text.raw2HTML ?s)] =>
      destruct (SOT_text.raw2HTML s)
  | |- context [match SOT_text.raw2HTML ?s with EmptyString => _ | String _ _ => _ end] =>
      destruct (SOT_text.raw2HTML s)
  end.

Ltac run_markup :=
  unfold SOT_map.markup, SOT_map.markup_loop, SOT_map.markup_step;
  repeat (progress (cbn -[JS.slice JS.slice_from SOT_text.raw2HTML];
                    rewrite ?slice_empty, ?raw2HTML_empty;
                    eval_slices; try case_text));
  repeat (progress (rewrite ?append_assoc; cbn [String.append])).

(** *** Open depth *)

Lemma skipn_cons_nth {A} (l : list A) : forall d x r,
  skipn d l = x :: r -> nth_error l d = Some x /\ skipn (S d) l = r.
Proof.
  induction l as [|a l IH]; intros d x r H.
  - rewrite skipn_nil in H. discriminate.
  - destruct d as [|d]; simpl in *; [inversion H; auto|]. apply IH. exact H.
Qed.

Lemma skipn_nil_nth {A} (l : list A) : forall d, skipn d l = [] -> nth_error l d = None.
Proof.
  induction l as [|a l IH]; intros d H; [destruct d; reflexivity|].
  destruct d as [|d]; simpl in *; [discriminate | apply IH; exact H].
Qed.

Lemma difdepth_loop_spec seg cs : forall k depth,
  k = List.length (skipn depth (origs seg)) ->
  SOT_map._difdepth_loop seg (Some cs) k depth
  = (depth + common_prefix_length same_name_seq
               (skipn depth (origs seg)) (skipn depth (origs cs)))%nat.
Proof.
  induction k as [|k IH]; intros depth Hk.
  - destruct (skipn depth (origs seg)); [|discriminate]. simpl. lia.
  - destruct (skipn depth (origs seg)) as [|o rest] eqn:Es; [discriminate|].
    simpl in Hk. apply skipn_cons_nth in Es. destruct Es as [En Es].
    cbn [SOT_map._difdepth_loop]. unfold SOT_map._istagdif. rewrite En.
    destruct (skipn depth (origs cs)) as [|c rest'] eqn:Ec.
    + rewrite (skipn_nil_nth _ _ Ec). simpl. lia.
    + apply skipn_cons_nth in Ec. destruct Ec as [Ecn Ec]. rewrite Ecn.
      cbn [common_prefix_length].
      replace (negb (String.eqb (setname o) (setname c))
               || negb (setindex (orange o) =? setindex (orange c)))
        with (negb (same_name_seq o c))
        by (unfold same_name_seq; apply negb_andb).
      destruct (same_name_seq o c); simpl; [|lia].
      rewrite IH by (rewrite Es; lia). rewrite Es, Ec. lia.
Qed.

(** *** Escaping *)

Lemma replace_all_char_app c by_ a b :
  JS.replace_all_char c by_ (a ++ b)
  = (JS.replace_all_char c by_ a ++ JS.replace_all_char c by_ b)%string.
Proof.
  induction a as [|x a IH]; simpl; [reflexivity|].
  destruct (Ascii.eqb x c); rewrite IH; [rewrite append_assoc|]; reflexivity.
Qed.

(** The three passes of [raw2HTML] escape every character of the text once:
    the entities written by the first pass hold no [>] and no [<], so the
    later passes leave them alone. *)
Lemma raw2HTML_escaped s : SOT_text.raw2HTML s = escaped s.
Proof.
  unfold SOT_text.raw2HTML. induction s as [|c s IH]; [reflexivity|].
  cbn [JS.replace_all_char escaped]. unfold escape_char.
  destruct (Ascii.eqb c "&") eqn:E1.
  - rewrite !replace_all_char_app, IH. reflexivity.
  - cbn [JS.replace_all_char]. destruct (Ascii.eqb c ">") eqn:E2.
    + rewrite replace_all_char_app, IH. reflexivity.
    + cbn [JS.replace_all_char]. destruct (Ascii.eqb c "<") eqn:E3; rewrite IH;
        reflexivity.
Qed.

Lemma no_angle_app a b : no_angle a -> no_angle b -> no_angle (a ++ b).
Proof.
  induction a as [|c a IH]; simpl; [trivial|]. intros (H1 & H2 & H3) Hb. auto.
Qed.

(** An escaped text holds no [<] and no [>]. *)
Lemma escaped_no_angle s : no_angle (escaped s).
Proof.
  induction s as [|c s IH]; simpl; [exact I|].
  apply no_angle_app; [|exact IH]. unfold escape_char.
  destruct (Ascii.eqb c "&") eqn:E1; [simpl; repeat split; discriminate|].
  destruct (Ascii.eqb c ">") eqn:E2; [simpl; repeat split; discriminate|].
  destruct (Ascii.eqb c "<") eqn:E3; [simpl; repeat split; discriminate|].
  apply Ascii.eqb_neq in E2, E3. simpl. auto.
Qed.

(** *** Order of the tags of one segment *)

Section TagOrder.
Variable fulltext : string.
Variable map : TextMap.
Variable opts : option Opts.
Variable defs : option Defs.
Variable callback : option Callback.

Lemma layersstart_loop_order seg : forall layers mi j pi tags sts tags' sts',
  SOT_map._layersstart_loop fulltext map opts defs callback seg layers mi j pi tags sts
    = Some (tags', sts') ->
  exists ts,
    Forall2 (opening_tag_of fulltext map opts defs callback seg) layers ts
    /\ tags' = (tags ++ String.concat "" ts)%string.
Proof.
  induction layers as [|layer layers IH]; intros mi j pi tags sts tags' sts' H.
  - simpl in H. inversion H; subst. exists []. split; [constructor|].
    simpl. symmetry. apply append_nil_r.
  - cbn [SOT_map._layersstart_loop] in H.
    destruct (SOT_map._tagstart fulltext map opts defs callback (range seg) layer
                mi j pi (JS.strlen tags) sts) as [[t sts1]|] eqn:Et; [|discriminate].
    destruct (IH _ _ _ _ _ _ _ H) as (ts & Hts & Htags).
    exists (t :: ts). split.
    + constructor; [|exact Hts]. unfold opening_tag_of. eauto 8.
    + rewrite Htags, append_assoc. f_equal.
      destruct ts as [|t' ts']; simpl; [apply append_nil_r | reflexivity].
Qed.

Lemma layersend_loop_order : forall layers t t',
  SOT_map._layersend_loop opts defs layers t = Some t' ->
  exists ts,
    Forall2 (closing_tag_of opts defs) layers ts
    /\ t' = (t ++ String.concat "" ts)%string.
Proof.
  induction layers as [|layer layers IH]; intros t t' H.
  - simpl in H. inversion H; subst. exists []. split; [constructor|].
    simpl. symmetry. apply append_nil_r.
  - cbn [SOT_map._layersend_loop] in H.
    destruct (SOT_map._tagend opts defs layer) as [e|] eqn:Ee; [|discriminate].
    destruct (IH _ _ H) as (ts & Hts & Ht).
    exists (e :: ts). split.
    + constructor; [exact Ee | exact Hts].
    + rewrite Ht, append_assoc. f_equal.
      destruct ts as [|t1 ts']; simpl; [apply append_nil_r | reflexivity].
Qed.

End TagOrder.

(** *** One matcher over the whole text *)

Section WholeDocument.
Variables text cls : string.
Variable rx : Regex.

Lemma strlen_pos : text <> ""%string -> 0 < JS.strlen text.
Proof. destruct text; [congruence|]. intros _. unfold JS.strlen. simpl. lia. Qed.

Lemma whole_document_map :
  text <> ""%string -> global rx = true -> matchAll rx text = [(0, JS.strlen text)] ->
  PatternSeries.buildmap [(cls, matcher_def rx)] text [] true
  = [mk 0 (JS.strlen text) [orig cls 0 (JS.strlen text) 0]].
Proof.
  intros Ht Hg Hm. apply strlen_pos in Ht.
  unfold PatternSeries.buildmap, PatternSeries.buildrangesmap,
    PatternSeries.buildmatchesmap.
  simpl. unfold addmatches. rewrite Hg, Hm. unfold addmatchlist. simpl.
  unfold _addmatch, _insertrange. simpl. unfold _segment. simpl.
  unfold sstart, send. simpl.
  replace (0 <? JS.strlen text) with true by (symmetry; apply Z.ltb_lt; exact Ht).
  reflexivity.
Qed.

Lemma tag_plain s e k end_ :
  SOT_map._tag (Some PatternSeries.default_opts) (Some [(cls, matcher_def rx)])
    (orig cls s e k) end_
  = Some "mark"%string.
Proof.
  unfold SOT_map._tag. cbn [lookup setname orig o_htmltag PatternSeries.default_opts].
  rewrite String.eqb_refl.
  destruct end_; reflexivity.
Qed.

Lemma tagend_plain s e k :
  SOT_map._tagend (Some PatternSeries.default_opts) (Some [(cls, matcher_def rx)])
    (orig cls s e k)
  = Some "</mark>"%string.
Proof. unfold SOT_map._tagend. rewrite tag_plain. reflexivity. Qed.

(** The opening tag of a layer that starts with its segment, before the [R]
    is put in: the class list ends in two spaces, and the position recorded
    is that of the second. *)
Lemma tagstart_plain map rg s e k mi j pi offset sts :
  rstart rg = s ->
  SOT_map._tagstart text map (Some PatternSeries.default_opts)
    (Some [(cls, matcher_def rx)]) None rg (orig cls s e k) mi j pi offset sts
  = Some ((("<mark class=" ++ JS.dq ++ cls ++ " L ") ++ " " ++ JS.dq ++ ">")%string,
          assign cls {| pos := offset + JS.strlen ("<mark class=" ++ JS.dq ++ cls ++ " L ");
                        pieceindex := pi; st_j := j; st_seg := rg |} sts).
Proof.
  intros Hs. unfold SOT_map._tagstart. rewrite tag_plain.
  cbn [lookup setname orig orange ostart]. rewrite String.eqb_refl.
  cbn [htmlattrs matcher_def]. rewrite Hs, Z.eqb_refl.
  cbn [SOT_map._tagstart_attrs JS.truthy JS.nonempty]. 
  replace (JS.nonempty (cls ++ " L")) with true
    by (destruct cls; reflexivity).
  rewrite String.eqb_refl. cbv beta iota zeta. cbn [setname orig].
  assert (E : ((("<" ++ "mark") ++ " " ++ "class" ++ "=" ++ JS.dq ++ cls ++ " L") ++ "  "
               = ("<mark class=" ++ JS.dq ++ cls ++ " L ") ++ " ")%string).
  { unfold JS.dq. rewrite ?append_assoc. cbn [String.append].
    rewrite ?append_assoc. reflexivity. }
  rewrite E, strlen_append. change (JS.strlen " ") with 1.
  replace (offset + (JS.strlen ("<mark class=" ++ JS.dq ++ cls ++ " L ") + 1) - 1)
    with (offset + JS.strlen ("<mark class=" ++ JS.dq ++ cls ++ " L ")) by lia.
  rewrite !append_assoc. reflexivity.
Qed.

(** C8 (amended). For every non-empty text, a single matcher whose sole
    match is [[0, len(text))], rendered with no other pattern, gives one
    opening tag (class [cls L R]) and one closing tag around the escaped
    text, where escaping replaces [&], then [>], then [<], which escapes
    every character of the text once and leaves no [<] or [>] between the
    two tags. *)
Theorem whole_document_one_tag :
  text <> ""%string -> global rx = true -> matchAll rx text = [(0, JS.strlen text)] ->
  PatternSeries.markup [(cls, matcher_def rx)] None text [] PatternSeries.default_opts
  = Some (class_tag "mark" (cls ++ " L R")
          ++ JS.replace_all_char "<" "&lt;"
               (JS.replace_all_char ">" "&gt;" (JS.replace_all_char "&" "&amp;" text))
          ++ "</mark>")%string
  /\ JS.replace_all_char "<" "&lt;"
       (JS.replace_all_char ">" "&gt;" (JS.replace_all_char "&" "&amp;" text))
     = escaped text
  /\ no_angle (escaped text).
Proof.
  intros Ht Hg Hm.
  split; [|split; [exact (raw2HTML_escaped text) | exact (escaped_no_angle text)]].
  change (JS.replace_all_char "<" "&lt;"
            (JS.replace_all_char ">" "&gt;" (JS.replace_all_char "&" "&amp;" text)))
    with (SOT_text.raw2HTML text).
  unfold PatternSeries.markup.
  cbn [overlayranges PatternSeries.default_opts].
  rewrite (whole_document_map Ht Hg Hm).
  unfold SOT_map.markup, SOT_map.markup_loop, SOT_map.markup_step.
  cbn [SOT_map.html SOT_map.text SOT_map.starts SOT_map.n sstart send mk range
       rstart rend hd_error JS.nonempty].
  rewrite slice_empty, raw2HTML_empty, slice_whole.
  unfold SOT_map._layersstart, SOT_map._layersend, SOT_map._difdepth.
  cbn [origs mk List.length SOT_map._difdepth_loop SOT_map._istagdif skipn rev app
       SOT_map._layersstart_loop SOT_map._layersend_loop SOT_map.htmladd JS.nonempty
       range].
  rewrite tagstart_plain by reflexivity. rewrite tagend_plain.
  set (P := ("<mark class=" ++ JS.dq ++ cls ++ " L ")%string).
  set (T := (P ++ " " ++ JS.dq ++ ">")%string).
  assert (HT : JS.nonempty T = true) by reflexivity.
  assert (Hpiece : (JS.slice T 0 (JS.strlen P) ++ "R"
                    ++ JS.slice_from T (JS.strlen P + 1)
                    = class_tag "mark" (cls ++ " L R"))%string).
  { unfold T. rewrite slice_prefix.
    replace (P ++ " " ++ JS.dq ++ ">")%string with ((P ++ " ") ++ JS.dq ++ ">")%string
      by (rewrite append_assoc; reflexivity).
    replace (JS.strlen P + 1) with (JS.strlen (P ++ " "))
      by (rewrite strlen_append; reflexivity).
    rewrite slice_suffix. unfold P, class_tag, JS.dq.
    rewrite ?append_assoc. cbn [String.append]. rewrite ?append_assoc. reflexivity. }
  cbv beta iota zeta. cbn [String.append]. rewrite HT.
  change (JS.strlen "") with 0. rewrite Z.add_0_l.
  unfold SOT_map._setlayerright.
  destruct (SOT_text.raw2HTML text) as [|c s];
    unfold SOT_map.htmladd; rewrite ?HT;
    cbn [JS.nonempty push app SOT_map._setlayerright_loop origs mk
         setname orig lookup assign];
    rewrite ?HT;
    cbn [JS.nonempty push app SOT_map._setlayerright_loop origs mk
         setname orig lookup assign];
    rewrite String.eqb_refl;
    cbn [orange orig oend send range mk rend pieceindex pos nth_error
         SOT_map.set_piece]; rewrite Z.eqb_refl;
    cbn [nth_error SOT_map.set_piece SOT_map.html SOT_map.n];
    rewrite Hpiece, slice_from_end, raw2HTML_empty;
    unfold SOT_map.htmlstring; cbn [fold_left];
    rewrite ?append_assoc, ?append_nil_r; reflexivity.
Qed.

End WholeDocument.

(** * The claims *)

Section Claims.
Import SOT_text_map_range.
Local Open Scope string_scope.

(** C1 (failing input). The partition invariant is lost on a zero-length
    range: inserting [[0,10)] under [A] and then [[3,3)] under [B] stores the
    zero-length segment [[3,3)] between [[0,3)] and [[3,10)], so the ranges of
    the result are not strictly ascending (two segments start at 3) and the
    map invariant does not hold. *)
Theorem partition_broken_by_zero_length_range :
  build [InsRange "" (mkRange 0 10) "A"; InsRange "" (mkRange 3 3) "B"]
  = [ mk 0 3 [orig "A" 0 10 0];
      mk 3 3 [orig "A" 0 10 0; orig "B" 3 3 0];
      mk 3 10 [orig "A" 0 10 0] ]
  /\ ~ map_ok (build [InsRange "" (mkRange 0 10) "A"; InsRange "" (mkRange 3 3) "B"]).
Proof.
  split; [reflexivity|].
  intros [lo H]. vm_compute in H. destruct H as (_ & _ & _ & H & _).
  discriminate H.
Qed.

(** C2. Inserting [A = [0,10)] and then [B = [3,6)] into the empty map gives
    the three segments [{[0,3),[A]}], [{[3,6),[A,B]}], [{[6,10),[A]}], and on
    every text the rendering opens [A] once before the first segment, opens
    [B] with class [B L R] at the second, closes only [B] after the second
    and closes [A] once after the third. *)
Theorem overlap_nesting (text : string) :
  let map := addrange text (mkRange 3 6) "B" true
               (addrange text (mkRange 0 10) "A" true []) in
  map = [ mk 0 3 [orig "A" 0 10 0];
          mk 3 6 [orig "A" 0 10 0; orig "B" 3 6 0];
          mk 6 10 [orig "A" 0 10 0] ]
  /\ SOT_map.markup text map None None None
     = Some (class_tag "mark" "A L R" ++ SOT_text.raw2HTML (JS.slice text 0 3)
             ++ class_tag "mark" "B L R" ++ SOT_text.raw2HTML (JS.slice text 3 6)
             ++ "</mark>"
             ++ SOT_text.raw2HTML (JS.slice text 6 10) ++ "</mark>"
             ++ SOT_text.raw2HTML (JS.slice_from text 10)).
Proof.
  split; [reflexivity|].
  change (addrange text (mkRange 3 6) "B" true (addrange text (mkRange 0 10) "A" true []))
    with [ mk 0 3 [orig "A" 0 10 0];
           mk 3 6 [orig "A" 0 10 0; orig "B" 3 6 0];
           mk 6 10 [orig "A" 0 10 0] ].
  run_markup; reflexivity.
Qed.


(** C4 (failing input). Two ranges added one after the other under the
    same name, [[0,3)] and [[3,6)], give two segments whose origins differ as
    values (their ranges differ) but agree on name and sequence number, both
    calls of [addrange] leaving the number at 0.  The renderer does not tell
    them apart: the open depth of the second segment is 1, and one tag, opened
    for the first range, runs across both; the second range gets no tag of
    its own and no [L].  Were the two origins told apart, as they are when
    their sequence numbers differ, each range would be rendered in its own
    element. *)
Theorem different_ranges_same_tag :
  let map := addrange "" (mkRange 3 6) "A" true (addrange "" (mkRange 0 3) "A" true []) in
  let s1 := mk 0 3 [orig "A" 0 3 0] in
  let s2 := mk 3 6 [orig "A" 3 6 0] in
  map = [s1; s2]
  /\ same_origin (orig "A" 3 6 0) (orig "A" 0 3 0) = false
  /\ common_prefix_length same_origin (origs s2) (origs s1) = 0%nat
  /\ SOT_map._difdepth s2 (Some s1) = 1%nat
  /\ SOT_map.markup "012345" map None None None
     = Some (class_tag "mark" "A L R" ++ "012345</mark>")
  /\ SOT_map.markup "012345" [s1; mk 3 6 [orig "A" 3 6 1]] None None None
     = Some (class_tag "mark" "A L R" ++ "012</mark>"
             ++ class_tag "mark" "A L R" ++ "345</mark>").
Proof. cbv zeta. repeat split; reflexivity. Qed.

(** The open depth of a segment is the length of the common leading part of
    its origin list and the previous segment's, two origins being the same
    when they agree on name and sequence number (their ranges are not
    compared); it is 0 when there is no previous segment. *)
Lemma open_depth_is_common_prefix (seg prev : Seg) :
  SOT_map._difdepth seg (Some prev)
  = common_prefix_length same_name_seq (origs seg) (origs prev)
  /\ SOT_map._difdepth seg None = 0%nat.
Proof.
  split.
  - unfold SOT_map._difdepth. rewrite difdepth_loop_spec by reflexivity.
    reflexivity.
  - unfold SOT_map._difdepth. destruct (List.length (origs seg)); reflexivity.
Qed.

(** C5 (failing input). A zero-length range that falls inside a segment is
    not dropped: [addrange] of [[3,3)] splits the segment [[0,10)] and stores
    the zero-length intersection; [addmatches] does the same with a
    zero-length match. *)
Theorem zero_length_input_is_stored :
  addrange "" (mkRange 3 3) "B" true [mk 0 10 [orig "A" 0 10 0]]
  = [ mk 0 3 [orig "A" 0 10 0];
      mk 3 3 [orig "A" 0 10 0; orig "B" 3 3 0];
      mk 3 10 [orig "A" 0 10 0] ]
  /\ addmatches "abcd" (matcher_of [(1, 1)]) "x" true [mk 0 4 [orig "line" 0 4 0]]
     = [ mk 0 1 [orig "line" 0 4 0];
         mk 1 1 [orig "line" 0 4 0; orig "x" 1 1 0];
         mk 1 4 [orig "line" 0 4 0] ].
Proof. split; reflexivity. Qed.

(** C6 (failing input). An origin whose closing tag is configured empty
    ([htmltagend: '']) and that closes alone gets no [R]: its segment emits
    no closing tag, and the [R] marks are only put in after a closing tag
    was emitted. *)
Theorem void_tag_gets_no_R :
  let d := {| regex := Some (matcher_of [(0, 1)]); drange := None;
              htmltag := Some "br"; htmltagend := Some ""; htmlattrs := None |} in
  PatternSeries.buildmap [("v", d)] "x" [] true = [mk 0 1 [orig "v" 0 1 0]]
  /\ PatternSeries.markup [("v", d)] None "x" [] PatternSeries.default_opts
     = Some (class_tag "br" "v L  " ++ "x").
Proof. cbv zeta. split; reflexivity. Qed.

(** C7 (failing input). On an exact segment the replacement string is
    expanded as a replacement template: [$$] yields one [$], and [$&] yields
    the text of the segment. *)
Theorem replace_expands_dollar_patterns :
  SOT_text_map_replace.replace "abc" [mk 0 3 [orig "A" 0 3 0]] 0 "$$" = Some "$"
  /\ SOT_text_map_replace.replace "abcdef" [mk 1 3 [orig "A" 1 3 0]] 0 "[$&]"
     = Some "a[bc]def".
Proof. split; reflexivity. Qed.

(** C8 (counterexample). On the empty text, the sole match [[0,0)] is dropped
    and the output has no tag. *)
Lemma empty_text_renders_no_tag :
  let rx := {| global := true; matchAll := fun t => [(0, JS.strlen t)] |} in
  matchAll rx "" = [(0, JS.strlen "")]
  /\ PatternSeries.buildmap [("doc", matcher_def rx)] "" [] true = []
  /\ PatternSeries.markup [("doc", matcher_def rx)] None "" [] PatternSeries.default_opts
     = Some "".
Proof. cbv zeta. repeat split; reflexivity. Qed.

Lemma whole_document_one_tag_witness :
  let rx := {| global := true; matchAll := fun t => [(0, JS.strlen t)] |} in
  ("a<b&c>" <> "" /\ global rx = true /\ matchAll rx "a<b&c>" = [(0, JS.strlen "a<b&c>")])
  /\ PatternSeries.markup [("doc", matcher_def rx)] None "a<b&c>" []
       PatternSeries.default_opts
     = Some (class_tag "mark" "doc L R" ++ "a&lt;b&amp;c&gt;" ++ "</mark>").
Proof.
  cbv zeta. split; [repeat split; discriminate|].
  exact (proj1 (whole_document_one_tag "a<b&c>" "doc"
                  {| global := true; matchAll := fun t => [(0, JS.strlen t)] |}
                  ltac:(discriminate) eq_refl eq_refl)).
Defined.

(** C9. On a map that satisfies the map invariant, [atpos] returns a result;
    it is the index of the segment whose half-open range contains [pos],
    there is at most one such segment, and it is [-1] when no segment
    contains [pos] (a gap, before the first segment, at or after the end of
    the last, or the empty map). *)
Theorem atpos_finds_containing_segment (map : TextMap) (pos : Z) :
  map_ok map ->
  (exists r, atpos pos map = Some r)
  /\ (forall i s, nth_error map i = Some s -> inseg s pos ->
        atpos pos map = Some (Z.of_nat i))
  /\ ((forall s, In s map -> ~ inseg s pos) -> atpos pos map = Some (-1))
  /\ (forall i j si sj, nth_error map i = Some si -> nth_error map j = Some sj ->
        inseg si pos -> inseg sj pos -> i = j).
Proof.
  intros [lo Hc]. split; [|split; [|split]].
  - destruct map as [|a rest] eqn:Em; [exists (-1); reflexivity|].
    rewrite <- Em in *.
    rewrite (atpos_unfold true lo map pos Hc) by (rewrite Em; discriminate).
    destruct (isposin pos map (scan map pos 0)); eauto.
  - intros i s Hi Hs. exact (atpos_inside true lo map pos i s Hc Hi Hs).
  - intros Hout. exact (atpos_outside true lo map pos Hc Hout).
  - intros i j si sj Hi Hj [A1 A2] [B1 B2].
    destruct (Nat.lt_trichotomy i j) as [H|[H|H]]; [|exact H|].
    + destruct (chain_pairwise true lo map Hc i j si sj H Hi Hj) as (_ & D & _). lia.
    + destruct (chain_pairwise true lo map Hc j i sj si H Hj Hi) as (_ & D & _). lia.
Qed.

Lemma atpos_finds_containing_segment_witness :
  let map := [ mk 0 3 [orig "A" 0 10 0];
               mk 3 6 [orig "A" 0 10 0; orig "B" 3 6 0];
               mk 8 10 [orig "A" 0 10 0] ] in
  map_ok map /\ atpos 4 map = Some 1 /\ atpos 7 map = Some (-1).
Proof.
  cbv zeta.
  assert (Hok : map_ok [ mk 0 3 [orig "A" 0 10 0];
                         mk 3 6 [orig "A" 0 10 0; orig "B" 3 6 0];
                         mk 8 10 [orig "A" 0 10 0] ]).
  { exists 0. simpl. unfold sstart, send. simpl. lia. }
  split; [exact Hok|].
  destruct (atpos_finds_containing_segment _ 4 Hok) as (_ & Hin & _ & _).
  destruct (atpos_finds_containing_segment _ 7 Hok) as (_ & _ & Hout & _).
  split.
  - apply (Hin 1%nat (mk 3 6 [orig "A" 0 10 0; orig "B" 3 6 0]) eq_refl).
    unfold inseg, sstart, send. simpl. lia.
  - apply Hout. intros s [<-|[<-|[<-|[]]]]; unfold inseg, sstart, send; simpl; lia.
Defined.

(** C10. For an index at or past the end of the map, [replace] returns the
    text unchanged. *)
Theorem replace_out_of_range_is_noop (text : string) (map : TextMap) (i : Z)
    (newtext : string) :
  Z.of_nat (List.length map) <= i ->
  SOT_text_map_replace.replace text map i newtext = Some text.
Proof.
  intros H. unfold SOT_text_map_replace.replace.
  destruct (Z.of_nat (List.length map) <=? i)%Z eqn:E; [reflexivity|].
  apply Z.leb_gt in E. lia.
Qed.

Lemma replace_out_of_range_is_noop_witness :
  Z.of_nat (List.length [mk 0 3 [orig "A" 0 3 0]]) <= 1
  /\ SOT_text_map_replace.replace "abc" [mk 0 3 [orig "A" 0 3 0]] 1 "X" = Some "abc".
Proof.
  split; [simpl; lia|].
  apply (replace_out_of_range_is_noop "abc" [mk 0 3 [orig "A" 0 3 0]] 1 "X").
  simpl; lia.
Defined.

End Claims.

(** * Further properties *)

(** ** The position index: [next], [after], [before], [nearest] *)

Section PositionIndex.
Import SOT_text_map_range.

Lemma scan_boundary strict lo map pos :
  chain strict lo map -> forall k s, nth_error map k = Some s ->
  (Z.of_nat k < scan map pos 0 <-> send s <= pos).
Proof.
  intros Hc k s Hk. split; intros H.
  - exact (scan_before pos map k s Hk H).
  - destruct (Z_lt_le_dec (Z.of_nat k) (scan map pos 0)) as [L|L]; [exact L|].
    pose proof (scan_after pos strict lo map Hc k s Hk L). lia.
Qed.

Lemma isposin_spec pos map i :
  isposin pos map i = true <->
  exists s, 0 <= i /\ nth_error map (Z.to_nat i) = Some s /\ sstart s <= pos <= send s.
Proof.
  unfold isposin, get. split.
  - intros H. apply andb_true_iff in H. destruct H as [H1 H2].
    apply andb_true_iff in H1. destruct H1 as [H0 H1]. apply Z.leb_le in H0.
    destruct (i <? 0) eqn:E; [discriminate|].
    destruct (nth_error map (Z.to_nat i)) as [s|]; [|discriminate].
    apply andb_true_iff in H2. destruct H2 as [A B].
    apply Z.leb_le in A. apply Z.leb_le in B. exists s. repeat split; trivial.
  - intros (s & H0 & Hs & A & B).
    assert (Hl : (Z.to_nat i < List.length map)%nat) by (apply nth_error_Some; congruence).
    destruct (i <? 0) eqn:E; [apply Z.ltb_lt in E; lia|]. rewrite Hs.
    replace (0 <=? i) with true by (symmetry; apply Z.leb_le; lia).
    replace (i <? Z.of_nat (List.length map)) with true by (symmetry; apply Z.ltb_lt; lia).
    replace (sstart s <=? pos) with true by (symmetry; apply Z.leb_le; lia).
    replace (pos <=? send s) with true by (symmetry; apply Z.leb_le; lia).
    reflexivity.
Qed.

(** The value of [after] on an ordered map, in terms of the index [t] that
    [next] finds. *)
Lemma after_boundary strict lo map pos :
  chain strict lo map ->
  let t := scan map pos 0 in
  let r := if isposin pos map t then t + 1 else t in
  0 <= r <= Z.of_nat (List.length map)
  /\ forall k s, nth_error map k = Some s -> (Z.of_nat k < r <-> sstart s <= pos).
Proof.
  intros Hc t r. pose proof (scan_bounds pos map) as Hb. fold t in Hb.
  assert (Hr : 0 <= r <= Z.of_nat (List.length map)).
  { unfold r. destruct (isposin pos map t) eqn:E; [|lia].
    apply isposin_spec in E. destruct E as (s & _ & Hs & _).
    assert ((Z.to_nat t < List.length map)%nat) by (apply nth_error_Some; congruence).
    lia. }
  split; [exact Hr|]. intros k s Hk.
  pose proof (scan_boundary strict lo map pos Hc k s Hk) as Bk. fold t in Bk.
  assert (Hsp : sstart s <= send s).
  { pose proof (chain_spans strict lo map Hc) as F. rewrite Forall_forall in F.
    apply span_ok_le with strict. apply F. eapply nth_error_In; exact Hk. }
  destruct (Z_lt_le_dec (Z.of_nat k) t) as [L|L].
  - assert (send s <= pos) by (apply Bk; exact L).
    unfold r. destruct (isposin pos map t); split; intros; lia.
  - assert (Hps : pos < send s) by lia.
    destruct (Z.eq_dec (Z.of_nat k) t) as [E|N].
    + unfold r. destruct (isposin pos map t) eqn:Ei.
      * apply isposin_spec in Ei. destruct Ei as (s' & _ & Hs' & A & _).
        rewrite <- E, Nat2Z.id, Hk in Hs'. inversion Hs'; subst s'. split; intros; lia.
      * split; [lia|]. intros Hle. exfalso.
        assert (isposin pos map t = true); [|congruence].
        apply isposin_spec. exists s. rewrite <- E, Nat2Z.id. repeat split; trivial; lia.
    + assert (Hlt : (Z.to_nat t < k)%nat) by lia.
      destruct (nth_error map (Z.to_nat t)) as [st|] eqn:Et.
      2:{ apply nth_error_None in Et.
          assert ((k < List.length map)%nat) by (apply nth_error_Some; congruence). lia. }
      destruct (chain_pairwise strict lo map Hc _ _ st s Hlt Et Hk) as (_ & D & _).
      pose proof (scan_boundary strict lo map pos Hc _ st Et) as Bt.
      rewrite Z2Nat.id in Bt by lia. fold t in Bt.
      assert (pos < send st) by lia.
      unfold r. destruct (isposin pos map t); split; intros; lia.
Qed.

(** [next] on an ordered, non-empty map returns the number of segments that
    end at or before [pos]: the index of the first segment whose end exceeds
    [pos], or [map.length]. *)
Theorem next_counts_ends_before map pos :
  ordered false map -> map <> [] ->
  exists r, next pos map = Some r
    /\ 0 <= r <= Z.of_nat (List.length map)
    /\ forall k s, nth_error map k = Some s -> (Z.of_nat k < r <-> send s <= pos).
Proof.
  intros [lo Hc] Hne. exists (scan map pos 0).
  split; [exact (next_spec false lo map pos Hc Hne)|].
  split; [exact (scan_bounds pos map)|].
  exact (scan_boundary false lo map pos Hc).
Qed.

Lemma next_counts_ends_before_witness :
  exists r, next 5 [mk 0 2 []; mk 2 5 []; mk 7 9 []] = Some r
    /\ 0 <= r <= 3
    /\ forall k s, nth_error [mk 0 2 []; mk 2 5 []; mk 7 9 []] k = Some s ->
         (Z.of_nat k < r <-> send s <= 5).
Proof.
  apply (next_counts_ends_before [mk 0 2 []; mk 2 5 []; mk 7 9 []] 5).
  - exists 0. simpl. unfold sstart, send. simpl. lia.
  - discriminate.
Defined.

(** [after] on an ordered, non-empty map returns the number of segments that
    start at or before [pos]: the index of the first segment that starts
    after [pos], or [map.length].  On the empty map it returns [-1]. *)
Theorem after_counts_starts_before map pos :
  ordered false map ->
  after pos [] = Some (-1)
  /\ (map <> [] ->
      exists r, after pos map = Some r
        /\ 0 <= r <= Z.of_nat (List.length map)
        /\ forall k s, nth_error map k = Some s -> (Z.of_nat k < r <-> sstart s <= pos)).
Proof.
  intros [lo Hc]. split; [reflexivity|]. intros Hne.
  unfold after. rewrite (next_spec false lo map pos Hc Hne).
  eexists. split; [reflexivity|]. exact (after_boundary false lo map pos Hc).
Qed.

Lemma after_counts_starts_before_witness :
  after 5 [] = Some (-1)
  /\ ([mk 0 2 []; mk 2 5 []; mk 5 9 []] <> [] ->
      exists r, after 5 [mk 0 2 []; mk 2 5 []; mk 5 9 []] = Some r
        /\ 0 <= r <= 3
        /\ forall k s, nth_error [mk 0 2 []; mk 2 5 []; mk 5 9 []] k = Some s ->
             (Z.of_nat k < r <-> sstart s <= 5)).
Proof.
  apply (after_counts_starts_before [mk 0 2 []; mk 2 5 []; mk 5 9 []] 5).
  exists 0. simpl. unfold sstart, send. simpl. lia.
Defined.

(** [before] on an ordered, non-empty map returns the index of the last
    segment that starts at or before [pos], and [0] when every segment starts
    after [pos].  On the empty map it returns [-1]. *)
Theorem before_is_last_start_before map pos :
  ordered false map ->
  before pos [] = Some (-1)
  /\ (map <> [] ->
      exists r s, before pos map = Some r
        /\ 0 <= r /\ nth_error map (Z.to_nat r) = Some s
        /\ (forall k s', nth_error map k = Some s' -> r < Z.of_nat k -> pos < sstart s')
        /\ (sstart s <= pos \/ r = 0)).
Proof.
  intros [lo Hc]. split; [reflexivity|]. intros Hne.
  unfold before. rewrite (next_spec false lo map pos Hc Hne).
  pose proof (scan_bounds pos map) as Hb. set (t := scan map pos 0) in *.
  destruct (after_boundary false lo map pos Hc) as (Hr & Hbd). fold t in Hr, Hbd.
  replace (0 <=? t) with true by (symmetry; apply Z.leb_le; lia). cbn [andb].
  set (r := if isposin pos map t then t + 1 else t) in *.
  replace (0 <=? r) with true by (symmetry; apply Z.leb_le; lia).
  assert (Hlen : (0 < List.length map)%nat) by (destruct map; [congruence|simpl; lia]).
  destruct (nth_error map (Z.to_nat (Z.max 0 (r - 1)))) as [s|] eqn:Es.
  2:{ apply nth_error_None in Es. lia. }
  exists (Z.max 0 (r - 1)), s. split; [reflexivity|]. split; [lia|]. split; [exact Es|].
  split.
  - intros k s' Hk Hlt. pose proof (Hbd k s' Hk). lia.
  - destruct (Z_le_gt_dec r 0) as [L|G]; [right; lia|]. left.
    apply (Hbd (Z.to_nat (Z.max 0 (r - 1))) s Es). lia.
Qed.

Lemma before_is_last_start_before_witness :
  before 6 [] = Some (-1)
  /\ ([mk 0 2 []; mk 2 5 []; mk 7 9 []] <> [] ->
      exists r s, before 6 [mk 0 2 []; mk 2 5 []; mk 7 9 []] = Some r
        /\ 0 <= r /\ nth_error [mk 0 2 []; mk 2 5 []; mk 7 9 []] (Z.to_nat r) = Some s
        /\ (forall k s', nth_error [mk 0 2 []; mk 2 5 []; mk 7 9 []] k = Some s' ->
              r < Z.of_nat k -> 6 < sstart s')
        /\ (sstart s <= 6 \/ r = 0)).
Proof.
  apply (before_is_last_start_before [mk 0 2 []; mk 2 5 []; mk 7 9 []] 6).
  exists 0. simpl. unfold sstart, send. simpl. lia.
Defined.

(** The midpoint test of [nearest], on integers. *)
Lemma Qltb_midpoint (pos a b : Z) :
  Qltb (inject_Z pos) (inject_Z (a - b) / 2 + inject_Z b)%Q = (2 * pos <? a + b).
Proof.
  unfold Qltb. unfold Zminus. rewrite inject_Z_plus, inject_Z_opp.
  change (?x / 2)%Q with (x * (1 # 2))%Q.
  destruct (2 * pos <? a + b) eqn:E.
  - apply Z.ltb_lt in E. rewrite Zlt_Qlt, inject_Z_plus, inject_Z_mult in E.
    change (inject_Z 2) with 2%Q in E.
    apply negb_true_iff. apply not_true_is_false. intros H.
    apply Qle_bool_iff in H. lra.
  - apply Z.ltb_ge in E. rewrite Zle_Qle, inject_Z_plus, inject_Z_mult in E.
    change (inject_Z 2) with 2%Q in E.
    apply negb_false_iff. apply Qle_bool_iff. lra.
Qed.

Lemma get_nth map k s :
  0 <= k -> nth_error map (Z.to_nat k) = Some s -> get map k = Some s.
Proof.
  intros H0 Hs. unfold get. destruct (k <? 0) eqn:E; [apply Z.ltb_lt in E; lia|exact Hs].
Qed.

(** [nearest] on a well-formed, non-empty map returns the index of a segment
    whose range, ends included, is closest to [pos]; of several closest
    segments it returns the rightmost.  On the empty map it returns [-1]. *)
Theorem nearest_is_rightmost_closest map pos :
  map_ok map ->
  nearest pos [] = Some (-1)
  /\ (map <> [] ->
      exists r s, nearest pos map = Some r
        /\ 0 <= r /\ nth_error map (Z.to_nat r) = Some s
        /\ forall k s', nth_error map k = Some s' ->
             dist s pos <= dist s' pos
             /\ (r < Z.of_nat k -> dist s pos < dist s' pos)).
Proof.
  intros [lo Hc]. split; [reflexivity|]. intros Hne.
  unfold nearest. rewrite (next_spec true lo map pos Hc Hne).
  pose proof (scan_bounds pos map) as Hb. set (t := scan map pos 0) in *.
  assert (Hlen : (0 < List.length map)%nat) by (destruct map; [congruence|simpl; lia]).
  set (len := Z.of_nat (List.length map)) in *.
  set (i := Z.min t (len - 1)).
  assert (Hi : 0 <= i < len) by (unfold i, len; lia).
  destruct (nth_error map (Z.to_nat i)) as [si|] eqn:Esi.
  2:{ apply nth_error_None in Esi. unfold len in Hi. lia. }
  pose proof (scan_boundary true lo map pos Hc) as Bd. fold t in Bd.
  pose proof (map_ok_pairwise map (ex_intro _ lo Hc)) as Pw.
  assert (Hsp : forall k s', nth_error map k = Some s' -> sstart s' < send s').
  { intros k s' Hk. pose proof (chain_spans true lo map Hc) as F.
    rewrite Forall_forall in F. apply (F s'). eapply nth_error_In; exact Hk. }
  assert (Rel : forall k s', nth_error map k = Some s' ->
            (Z.of_nat k < i -> send s' <= sstart si)
            /\ (Z.of_nat k = i -> s' = si)
            /\ (i < Z.of_nat k -> send si <= sstart s')).
  { intros k s' Hk. repeat split; intros H.
    - destruct (Pw k (Z.to_nat i) s' si) as (_ & D & _); trivial; lia.
    - rewrite <- H, Nat2Z.id in Esi. congruence.
    - destruct (Pw (Z.to_nat i) k si s') as (_ & D & _); trivial; lia. }
  pose proof (Bd _ si Esi) as Bi. rewrite Z2Nat.id in Bi by lia.
  pose proof (Hsp _ si Esi) as Spi.
  destruct ((0 <? i) && negb (isposin pos map i)) eqn:Etest.
  - apply andb_true_iff in Etest. destruct Etest as [Ei0 Enin].
    apply Z.ltb_lt in Ei0. apply negb_true_iff in Enin.
    destruct (nth_error map (Z.to_nat (i - 1))) as [sp|] eqn:Esp.
    2:{ apply nth_error_None in Esp. unfold len in Hi. lia. }
    rewrite (get_nth map i si) by (trivial; lia).
    rewrite (get_nth map (i - 1) sp) by (trivial; lia).
    rewrite Qltb_midpoint.
    pose proof (Bd _ sp Esp) as Bp. rewrite Z2Nat.id in Bp by lia.
    pose proof (Hsp _ sp Esp) as Spp.
    destruct (Rel _ sp Esp) as (Rp & _ & _).
    assert (Hpi : send sp <= sstart si) by (apply Rp; lia).
    assert (Hout : pos < sstart si \/ send si < pos).
    { destruct (Z_lt_le_dec pos (sstart si)) as [L|L]; [left; exact L|].
      destruct (Z_lt_le_dec (send si) pos) as [L'|L']; [right; exact L'|].
      exfalso. assert (isposin pos map i = true); [|congruence].
      apply isposin_spec. exists si. repeat split; trivial; lia. }
    assert (Relp : forall k s', nth_error map k = Some s' ->
              (Z.of_nat k < i - 1 -> send s' <= sstart sp)
              /\ (Z.of_nat k = i - 1 -> s' = sp)).
    { intros k s' Hk. split; intros H.
      - destruct (Pw k (Z.to_nat (i - 1)) s' sp) as (_ & D & _); trivial; lia.
      - assert (k = Z.to_nat (i - 1)) by lia. subst k. congruence. }
    destruct (2 * pos <? sstart si + send sp) eqn:Emid.
    + apply Z.ltb_lt in Emid. exists (i - 1), sp.
      split; [reflexivity|]. split; [lia|]. split; [exact Esp|].
      intros k s' Hk. pose proof (Hsp _ _ Hk) as Spk. pose proof (Bd _ _ Hk) as Bk.
      destruct (Rel _ _ Hk) as (R1 & R2 & R3). destruct (Relp _ _ Hk) as (P1 & P2).
      assert (Cases : Z.of_nat k < i - 1 \/ Z.of_nat k = i - 1 \/ Z.of_nat k = i
                      \/ i < Z.of_nat k) by lia.
      unfold dist.
      destruct (pos <? sstart sp) eqn:A1; [apply Z.ltb_lt in A1|apply Z.ltb_ge in A1];
      destruct (send sp <? pos) eqn:A2; [apply Z.ltb_lt in A2|apply Z.ltb_ge in A2| |];
      try (apply Z.ltb_lt in A2); try (apply Z.ltb_ge in A2);
      destruct (pos <? sstart s') eqn:A3; try (apply Z.ltb_lt in A3);
      try (apply Z.ltb_ge in A3);
      destruct (send s' <? pos) eqn:A4; try (apply Z.ltb_lt in A4);
      try (apply Z.ltb_ge in A4);
      (destruct Cases as [C|[C|[C|C]]];
       [ specialize (P1 C) | specialize (P2 C); subst s'
       | specialize (R2 C); subst s' | specialize (R3 C) ]); lia.
    + apply Z.ltb_ge in Emid. exists i, si.
      split; [reflexivity|]. split; [lia|]. split; [exact Esi|].
      intros k s' Hk. pose proof (Hsp _ _ Hk) as Spk. pose proof (Bd _ _ Hk) as Bk.
      destruct (Rel _ _ Hk) as (R1 & R2 & R3). destruct (Relp _ _ Hk) as (P1 & P2).
      assert (Cases : Z.of_nat k < i - 1 \/ Z.of_nat k = i - 1 \/ Z.of_nat k = i
                      \/ i < Z.of_nat k) by lia.
      assert (Hk' : Z.of_nat k < len)
        by (unfold len; apply inj_lt; apply nth_error_Some; congruence).
      unfold dist.
      destruct (pos <? sstart si) eqn:A1; [apply Z.ltb_lt in A1|apply Z.ltb_ge in A1];
      destruct (send si <? pos) eqn:A2; try (apply Z.ltb_lt in A2);
      try (apply Z.ltb_ge in A2);
      destruct (pos <? sstart s') eqn:A3; try (apply Z.ltb_lt in A3);
      try (apply Z.ltb_ge in A3);
      destruct (send s' <? pos) eqn:A4; try (apply Z.ltb_lt in A4);
      try (apply Z.ltb_ge in A4);
      (destruct Cases as [C|[C|[C|C]]];
       [ specialize (P1 C) | specialize (P2 C); subst s'
       | specialize (R2 C); subst s' | specialize (R3 C) ]); lia.
  - exists i, si. split; [reflexivity|]. split; [lia|]. split; [exact Esi|].
    intros k s' Hk. pose proof (Hsp _ _ Hk) as Spk. pose proof (Bd _ _ Hk) as Bk.
    destruct (Rel _ _ Hk) as (R1 & R2 & R3).
    assert (Hk' : Z.of_nat k < len)
      by (unfold len; apply inj_lt; apply nth_error_Some; congruence).
    assert (Hin : i <= 0 \/ sstart si <= pos <= send si).
    { apply andb_false_iff in Etest. destruct Etest as [E|E].
      - apply Z.ltb_ge in E. left; exact E.
      - apply negb_false_iff in E. apply isposin_spec in E.
        destruct E as (s0 & _ & Hs0 & A). right. congruence. }
    assert (Cases : Z.of_nat k < i \/ Z.of_nat k = i \/ i < Z.of_nat k) by lia.
    unfold dist.
    destruct (pos <? sstart si) eqn:A1; [apply Z.ltb_lt in A1|apply Z.ltb_ge in A1];
    destruct (send si <? pos) eqn:A2; try (apply Z.ltb_lt in A2);
    try (apply Z.ltb_ge in A2);
    destruct (pos <? sstart s') eqn:A3; try (apply Z.ltb_lt in A3);
    try (apply Z.ltb_ge in A3);
    destruct (send s' <? pos) eqn:A4; try (apply Z.ltb_lt in A4);
    try (apply Z.ltb_ge in A4);
    (destruct Cases as [C|[C|C]];
     [ specialize (R1 C) | specialize (R2 C); subst s' | specialize (R3 C) ]); lia.
Qed.

Lemma nearest_is_rightmost_closest_witness :
  exists r s, nearest 6 [mk 0 2 []; mk 2 5 []; mk 7 9 []] = Some r
    /\ 0 <= r /\ nth_error [mk 0 2 []; mk 2 5 []; mk 7 9 []] (Z.to_nat r) = Some s
    /\ forall k s', nth_error [mk 0 2 []; mk 2 5 []; mk 7 9 []] k = Some s' ->
         dist s 6 <= dist s' 6 /\ (r < Z.of_nat k -> dist s 6 < dist s' 6).
Proof.
  apply (nearest_is_rightmost_closest [mk 0 2 []; mk 2 5 []; mk 7 9 []] 6).
  - exists 0. simpl. unfold sstart, send. simpl. lia.
  - discriminate.
Defined.

End PositionIndex.

(** ** Overwrite-mode insertion *)

Section OverwriteMode.
Import SOT_text_map.

Lemma overwrite_skip_spec e rest : forall i,
  exists k,
    _overwrite_skip rest e i = (i + k)%nat
    /\ Forall (fun x => send x <= e) (firstn k rest)
    /\ match skipn k rest with x :: _ => e < send x | [] => True end.
Proof.
  induction rest as [|x rest IH]; intros i.
  - exists 0%nat. simpl. rewrite Nat.add_0_r. auto.
  - simpl. destruct (send x <=? e) eqn:E.
    + apply Z.leb_le in E. destruct (IH (S i)) as (k & Ek & Fk & Xk).
      exists (S k). rewrite Ek. simpl. split; [lia|]. auto.
    + apply Z.leb_gt in E. exists 0%nat. simpl. rewrite Nat.add_0_r. auto.
Qed.

Lemma nth_error_hd_skipn {A} (l : list A) k :
  nth_error l k = match skipn k l with x :: _ => Some x | [] => None end.
Proof.
  revert l. induction k as [|k IH]; intros [|a l]; simpl; trivial.
Qed.

Lemma skipn_succ_tl {A} (l : list A) k x tl :
  skipn k l = x :: tl -> skipn (S k) l = tl.
Proof.
  revert l. induction k as [|k IH]; intros [|a l] H; try discriminate.
  - inversion H. reflexivity.
  - change (skipn (S k) l = tl). apply IH. exact H.
Qed.

Lemma firstn_succ_snoc {A} (l : list A) k x tl :
  skipn k l = x :: tl -> firstn (S k) l = firstn k l ++ [x].
Proof.
  revert l. induction k as [|k IH]; intros [|a l] H; try discriminate.
  - inversion H. reflexivity.
  - change (a :: firstn (S k) l = a :: (firstn k l ++ [x])). f_equal.
    apply IH. exact H.
Qed.

(** In a well-formed chain every segment ends at or after the end of the
    first. *)
Lemma chain_sends_ge lo h tl :
  chain true lo (h :: tl) -> Forall (fun x => send h <= send x) (h :: tl).
Proof.
  simpl. intros (_ & _ & H3). constructor; [lia|].
  pose proof (chain_starts true _ _ H3) as Fs.
  pose proof (chain_spans true _ _ H3) as Fp.
  rewrite Forall_forall in *. intros x Hx.
  specialize (Fs x Hx). specialize (Fp x Hx). simpl in Fp. lia.
Qed.

Lemma chain_raise lo lo' l :
  chain true lo l -> Forall (fun x => lo' <= sstart x) l -> chain true lo' l.
Proof.
  destruct l as [|h tl]; simpl; [trivial|].
  intros (H1 & H2 & H3) F. inversion F; subst. auto.
Qed.

Lemma last_end_le lo l b :
  lo <= b -> Forall (fun x => send x <= b) l -> last_end lo l <= b.
Proof.
  revert lo. induction l as [|x l IH]; intros lo Hlo F; [exact Hlo|].
  inversion F; subst. unfold last_end. simpl. apply IH; assumption.
Qed.

(** One Overwrite-mode insertion of a non-empty range into the part of a
    well-formed map from [p.i] on: the segments [F] ending at or before the
    range are copied, the segments [D] that overlap it are skipped, the
    segments [R] follow. *)
Lemma insertrange_overwrite map p s e name lo :
  chain true lo (skipn (p_i p) map) -> s < e ->
  exists F D R i',
    skipn (p_i p) map = F ++ D ++ R
    /\ _insertrange s e name map false p
       = {| newmap := newmap p ++ F ++ [mk s e [orig name s e (p_setindex p)]];
            p_i := i'; p_setindex := p_setindex p |}
    /\ skipn i' map = R
    /\ Forall (fun x => send x <= s) F
    /\ Forall (fun x => sstart x < e /\ s < send x) D
    /\ Forall (fun x => e <= sstart x) R.
Proof.
  intros Hc Hse. unfold _insertrange.
  set (rest := skipn (p_i p) map) in *.
  destruct (copy_before_spec s rest p) as (k1 & E1 & F1 & X1).
  rewrite E1. cbn [newmap p_i p_setindex]. unfold _overwrite.
  cbn [newmap p_i p_setindex].
  set (rest1 := skipn k1 rest) in *.
  assert (Er1 : skipn (p_i p + k1) map = rest1)
    by (unfold rest1, rest; symmetry; apply skipn_skipn_add).
  rewrite Er1.
  destruct (overwrite_skip_spec e rest1 (p_i p + k1)) as (k2 & E2 & F2 & X2).
  rewrite E2.
  assert (Hsplit : rest = firstn k1 rest ++ rest1)
    by (symmetry; apply firstn_skipn).
  assert (Hc1 : chain true (last_end lo (firstn k1 rest)) rest1).
  { rewrite Hsplit in Hc. apply chain_app in Hc. tauto. }
  assert (Hgt1 : Forall (fun x => s < send x) rest1).
  { destruct rest1 as [|h tl] eqn:Eh; [constructor|].
    pose proof (chain_sends_ge _ _ _ Hc1) as G.
    eapply Forall_impl; [|exact G]. simpl. intros; lia. }
  assert (Hsp1 : Forall (fun x => sstart x < send x) rest1)
    by exact (chain_spans true _ _ Hc1).
  assert (En : nth_error map (p_i p + k1 + k2) = nth_error rest1 k2)
    by (rewrite <- Er1; symmetry; apply nth_error_skipn).
  rewrite En, (nth_error_hd_skipn rest1 k2).
  assert (Hsplit1 : rest1 = firstn k2 rest1 ++ skipn k2 rest1)
    by (symmetry; apply firstn_skipn).
  assert (Eskip : skipn (p_i p + k1 + k2) map = skipn k2 rest1)
    by (unfold rest1, rest; rewrite skipn_skipn_add, skipn_skipn_add; f_equal; lia).
  remember (skipn k2 rest1) as R2 eqn:ER2.
  assert (Hc2 : chain true (last_end (last_end lo (firstn k1 rest)) (firstn k2 rest1)) R2).
  { rewrite Hsplit1 in Hc1. apply chain_app in Hc1. tauto. }
  assert (HD1 : Forall (fun x => sstart x < e /\ s < send x) (firstn k2 rest1)).
  { rewrite Forall_forall in *. intros x Hx.
    assert (Hin : In x rest1) by (rewrite Hsplit1; apply in_or_app; left; exact Hx).
    specialize (F2 x Hx). specialize (Hgt1 x Hin). specialize (Hsp1 x Hin).
    simpl in *. lia. }
  assert (Enew : push (newmap p ++ firstn k1 rest)
                   (mk s e (neworigs name
                      {| ostart := s; oend := e; setindex := p_setindex p |}))
                 = newmap p ++ firstn k1 rest ++ [mk s e [orig name s e (p_setindex p)]])
    by (unfold push; rewrite <- app_assoc; reflexivity).
  rewrite Enew.
  destruct R2 as [|h tl].
  - exists (firstn k1 rest), (firstn k2 rest1), [], (p_i p + k1 + k2)%nat.
    split; [rewrite Hsplit at 1; f_equal; exact Hsplit1|].
    split; [reflexivity|]. split; [exact Eskip|]. auto.
  - destruct (sstart h <? e) eqn:Ehe.
    + apply Z.ltb_lt in Ehe.
      exists (firstn k1 rest), (firstn k2 rest1 ++ [h]), tl, (S (p_i p + k1 + k2)).
      split; [rewrite Hsplit at 1; f_equal; rewrite <- app_assoc; exact Hsplit1|].
      split; [reflexivity|].
      split.
      { rewrite <- (skipn_succ_tl rest1 k2 h tl (eq_sym ER2)). unfold rest1, rest.
        rewrite skipn_skipn_add, skipn_skipn_add. f_equal. lia. }
      split; [exact F1|]. split.
      * apply Forall_app. split; [exact HD1|]. constructor; [|constructor].
        split; [exact Ehe|]. rewrite Forall_forall in Hgt1. apply Hgt1.
        rewrite Hsplit1. apply in_or_app. right. left. reflexivity.
      * simpl in Hc2. destruct Hc2 as (_ & _ & Hc3).
        pose proof (chain_starts true _ _ Hc3) as Fs.
        eapply Forall_impl; [|exact Fs]. simpl. intros; lia.
    + apply Z.ltb_ge in Ehe.
      exists (firstn k1 rest), (firstn k2 rest1), (h :: tl), (p_i p + k1 + k2)%nat.
      split; [rewrite Hsplit at 1; f_equal; exact Hsplit1|].
      split; [reflexivity|]. split; [exact Eskip|].
      split; [exact F1|]. split; [exact HD1|].
      simpl in Hc2. destruct Hc2 as (_ & Hh & Hc3). constructor; [exact Ehe|].
      pose proof (chain_starts true _ _ Hc3) as Fs.
      eapply Forall_impl; [|exact Fs]. simpl. intros; lia.
Qed.

Lemma overwrite_survivors (np F D R : list Seg) (new x : Seg) s e :
  Forall (fun y => sstart y < e /\ s < send y) D ->
  In x (np ++ F ++ D ++ R) -> send x <= s \/ e <= sstart x ->
  In x ((np ++ F ++ [new]) ++ R).
Proof.
  intros FD Hin Hpos. rewrite !in_app_iff in *. rewrite Forall_forall in FD.
  destruct Hin as [H|[H|[H|H]]]; auto.
  specialize (FD x H). lia.
Qed.

Lemma over_step name map b done p s e :
  over_inv name map b done p -> b <= s -> s < e ->
  over_inv name map e (done ++ [(s, e)]) (_addmatch name map false p (s, e)).
Proof.
  intros (Hidx & [lo Hc] & Fnm & Frest & Fdone & Hmem) Hbs Hse.
  pose proof Hc as Hc'. apply chain_app in Hc'. destruct Hc' as [Hcn Hcr].
  destruct (insertrange_overwrite map p s e name _ Hcr Hse)
    as (F & D & R & i' & Esplit & Eins & ER & FF & FD & FR).
  unfold _addmatch. cbn [fst snd]. rewrite Eins. unfold over_inv.
  cbn [newmap p_i p_setindex]. rewrite ER. rewrite Esplit in *.
  set (new := mk s e [orig name s e (p_setindex p)]).
  assert (FA : Forall (fun x => send x <= s) (newmap p ++ F)).
  { apply Forall_app. split; [|exact FF].
    eapply Forall_impl; [|exact Fnm]. simpl. intros; lia. }
  split; [rewrite length_app; simpl; lia|].
  split.
  { exists (Z.min lo s).
    replace ((newmap p ++ F ++ [new]) ++ R) with ((newmap p ++ F) ++ new :: R)
      by (rewrite <- !app_assoc; reflexivity).
    replace (newmap p ++ F ++ D ++ R) with ((newmap p ++ F) ++ D ++ R) in Hc
      by (rewrite <- !app_assoc; reflexivity).
    apply chain_app in Hc. destruct Hc as [HcA HcDR].
    apply chain_app in HcDR. destruct HcDR as [_ HcR].
    apply chain_app. split; [apply chain_weaken with lo; [lia|exact HcA]|].
    cbn [chain]. change (sstart new) with s. change (send new) with e.
    split; [apply last_end_le; [lia|exact FA]|]. split; [exact Hse|].
    eapply chain_raise; [exact HcR|exact FR]. }
  split.
  { rewrite app_assoc. apply Forall_app. split.
    - eapply Forall_impl; [|exact FA]. simpl. intros; lia.
    - constructor; [change (send new) with e; lia|constructor]. }
  split; [exact FR|].
  split.
  { apply Forall_app. split.
    - eapply Forall_impl; [|exact Fdone]. simpl. intros; lia.
    - constructor; [simpl; lia|constructor]. }
  intros x. split.
  - intros Hin.
    assert (Hcase : x = new \/ (In x (newmap p ++ F ++ D ++ R)
                                /\ (send x <= s \/ e <= sstart x))).
    { rewrite !in_app_iff in *. rewrite Forall_forall in *.
      destruct Hin as [[H|[H|H]]|H].
      - right. split; [auto|]. left. specialize (Fnm x H). simpl in Fnm. lia.
      - right. split; [auto|]. left. exact (FF x H).
      - left. destruct H as [H|[]]. symmetry; exact H.
      - right. split; [auto|]. right. exact (FR x H). }
    destruct Hcase as [->|[Hold Hpos]].
    + left. exists (List.length done), (s, e). split.
      * rewrite nth_error_app2 by lia. rewrite Nat.sub_diag. reflexivity.
      * unfold new, overwrite_seg. cbn [fst snd]. rewrite Hidx. reflexivity.
    + apply Hmem in Hold. destruct Hold as [(j & m & Hj & ->)|[Hmap Hcl]].
      * left. exists j, m. split; [|reflexivity].
        rewrite nth_error_app1; [exact Hj|]. apply nth_error_Some. congruence.
      * right. split; [exact Hmap|]. intros s' e' Hin'.
        apply in_app_or in Hin'. destruct Hin' as [H|[H|[]]].
        -- exact (Hcl s' e' H).
        -- inversion H; subst. exact Hpos.
  - intros [(j & m & Hj & ->)|[Hmap Hcl]].
    + destruct (Nat.lt_ge_cases j (List.length done)) as [L|L].
      * rewrite nth_error_app1 in Hj by exact L.
        apply (overwrite_survivors _ _ D _ _ _ s e FD).
        -- apply Hmem. left. exists j, m. auto.
        -- left. rewrite Forall_forall in Fdone. apply nth_error_In in Hj.
           specialize (Fdone m Hj). unfold overwrite_seg. simpl in *.
           change (send (mk (fst m) (snd m) _)) with (snd m). lia.
      * rewrite nth_error_app2 in Hj by exact L.
        destruct (j - List.length done)%nat as [|d] eqn:Ed.
        2:{ simpl in Hj. destruct d; discriminate. }
        simpl in Hj. inversion Hj; subst m.
        assert (j = List.length done) by lia. subst j.
        rewrite !in_app_iff. left. right. right. left.
        unfold new, overwrite_seg. cbn [fst snd]. rewrite Hidx. reflexivity.
    + apply (overwrite_survivors _ _ D _ _ _ s e FD).
      * apply Hmem. right. split; [exact Hmap|]. intros s' e' H.
        apply (Hcl s' e'). apply in_or_app. left. exact H.
      * apply (Hcl s e). apply in_or_app. right. left. reflexivity.
Qed.

Lemma over_fold name map : forall todo done b p,
  over_inv name map b done p -> matches_from true b todo ->
  exists b', over_inv name map b' (done ++ todo)
               (fold_left (_addmatch name map false) todo p).
Proof.
  induction todo as [|[s e] todo IH]; intros done b p Hinv Hms.
  - exists b. rewrite app_nil_r. exact Hinv.
  - simpl in Hms. destruct Hms as (Hbs & Hse & Hrest).
    cbn [fold_left].
    destruct (IH (done ++ [(s, e)]) e (_addmatch name map false p (s, e)))
      as (b' & Hb'); [apply over_step with b; assumption | exact Hrest |].
    exists b'. rewrite <- app_assoc in Hb'. exact Hb'.
Qed.

Lemma over_inv_p0 name map lo b :
  chain true lo map -> b <= lo -> over_inv name map b [] p0.
Proof.
  intros Hc Hb. unfold over_inv, p0. cbn [newmap p_i p_setindex skipn app List.length].
  split; [reflexivity|]. split; [exists lo; exact Hc|].
  split; [constructor|]. split.
  { pose proof (chain_starts true _ _ Hc) as Fs.
    eapply Forall_impl; [|exact Fs]. simpl. intros; lia. }
  split; [constructor|].
  intros x. split.
  - intros H. right. split; [exact H|]. intros s e [].
  - intros [(j & m & Hj & _)|[H _]]; [destruct j; discriminate|exact H].
Qed.

Lemma addmatchlist_overwrite map ms name :
  map_ok map -> matches_ordered true ms ->
  map_ok (addmatchlist ms name false map)
  /\ forall x, In x (addmatchlist ms name false map) <->
       (exists j m, nth_error ms j = Some m /\ x = overwrite_seg name j m)
       \/ (In x map /\ clear_of x ms).
Proof.
  intros [lo Hc] Hms. unfold addmatchlist, _addendranges.
  assert (Hex : exists b, b <= lo /\ matches_from true b ms).
  { destruct ms as [|[s e] ms']; [exists lo; simpl; split; [lia|trivial]|].
    exists (Z.min lo s). split; [lia|]. simpl in Hms |- *.
    destruct Hms as (_ & H2 & H3). repeat split; trivial; lia. }
  destruct Hex as (b & Hb & Hmb).
  destruct (over_fold name map ms [] b p0 (over_inv_p0 name map lo b Hc Hb) Hmb)
    as (b' & _ & Hok & _ & _ & _ & Hmem).
  simpl app in Hmem. split; [exact Hok|exact Hmem].
Qed.

(** Overwrite-mode [addmatches] with ordered, non-empty matches on a
    well-formed map: the result is well-formed, and its segments are exactly
    one new single-origin segment per match, numbered in order, and the old
    segments that share no position with any match.  An old segment that a
    match overlaps, however little, is discarded whole. *)
Theorem overwrite_matches_replace_overlapped text regex name map :
  map_ok map -> global regex = true -> matches_ordered true (matchAll regex text) ->
  map_ok (addmatches text regex name false map)
  /\ forall x, In x (addmatches text regex name false map) <->
       (exists j m, nth_error (matchAll regex text) j = Some m
                    /\ x = overwrite_seg name j m)
       \/ (In x map /\ clear_of x (matchAll regex text)).
Proof.
  intros Hok Hg Hms. unfold addmatches. rewrite Hg.
  exact (addmatchlist_overwrite map (matchAll regex text) name Hok Hms).
Qed.

Lemma overwrite_matches_replace_overlapped_witness :
  let map := [mk 0 4 [orig "a" 0 4 0]; mk 4 6 [orig "b" 4 6 0]; mk 8 9 [orig "b" 8 9 1]] in
  let regex := {| global := true; matchAll := fun _ => [(3, 5); (6, 7)] |} in
  map_ok (addmatches "0123456789" regex "c" false map)
  /\ forall x, In x (addmatches "0123456789" regex "c" false map) <->
       (exists j m, nth_error [(3, 5); (6, 7)] j = Some m /\ x = overwrite_seg "c" j m)
       \/ (In x map /\ clear_of x [(3, 5); (6, 7)]).
Proof.
  cbv zeta.
  apply (overwrite_matches_replace_overlapped "0123456789"
           {| global := true; matchAll := fun _ => [(3, 5); (6, 7)] |} "c"
           [mk 0 4 [orig "a" 0 4 0]; mk 4 6 [orig "b" 4 6 0]; mk 8 9 [orig "b" 8 9 1]]).
  - exists 0. simpl. unfold sstart, send. simpl. lia.
  - reflexivity.
  - simpl. lia.
Defined.

(** Overwrite-mode [addrange] with a non-empty range, given in either
    direction, on a well-formed map: the result is well-formed, and its
    segments are the new single-origin segment and the old segments that
    share no position with the range. *)
Theorem overwrite_range_replaces_overlapped text r name map :
  map_ok map -> rstart r <> rend r ->
  let lo := Z.min (rstart r) (rend r) in
  let hi := Z.max (rstart r) (rend r) in
  map_ok (addrange text r name false map)
  /\ forall x, In x (addrange text r name false map) <->
       x = mk lo hi [orig name lo hi 0]
       \/ (In x map /\ (send x <= lo \/ hi <= sstart x)).
Proof.
  intros Hok Hne lo hi.
  assert (E : addrange text r name false map = addmatchlist [(lo, hi)] name false map).
  { unfold addrange, addmatchlist. cbn [fold_left]. unfold _addmatch, _addendranges.
    cbn [newmap p_i fst snd]. unfold lo, hi.
    destruct (rend r <? rstart r) eqn:E; cbn [rstart rend].
    - apply Z.ltb_lt in E. rewrite Z.min_r, Z.max_l by lia. reflexivity.
    - apply Z.ltb_ge in E. rewrite Z.min_l, Z.max_r by lia. reflexivity. }
  rewrite E.
  destruct (addmatchlist_overwrite map [(lo, hi)] name Hok) as (H1 & H2).
  { simpl. unfold lo, hi. lia. }
  split; [exact H1|]. intros x. rewrite H2. split.
  - intros [(j & m & Hj & ->)|[Hin Hcl]].
    + left. destruct j as [|[|j]]; simpl in Hj; try discriminate.
      inversion Hj; subst m. reflexivity.
    + right. split; [exact Hin|]. apply (Hcl lo hi). left. reflexivity.
  - intros [->|[Hin Hcl]].
    + left. exists 0%nat, (lo, hi). split; reflexivity.
    + right. split; [exact Hin|]. intros s e [H|[]]. inversion H; subst. exact Hcl.
Qed.

Lemma overwrite_range_replaces_overlapped_witness :
  let map := [mk 0 4 [orig "a" 0 4 0]; mk 4 6 [orig "b" 4 6 0]; mk 8 9 [orig "b" 8 9 1]] in
  map_ok (addrange "0123456789" (mkRange 7 5) "sel" false map)
  /\ forall x, In x (addrange "0123456789" (mkRange 7 5) "sel" false map) <->
       x = mk 5 7 [orig "sel" 5 7 0]
       \/ (In x map /\ (send x <= 5 \/ 7 <= sstart x)).
Proof.
  cbv zeta.
  apply (overwrite_range_replaces_overlapped "0123456789" (mkRange 7 5) "sel"
           [mk 0 4 [orig "a" 0 4 0]; mk 4 6 [orig "b" 4 6 0]; mk 8 9 [orig "b" 8 9 1]]).
  - exists 0. simpl. unfold sstart, send. simpl. lia.
  - simpl. lia.
Defined.

End OverwriteMode.

(** ** Replacement: [replaceall], [replace], [paste] *)

Section Replacement.
Import SOT_text_map_replace.
Local Open Scope string_scope.

Lemma exact_single name a b k : exact (SOT_text_map.mk a b [orig name a b k]) = true.
Proof.
  unfold exact. cbn. unfold sstart, send. cbn. rewrite !Z.eqb_refl. reflexivity.
Qed.

Lemma replaceall_loop_pieces rw tail : forall ps pre newtext,
  (let '(nt, n) :=
     replaceall_loop (pre ++ piece_text ps tail) (piece_map (JS.strlen pre) ps) rw
       newtext (JS.strlen pre) in
   nt ++ JS.slice_from (pre ++ piece_text ps tail) n)
  = newtext ++ piece_subst rw ps tail.
Proof.
  induction ps as [|p ps IH]; intros pre newtext.
  - cbn [piece_map piece_text piece_subst replaceall_loop]. rewrite slice_suffix.
    reflexivity.
  - cbn [piece_map piece_text piece_subst replaceall_loop].
    rewrite exact_single. cbn [origs setname].
    change (sstart (SOT_text_map.mk ?a ?b ?o)) with a.
    change (send (SOT_text_map.mk ?a ?b ?o)) with b.
    rewrite slice_middle.
    assert (Etok : JS.substring (pre ++ p_gap p ++ p_token p ++ piece_text ps tail)
                     (JS.strlen pre + JS.strlen (p_gap p))
                     (JS.strlen pre + JS.strlen (p_gap p) + JS.strlen (p_token p))
                   = p_token p).
    { rewrite <- (append_assoc pre (p_gap p)), <- strlen_append.
      apply substring_middle. }
    rewrite Etok.
    change (origs (SOT_text_map.mk ?a ?b ?o)) with o. cbv iota.
    change (setname (orig ?nm ?a ?b ?k)) with nm. rewrite replace_self.
    assert (Etext : pre ++ p_gap p ++ p_token p ++ piece_text ps tail
                    = (pre ++ p_gap p ++ p_token p) ++ piece_text ps tail)
      by (rewrite !append_assoc; reflexivity).
    assert (Elen : (JS.strlen pre + JS.strlen (p_gap p) + JS.strlen (p_token p))%Z
                   = JS.strlen (pre ++ p_gap p ++ p_token p))
      by (rewrite !strlen_append; lia).
    rewrite Etext, Elen, IH. rewrite !append_assoc. reflexivity.
Qed.


Lemma string_split_nat s : forall n, (n <= String.length s)%nat ->
  exists t1 t2, s = t1 ++ t2 /\ String.length t1 = n.
Proof.
  induction s as [|c s IH]; intros n Hn.
  - exists "", "". simpl in *. split; [reflexivity|lia].
  - destruct n as [|n]; [exists "", (String c s); auto|].
    destruct (IH n) as (t1 & t2 & E & L); [simpl in Hn; lia|].
    exists (String c t1), t2. simpl. rewrite <- E, L. auto.
Qed.

Lemma string_split s a : (0 <= a <= JS.strlen s)%Z ->
  exists t1 t2, s = t1 ++ t2 /\ JS.strlen t1 = a.
Proof.
  intros H. unfold JS.strlen in *.
  destruct (string_split_nat s (Z.to_nat a)) as (t1 & t2 & E & L); [lia|].
  exists t1, t2. split; [exact E|]. lia.
Qed.

Lemma replaceall_loop_inexact text rw : forall segs pre rest,
  text = pre ++ rest ->
  chain false (JS.strlen pre) segs ->
  Forall (fun s => (send s <= JS.strlen text)%Z) segs ->
  Forall (fun s => exact s = false) segs ->
  (let '(nt, n) := replaceall_loop text segs rw pre (JS.strlen pre) in
   nt ++ JS.slice_from text n) = text.
Proof.
  induction segs as [|s segs IH]; intros pre rest Et Hc Hb Hx.
  - cbn [replaceall_loop]. rewrite Et at 1. rewrite slice_suffix. symmetry; exact Et.
  - cbn [replaceall_loop]. inversion Hb as [|? ? Hb1 Hb2]; subst.
    inversion Hx as [|? ? Hx1 Hx2]; subst.
    simpl in Hc. destruct Hc as (Hc1 & Hc2 & Hc3). rewrite Hx1.
    rewrite strlen_append in Hb1.
    destruct (string_split rest (sstart s - JS.strlen pre)%Z) as (g & r1 & Er & Lg);
      [lia|].
    subst rest. rewrite strlen_append in Hb1.
    destruct (string_split r1 (send s - sstart s)%Z) as (t & r2 & Er & Lt); [lia|].
    subst r1.
    replace (sstart s) with (JS.strlen pre + JS.strlen g)%Z by lia.
    replace (send s) with (JS.strlen pre + JS.strlen g + JS.strlen t)%Z by lia.
    rewrite slice_middle.
    assert (Etok : JS.substring (pre ++ g ++ t ++ r2)
                     (JS.strlen pre + JS.strlen g)
                     (JS.strlen pre + JS.strlen g + JS.strlen t) = t).
    { rewrite <- (append_assoc pre g), <- strlen_append. apply substring_middle. }
    rewrite Etok.
    assert (Elen : (JS.strlen pre + JS.strlen g + JS.strlen t)%Z
                   = JS.strlen ((pre ++ g) ++ t))
      by (rewrite !strlen_append; lia).
    rewrite Elen. apply (IH ((pre ++ g) ++ t) r2).
    + rewrite !append_assoc. reflexivity.
    + rewrite <- Elen. replace (JS.strlen pre + JS.strlen g + JS.strlen t)%Z
        with (send s) by lia. exact Hc3.
    + exact Hb2.
    + exact Hx2.
Qed.

(** [replaceall] changes nothing when no segment of the map is covered
    exactly by a single origin: segments of several layers, and fragments of
    an origin that was split, are never replaced, whatever [replacewiths]
    holds.  The map is ordered and lies within the text. *)
Theorem replaceall_keeps_inexact_segments text map rw :
  chain false 0 map ->
  Forall (fun s => (send s <= JS.strlen text)%Z) map ->
  Forall (fun s => exact s = false) map ->
  replaceall text map rw = text.
Proof.
  intros Hc Hb Hx. unfold replaceall. destruct map as [|s map']; [reflexivity|].
  exact (replaceall_loop_inexact text rw (s :: map') "" text eq_refl Hc Hb Hx).
Qed.

Lemma replaceall_keeps_inexact_segments_witness :
  replaceall "abcdef"
    [SOT_text_map.mk 1 3 [orig "x" 1 5 0];
     SOT_text_map.mk 3 5 [orig "x" 1 5 0; orig "y" 3 5 0]]
    [("x", "X"); ("y", "Y")]
  = "abcdef".
Proof.
  apply (replaceall_keeps_inexact_segments "abcdef"
           [SOT_text_map.mk 1 3 [orig "x" 1 5 0];
            SOT_text_map.mk 3 5 [orig "x" 1 5 0; orig "y" 3 5 0]]
           [("x", "X"); ("y", "Y")]).
  - simpl. unfold sstart, send. simpl. lia.
  - repeat constructor; unfold send; simpl; vm_compute; discriminate.
  - repeat constructor.
Defined.



Lemma paste_splices t1 t2 t3 repl :
  SOT_text.paste (t1 ++ t2 ++ t3)
    (mkRange (JS.strlen t1) (JS.strlen t1 + JS.strlen t2)) repl
  = t1 ++ JS.get_substitution t2 "" "" repl ++ t3.
Proof.
  unfold SOT_text.paste. cbn [rstart rend].
  rewrite slice_prefix, substring_middle, replace_self.
  rewrite <- (append_assoc t1 t2 t3), <- strlen_append, slice_suffix. reflexivity.
Qed.

(** [paste] undoes [paste]: after a stretch of the text has been replaced,
    pasting the old stretch over the range of the replacement gives the text
    back, provided neither string contains a [$]. *)
Theorem paste_undoes_paste t1 t2 t3 repl :
  no_dollar repl -> no_dollar t2 ->
  SOT_text.paste
    (SOT_text.paste (t1 ++ t2 ++ t3)
       (mkRange (JS.strlen t1) (JS.strlen t1 + JS.strlen t2)) repl)
    (mkRange (JS.strlen t1) (JS.strlen t1 + JS.strlen repl)) t2
  = t1 ++ t2 ++ t3.
Proof.
  intros Hr Ht. rewrite paste_splices, (get_substitution_no_dollar _ _ _ _ Hr).
  rewrite paste_splices, (get_substitution_no_dollar _ _ _ _ Ht). reflexivity.
Qed.

Lemma paste_undoes_paste_witness :
  SOT_text.paste (SOT_text.paste "one two three" (mkRange 4 7) "2") (mkRange 4 5) "two"
  = "one two three".
Proof.
  apply (paste_undoes_paste "one " "two" " three" "2"); simpl; repeat split; discriminate.
Defined.

End Replacement.

(** ** The renderer *)

Section FlatRendering.
Local Open Scope string_scope.
Variable fulltext : string.
Variable map : TextMap.
Variable opts : option Opts.
Variable defs : option Defs.
Hypothesis Hopts : plain_opts opts.

Lemma fold_append_acc l : forall acc,
  fold_left String.append l acc = acc ++ fold_left String.append l "".
Proof.
  induction l as [|x l IH]; intros acc; simpl; [symmetry; apply append_nil_r|].
  rewrite (IH (acc ++ x)), (IH x). apply append_assoc.
Qed.

Lemma htmlstring_app l1 l2 :
  SOT_map.htmlstring (l1 ++ l2)%list = SOT_map.htmlstring l1 ++ SOT_map.htmlstring l2.
Proof. unfold SOT_map.htmlstring. rewrite fold_left_app. apply fold_append_acc. Qed.

Lemma htmladd_app H p :
  SOT_map.htmladd H p = (H ++ (if JS.nonempty p then [p] else []))%list.
Proof.
  unfold SOT_map.htmladd, push. destruct (JS.nonempty p); [reflexivity|].
  symmetry; apply app_nil_r.
Qed.

Lemma htmlstring_opt p :
  SOT_map.htmlstring (if JS.nonempty p then [p] else []) = p.
Proof. destruct p; reflexivity. Qed.

Lemma nth_error_middle {A} (l r : list A) x : nth_error (l ++ x :: r)%list (List.length l) = Some x.
Proof. induction l as [|a l IH]; simpl; [reflexivity|exact IH]. Qed.

Lemma set_piece_middle l r x y :
  SOT_map.set_piece (l ++ x :: r)%list (List.length l) y = (l ++ y :: r)%list.
Proof. induction l as [|a l IH]; simpl; [reflexivity|]. rewrite IH. reflexivity. Qed.

Lemma tag_mark layer end_ :
  plain_for defs (setname layer) ->
  SOT_map._tag opts defs layer end_ = Some "mark".
Proof.
  intros Hd. unfold SOT_map._tag.
  assert (E : match opts with
              | Some o => match o_htmltag o with
                          | Some t => if JS.nonempty t then t else "mark"
                          | None => "mark"
                          end
              | None => "mark"
              end = "mark").
  { destruct opts as [o|]; [|reflexivity]. simpl in Hopts. rewrite Hopts. reflexivity. }
  rewrite E. destruct defs as [ds|]; [|reflexivity].
  destruct Hd as (d & Hl & Ht & Hte & _). rewrite Hl, Ht, Hte.
  destruct end_; reflexivity.
Qed.

Lemma tagend_mark layer :
  plain_for defs (setname layer) ->
  SOT_map._tagend opts defs layer = Some "</mark>".
Proof. intros Hd. unfold SOT_map._tagend. rewrite (tag_mark _ _ Hd). reflexivity. Qed.

(** The opening tag of a layer that starts with its segment, before the [R]
    is put in. *)
Lemma tagstart_mark rg layer mi j pi offset sts :
  plain_for defs (setname layer) -> ostart (orange layer) = rstart rg ->
  SOT_map._tagstart fulltext map opts defs None rg layer mi j pi offset sts
  = Some (("<mark class=" ++ JS.dq ++ setname layer ++ " L ") ++ " " ++ JS.dq ++ ">",
          assign (setname layer)
            {| pos := offset + JS.strlen ("<mark class=" ++ JS.dq ++ setname layer ++ " L ");
               pieceindex := pi; st_j := j; st_seg := rg |} sts).
Proof.
  intros Hd Hs. unfold SOT_map._tagstart. rewrite (tag_mark _ _ Hd).
  assert (E : match defs with
              | Some ds =>
                  match lookup (setname layer) ds with
                  | Some d => match htmlattrs d with
                              | Some add =>
                                  SOT_map._addattrs fulltext
                                    [("class", Some (setname layer ++
                                        (if (ostart (orange layer) =? rstart rg)%Z
                                         then " L" else "")))] add (orange layer)
                              | None =>
                                  [("class", Some (setname layer ++
                                      (if (ostart (orange layer) =? rstart rg)%Z
                                       then " L" else "")))]
                              end
                  | None =>
                      [("class", Some (setname layer ++
                          (if (ostart (orange layer) =? rstart rg)%Z then " L" else "")))]
                  end
              | None =>
                  [("class", Some (setname layer ++
                      (if (ostart (orange layer) =? rstart rg)%Z then " L" else "")))]
              end
              = [("class", Some (setname layer ++ " L"))]).
  { rewrite Hs, Z.eqb_refl. destruct defs as [ds|]; [|reflexivity].
    destruct Hd as (d & Hl & _ & _ & Ha). rewrite Hl, Ha. reflexivity. }
  rewrite E.
  cbn [SOT_map._tagstart_attrs JS.truthy].
  replace (JS.nonempty (setname layer ++ " L")) with true
    by (destruct (setname layer); reflexivity).
  rewrite String.eqb_refl. cbv beta iota zeta.
  assert (E2 : (("<" ++ "mark") ++ " " ++ "class" ++ "=" ++ JS.dq ++ setname layer ++ " L")
               ++ "  "
               = ("<mark class=" ++ JS.dq ++ setname layer ++ " L ") ++ " ").
  { unfold JS.dq. rewrite ?append_assoc. cbn [String.append].
    rewrite ?append_assoc. reflexivity. }
  rewrite E2, strlen_append. change (JS.strlen " ") with 1%Z.
  replace (offset + (JS.strlen ("<mark class=" ++ JS.dq ++ setname layer ++ " L ") + 1) - 1)%Z
    with (offset + JS.strlen ("<mark class=" ++ JS.dq ++ setname layer ++ " L "))%Z by lia.
  rewrite !append_assoc. reflexivity.
Qed.

(** Putting [R] at the recorded position of the opening tag. *)
Lemma put_R name :
  JS.slice (("<mark class=" ++ JS.dq ++ name ++ " L ") ++ " " ++ JS.dq ++ ">") 0
    (JS.strlen ("<mark class=" ++ JS.dq ++ name ++ " L "))
  ++ "R"
  ++ JS.slice_from (("<mark class=" ++ JS.dq ++ name ++ " L ") ++ " " ++ JS.dq ++ ">")
       (JS.strlen ("<mark class=" ++ JS.dq ++ name ++ " L ") + 1)
  = class_tag "mark" (name ++ " L R").
Proof.
  set (P := "<mark class=" ++ JS.dq ++ name ++ " L ").
  rewrite slice_prefix.
  replace (P ++ " " ++ JS.dq ++ ">") with ((P ++ " ") ++ JS.dq ++ ">")
    by (rewrite append_assoc; reflexivity).
  replace (JS.strlen P + 1)%Z with (JS.strlen (P ++ " "))
    by (rewrite strlen_append; reflexivity).
  rewrite slice_suffix. unfold P, class_tag, JS.dq.
  rewrite ?append_assoc. cbn [String.append]. rewrite ?append_assoc. reflexivity.
Qed.

Lemma difdepth_zero seg cmp o os :
  origs seg = o :: os -> SOT_map._istagdif seg cmp 0 = true ->
  SOT_map._difdepth seg cmp = 0%nat.
Proof.
  intros Eo H. unfold SOT_map._difdepth. rewrite Eo. cbn [List.length SOT_map._difdepth_loop].
  rewrite H. reflexivity.
Qed.

(** One turn of the main loop on a single-origin segment that differs from
    both neighbours, entered with nothing pending. *)
Lemma markup_step_piece pre p rest prevseg nextseg i st :
  fulltext = pre ++ p_gap p ++ p_token p ++ rest ->
  SOT_map.n st = JS.strlen pre -> SOT_map.text st = "" -> SOT_map.starts st = [] ->
  plain_for defs (p_name p) ->
  let a := (JS.strlen pre + JS.strlen (p_gap p))%Z in
  let b := (a + JS.strlen (p_token p))%Z in
  let seg := SOT_text_map.mk a b [orig (p_name p) a b (p_index p)] in
  SOT_map._istagdif seg prevseg 0 = true ->
  SOT_map._istagdif seg nextseg 0 = true ->
  exists st',
    SOT_map.markup_step fulltext map opts defs None prevseg seg nextseg i st = Some st'
    /\ SOT_map.n st' = b /\ SOT_map.text st' = "" /\ SOT_map.starts st' = []
    /\ SOT_map.htmlstring (SOT_map.html st')
       = SOT_map.htmlstring (SOT_map.html st)
         ++ SOT_text.raw2HTML (p_gap p)
         ++ class_tag "mark" (p_name p ++ " L R")
         ++ SOT_text.raw2HTML (p_token p)
         ++ "</mark>".
Proof.
  intros Et Hn Ht Hs Hd a b seg Hprev Hnext.
  set (name := p_name p) in *.
  set (P := "<mark class=" ++ JS.dq ++ name ++ " L ").
  set (T := P ++ " " ++ JS.dq ++ ">").
  assert (HT : JS.nonempty T = true) by reflexivity.
  assert (Egap : JS.slice fulltext (JS.strlen pre) a = p_gap p)
    by (rewrite Et; apply slice_middle).
  assert (Etok : JS.slice fulltext a b = p_token p).
  { rewrite Et. unfold b, a. rewrite <- (append_assoc pre (p_gap p)), <- strlen_append.
    apply slice_middle. }
  set (H1 := SOT_map.htmladd (SOT_map.html st) (SOT_text.raw2HTML (p_gap p))).
  assert (Estart : forall pi,
            SOT_map._layersstart fulltext map opts defs None prevseg seg i pi []
            = Some (T, [(name, {| pos := JS.strlen P; pieceindex := pi; st_j := 0;
                                  st_seg := range seg |})])).
  { intros pi. unfold SOT_map._layersstart.
    rewrite (difdepth_zero seg prevseg _ _ eq_refl Hprev).
    change (origs seg) with [orig name a b (p_index p)].
    cbn [skipn SOT_map._layersstart_loop].
    rewrite tagstart_mark by (try exact Hd; reflexivity).
    reflexivity. }
  assert (Eend : SOT_map._layersend opts defs seg nextseg = Some "</mark>").
  { unfold SOT_map._layersend.
    rewrite (difdepth_zero seg nextseg _ _ eq_refl Hnext).
    change (origs seg) with [orig name a b (p_index p)].
    cbn [skipn rev app SOT_map._layersend_loop].
    rewrite tagend_mark by exact Hd. reflexivity. }
  unfold SOT_map.markup_step. rewrite Hn, Ht, Hs.
  change (sstart seg) with a. change (send seg) with b.
  rewrite Egap, Etok. fold H1. cbn [JS.nonempty].
  rewrite Estart, HT, Eend. cbn [JS.nonempty].
  rewrite !htmladd_app. cbn [JS.nonempty]. rewrite HT, app_nil_r.
  set (r0 := if JS.nonempty (SOT_text.raw2HTML (p_token p))
             then [SOT_text.raw2HTML (p_token p)] else []).
  assert (Ehtml : (((H1 ++ [T]) ++ r0) ++ ["</mark>"])%list
                  = (H1 ++ T :: (r0 ++ ["</mark>"]))%list)
    by (rewrite <- !app_assoc; reflexivity).
  rewrite Ehtml. unfold SOT_map._setlayerright.
  change (origs seg) with [orig name a b (p_index p)].
  cbn [SOT_map._setlayerright_loop setname orig lookup]. rewrite String.eqb_refl.
  change (oend (orange (orig name a b (p_index p)))) with b.
  change (send seg) with b. rewrite Z.eqb_refl. cbn [pieceindex pos].
  rewrite nth_error_middle, set_piece_middle. cbn [delete]. rewrite String.eqb_refl.
  eexists. split; [reflexivity|]. cbn [SOT_map.n SOT_map.text SOT_map.starts SOT_map.html].
  repeat (split; [reflexivity|]).
  unfold T, P. rewrite put_R.
  rewrite htmlstring_app. unfold H1. rewrite htmladd_app, htmlstring_app, htmlstring_opt.
  change (class_tag "mark" (name ++ " L R") :: (r0 ++ ["</mark>"])%list)
    with ([class_tag "mark" (name ++ " L R")] ++ (r0 ++ ["</mark>"]))%list.
  rewrite !htmlstring_app. unfold r0. rewrite htmlstring_opt.
  unfold SOT_map.htmlstring. cbn [fold_left String.append].
  rewrite !append_assoc. reflexivity.
Qed.

Lemma istagdif_differs seg cs nm k nm' k' a b a' b' :
  origs seg = [orig nm a b k] -> origs cs = [orig nm' a' b' k'] ->
  nm <> nm' \/ k <> k' ->
  SOT_map._istagdif seg (Some cs) 0 = true.
Proof.
  intros E1 E2 Hd. unfold SOT_map._istagdif. rewrite E1, E2.
  cbn [nth_error setname orig orange setindex].
  destruct Hd as [Hn|Hk].
  - replace (String.eqb nm nm') with false; [reflexivity|].
    symmetry. apply String.eqb_neq. exact Hn.
  - replace (k =? k')%Z with false; [apply orb_true_r|].
    symmetry. apply Z.eqb_neq. exact Hk.
Qed.

Lemma markup_loop_pieces tail : forall ps pre prevseg prevkey i st,
  fulltext = pre ++ piece_text ps tail ->
  SOT_map.n st = JS.strlen pre -> SOT_map.text st = "" -> SOT_map.starts st = [] ->
  (forall p, In p ps -> plain_for defs (p_name p)) ->
  pieces_alternate prevkey ps ->
  match prevseg, prevkey with
  | None, None => True
  | Some s, Some (nm, k) => exists a b, origs s = [orig nm a b k]
  | _, _ => False
  end ->
  exists st',
    SOT_map.markup_loop fulltext map opts defs None prevseg
      (piece_map (JS.strlen pre) ps) i st = Some st'
    /\ SOT_map.htmlstring (SOT_map.html st')
       ++ SOT_text.raw2HTML (JS.slice_from fulltext (SOT_map.n st'))
       = SOT_map.htmlstring (SOT_map.html st) ++ piece_html ps tail.
Proof.
  induction ps as [|p ps IH]; intros pre prevseg prevkey i st Et Hn Ht Hs Hd Ha Hp.
  - exists st. split; [reflexivity|]. cbn [piece_html]. rewrite Hn, Et.
    cbn [piece_text]. rewrite slice_suffix. reflexivity.
  - cbn [piece_map SOT_map.markup_loop]. cbn [piece_text] in Et.
    cbn [pieces_alternate] in Ha. destruct Ha as [Ha1 Ha2].
    set (a := (JS.strlen pre + JS.strlen (p_gap p))%Z).
    set (b := (a + JS.strlen (p_token p))%Z).
    set (seg := SOT_text_map.mk a b [orig (p_name p) a b (p_index p)]).
    assert (Hprev : SOT_map._istagdif seg prevseg 0 = true).
    { destruct prevseg as [s|]; [|reflexivity].
      destruct prevkey as [[nm k]|]; [|contradiction].
      destruct Hp as (a' & b' & Eo).
      exact (istagdif_differs seg s _ _ _ _ _ _ _ _ eq_refl Eo Ha1). }
    assert (Hnext : SOT_map._istagdif seg (hd_error (piece_map b ps)) 0 = true).
    { destruct ps as [|q ps']; [reflexivity|]. cbn [piece_map hd_error].
      cbn [pieces_alternate] in Ha2. destruct Ha2 as [Hq _].
      eapply (istagdif_differs seg _ (p_name p) (p_index p) (p_name q) (p_index q));
        [reflexivity | reflexivity |].
      destruct Hq as [Hq|Hq]; [left|right]; congruence. }
    destruct (markup_step_piece pre p (piece_text ps tail) prevseg
                (hd_error (piece_map b ps)) i st Et Hn Ht Hs
                (Hd p (or_introl eq_refl)) Hprev Hnext)
      as (st1 & E1 & Hn1 & Ht1 & Hs1 & Hh1).
    fold a b seg in E1, Hn1. rewrite E1.
    assert (Elen : b = JS.strlen (pre ++ p_gap p ++ p_token p))
      by (unfold b, a; rewrite !strlen_append; lia).
    rewrite Elen.
    destruct (IH (pre ++ p_gap p ++ p_token p) (Some seg)
                (Some (p_name p, p_index p)) (S i) st1)
      as (st2 & E2 & Hh2).
    + rewrite Et, !append_assoc. reflexivity.
    + rewrite Hn1. exact Elen.
    + exact Ht1.
    + exact Hs1.
    + intros q Hq. apply Hd. right. exact Hq.
    + exact Ha2.
    + exists a, b. reflexivity.
    + exists st2. split; [exact E2|]. rewrite Hh2, Hh1. cbn [piece_html].
      rewrite !append_assoc. reflexivity.
Qed.

End FlatRendering.

Section FlatMap.
Local Open Scope string_scope.

(** A map of single-origin segments that do not overlap, no two neighbours
    carrying the same name with the same sequence number, rendered without
    per-name tags or attributes and without a callback: the text between
    the segments is escaped and left bare, and every segment becomes the
    escaped token inside its own [mark] element of class [name L R].  The
    segments may abut and a token may be empty. *)
Theorem flat_map_renders_each_token_in_its_own_tag opts defs ps tail :
  plain_opts opts ->
  (forall p, In p ps -> plain_for defs (p_name p)) ->
  pieces_alternate None ps ->
  SOT_map.markup (piece_text ps tail) (piece_map 0 ps) opts defs None
  = Some (piece_html ps tail).
Proof.
  intros Ho Hd Ha. unfold SOT_map.markup.
  destruct (markup_loop_pieces (piece_text ps tail) (piece_map 0 ps) opts defs Ho
              tail ps ""%string None None 0%nat
              {| SOT_map.html := []; SOT_map.text := ""; SOT_map.starts := [];
                 SOT_map.n := 0 |})
    as (st' & E & Hh); trivial.
  change (JS.strlen "") with 0 in E. rewrite E. f_equal. exact Hh.
Qed.

Lemma flat_map_renders_each_token_in_its_own_tag_witness :
  SOT_map.markup "a <b> c"
    [SOT_text_map.mk 2 5 [orig "tag" 2 5 0]; SOT_text_map.mk 6 7 [orig "tag" 6 7 1]]
    None (Some [("tag", matcher_def (matcher_of [(2, 5); (6, 7)]))]) None
  = Some (piece_html [mkPiece "a " "<b>" "tag" 0; mkPiece " " "c" "tag" 1] "").
Proof.
  apply (flat_map_renders_each_token_in_its_own_tag None
           (Some [("tag", matcher_def (matcher_of [(2, 5); (6, 7)]))])
           [mkPiece "a " "<b>" "tag" 0; mkPiece " " "c" "tag" 1] "").
  - exact I.
  - intros p [<-|[<-|[]]]; (eexists; split; [reflexivity|repeat split]).
  - simpl. repeat split. right. discriminate.
Defined.

End FlatMap.

(** *** Rendering without [defs] never fails *)

Section RenderingTotal.
Local Open Scope string_scope.
Variable fulltext : string.
Variable map : TextMap.
Variable opts : option Opts.
Variable callback : option Callback.
Hypothesis Hopts : closable opts.

Lemma lookup_assign {A} key k (v : A) obj :
  lookup k (assign key v obj) = if String.eqb key k then Some v else lookup k obj.
Proof.
  induction obj as [|[k' w] obj IH]; simpl.
  - reflexivity.
  - destruct (String.eqb k' key) eqn:E; simpl.
    + apply String.eqb_eq in E. subst k'. destruct (String.eqb key k); reflexivity.
    + destruct (String.eqb k' k) eqn:E2.
      * apply String.eqb_eq in E2. subst k'. rewrite String.eqb_sym, E. reflexivity.
      * exact IH.
Qed.

Lemma lookup_delete_same {A} k (obj : list (string * A)) :
  lookup k (delete k obj) = None.
Proof.
  induction obj as [|[k' w] obj IH]; simpl; [reflexivity|].
  destruct (String.eqb k' k) eqn:E; [exact IH|]. simpl. rewrite E. exact IH.
Qed.

Lemma lookup_delete_some {A} key k (e : A) obj :
  lookup k (delete key obj) = Some e -> lookup k obj = Some e.
Proof.
  induction obj as [|[k' w] obj IH]; simpl; [trivial|].
  destruct (String.eqb k' key) eqn:E; simpl.
  - destruct (String.eqb k' k) eqn:E2; [|exact IH].
    apply String.eqb_eq in E, E2. subst. rewrite lookup_delete_same. discriminate.
  - destruct (String.eqb k' k); [trivial|exact IH].
Qed.

Lemma set_piece_length html : forall k piece,
  List.length (SOT_map.set_piece html k piece) = List.length html.
Proof.
  induction html as [|h html IH]; intros k piece; [reflexivity|].
  destruct k; simpl; [reflexivity|]. rewrite IH. reflexivity.
Qed.

Lemma htmladd_length html p :
  (List.length html <= List.length (SOT_map.htmladd html p))%nat.
Proof.
  unfold SOT_map.htmladd, push. destruct (JS.nonempty p); [|lia].
  rewrite length_app. simpl. lia.
Qed.

Lemma htmladd_length_nonempty html p :
  JS.nonempty p = true ->
  List.length (SOT_map.htmladd html p) = S (List.length html).
Proof.
  intros H. unfold SOT_map.htmladd, push. rewrite H, length_app. simpl. lia.
Qed.

Lemma htmladd_length_text html p :
  List.length (SOT_map.htmladd html p)
  = if JS.nonempty p then S (List.length html) else List.length html.
Proof.
  unfold SOT_map.htmladd, push. destruct (JS.nonempty p); [|reflexivity].
  rewrite length_app. simpl. lia.
Qed.

Lemma starts_ok_mono html html' sts :
  (List.length html <= List.length html')%nat -> starts_ok html sts -> starts_ok html' sts.
Proof. intros Hl H name e He. specialize (H name e He). lia. Qed.

Lemma nonempty_app_l a b : JS.nonempty a = true -> JS.nonempty (a ++ b) = true.
Proof. destruct a; [discriminate|reflexivity]. Qed.

Lemma nonempty_app_r a b : JS.nonempty b = true -> JS.nonempty (a ++ b) = true.
Proof. destruct a; [trivial|reflexivity]. Qed.

(** Without [defs] the tag is [mark] or the tag of [opts]. *)
Lemma tag_nodefs layer end_ :
  exists tg, SOT_map._tag opts None layer end_ = Some tg
             /\ JS.nonempty tg = true /\ SOT_text.extractto_tagname tg <> None.
Proof.
  unfold SOT_map._tag. destruct opts as [o|] eqn:Eo.
  - destruct (o_htmltag o) as [t|] eqn:Et.
    + destruct (JS.nonempty t) eqn:En.
      * exists t. split; [reflexivity|]. split; [exact En|].
        exact (Hopts o t eq_refl Et En).
      * exists "mark". repeat split; discriminate.
    + exists "mark". repeat split; discriminate.
  - exists "mark". repeat split; discriminate.
Qed.

Lemma tagend_nodefs layer : exists e, SOT_map._tagend opts None layer = Some e.
Proof.
  unfold SOT_map._tagend. destruct (tag_nodefs layer true) as (tg & E & Hn & Hx).
  rewrite E, Hn. destruct (SOT_text.extractto_tagname tg); [eauto|congruence].
Qed.

Lemma layersend_loop_nodefs : forall layers t,
  exists r, SOT_map._layersend_loop opts None layers t = Some r.
Proof.
  induction layers as [|l layers IH]; intros t; simpl; [eauto|].
  destruct (tagend_nodefs l) as (e & E). rewrite E. apply IH.
Qed.

Lemma tagstart_attrs_spec seg layer j pi offset : forall attrs t sts,
  JS.nonempty t = true ->
  JS.nonempty (fst (SOT_map._tagstart_attrs attrs seg layer j pi offset t sts)) = true
  /\ forall name e,
       lookup name (snd (SOT_map._tagstart_attrs attrs seg layer j pi offset t sts)) = Some e ->
       lookup name sts = Some e \/ pieceindex e = pi.
Proof.
  induction attrs as [|[a v] attrs IH]; intros t sts Ht.
  - simpl. auto.
  - cbn [SOT_map._tagstart_attrs].
    set (t1 := t ++ " " ++ a ++ _).
    assert (Ht1 : JS.nonempty t1 = true) by (apply nonempty_app_l; exact Ht).
    destruct (String.eqb a "class").
    + cbv beta iota zeta.
      destruct (IH ((t1 ++ "  ") ++ (if JS.truthy v then JS.dq else ""))
                  (assign (setname layer)
                     {| pos := offset + JS.strlen (t1 ++ "  ") - 1; pieceindex := pi;
                        st_j := j; st_seg := seg |} sts)) as (H1 & H2).
      { apply nonempty_app_l, nonempty_app_l. exact Ht1. }
      split; [exact H1|]. intros name e He. apply H2 in He.
      destruct He as [He|He]; [|right; exact He].
      rewrite lookup_assign in He.
      destruct (String.eqb (setname layer) name); [|left; exact He].
      inversion He; subst e. right. reflexivity.
    + cbv beta iota zeta.
      apply IH. apply nonempty_app_l. exact Ht1.
Qed.

Lemma tagstart_nodefs seg layer mi j pi offset sts :
  exists t sts',
    SOT_map._tagstart fulltext map opts None callback seg layer mi j pi offset sts
    = Some (t, sts')
    /\ JS.nonempty t = true
    /\ forall name e, lookup name sts' = Some e ->
         lookup name sts = Some e \/ pieceindex e = pi.
Proof.
  unfold SOT_map._tagstart. destruct (tag_nodefs layer false) as (tg & E & Hn & _).
  rewrite E.
  match goal with
  | |- context [SOT_map._tagstart_attrs ?attrs seg layer j pi offset ?t sts] =>
      destruct (tagstart_attrs_spec seg layer j pi offset attrs t sts) as (H1 & H2);
        [reflexivity|];
      destruct (SOT_map._tagstart_attrs attrs seg layer j pi offset t sts) as [t' sts']
  end.
  exists (t' ++ ">"), sts'. split; [reflexivity|]. split.
  - apply nonempty_app_l. exact H1.
  - exact H2.
Qed.

Lemma layersstart_loop_nodefs seg mi pi : forall layers j tags sts,
  exists tags' sts',
    SOT_map._layersstart_loop fulltext map opts None callback seg layers mi j pi tags sts
    = Some (tags', sts')
    /\ forall name e, lookup name sts' = Some e ->
         lookup name sts = Some e \/ (pieceindex e = pi /\ JS.nonempty tags' = true).
Proof.
  induction layers as [|l layers IH]; intros j tags sts.
  - exists tags, sts. split; [reflexivity|]. auto.
  - cbn [SOT_map._layersstart_loop].
    destruct (tagstart_nodefs (range seg) l mi j pi (JS.strlen tags) sts)
      as (t & sts1 & E & Hn & H1).
    rewrite E.
    assert (Hloop : forall layers' j' tags0 sts0, JS.nonempty tags0 = true ->
              exists tags' sts',
                SOT_map._layersstart_loop fulltext map opts None callback seg layers'
                  mi j' pi tags0 sts0 = Some (tags', sts')
                /\ JS.nonempty tags' = true).
    { clear IH. induction layers' as [|l' layers' IH']; intros j' tags0 sts0 H0.
      - exists tags0, sts0. auto.
      - cbn [SOT_map._layersstart_loop].
        destruct (tagstart_nodefs (range seg) l' mi j' pi (JS.strlen tags0) sts0)
          as (t' & sts1' & E' & Hn' & _).
        rewrite E'. apply IH'. apply nonempty_app_l. exact H0. }
    destruct (IH (S j) (tags ++ t) sts1) as (tags' & sts' & E2 & H2).
    destruct (Hloop layers (S j) (tags ++ t) sts1 (nonempty_app_r _ _ Hn))
      as (tags'' & sts'' & E3 & Hn3).
    rewrite E2 in E3. inversion E3; subst tags'' sts''.
    exists tags', sts'. split; [exact E2|]. intros name e He.
    apply H2 in He. destruct He as [He|He]; [|right; exact He].
    apply H1 in He. destruct He as [He|He]; [left; exact He|right; auto].
Qed.

Lemma setlayerright_loop_nodefs seg : forall layers html sts,
  starts_ok html sts ->
  exists html' sts',
    SOT_map._setlayerright_loop layers seg html sts = Some (html', sts')
    /\ List.length html' = List.length html /\ starts_ok html' sts'.
Proof.
  induction layers as [|l layers IH]; intros html sts Hok.
  - exists html, sts. auto.
  - cbn [SOT_map._setlayerright_loop].
    destruct (lookup (setname l) sts) as [st|] eqn:El; [|apply IH; exact Hok].
    destruct (oend (orange l) =? send seg)%Z; [|apply IH; exact Hok].
    pose proof (Hok _ _ El) as Hlt.
    destruct (nth_error html (pieceindex st)) as [piece|] eqn:En.
    2:{ apply nth_error_None in En. lia. }
    set (piece' := JS.slice piece 0 (pos st) ++ "R" ++ JS.slice_from piece (pos st + 1)).
    destruct (IH (SOT_map.set_piece html (pieceindex st) piece')
                (delete (setname l) sts)) as (html' & sts' & E & Hl & Hok').
    { intros name e He. rewrite set_piece_length. apply (Hok name e).
      eapply lookup_delete_some; exact He. }
    exists html', sts'. split; [exact E|]. split; [|exact Hok'].
    rewrite Hl. apply set_piece_length.
Qed.

Lemma markup_step_nodefs prevseg seg nextseg i st :
  starts_ok (SOT_map.html st) (SOT_map.starts st) ->
  exists st',
    SOT_map.markup_step fulltext map opts None callback prevseg seg nextseg i st = Some st'
    /\ starts_ok (SOT_map.html st') (SOT_map.starts st').
Proof.
  intros Hok. unfold SOT_map.markup_step.
  set (html1 := SOT_map.htmladd (SOT_map.html st) _).
  set (pi := if JS.nonempty (SOT_map.text st) then S (List.length html1)
             else List.length html1).
  set (inside := SOT_text.raw2HTML (JS.slice fulltext (sstart seg) (send seg))).
  unfold SOT_map._layersstart.
  destruct (layersstart_loop_nodefs seg i pi
              (skipn (SOT_map._difdepth seg prevseg) (origs seg))
              (SOT_map._difdepth seg prevseg) "" (SOT_map.starts st))
    as (tags & sts1 & E1 & H1).
  rewrite E1.
  assert (Hlen1 : (List.length (SOT_map.html st) <= List.length html1)%nat)
    by apply htmladd_length.
  set (html2 := if JS.nonempty tags
                then SOT_map.htmladd
                       (SOT_map.htmladd (SOT_map.htmladd html1 (SOT_map.text st)) tags)
                       inside
                else html1).
  set (text2 := if JS.nonempty tags then "" else SOT_map.text st ++ inside).
  assert (Epair : (if JS.nonempty tags
                   then (SOT_map.htmladd
                           (SOT_map.htmladd (SOT_map.htmladd html1 (SOT_map.text st)) tags)
                           inside, "")
                   else (html1, SOT_map.text st ++ inside))
                  = (html2, text2))
    by (unfold html2, text2; destruct (JS.nonempty tags); reflexivity).
  rewrite Epair.
  assert (Hok2 : starts_ok html2 sts1).
  { intros name e He. apply H1 in He. unfold html2.
    destruct He as [He|[He Hn]].
    - apply Hok in He.
      destruct (JS.nonempty tags).
      + pose proof (htmladd_length
                      (SOT_map.htmladd (SOT_map.htmladd html1 (SOT_map.text st)) tags)
                      inside).
        pose proof (htmladd_length (SOT_map.htmladd html1 (SOT_map.text st)) tags).
        pose proof (htmladd_length html1 (SOT_map.text st)). lia.
      + lia.
    - rewrite Hn.
      pose proof (htmladd_length
                    (SOT_map.htmladd (SOT_map.htmladd html1 (SOT_map.text st)) tags)
                    inside).
      rewrite (htmladd_length_nonempty _ tags Hn) in H.
      rewrite htmladd_length_text in H. rewrite He. unfold pi.
      destruct (JS.nonempty (SOT_map.text st)); lia. }
  unfold SOT_map._layersend.
  destruct (layersend_loop_nodefs
              (rev (skipn (SOT_map._difdepth seg nextseg) (origs seg))) "")
    as (endtags & E2).
  rewrite E2.
  destruct (JS.nonempty endtags).
  - set (html3 := if JS.nonempty text2
                  then SOT_map.htmladd html2 (text2 ++ endtags)
                  else SOT_map.htmladd html2 endtags).
    set (text3 := if JS.nonempty text2 then "" else text2).
    assert (Epair3 : (if JS.nonempty text2
                      then (SOT_map.htmladd html2 (text2 ++ endtags), "")
                      else (SOT_map.htmladd html2 endtags, text2))
                     = (html3, text3))
      by (unfold html3, text3; destruct (JS.nonempty text2); reflexivity).
    rewrite Epair3.
    assert (Hok3 : starts_ok html3 sts1).
    { apply starts_ok_mono with html2; [|exact Hok2]. unfold html3.
      destruct (JS.nonempty text2); apply htmladd_length. }
    unfold SOT_map._setlayerright.
    destruct (setlayerright_loop_nodefs seg (origs seg) html3 sts1 Hok3)
      as (html4 & sts4 & E4 & _ & Hok4).
    rewrite E4. eexists. split; [reflexivity|]. exact Hok4.
  - eexists. split; [reflexivity|]. exact Hok2.
Qed.

Lemma markup_loop_nodefs : forall segs prevseg i st,
  starts_ok (SOT_map.html st) (SOT_map.starts st) ->
  exists st', SOT_map.markup_loop fulltext map opts None callback prevseg segs i st
              = Some st'.
Proof.
  induction segs as [|seg segs IH]; intros prevseg i st Hok; [simpl; eauto|].
  cbn [SOT_map.markup_loop].
  destruct (markup_step_nodefs prevseg seg (hd_error segs) i st Hok) as (st1 & E & Hok1).
  rewrite E. apply IH. exact Hok1.
Qed.

End RenderingTotal.



(** *** Rendering with [defs] needs every name defined *)

Section RenderingUndefined.
Local Open Scope string_scope.
Variable fulltext : string.
Variable map : TextMap.
Variable opts : option Opts.
Variable ds : Defs.
Variable callback : option Callback.

Lemma undefined_dec (os : list Orig) :
  (exists o, In o os /\ lookup (setname o) ds = None)
  \/ (forall o, In o os -> lookup (setname o) ds <> None).
Proof.
  induction os as [|o os IH].
  - right. intros o [].
  - destruct (lookup (setname o) ds) as [d|] eqn:E.
    + destruct IH as [(o' & Hin & Hb)|Hg].
      * left. exists o'. split; [right; exact Hin|exact Hb].
      * right. intros o' [<-|Hin]; [congruence|apply Hg; exact Hin].
    + left. exists o. split; [left; reflexivity|exact E].
Qed.

Lemma tagstart_undefined seg layer mi j pi offset sts :
  lookup (setname layer) ds = None ->
  SOT_map._tagstart fulltext map opts (Some ds) callback seg layer mi j pi offset sts
  = None.
Proof.
  intros E. unfold SOT_map._tagstart, SOT_map._tag. rewrite E. reflexivity.
Qed.

Lemma layersstart_loop_undefined seg mi pi : forall layers j tags sts,
  (exists o, In o layers /\ lookup (setname o) ds = None) ->
  SOT_map._layersstart_loop fulltext map opts (Some ds) callback seg layers mi j pi
    tags sts = None.
Proof.
  induction layers as [|l layers IH]; intros j tags sts (o & Hin & Hb);
    [destruct Hin|].
  cbn [SOT_map._layersstart_loop].
  destruct (SOT_map._tagstart fulltext map opts (Some ds) callback (range seg) l mi j pi
              (JS.strlen tags) sts) as [[t sts']|] eqn:E; [|reflexivity].
  destruct Hin as [<-|Hin].
  - rewrite tagstart_undefined in E by exact Hb. discriminate.
  - apply IH. exists o. auto.
Qed.

Lemma common_prefix_nth same : forall l1 l2 j o,
  nth_error l1 j = Some o -> (j < common_prefix_length same l1 l2)%nat ->
  exists c, nth_error l2 j = Some c /\ same o c = true.
Proof.
  induction l1 as [|a l1 IH]; intros l2 j o Hj Hlt; [destruct j; discriminate|].
  destruct l2 as [|b l2]; [simpl in Hlt; lia|].
  simpl in Hlt. destruct (same a b) eqn:E; [|lia].
  destruct j as [|j]; simpl in *.
  - inversion Hj; subst. eauto.
  - apply (IH l2 j o Hj). lia.
Qed.

Lemma in_skipn_nth {A} (l : list A) : forall d j x,
  nth_error l j = Some x -> (d <= j)%nat -> In x (skipn d l).
Proof.
  induction l as [|a l IH]; intros d j x Hj Hd; [destruct j; discriminate|].
  destruct d as [|d]; [cbn [skipn]; eapply nth_error_In; exact Hj|].
  destruct j as [|j]; [lia|]. simpl in *. apply (IH d j x Hj). lia.
Qed.

Lemma difdepth_none seg : SOT_map._difdepth seg None = 0%nat.
Proof.
  unfold SOT_map._difdepth. destruct (List.length (origs seg)); reflexivity.
Qed.

(** A segment with an undefined name, after a segment without one (or
    first in the map), makes the turn of the loop fail. *)
Lemma markup_step_undefined prevseg seg nextseg i st :
  match prevseg with
  | Some ps => forall o, In o (origs ps) -> lookup (setname o) ds <> None
  | None => True
  end ->
  (exists o, In o (origs seg) /\ lookup (setname o) ds = None) ->
  SOT_map.markup_step fulltext map opts (Some ds) callback prevseg seg nextseg i st
  = None.
Proof.
  intros Hprev (o & Hin & Hb). unfold SOT_map.markup_step, SOT_map._layersstart.
  rewrite layersstart_loop_undefined; [reflexivity|].
  exists o. split; [|exact Hb].
  apply In_nth_error in Hin. destruct Hin as (j & Hj).
  destruct prevseg as [ps|].
  - destruct (Nat.lt_ge_cases j (SOT_map._difdepth seg (Some ps))) as [L|L].
    + exfalso. unfold SOT_map._difdepth in L.
      rewrite difdepth_loop_spec in L by reflexivity. simpl in L.
      destruct (common_prefix_nth same_name_seq _ _ j o Hj L) as (c & Hc & Hs).
      unfold same_name_seq in Hs. apply andb_true_iff in Hs. destruct Hs as [Hs _].
      apply String.eqb_eq in Hs. apply (Hprev c).
      * eapply nth_error_In; exact Hc.
      * rewrite <- Hs. exact Hb.
    + eapply in_skipn_nth; [exact Hj|exact L].
  - rewrite difdepth_none. simpl. eapply nth_error_In; exact Hj.
Qed.

Lemma markup_loop_undefined : forall segs prevseg i st,
  match prevseg with
  | Some ps => forall o, In o (origs ps) -> lookup (setname o) ds <> None
  | None => True
  end ->
  (exists seg o, In seg segs /\ In o (origs seg) /\ lookup (setname o) ds = None) ->
  SOT_map.markup_loop fulltext map opts (Some ds) callback prevseg segs i st = None.
Proof.
  induction segs as [|seg segs IH]; intros prevseg i st Hprev (sb & o & Hin & Ho & Hb);
    [destruct Hin|].
  cbn [SOT_map.markup_loop].
  destruct (undefined_dec (origs seg)) as [Hbad|Hgood].
  - rewrite markup_step_undefined by assumption. reflexivity.
  - destruct (SOT_map.markup_step fulltext map opts (Some ds) callback prevseg seg
                (hd_error segs) i st) as [st'|]; [|reflexivity].
    apply IH; [exact Hgood|].
    destruct Hin as [<-|Hin]; [exfalso; exact (Hgood o Ho Hb)|].
    exists sb, o. auto.
Qed.

End RenderingUndefined.

(** With [defs] given, [SOT.map.markup] raises a [TypeError] as soon as any
    segment of the map carries an origin whose name [defs] does not hold,
    wherever the segment lies and whatever else the map contains.  (A name
    is taken not to be that of a property every object inherits.) *)
Theorem markup_fails_on_undefined_name fulltext map opts ds callback seg o :
  In seg map -> In o (origs seg) -> lookup (setname o) ds = None ->
  SOT_map.markup fulltext map opts (Some ds) callback = None.
Proof.
  intros Hs Ho Hb. unfold SOT_map.markup.
  rewrite markup_loop_undefined; [reflexivity|exact I|].
  exists seg, o. auto.
Qed.

Lemma markup_fails_on_undefined_name_witness :
  SOT_map.markup "abcdef"%string
    [SOT_text_map.mk 0 2 [orig "a" 0 2 0]; SOT_text_map.mk 3 5 [orig "a" 3 5 1; orig "sel" 3 5 0]]
    None (Some [("a"%string, matcher_def (matcher_of [(0, 2); (3, 5)]))]) None
  = None.
Proof.
  apply (markup_fails_on_undefined_name "abcdef"%string
           [SOT_text_map.mk 0 2 [orig "a" 0 2 0];
            SOT_text_map.mk 3 5 [orig "a" 3 5 1; orig "sel" 3 5 0]]
           None [("a"%string, matcher_def (matcher_of [(0, 2); (3, 5)]))] None
           (SOT_text_map.mk 3 5 [orig "a" 3 5 1; orig "sel" 3 5 0])
           (orig "sel" 3 5 0)).
  - right. left. reflexivity.
  - right. left. reflexivity.
  - reflexivity.
Defined.

(** ** The pattern series *)

Section SeriesRegistry.

Lemma delete_assign_fresh {A} cls (v : A) defs :
  lookup cls defs = None -> delete cls (assign cls v defs) = defs.
Proof.
  induction defs as [|[k w] defs IH]; simpl.
  - intros _. rewrite String.eqb_refl. reflexivity.
  - destruct (String.eqb k cls) eqn:E; [discriminate|]. intros H.
    simpl. rewrite E, (IH H). reflexivity.
Qed.

Lemma lookup_assign_same {A} cls (v : A) defs : lookup cls (assign cls v defs) = Some v.
Proof.
  induction defs as [|[k w] defs IH]; simpl.
  - rewrite String.eqb_refl. reflexivity.
  - destruct (String.eqb k cls) eqn:E; simpl; rewrite E; [reflexivity|exact IH].
Qed.

(** Registering a range under a name that is not in use and deleting the
    name again leaves the series as it was; both calls report a change, and
    in between [get] returns the range. *)
Theorem addrange_then_del_restores r cls defs :
  SOT_PatternSeries.get cls defs = None ->
  exists defs1,
    SOT_PatternSeries.addrange r cls defs = Some (defs1, true)
    /\ SOT_PatternSeries.get cls defs1 = Some (range_def r)
    /\ SOT_PatternSeries.del cls defs1 = (defs, true).
Proof.
  unfold SOT_PatternSeries.get. intros H. exists (assign cls (range_def r) defs).
  unfold SOT_PatternSeries.addrange, SOT_PatternSeries.del. rewrite H, lookup_assign_same, (delete_assign_fresh _ _ _ H).
  auto.
Qed.

Lemma addrange_then_del_restores_witness :
  exists defs1,
    SOT_PatternSeries.addrange (mkRange 2 5) "current"
      [("match"%string, matcher_def (matcher_of [(0, 1)]))] = Some (defs1, true)
    /\ SOT_PatternSeries.get "current" defs1 = Some (range_def (mkRange 2 5))
    /\ SOT_PatternSeries.del "current" defs1 = ([("match"%string, matcher_def (matcher_of [(0, 1)]))], true).
Proof.
  apply (addrange_then_del_restores (mkRange 2 5) "current"
           [("match"%string, matcher_def (matcher_of [(0, 1)]))]).
  reflexivity.
Defined.

(** [addrange] stores a range only when it differs from the one registered:
    after a successful call, the same call again changes nothing and reports
    no change.  The call fails exactly when the name is registered without a
    range, as a matcher is. *)
Theorem addrange_is_idempotent r cls defs :
  (SOT_PatternSeries.addrange r cls defs = None <->
   exists d, SOT_PatternSeries.get cls defs = Some d /\ drange d = None)
  /\ forall defs1 changed,
       SOT_PatternSeries.addrange r cls defs = Some (defs1, changed) ->
       (exists d, SOT_PatternSeries.get cls defs1 = Some d /\ drange d = Some r)
       /\ SOT_PatternSeries.addrange r cls defs1 = Some (defs1, false).
Proof.
  unfold SOT_PatternSeries.get. split.
  - unfold SOT_PatternSeries.addrange. destruct (lookup cls defs) as [d|] eqn:El.
    + destruct (drange d) as [r0|] eqn:Er.
      * split.
        -- destruct (negb (rstart r0 =? rstart r) || negb (rend r0 =? rend r));
             discriminate.
        -- intros (d' & Hd & Hr). inversion Hd; subst d'. congruence.
      * split; [eauto|reflexivity].
    + split; [discriminate|]. intros (d & Hd & _). discriminate.
  - intros defs1 changed H. unfold SOT_PatternSeries.addrange in H.
    assert (Hstored : forall ds, lookup cls ds = Some (range_def r) ->
              SOT_PatternSeries.addrange r cls ds = Some (ds, false)).
    { intros ds Hl. unfold SOT_PatternSeries.addrange. rewrite Hl. cbn [drange range_def].
      rewrite !Z.eqb_refl. reflexivity. }
    destruct (lookup cls defs) as [d|] eqn:El.
    + destruct (drange d) as [r0|] eqn:Er; [|discriminate].
      destruct (negb (rstart r0 =? rstart r) || negb (rend r0 =? rend r)) eqn:Ec.
      * inversion H; subst. split.
        -- exists (range_def r). split; [apply lookup_assign_same|reflexivity].
        -- apply Hstored. apply lookup_assign_same.
      * inversion H; subst. apply orb_false_iff in Ec. destruct Ec as [E1 E2].
        apply negb_false_iff in E1, E2. apply Z.eqb_eq in E1, E2.
        assert (r0 = r) by (destruct r0, r; simpl in *; congruence). subst r0.
        split; [eauto|]. unfold SOT_PatternSeries.addrange. rewrite El, Er, !Z.eqb_refl. reflexivity.
    + inversion H; subst. split.
      * exists (range_def r). split; [apply lookup_assign_same|reflexivity].
      * apply Hstored. apply lookup_assign_same.
Qed.

Lemma fold_left_app_skip {A B} (f : A -> B -> A) (l1 l2 : list B) a :
  (forall x b, In b l2 -> f x b = x) -> fold_left f (l1 ++ l2) a = fold_left f l1 a.
Proof.
  intros H. rewrite fold_left_app. generalize (fold_left f l1 a).
  induction l2 as [|b l2 IH]; intros x; [reflexivity|]. simpl.
  rewrite H by (left; reflexivity). apply IH. intros y c Hc. apply H. right. exact Hc.
Qed.

Lemma fold_left_skip_app {A B} (f : A -> B -> A) (l1 l2 : list B) a :
  (forall x b, In b l1 -> f x b = x) -> fold_left f (l1 ++ l2) a = fold_left f l2 a.
Proof.
  intros H. rewrite fold_left_app. f_equal.
  induction l1 as [|b l1 IH]; [reflexivity|]. simpl.
  rewrite H by (left; reflexivity). apply IH. intros y c Hc. apply H. right. exact Hc.
Qed.

Lemma fold_left_ext_in {A B} (f g : A -> B -> A) (l : list B) :
  (forall x b, In b l -> f x b = g x b) -> forall a, fold_left f l a = fold_left g l a.
Proof.
  induction l as [|b l IH]; intros H a; [reflexivity|]. simpl.
  rewrite H by (left; reflexivity). apply IH. intros y c Hc. apply H. right. exact Hc.
Qed.

(** [overlayranges] makes no difference to [buildmap] when the series
    registers its matchers before its ranges and no entry is both: the
    single pass in registration order and the two passes, matchers then
    ranges, build the same map. *)
Theorem overlay_is_irrelevant_when_matchers_come_first ms rs text map :
  Forall (fun e : string * Def => drange (snd e) = None) ms ->
  Forall (fun e : string * Def => regex (snd e) = None) rs ->
  PatternSeries.buildmap (ms ++ rs) text map true
  = PatternSeries.buildmap (ms ++ rs) text map false.
Proof.
  intros Hm Hr. rewrite Forall_forall in Hm, Hr.
  unfold PatternSeries.buildmap, PatternSeries.buildrangesmap,
    PatternSeries.buildmatchesmap.
  set (fm := fun (m : TextMap) (e : string * Def) =>
               match regex (snd e) with
               | Some rx => addmatches text rx (fst e) true m
               | None => m
               end).
  set (fr := fun (m : TextMap) (e : string * Def) =>
               match drange (snd e) with
               | Some r => addrange text r (fst e) true m
               | None => m
               end).
  set (fe := fun (m : TextMap) (e : string * Def) =>
               match regex (snd e) with
               | Some rx => addmatches text rx (fst e) true m
               | None =>
                   match drange (snd e) with
                   | Some r => addrange text r (fst e) true m
                   | None => m
                   end
               end).
  rewrite (fold_left_app_skip fm ms rs)
    by (intros x b Hb; unfold fm; rewrite (Hr b Hb); reflexivity).
  rewrite (fold_left_skip_app fr ms rs)
    by (intros x b Hb; unfold fr; rewrite (Hm b Hb); reflexivity).
  rewrite (fold_left_app fe ms rs).
  rewrite (fold_left_ext_in fe fm ms).
  2:{ intros x b Hb. unfold fe, fm. rewrite (Hm b Hb).
      destruct (regex (snd b)); reflexivity. }
  apply fold_left_ext_in. intros x b Hb. unfold fe, fr. rewrite (Hr b Hb). reflexivity.
Qed.

Lemma overlay_is_irrelevant_when_matchers_come_first_witness :
  PatternSeries.buildmap
    ([("word"%string, matcher_def (matcher_of [(0, 3); (4, 7)]))]
     ++ [("sel"%string, range_def (mkRange 2 5))]) "abc def"%string [] true
  = PatternSeries.buildmap
      ([("word"%string, matcher_def (matcher_of [(0, 3); (4, 7)]))]
       ++ [("sel"%string, range_def (mkRange 2 5))]) "abc def"%string [] false.
Proof.
  apply (overlay_is_irrelevant_when_matchers_come_first
           [("word"%string, matcher_def (matcher_of [(0, 3); (4, 7)]))]
           [("sel"%string, range_def (mkRange 2 5))] "abc def"%string []);
    repeat constructor.
Defined.

Lemma fold_left_skip_all {A B} (f : A -> B -> A) (l : list B) a :
  (forall x b, In b l -> f x b = x) -> fold_left f l a = a.
Proof.
  revert a. induction l as [|b l IH]; intros a H; [reflexivity|]. simpl.
  rewrite H by (left; reflexivity). apply IH. intros y c Hc. apply H. right. exact Hc.
Qed.

(** After [delranges] the series applies matchers only, after [delregexs]
    ranges only: [buildrangesmap], respectively [buildmatchesmap], returns
    the map it is given, and [buildmap] is the other pass alone, whatever
    [overlayranges] is.  An entry that is both a matcher and a range is
    removed by either call. *)
Theorem delranges_and_delregexs_leave_one_kind defs text map overlay :
  PatternSeries.buildrangesmap (SOT_PatternSeries.delranges defs) text map = map
  /\ PatternSeries.buildmap (SOT_PatternSeries.delranges defs) text map overlay
     = PatternSeries.buildmatchesmap (SOT_PatternSeries.delranges defs) text map
  /\ PatternSeries.buildmatchesmap (SOT_PatternSeries.delregexs defs) text map = map
  /\ PatternSeries.buildmap (SOT_PatternSeries.delregexs defs) text map overlay
     = PatternSeries.buildrangesmap (SOT_PatternSeries.delregexs defs) text map.
Proof.
  assert (Hr : forall b, In b (SOT_PatternSeries.delranges defs) -> drange (snd b) = None).
  { intros b Hb. unfold SOT_PatternSeries.delranges in Hb. apply filter_In in Hb.
    destruct Hb as [_ Hb]. destruct (drange (snd b)); [discriminate|reflexivity]. }
  assert (Hx : forall b, In b (SOT_PatternSeries.delregexs defs) -> regex (snd b) = None).
  { intros b Hb. unfold SOT_PatternSeries.delregexs in Hb. apply filter_In in Hb.
    destruct Hb as [_ Hb]. destruct (regex (snd b)); [discriminate|reflexivity]. }
  assert (R1 : forall m,
            PatternSeries.buildrangesmap (SOT_PatternSeries.delranges defs) text m = m).
  { intros m. unfold PatternSeries.buildrangesmap. apply fold_left_skip_all.
    intros x b Hb. rewrite (Hr b Hb). reflexivity. }
  assert (X1 : forall m,
            PatternSeries.buildmatchesmap (SOT_PatternSeries.delregexs defs) text m = m).
  { intros m. unfold PatternSeries.buildmatchesmap. apply fold_left_skip_all.
    intros x b Hb. rewrite (Hx b Hb). reflexivity. }
  split; [apply R1|]. split; [|split; [apply X1|]].
  - unfold PatternSeries.buildmap. destruct overlay; [apply R1|].
    unfold PatternSeries.buildmatchesmap. apply fold_left_ext_in.
    intros x b Hb. rewrite (Hr b Hb). reflexivity.
  - unfold PatternSeries.buildmap. destruct overlay; [rewrite X1; reflexivity|].
    unfold PatternSeries.buildrangesmap. apply fold_left_ext_in.
    intros x b Hb. rewrite (Hx b Hb). reflexivity.
Qed.

End SeriesRegistry.

(** ** String helpers *)

Section StringHelpers.
Local Open Scope string_scope.

Lemma substring_prefix_split s a :
  (0 <= a)%Z ->
  exists t1 t2, s = t1 ++ t2 /\ JS.strlen t1 = Z.min a (JS.strlen s)
                /\ JS.substring s 0 a = t1.
Proof.
  intros Ha. pose proof (strlen_nonneg s) as Hs.
  destruct (string_split s (Z.min a (JS.strlen s))) as (t1 & t2 & E & L); [lia|].
  exists t1, t2. split; [exact E|]. split; [exact L|].
  unfold JS.substring.
  replace (Z.min (Z.max 0 0) (JS.strlen s)) with 0%Z by lia.
  replace (Z.min (Z.max a 0) (JS.strlen s)) with (JS.strlen t1) by lia.
  pose proof (strlen_nonneg t1).
  rewrite Z.min_l, Z.max_r, Z.sub_0_r by lia.
  subst s. unfold JS.strlen. rewrite Nat2Z.id. simpl Z.to_nat.
  apply substring_app_l.
Qed.

(** [startswith(s, sub)] holds exactly when [sub] is a non-empty string and
    [s] begins with it; an empty or missing [sub] never matches, not even
    an empty [s]. *)
Theorem startswith_iff_nonempty_prefix s sub :
  SOT_text_tests.startswith s sub = true
  <-> exists p rest, sub = Some p /\ p <> "" /\ s = Some (p ++ rest).
Proof.
  unfold SOT_text_tests.startswith. split.
  - destruct s as [s'|], sub as [p|]; try discriminate. intros H.
    apply andb_true_iff in H. destruct H as [H H3].
    apply andb_true_iff in H. destruct H as [_ H2].
    apply String.eqb_eq in H3.
    destruct (substring_prefix_split s' (JS.strlen p) (strlen_nonneg p))
      as (t1 & t2 & E & _ & Es).
    rewrite Es in H3. subst t1. exists p, t2.
    split; [reflexivity|]. split; [|congruence].
    intros ->. discriminate.
  - intros (p & rest & -> & Hp & ->).
    assert (Hn : JS.nonempty p = true) by (destruct p; [congruence|reflexivity]).
    rewrite Hn, (nonempty_append_l p rest Hn). cbn [andb].
    apply String.eqb_eq.
    exact (substring_middle "" p rest).
Qed.

End StringHelpers.

Section Escaping.
Local Open Scope string_scope.

Lemma escaped_injective : forall s1 s2, escaped s1 = escaped s2 -> s1 = s2.
Proof.
  induction s1 as [|c1 s1 IH]; intros [|c2 s2] H.
  - reflexivity.
  - exfalso. cbn [escaped] in H. unfold escape_char in H.
    destruct (Ascii.eqb c2 "&"); [discriminate|].
    destruct (Ascii.eqb c2 ">"); [discriminate|].
    destruct (Ascii.eqb c2 "<"); discriminate.
  - exfalso. cbn [escaped] in H. unfold escape_char in H.
    destruct (Ascii.eqb c1 "&"); [discriminate|].
    destruct (Ascii.eqb c1 ">"); [discriminate|].
    destruct (Ascii.eqb c1 "<"); discriminate.
  - cbn [escaped] in H. unfold escape_char in H.
    destruct (Ascii.eqb c1 "&") eqn:A1; [apply Ascii.eqb_eq in A1|apply Ascii.eqb_neq in A1];
    [|destruct (Ascii.eqb c1 ">") eqn:B1;
      [apply Ascii.eqb_eq in B1|apply Ascii.eqb_neq in B1];
      [|destruct (Ascii.eqb c1 "<") eqn:C1;
        [apply Ascii.eqb_eq in C1|apply Ascii.eqb_neq in C1]]];
    (destruct (Ascii.eqb c2 "&") eqn:A2; [apply Ascii.eqb_eq in A2|apply Ascii.eqb_neq in A2];
     [|destruct (Ascii.eqb c2 ">") eqn:B2;
       [apply Ascii.eqb_eq in B2|apply Ascii.eqb_neq in B2];
       [|destruct (Ascii.eqb c2 "<") eqn:C2;
         [apply Ascii.eqb_eq in C2|apply Ascii.eqb_neq in C2]]]);
    cbn [String.append] in H; inversion H; subst;
    try congruence; try discriminate; f_equal; apply IH; assumption.
Qed.

(** [raw2HTML] loses nothing: two texts with the same escaped form are the
    same text. *)
Theorem raw2HTML_is_injective s1 s2 :
  SOT_text.raw2HTML s1 = SOT_text.raw2HTML s2 -> s1 = s2.
Proof.
  rewrite !raw2HTML_escaped. apply escaped_injective.
Qed.

Lemma raw2HTML_is_injective_witness : "a<b&c" = "a<b&c".
Proof.
  apply (raw2HTML_is_injective "a<b&c" "a<b&c"). reflexivity.
Defined.

End Escaping.

(** ** Segment-mode insertion: instances of the partition invariant *)

Section SegmentModeInstances.
Local Open Scope string_scope.

Lemma partition_invariant_witness :
  let inss := [InsRange "0123456789" (mkRange 6 0) "A";
               InsMatches "0123456789" (matcher_of [(2, 4); (5, 8)]) "B"] in
  (forall i j si sj, (i < j)%nat ->
     nth_error (build inss) i = Some si -> nth_error (build inss) j = Some sj ->
     sstart si < send si /\ send si <= sstart sj /\ sstart sj < send sj)
  /\ (forall x, covers (build inss) x <-> Exists (fun ins => inserted ins x) inss).
Proof.
  cbv zeta.
  apply (partition_invariant
           [InsRange "0123456789" (mkRange 6 0) "A";
            InsMatches "0123456789" (matcher_of [(2, 4); (5, 8)]) "B"]).
  repeat constructor; simpl; lia.
Defined.

Lemma partition_invariant_weak_witness :
  let inss := [InsRange "0123456789" (mkRange 0 6) "A";
               InsRange "0123456789" (mkRange 3 3) "B"] in
  ordered false (build inss)
  /\ (forall x, covers (build inss) x <-> Exists (fun ins => inserted ins x) inss).
Proof.
  cbv zeta.
  apply (partition_invariant_weak
           [InsRange "0123456789" (mkRange 0 6) "A";
            InsRange "0123456789" (mkRange 3 3) "B"]).
  repeat constructor.
Defined.

Lemma zero_length_range_outside_is_dropped_witness :
  addrange "0123456789" (mkRange 3 3) "B" true
    [mk 0 3 [orig "A" 0 3 0]; mk 5 8 [orig "A" 5 8 1]]
  = [mk 0 3 [orig "A" 0 3 0]; mk 5 8 [orig "A" 5 8 1]].
Proof.
  apply (zero_length_range_outside_is_dropped "0123456789"
           [mk 0 3 [orig "A" 0 3 0]; mk 5 8 [orig "A" 5 8 1]] 3 "B").
  intros seg [<-|[<-|[]]]; unfold sstart, send; simpl; lia.
Defined.

End SegmentModeInstances.

(** ** Segment-mode insertion, position by position *)

Section Layers.
Import SOT_text_map.

Lemma origs_at_in lo map : chain true lo map -> forall seg x,
  In seg map -> inseg seg x -> origs_at map x = origs seg.
Proof.
  revert lo. induction map as [|a map IH]; intros lo Hc seg x Hin Hx; [destruct Hin|].
  simpl in Hc. destruct Hc as (H1 & H2 & H3). cbn [origs_at].
  destruct ((sstart a <=? x) && (x <? send a)) eqn:E.
  - apply andb_true_iff in E. destruct E as [E1 E2].
    apply Z.leb_le in E1. apply Z.ltb_lt in E2.
    destruct Hin as [->|Hin]; [reflexivity|]. exfalso.
    pose proof (chain_starts true _ _ H3) as Fs. rewrite Forall_forall in Fs.
    specialize (Fs seg Hin). unfold inseg in Hx. simpl in Fs. lia.
  - destruct Hin as [->|Hin].
    + exfalso. unfold inseg in Hx.
      apply andb_false_iff in E. destruct E as [E|E];
        [apply Z.leb_gt in E|apply Z.ltb_ge in E]; lia.
    + exact (IH _ H3 seg x Hin Hx).
Qed.

Lemma origs_at_out map x :
  (forall seg, In seg map -> ~ inseg seg x) -> origs_at map x = [].
Proof.
  induction map as [|a map IH]; intros H; [reflexivity|]. cbn [origs_at].
  destruct ((sstart a <=? x) && (x <? send a)) eqn:E.
  - exfalso. apply andb_true_iff in E. destruct E as [E1 E2].
    apply Z.leb_le in E1. apply Z.ltb_lt in E2.
    apply (H a); [left; reflexivity|]. split; assumption.
  - apply IH. intros seg Hin. apply H. right. exact Hin.
Qed.

Lemma origs_at_gap consumed rest x :
  Forall (fun c => send c <= x) consumed ->
  Forall (fun r => x < sstart r) rest ->
  origs_at (consumed ++ rest) x = [].
Proof.
  intros Fc Fr. apply origs_at_out. intros seg Hin [A B].
  rewrite Forall_forall in Fc, Fr. apply in_app_or in Hin.
  destruct Hin as [Hin|Hin]; [specialize (Fc seg Hin)|specialize (Fr seg Hin)];
    simpl in *; lia.
Qed.

Lemma inseg_dec l x :
  (exists seg, In seg l /\ inseg seg x) \/ (forall seg, In seg l -> ~ inseg seg x).
Proof.
  induction l as [|a l IH].
  - right. intros seg [].
  - destruct (Z_le_gt_dec (sstart a) x) as [A|A].
    + destruct (Z_lt_le_dec x (send a)) as [B|B].
      * left. exists a. split; [left; reflexivity|split; assumption].
      * destruct IH as [(seg & Hin & Hx)|Hn].
        -- left. exists seg. split; [right; exact Hin|exact Hx].
        -- right. intros seg [<-|Hin]; [unfold inseg; lia|apply Hn; exact Hin].
    + destruct IH as [(seg & Hin & Hx)|Hn].
      * left. exists seg. split; [right; exact Hin|exact Hx].
      * right. intros seg [<-|Hin]; [unfold inseg; lia|apply Hn; exact Hin].
Qed.

Lemma range_test_true s e x : s <= x < e -> (s <=? x) && (x <? e) = true.
Proof.
  intros [A B]. apply andb_true_iff. split; [apply Z.leb_le|apply Z.ltb_lt]; assumption.
Qed.

Lemma range_test_false s e x : x < s \/ e <= x -> (s <=? x) && (x <? e) = false.
Proof.
  intros H. apply andb_false_iff.
  destruct H as [H|H]; [left; apply Z.leb_gt|right; apply Z.ltb_ge]; exact H.
Qed.

Lemma in_skipn_in {A} (l : list A) k x : In x (skipn k l) -> In x l.
Proof.
  intros H. rewrite <- (firstn_skipn k l). apply in_or_app. right. exact H.
Qed.

(** When the next segment starts at or after the end of [m], the loop of
    [_segment] does nothing. *)
Lemma segment_loop_stops rest m p :
  match rest with i :: _ => send m <= sstart i | [] => True end ->
  _segment_loop rest m p = (m, p).
Proof.
  destruct rest as [|i rest]; [reflexivity|]. intros H. cbn [_segment_loop].
  replace (sstart i <? send m) with false; [reflexivity|].
  symmetry. apply Z.ltb_ge. exact H.
Qed.

(** The fragments that one split pushes carry the layers [T], when the two
    ranges that the split writes do. *)
Lemma seg2_layers (T : Z -> list Orig) m i p :
  (forall x, Z.min (sstart m) (sstart i) <= x < Z.max (sstart m) (sstart i) ->
     (if Z.min (sstart m) (sstart i) <? sstart i then origs m else origs i) = T x) ->
  (forall x, Z.max (sstart m) (sstart i) <= x < Z.min (send m) (send i) ->
     origs i ++ origs m = T x) ->
  exists frags,
    _seg2 m i p
    = (mk (Z.min (send m) (send i)) (Z.max (send m) (send i))
         (if Z.min (send m) (send i) <? send m then origs m else origs i),
       {| newmap := newmap p ++ frags; p_i := p_i p; p_setindex := p_setindex p |})
    /\ agrees T frags
    /\ Forall (fun f => Z.min (sstart m) (sstart i) <= sstart f) frags.
Proof.
  intros H1 H2. unfold _seg2, push.
  set (frag2 := mk (Z.max (sstart m) (sstart i)) (Z.min (send m) (send i))
                  (origs i ++ origs m)).
  assert (A2 : forall x, inseg frag2 x -> origs frag2 = T x)
    by (intros x Hx; exact (H2 x Hx)).
  assert (B2 : Z.min (sstart m) (sstart i) <= sstart frag2)
    by (change (sstart frag2) with (Z.max (sstart m) (sstart i)); lia).
  destruct (Z.min (sstart m) (sstart i) <? Z.max (sstart m) (sstart i)) eqn:E.
  - eexists [_; frag2]. split; [rewrite <- app_assoc; reflexivity|]. split.
    + constructor; [|constructor; [exact A2|constructor]].
      intros x Hx. exact (H1 x Hx).
    + constructor; [|constructor; [exact B2|constructor]].
      change (sstart (mk ?a ?b ?o)) with a. lia.
  - exists [frag2]. split; [reflexivity|]. split; constructor; auto.
Qed.

Section OneRange.
Variable map : TextMap.
Variable lo s e : Z.
Variable os : list Orig.
Hypothesis Hc : chain true lo map.

Lemma layers_in seg x :
  In seg map -> inseg seg x ->
  add_layer (origs_at map) s e os x
  = origs seg ++ (if (s <=? x) && (x <? e) then os else []).
Proof.
  intros Hin Hx. unfold add_layer. rewrite (origs_at_in lo map Hc seg x Hin Hx).
  reflexivity.
Qed.

Lemma layers_gap rest x :
  (covers map x -> covers rest x) -> Forall (fun r => x < sstart r) rest ->
  s <= x < e -> add_layer (origs_at map) s e os x = os.
Proof.
  intros Hcov Fr Hx. unfold add_layer. rewrite origs_at_out.
  - rewrite range_test_true by exact Hx. reflexivity.
  - intros seg Hin Hs. destruct Hcov as (r & Hr & Hrx); [exists seg; auto|].
    rewrite Forall_forall in Fr. specialize (Fr r Hr). unfold inseg in Hrx.
    simpl in Fr. lia.
Qed.

(** The loop of [_segment], entered with the rest of the new range in [m]:
    what it appends to [p.newmap] carries, position by position, the old
    layers followed by the new one where the range reaches. *)
Lemma segment_loop_layers : forall rest m p beta,
  chain true beta rest -> (forall i, In i rest -> In i map) ->
  origs m = os -> send m = e -> s <= sstart m -> beta <= sstart m ->
  (forall x, sstart m <= x -> covers map x -> covers rest x) ->
  match rest with i :: _ => sstart m <= send i | [] => True end ->
  (sstart m = s \/ match rest with i :: _ => sstart m <= sstart i | [] => True end) ->
  exists k m' added,
    _segment_loop rest m p
      = (m', {| newmap := newmap p ++ added; p_i := (p_i p + k)%nat;
                p_setindex := p_setindex p |})
    /\ agrees (add_layer (origs_at map) s e os) added
    /\ (forall x, inseg m' x -> origs m' = add_layer (origs_at map) s e os x)
    /\ Forall (fun r => e <= sstart r) (skipn k rest)
    /\ Forall (fun f => beta <= sstart f) added
    /\ beta <= sstart m'.
Proof.
  induction rest as [|i rest IH];
    intros m p beta Hcr Hsub Hos Hme Hsm Hbm Hcov Hhd Hfirst.
  - exists 0%nat, m, []. cbn [_segment_loop skipn]. rewrite Nat.add_0_r, app_nil_r.
    split; [destruct p; reflexivity|]. split; [constructor|].
    split; [|split; [constructor|split; [constructor|exact Hbm]]].
    intros x [A B]. rewrite Hos. symmetry.
    apply (layers_gap [] x); [apply Hcov; exact A|constructor|lia].
  - simpl in Hcr. destruct Hcr as (Hi1 & Hi2 & Hi3).
    pose proof (chain_starts true _ _ Hi3) as Frest.
    assert (Hin_i : In i map) by (apply Hsub; left; reflexivity).
    destruct (Z_lt_le_dec (sstart i) (send m)) as [Ec|Ec].
    2:{ exists 0%nat, m, [].
        rewrite segment_loop_stops by exact Ec.
        cbn [skipn]. rewrite Nat.add_0_r, app_nil_r.
        split; [destruct p; reflexivity|]. split; [constructor|].
        split; [|split; [|split; [constructor|exact Hbm]]].
        - intros x [A B]. rewrite Hos. symmetry.
          apply (layers_gap (i :: rest) x); [apply Hcov; exact A| |lia].
          constructor; [lia|]. eapply Forall_impl; [|exact Frest]. simpl. intros; lia.
        - constructor; [lia|]. eapply Forall_impl; [|exact Frest]. simpl. intros; lia. }
    cbn [_segment_loop].
    replace (sstart i <? send m) with true by (symmetry; apply Z.ltb_lt; exact Ec).
    simpl in Hhd.
    assert (Hfirst' : sstart m = s \/ sstart m <= sstart i) by exact Hfirst.
    destruct (seg2_layers (add_layer (origs_at map) s e os) m i p)
      as (frags & Eseg & Afr & Bfr).
    { intros x Hx. destruct (Z.min (sstart m) (sstart i) <? sstart i) eqn:E1.
      - apply Z.ltb_lt in E1. rewrite Hos. symmetry.
        apply (layers_gap (i :: rest) x); [apply Hcov; lia| |lia].
        constructor; [lia|]. eapply Forall_impl; [|exact Frest]. simpl. intros; lia.
      - apply Z.ltb_ge in E1. rewrite (layers_in i x Hin_i) by (unfold inseg; lia).
        rewrite range_test_false by lia. symmetry; apply app_nil_r. }
    { intros x Hx. rewrite (layers_in i x Hin_i) by (unfold inseg; lia).
      rewrite range_test_true by lia. rewrite Hos. reflexivity. }
    rewrite Eseg. cbn [newmap p_i p_setindex].
    set (m1 := mk (Z.min (send m) (send i)) (Z.max (send m) (send i))
                 (if Z.min (send m) (send i) <? send m then origs m else origs i)).
    assert (Bfr' : Forall (fun f => beta <= sstart f) frags)
      by (eapply Forall_impl; [|exact Bfr]; simpl; intros; lia).
    destruct (Z_lt_le_dec (send i) (send m)) as [Hlt|Hge].
    + destruct (IH m1 {| newmap := newmap p ++ frags; p_i := S (p_i p);
                         p_setindex := p_setindex p |} beta)
        as (k & m' & added & E2 & A2 & B2 & C2 & D2 & G2).
      * eapply chain_weaken; [|exact Hi3]. lia.
      * intros j Hj. apply Hsub. right. exact Hj.
      * unfold m1. cbn [origs mk].
        replace (Z.min (send m) (send i) <? send m) with true
          by (symmetry; apply Z.ltb_lt; lia). exact Hos.
      * unfold m1. change (send (mk ?a ?b ?o)) with b. lia.
      * unfold m1. change (sstart (mk ?a ?b ?o)) with a. lia.
      * unfold m1. change (sstart (mk ?a ?b ?o)) with a. lia.
      * unfold m1. change (sstart (mk ?a ?b ?o)) with a. intros x Hx Hcx.
        destruct (Hcov x ltac:(lia) Hcx) as (r & [<-|Hr] & Hrx);
          [unfold inseg in Hrx; lia|]. exists r. auto.
      * unfold m1. change (sstart (mk ?a ?b ?o)) with a.
        destruct rest as [|i2 rest2]; [trivial|].
        simpl in Hi3. destruct Hi3 as (Q1 & Q2 & _). lia.
      * right. unfold m1. change (sstart (mk ?a ?b ?o)) with a.
        destruct rest as [|i2 rest2]; [trivial|].
        simpl in Hi3. destruct Hi3 as (Q1 & Q2 & _). lia.
      * exists (S k), m', (frags ++ added). cbn [newmap p_i p_setindex] in E2.
        rewrite E2. split; [rewrite <- app_assoc; f_equal; f_equal; lia|].
        split; [apply Forall_app; split; assumption|].
        split; [exact B2|]. split; [exact C2|].
        split; [apply Forall_app; split; assumption|exact G2].
    + rewrite segment_loop_stops.
      2:{ destruct rest as [|i2 rest2]; [trivial|].
          simpl in Hi3. destruct Hi3 as (Q1 & _).
          unfold m1. change (send (mk ?a ?b ?o)) with b. lia. }
      exists 1%nat, m1, frags.
      split; [f_equal; f_equal; lia|]. split; [exact Afr|]. split.
      * intros x [A B]. unfold m1 in *. cbn [origs mk].
        change (sstart (mk ?a ?b ?o)) with a in A.
        change (send (mk ?a ?b ?o)) with b in B.
        replace (Z.min (send m) (send i) <? send m) with false
          by (symmetry; apply Z.ltb_ge; lia).
        rewrite (layers_in i x Hin_i) by (unfold inseg; lia).
        rewrite range_test_false by lia. symmetry; apply app_nil_r.
      * split; [cbn [skipn]; eapply Forall_impl; [|exact Frest]; simpl; intros; lia|].
        split; [exact Bfr'|].
        unfold m1. change (sstart (mk ?a ?b ?o)) with a. lia.
Qed.

End OneRange.

Lemma segment_unfold s e os map p m1 p1 m2 p2 :
  match pop (newmap p) with
  | Some (init, i) =>
      if sstart (mk s e os) <? send i
      then _seg2 (mk s e os) i
             {| newmap := init; p_i := p_i p; p_setindex := p_setindex p |}
      else (mk s e os, p)
  | None => (mk s e os, p)
  end = (m1, p1) ->
  _segment_loop (skipn (p_i p1) map) m1 p1 = (m2, p2) ->
  _segment s e os map p
  = if sstart m2 <? send m2
    then {| newmap := push (newmap p2) m2; p_i := p_i p2; p_setindex := p_setindex p2 |}
    else p2.
Proof. intros E1 E2. unfold _segment. rewrite E1, E2. reflexivity. Qed.

Lemma agrees_before (G : Z -> list Orig) s e os l :
  agrees G l -> Forall (fun f => send f <= s) l -> agrees (add_layer G s e os) l.
Proof.
  unfold agrees. rewrite !Forall_forall. intros Ha Fe f Hin x Hx.
  unfold add_layer. rewrite <- (Ha f Hin x Hx).
  specialize (Fe f Hin). unfold inseg in Hx. simpl in Fe.
  rewrite range_test_false by lia. symmetry; apply app_nil_r.
Qed.

Lemma agrees_from (G : Z -> list Orig) map s e os b l :
  (forall x, b <= x -> G x = origs_at map x) ->
  agrees (add_layer (origs_at map) s e os) l -> Forall (fun f => b <= sstart f) l ->
  agrees (add_layer G s e os) l.
Proof.
  unfold agrees. rewrite !Forall_forall. intros HG Ha Fb f Hin x Hx.
  rewrite (Ha f Hin x Hx). unfold add_layer.
  specialize (Fb f Hin). unfold inseg in Hx. simpl in Fb.
  rewrite HG by lia. reflexivity.
Qed.

(** One Segment-mode insertion of a non-empty range at the cursor [p] lays
    the new origin over the layers [G] that [p.newmap] carried. *)
Lemma insertrange_layers map lo name (G : Z -> list Orig) b C p s e :
  chain true lo map ->
  cursor_inv true (fun _ => True) (fun _ => True) b C (newmap p) (skipn (p_i p) map) ->
  (forall x, covers map x -> C x) ->
  Forall (fun r => b <= sstart r) (skipn (p_i p) map) ->
  (forall x, b <= x -> G x = origs_at map x) ->
  agrees G (newmap p) ->
  b <= s -> s < e ->
  agrees (add_layer G s e [orig name s e (p_setindex p)])
    (newmap (_insertrange s e name map true p))
  /\ Forall (fun r => e <= sstart r) (skipn (p_i (_insertrange s e name map true p)) map).
Proof.
  intros Hc ([l1 Hord] & Fsb & _ & _ & _ & Hcov) HC Fb HG Hag Hbs Hse.
  set (rest := skipn (p_i p) map) in *.
  set (osn := [orig name s e (p_setindex p)]).
  unfold _insertrange.
  destruct (copy_before_spec s rest p) as (k & E1 & F1 & X1).
  fold rest. rewrite E1. cbn [newmap p_i p_setindex].
  change (neworigs name {| ostart := s; oend := e; setindex := p_setindex p |}) with osn.
  set (nm1 := newmap p ++ firstn k rest) in *.
  set (rest1 := skipn k rest) in *.
  assert (Er1 : skipn (p_i p + k) map = rest1)
    by (unfold rest1, rest; symmetry; apply skipn_skipn_add).
  assert (Hsub : forall i, In i rest -> In i map)
    by (intros i Hi; eapply in_skipn_in; exact Hi).
  assert (Hsub1 : forall i, In i rest1 -> In i map)
    by (intros i Hi; apply Hsub; eapply in_skipn_in; exact Hi).
  assert (Hord1 : chain true l1 (nm1 ++ rest1)).
  { unfold nm1, rest1. rewrite <- app_assoc, firstn_skipn. exact Hord. }
  pose proof Hord1 as Hsplit. apply chain_app in Hsplit. destruct Hsplit as [Hcn Hcr].
  assert (Fsp : Forall (fun c => sstart c < send c) (nm1 ++ rest1))
    by exact (chain_spans true _ _ Hord1).
  assert (Fns : Forall (fun f => sstart f <= s) nm1).
  { unfold nm1. apply Forall_app. split.
    - eapply Forall_impl; [|exact Fsb]. simpl. intros; lia.
    - rewrite Forall_forall in *. intros c Hin.
      specialize (F1 c Hin).
      assert (sstart c < send c)
        by (apply Fsp; apply in_or_app; left; apply in_or_app; right; exact Hin).
      simpl in *. lia. }
  assert (Hag1 : agrees G nm1).
  { unfold nm1. apply Forall_app. split; [exact Hag|].
    rewrite Forall_forall in *. intros c Hin x Hx.
    assert (Hcr0 : In c rest)
      by (rewrite <- (firstn_skipn k rest); apply in_or_app; left; exact Hin).
    specialize (Fb c Hcr0). unfold inseg in Hx. simpl in Fb.
    rewrite HG by lia. symmetry.
    apply (origs_at_in lo map Hc c x); [apply Hsub; exact Hcr0|exact Hx]. }
  assert (Fb1 : Forall (fun r => b <= sstart r) rest1).
  { rewrite Forall_forall in *. intros r Hr. apply Fb. eapply in_skipn_in; exact Hr. }
  assert (Hcb : chain true b rest1) by (eapply chain_raise; [exact Hcr|exact Fb1]).
  assert (Hcovx : forall y x, Forall (fun f => send f <= y) nm1 -> y <= x ->
            covers map x -> covers rest1 x).
  { intros y x Fy Hyx Hx. apply HC, Hcov in Hx.
    assert (Hx' : covers (nm1 ++ rest1) x)
      by (unfold nm1, rest1; rewrite <- app_assoc, firstn_skipn; exact Hx).
    apply covers_app in Hx'. destruct Hx' as [(f & Hf & Hfx)|Hx']; [|exact Hx'].
    rewrite Forall_forall in Fy. specialize (Fy f Hf). unfold inseg in Hfx.
    simpl in Fy. lia. }
  set (p1 := {| newmap := nm1; p_i := (p_i p + k)%nat; p_setindex := p_setindex p |}).
  set (m := mk s e osn).
  set (entry := match pop (newmap p1) with
                | Some (init, i) =>
                    if sstart (mk s e osn) <? send i
                    then _seg2 (mk s e osn) i
                           {| newmap := init; p_i := p_i p1; p_setindex := p_setindex p1 |}
                    else (mk s e osn, p1)
                | None => (mk s e osn, p1)
                end).
  (* the tail of the proof, from the state at the entry of the loop *)
  assert (Hfinish : forall m0 base added k' m',
            entry = (m0, {| newmap := base; p_i := (p_i p + k)%nat;
                            p_setindex := p_setindex p |}) ->
            agrees (add_layer G s e osn) base ->
            agrees (add_layer (origs_at map) s e osn) added ->
            Forall (fun f => b <= sstart f) added ->
            (forall x, inseg m' x -> origs m' = add_layer (origs_at map) s e osn x) ->
            b <= sstart m' ->
            Forall (fun r => e <= sstart r) (skipn k' rest1) ->
            _segment_loop rest1 m0
              {| newmap := base; p_i := (p_i p + k)%nat; p_setindex := p_setindex p |}
            = (m', {| newmap := base ++ added; p_i := (p_i p + k + k')%nat;
                      p_setindex := p_setindex p |}) ->
            agrees (add_layer G s e osn) (newmap (_segment s e osn map p1))
            /\ Forall (fun r => e <= sstart r) (skipn (p_i (_segment s e osn map p1)) map)).
  { intros m0 base added k' m' Eentry Hbase Hadded Fadded Hm' Hbm' Frest' Eloop.
    rewrite <- Er1 in Eloop.
    rewrite (segment_unfold s e osn map p1 _ _ _ _ Eentry Eloop).
    assert (Hall : agrees (add_layer G s e osn) (base ++ added)).
    { apply Forall_app. split; [exact Hbase|].
      exact (agrees_from G map s e osn b added HG Hadded Fadded). }
    assert (Hskip : skipn (p_i p + k + k') map = skipn k' rest1)
      by (rewrite <- Er1; symmetry; apply skipn_skipn_add).
    destruct (sstart m' <? send m'); cbn [newmap p_i]; rewrite Hskip;
      (split; [|exact Frest']); [|exact Hall].
    unfold push. apply Forall_app. split; [exact Hall|].
    constructor; [|constructor]. intros x Hx. rewrite (Hm' x Hx).
    unfold add_layer. unfold inseg in Hx. rewrite HG by lia. reflexivity. }
  assert (Hplain : Forall (fun f => send f <= s) nm1 -> entry = (m, p1) ->
            agrees (add_layer G s e osn) (newmap (_segment s e osn map p1))
            /\ Forall (fun r => e <= sstart r) (skipn (p_i (_segment s e osn map p1)) map)).
  { intros Fnm1e Eentry.
    destruct (segment_loop_layers map lo s e osn Hc rest1 m p1 b)
      as (k' & m' & added & E2 & A2 & B2 & C2 & D2 & G2).
    - exact Hcb.
    - exact Hsub1.
    - reflexivity.
    - reflexivity.
    - change (sstart m) with s. lia.
    - change (sstart m) with s. lia.
    - change (sstart m) with s. intros x Hx. apply (Hcovx s x Fnm1e). lia.
    - change (sstart m) with s. destruct rest1 as [|i rest2]; [trivial|]. lia.
    - left. reflexivity.
    - assert (Hbase : agrees (add_layer G s e osn) nm1)
        by (apply agrees_before; assumption).
      exact (Hfinish m nm1 added k' m' Eentry Hbase A2 D2 B2 G2 C2 E2). }
  destruct (pop nm1) as [[init last]|] eqn:Ep0.
  - pose proof (pop_some _ _ _ Ep0) as Ep.
    assert (Hlast_in : In last nm1) by (rewrite Ep; apply in_or_app; right; left; reflexivity).
    pose proof Hcn as Hcn'. rewrite Ep in Hcn'. apply chain_app in Hcn'.
    destruct Hcn' as [Hci Hcl]. simpl in Hcl. destruct Hcl as (Hl1 & Hl2 & _).
    pose proof (chain_ends true _ _ Hci) as Fie.
    assert (Hle : last_end l1 nm1 = send last) by (rewrite Ep; apply last_end_push).
    rewrite Hle in Hcr.
    destruct (Z_lt_le_dec s (send last)) as [Hpop|Hno].
    + assert (Hls : sstart last <= s)
        by (rewrite Forall_forall in Fns; exact (Fns last Hlast_in)).
      assert (Hlg : forall x, inseg last x -> origs last = G x)
        by (unfold agrees in Hag1; rewrite Forall_forall in Hag1; exact (Hag1 last Hlast_in)).
      assert (Hinit : agrees (add_layer G s e osn) init).
      { apply agrees_before.
        - unfold agrees in *. rewrite Forall_forall in *. intros f Hf.
          apply Hag1. rewrite Ep. apply in_or_app. left. exact Hf.
        - eapply Forall_impl; [|exact Fie]. simpl. intros; lia. }
      destruct (seg2_layers (add_layer G s e osn) m last
                  {| newmap := init; p_i := (p_i p + k)%nat; p_setindex := p_setindex p |})
        as (frags & Eseg & Afr & Bfr).
      { change (sstart m) with s. intros x Hx.
        replace (Z.min s (sstart last) <? sstart last) with false
          by (symmetry; apply Z.ltb_ge; lia).
        rewrite (Hlg x) by (unfold inseg; lia). unfold add_layer.
        rewrite range_test_false by lia. symmetry; apply app_nil_r. }
      { change (sstart m) with s. change (send m) with e. intros x Hx.
        rewrite (Hlg x) by (unfold inseg; lia). unfold add_layer.
        rewrite range_test_true by lia. reflexivity. }
      cbn [newmap p_i p_setindex] in Eseg.
      change (send m) with e in Eseg. change (origs m) with osn in Eseg.
      set (m1 := mk (Z.min e (send last)) (Z.max e (send last))
                   (if Z.min e (send last) <? e then osn else origs last)) in *.
      assert (Eentry : entry = (m1, {| newmap := init ++ frags; p_i := (p_i p + k)%nat;
                                       p_setindex := p_setindex p |})).
      { unfold entry, p1. cbn [newmap p_i p_setindex]. rewrite Ep0.
        change (sstart (mk s e osn)) with s.
        replace (s <? send last) with true by (symmetry; apply Z.ltb_lt; exact Hpop).
        exact Eseg. }
      assert (Fnm1e : Forall (fun f => send f <= send last) nm1).
      { rewrite Ep. apply Forall_app. split.
        - eapply Forall_impl; [|exact Fie]. simpl. intros; lia.
        - constructor; [lia|constructor]. }
      destruct (Z_lt_le_dec (send last) e) as [Hlt|Hge].
      * destruct (segment_loop_layers map lo s e osn Hc rest1 m1
                    {| newmap := init ++ frags; p_i := (p_i p + k)%nat;
                       p_setindex := p_setindex p |} b)
          as (k' & m' & added & E2 & A2 & B2 & C2 & D2 & G2).
        -- exact Hcb.
        -- exact Hsub1.
        -- unfold m1. cbn [origs mk].
           replace (Z.min e (send last) <? e) with true
             by (symmetry; apply Z.ltb_lt; lia). reflexivity.
        -- unfold m1. change (send (mk ?a ?b0 ?o)) with b0. lia.
        -- unfold m1. change (sstart (mk ?a ?b0 ?o)) with a. lia.
        -- unfold m1. change (sstart (mk ?a ?b0 ?o)) with a. lia.
        -- unfold m1. change (sstart (mk ?a ?b0 ?o)) with a. intros x Hx.
           apply (Hcovx (send last) x Fnm1e). lia.
        -- unfold m1. change (sstart (mk ?a ?b0 ?o)) with a.
           destruct rest1 as [|i rest2]; [trivial|].
           simpl in Hcr. destruct Hcr as (Q1 & Q2 & _). lia.
        -- right. unfold m1. change (sstart (mk ?a ?b0 ?o)) with a.
           destruct rest1 as [|i rest2]; [trivial|].
           simpl in Hcr. destruct Hcr as (Q1 & Q2 & _). lia.
        -- cbn [newmap p_i p_setindex] in E2.
           assert (Hbase : agrees (add_layer G s e osn) (init ++ frags))
             by (apply Forall_app; split; [exact Hinit|exact Afr]).
           exact (Hfinish m1 (init ++ frags) added k' m' Eentry Hbase A2 D2 B2 G2 C2 E2).
      * assert (Estop : _segment_loop rest1 m1
                          {| newmap := init ++ frags; p_i := (p_i p + k)%nat;
                             p_setindex := p_setindex p |}
                        = (m1, {| newmap := (init ++ frags) ++ [];
                                  p_i := (p_i p + k + 0)%nat;
                                  p_setindex := p_setindex p |})).
        { rewrite segment_loop_stops; [rewrite app_nil_r, Nat.add_0_r; reflexivity|].
          destruct rest1 as [|i rest2]; [trivial|].
          simpl in Hcr. destruct Hcr as (Q1 & _).
          unfold m1. change (send (mk ?a ?b0 ?o)) with b0. lia. }
        assert (Hbase : agrees (add_layer G s e osn) (init ++ frags))
          by (apply Forall_app; split; [exact Hinit|exact Afr]).
        assert (Hm1 : forall x, inseg m1 x ->
                  origs m1 = add_layer (origs_at map) s e osn x).
        { intros x [A B]. unfold m1 in *. cbn [origs mk].
          change (sstart (mk ?a ?b0 ?o)) with a in A.
          change (send (mk ?a ?b0 ?o)) with b0 in B.
          replace (Z.min e (send last) <? e) with false
            by (symmetry; apply Z.ltb_ge; lia).
          rewrite (Hlg x) by (unfold inseg; lia). unfold add_layer.
          rewrite HG by lia. rewrite range_test_false by lia.
          symmetry; apply app_nil_r. }
        assert (Hbm1 : b <= sstart m1)
          by (unfold m1; change (sstart (mk ?a ?b0 ?o)) with a; lia).
        assert (Fr1 : Forall (fun r => e <= sstart r) (skipn 0 rest1)).
        { cbn [skipn]. pose proof (chain_starts true _ _ Hcr) as Fs.
          eapply Forall_impl; [|exact Fs]. simpl. intros; lia. }
        exact (Hfinish m1 (init ++ frags) [] 0%nat m1 Eentry Hbase
                 (Forall_nil _) (Forall_nil _) Hm1 Hbm1 Fr1 Estop).
    + apply Hplain.
      * rewrite Ep. apply Forall_app. split.
        -- eapply Forall_impl; [|exact Fie]. simpl. intros; lia.
        -- constructor; [lia|constructor].
      * unfold entry, p1. cbn [newmap]. rewrite Ep0.
        change (sstart (mk s e osn)) with s.
        replace (s <? send last) with false by (symmetry; apply Z.ltb_ge; exact Hno).
        reflexivity.
  - apply Hplain.
    + rewrite (pop_none _ Ep0). constructor.
    + unfold entry, p1. cbn [newmap]. rewrite Ep0. reflexivity.
Qed.

Lemma match_layer_out name ms x : forall k,
  (forall s e, In (s, e) ms -> ~ s <= x < e) -> match_layer name k ms x = [].
Proof.
  induction ms as [|[s e] ms IH]; intros k H; [reflexivity|]. cbn [match_layer].
  rewrite range_test_false.
  - apply IH. intros s' e' Hin. apply H. right. exact Hin.
  - specialize (H s e (or_introl eq_refl)). lia.
Qed.

Lemma match_layer_before name ms x : forall b k,
  matches_from true b ms -> x < b -> match_layer name k ms x = [].
Proof.
  induction ms as [|[s e] ms IH]; intros b k H Hx; [reflexivity|].
  simpl in H. destruct H as (H1 & H2 & H3). cbn [match_layer].
  rewrite range_test_false by lia. apply (IH e); [exact H3|lia].
Qed.

Lemma agrees_ext (F F' : Z -> list Orig) l :
  (forall x, F x = F' x) -> agrees F l -> agrees F' l.
Proof.
  intros H Ha. unfold agrees in *. eapply Forall_impl; [|exact Ha].
  simpl. intros f Hf x Hx. rewrite <- H. exact (Hf x Hx).
Qed.

(** The matches of one Segment-mode [addmatches] call, one after the
    other. *)
Lemma fold_matches_layers map lo name : forall ms (G : Z -> list Orig) b C p,
  chain true lo map ->
  cursor_inv true (fun _ => True) (fun _ => True) b C (newmap p) (skipn (p_i p) map) ->
  (forall x, covers map x -> C x) ->
  Forall (fun r => b <= sstart r) (skipn (p_i p) map) ->
  (forall x, b <= x -> G x = origs_at map x) ->
  agrees G (newmap p) ->
  matches_from true b ms ->
  exists b',
    agrees (fun x => G x ++ match_layer name (p_setindex p) ms x)
      (newmap (fold_left (_addmatch name map true) ms p))
    /\ Forall (fun r => b' <= sstart r)
         (skipn (p_i (fold_left (_addmatch name map true) ms p)) map)
    /\ (forall x, b' <= x ->
          G x ++ match_layer name (p_setindex p) ms x = origs_at map x).
Proof.
  induction ms as [|[s e] ms IH]; intros G b C p Hc Hinv HC Fb HG Hag Hms.
  - exists b. cbn [fold_left match_layer]. split; [|split; [exact Fb|]].
    + apply (agrees_ext G); [|exact Hag]. intros x. symmetry; apply app_nil_r.
    + intros x Hx. rewrite app_nil_r. apply HG. exact Hx.
  - simpl in Hms. destruct Hms as (Hbs & Hse & Hrest). cbn [fold_left].
    destruct (insertrange_layers map lo name G b C p s e Hc Hinv HC Fb HG Hag Hbs Hse)
      as [Hag1 Fb1].
    destruct (insertrange_spec true (fun _ => True) (fun _ => True) name
                (fun _ _ => I) (fun _ _ _ => I) (fun _ => I)
                map b C p s e Hinv Hbs Hse) as [Hinv1 Hidx].
    cbv zeta in Hinv1, Hidx.
    set (p1 := _addmatch name map true p (s, e)).
    assert (Enm : newmap p1 = newmap (_insertrange s e name map true p)) by reflexivity.
    assert (Epi : p_i p1 = p_i (_insertrange s e name map true p)) by reflexivity.
    assert (Eidx : p_setindex p1 = p_setindex p + 1)
      by (unfold p1, _addmatch; cbn [p_setindex fst snd]; rewrite Hidx; reflexivity).
    destruct (IH (add_layer G s e [orig name s e (p_setindex p)]) e
                (fun x => C x \/ s <= x < e) p1) as (b' & A & B & D).
    + exact Hc.
    + rewrite Enm, Epi. exact Hinv1.
    + intros x Hx. left. apply HC. exact Hx.
    + rewrite Epi. exact Fb1.
    + intros x Hx. unfold add_layer. rewrite range_test_false by lia.
      rewrite app_nil_r. apply HG. lia.
    + rewrite Enm. exact Hag1.
    + exact Hrest.
    + assert (Heq : forall x,
                add_layer G s e [orig name s e (p_setindex p)] x
                ++ match_layer name (p_setindex p1) ms x
                = G x ++ match_layer name (p_setindex p) ((s, e) :: ms) x).
      { intros x. unfold add_layer. cbn [match_layer]. rewrite Eidx.
        destruct ((s <=? x) && (x <? e)) eqn:Et.
        - apply andb_true_iff in Et. destruct Et as [_ Et]. apply Z.ltb_lt in Et.
          rewrite (match_layer_before name ms x e _ Hrest Et). rewrite app_nil_r.
          reflexivity.
        - rewrite app_nil_r. reflexivity. }
      exists b'. split; [|split; [exact B|]].
      * eapply agrees_ext; [exact Heq|exact A].
      * intros x Hx. rewrite <- Heq. apply D. exact Hx.
Qed.

Lemma addmatchlist_layers map ms name :
  map_ok map -> matches_ordered true ms ->
  map_ok (addmatchlist ms name true map)
  /\ forall x,
       origs_at (addmatchlist ms name true map) x
       = origs_at map x ++ match_layer name 0 ms x.
Proof.
  intros Hok Hms.
  destruct (addmatchlist_spec true (fun _ => True) (fun _ => True) name
              (fun _ _ => I) (fun _ _ _ => I) (fun _ => I) map ms Hok)
    as (Hord & _ & Hcov).
  { apply Forall_forall. intros; exact I. }
  { exact Hms. }
  split; [exact Hord|].
  pose proof Hok as [lo Hc].
  assert (Hex : exists b, b <= lo /\ matches_from true b ms).
  { destruct ms as [|[s e] ms']; [exists lo; simpl; split; [lia|trivial]|].
    exists (Z.min lo s). split; [lia|]. simpl in Hms |- *.
    destruct Hms as (_ & H2 & H3). repeat split; trivial; lia. }
  destruct Hex as (b & Hb & Hmb).
  destruct (fold_matches_layers map lo name ms (origs_at map) b (covers map) p0 Hc)
    as (b' & A & B & D).
  { apply cursor_inv_p0; [exact Hok|]. apply Forall_forall. intros; exact I. }
  { auto. }
  { cbn [p0 p_i skipn]. pose proof (chain_starts true _ _ Hc) as Fs.
    eapply Forall_impl; [|exact Fs]. simpl. intros; lia. }
  { reflexivity. }
  { constructor. }
  { exact Hmb. }
  cbn [p0 p_setindex] in A, D.
  set (pf := fold_left (_addmatch name map true) ms p0) in *.
  assert (Hag : agrees (fun x => origs_at map x ++ match_layer name 0 ms x)
                  (addmatchlist ms name true map)).
  { unfold addmatchlist, _addendranges. fold pf. apply Forall_app. split; [exact A|].
    rewrite Forall_forall in *. intros c Hin x Hx.
    specialize (B c Hin). unfold inseg in Hx. simpl in B.
    rewrite D by lia. symmetry.
    apply (origs_at_in lo map Hc c x); [eapply in_skipn_in; exact Hin|exact Hx]. }
  intros x. destruct Hord as [l1 Hc1].
  destruct (inseg_dec (addmatchlist ms name true map) x) as [(seg & Hin & Hx)|Hout].
  - rewrite (origs_at_in l1 _ Hc1 seg x Hin Hx).
    unfold agrees in Hag. rewrite Forall_forall in Hag. exact (Hag seg Hin x Hx).
  - rewrite (origs_at_out _ x Hout).
    assert (Hnc : ~ (covers map x \/ in_matches ms x)).
    { intros H. apply Hcov in H. destruct H as (seg & Hin & Hx). exact (Hout seg Hin Hx). }
    rewrite (origs_at_out map x), match_layer_out; [reflexivity| |].
    + intros s e Hin Hx. apply Hnc. right. exists s, e. auto.
    + intros seg Hin Hx. apply Hnc. left. exists seg. auto.
Qed.

Lemma segment_matches_layers_aux text regex name map :
  map_ok map -> global regex = true -> matches_ordered true (matchAll regex text) ->
  map_ok (addmatches text regex name true map)
  /\ forall x,
       origs_at (addmatches text regex name true map) x
       = origs_at map x ++ match_layer name 0 (matchAll regex text) x.
Proof.
  intros Hok Hg Hms. unfold addmatches. rewrite Hg.
  exact (addmatchlist_layers map (matchAll regex text) name Hok Hms).
Qed.

Lemma segment_range_layers_aux text r name map :
  map_ok map -> rstart r <> rend r ->
  map_ok (addrange text r name true map)
  /\ forall x,
       origs_at (addrange text r name true map) x
       = origs_at map x
         ++ (if (Z.min (rstart r) (rend r) <=? x) && (x <? Z.max (rstart r) (rend r))
             then [orig name (Z.min (rstart r) (rend r)) (Z.max (rstart r) (rend r)) 0]
             else []).
Proof.
  intros Hok Hne.
  set (lo := Z.min (rstart r) (rend r)). set (hi := Z.max (rstart r) (rend r)).
  assert (E : addrange text r name true map = addmatchlist [(lo, hi)] name true map).
  { unfold addrange, addmatchlist. cbn [fold_left]. unfold _addmatch, _addendranges.
    cbn [newmap p_i fst snd]. unfold lo, hi.
    destruct (rend r <? rstart r) eqn:E; cbn [rstart rend].
    - apply Z.ltb_lt in E. rewrite Z.min_r, Z.max_l by lia. reflexivity.
    - apply Z.ltb_ge in E. rewrite Z.min_l, Z.max_r by lia. reflexivity. }
  rewrite E.
  destruct (addmatchlist_layers map [(lo, hi)] name Hok) as (H1 & H2).
  { simpl. unfold lo, hi. lia. }
  split; [exact H1|]. intros x. rewrite H2. cbn [match_layer].
  destruct ((lo <=? x) && (x <? hi)); reflexivity.
Qed.

(** Segment-mode [addmatches] with ordered, non-empty matches on a
    well-formed map: the result is well-formed, and at every position the
    origin list is the one the map had there, in the same order, followed by
    the origin of the match that holds the position, if one does.  The
    origin carries the range of the whole match and its number in the
    sequence of matches. *)
Theorem segment_matches_add_one_layer text regex name map :
  map_ok map -> global regex = true -> matches_ordered true (matchAll regex text) ->
  map_ok (addmatches text regex name true map)
  /\ forall x,
       origs_at (addmatches text regex name true map) x
       = origs_at map x ++ match_layer name 0 (matchAll regex text) x.
Proof.
  exact (segment_matches_layers_aux text regex name map).
Qed.

Lemma segment_matches_add_one_layer_witness :
  let map := [mk 0 5 [orig "a" 0 5 0]; mk 7 9 [orig "a" 7 9 1]] in
  map_ok (addmatches "0123456789" (matcher_of [(1, 2); (4, 8)]) "b" true map)
  /\ forall x,
       origs_at (addmatches "0123456789" (matcher_of [(1, 2); (4, 8)]) "b" true map) x
       = origs_at map x ++ match_layer "b" 0 [(1, 2); (4, 8)] x.
Proof.
  cbv zeta.
  apply (segment_matches_add_one_layer "0123456789" (matcher_of [(1, 2); (4, 8)]) "b"
           [mk 0 5 [orig "a" 0 5 0]; mk 7 9 [orig "a" 7 9 1]]).
  - exists 0. simpl. unfold sstart, send. simpl. lia.
  - reflexivity.
  - simpl. lia.
Defined.

(** Segment-mode [addrange] with a non-empty range, given in either
    direction, on a well-formed map: the result is well-formed, and at every
    position the origin list is the one the map had there, in the same
    order, followed by the new origin when the range holds the position.
    Positions outside every old segment and outside the range stay without
    a segment. *)
Theorem segment_range_adds_one_layer text r name map :
  map_ok map -> rstart r <> rend r ->
  let lo := Z.min (rstart r) (rend r) in
  let hi := Z.max (rstart r) (rend r) in
  map_ok (addrange text r name true map)
  /\ forall x,
       origs_at (addrange text r name true map) x
       = origs_at map x ++ (if (lo <=? x) && (x <? hi) then [orig name lo hi 0] else []).
Proof.
  intros Hok Hne lo hi. exact (segment_range_layers_aux text r name map Hok Hne).
Qed.

Lemma segment_range_adds_one_layer_witness :
  let map := [mk 0 4 [orig "a" 0 4 0]; mk 6 9 [orig "a" 6 9 1]] in
  map_ok (addrange "0123456789" (mkRange 7 2) "sel" true map)
  /\ forall x,
       origs_at (addrange "0123456789" (mkRange 7 2) "sel" true map) x
       = origs_at map x ++ (if (2 <=? x) && (x <? 7) then [orig "sel" 2 7 0] else []).
Proof.
  cbv zeta.
  apply (segment_range_adds_one_layer "0123456789" (mkRange 7 2) "sel"
           [mk 0 4 [orig "a" 0 4 0]; mk 6 9 [orig "a" 6 9 1]]).
  - exists 0. simpl. unfold sstart, send. simpl. lia.
  - simpl. lia.
Defined.

Lemma insert_layers ins map :
  map_ok map -> ins_ok true ins ->
  map_ok (insert map ins)
  /\ forall x, origs_at (insert map ins) x = origs_at map x ++ layer_of ins x.
Proof.
  intros Hok Hins. destruct ins as [text regex name|text r name]; cbn [insert layer_of].
  - simpl in Hins. destruct (global regex) eqn:Hg.
    + exact (segment_matches_layers_aux text regex name map Hok Hg Hins).
    + unfold addmatches. rewrite Hg. split; [exact Hok|].
      intros x. symmetry; apply app_nil_r.
  - simpl in Hins. exact (segment_range_layers_aux text r name map Hok Hins).
Qed.

Lemma fold_insert_layers inss : forall map,
  map_ok map -> Forall (ins_ok true) inss ->
  map_ok (fold_left insert inss map)
  /\ forall x, origs_at (fold_left insert inss map) x
               = origs_at map x ++ flat_map (fun ins => layer_of ins x) inss.
Proof.
  induction inss as [|ins inss IH]; intros map Hok Hall.
  - split; [exact Hok|]. intros x. symmetry; apply app_nil_r.
  - inversion Hall as [|? ? H1 H2]; subst. cbn [fold_left flat_map].
    destruct (insert_layers ins map Hok H1) as [Hok1 Hl1].
    destruct (IH (insert map ins) Hok1 H2) as [Hok2 Hl2].
    split; [exact Hok2|]. intros x. rewrite Hl2, Hl1, app_assoc. reflexivity.
Qed.

(** Origins accumulate in insertion order: in the map built from the empty
    map by Segment-mode insertions of non-empty ranges and of ordered,
    non-empty matches, the origin list at every position consists of one
    origin for each insertion that holds the position, in the order of the
    insertions. *)
Theorem layers_follow_insertion_order inss :
  Forall (ins_ok true) inss ->
  forall x, origs_at (build inss) x = flat_map (fun ins => layer_of ins x) inss.
Proof.
  intros Hall x. unfold build.
  destruct (fold_insert_layers inss [] (ex_intro _ 0 I) Hall) as [_ H].
  rewrite H. reflexivity.
Qed.

Lemma layers_follow_insertion_order_witness :
  origs_at (build [InsMatches "0123456789" (matcher_of [(0, 4); (6, 9)]) "a";
                   InsRange "0123456789" (mkRange 7 2) "sel"]) 3
  = [orig "a" 0 4 0; orig "sel" 2 7 0].
Proof.
  rewrite (layers_follow_insertion_order
             [InsMatches "0123456789" (matcher_of [(0, 4); (6, 9)]) "a";
              InsRange "0123456789" (mkRange 7 2) "sel"]).
  - reflexivity.
  - repeat constructor; simpl; lia.
Defined.

End Layers.

(** ** The renderer keeps the text *)

Section ReadingHTML.
Local Open Scope string_scope.

Lemma tag_state_app a : forall st b,
  tag_state st (a ++ b) = tag_state (tag_state st a) b.
Proof. induction a as [|c a IH]; intros st b; simpl; [reflexivity|apply IH]. Qed.

Lemma strip_tags_app a : forall st b,
  strip_tags st (a ++ b) = strip_tags st a ++ strip_tags (tag_state st a) b.
Proof.
  induction a as [|c a IH]; intros st b; simpl; [reflexivity|].
  destruct (st || Ascii.eqb c "<") eqn:E.
  - apply IH.
  - apply orb_false_iff in E. destruct E as [-> E]. simpl. rewrite E.
    rewrite IH. f_equal.
Qed.

Lemma no_angle_outside s :
  no_angle s -> strip_tags false s = s /\ tag_state false s = false.
Proof.
  induction s as [|c s IH]; simpl; [auto|]. intros (H1 & H2 & H3).
  replace (Ascii.eqb c "<") with false by (symmetry; apply Ascii.eqb_neq; exact H1).
  destruct (IH H3) as [A B]. rewrite A, B. auto.
Qed.

Lemma no_angle_inside s :
  no_angle s -> strip_tags true s = "" /\ tag_state true s = true.
Proof.
  induction s as [|c s IH]; simpl; [auto|]. intros (H1 & H2 & H3).
  replace (Ascii.eqb c ">") with false by (symmetry; apply Ascii.eqb_neq; exact H2).
  simpl. exact (IH H3).
Qed.

Lemma raw2HTML_no_angle t : no_angle (SOT_text.raw2HTML t).
Proof. rewrite raw2HTML_escaped. apply escaped_no_angle. Qed.

Lemma raw2HTML_app a b :
  SOT_text.raw2HTML (a ++ b) = SOT_text.raw2HTML a ++ SOT_text.raw2HTML b.
Proof. unfold SOT_text.raw2HTML. rewrite !replace_all_char_app. reflexivity. Qed.

Lemma visible_closed_app a b :
  closed a -> visible (a ++ b) = visible a ++ visible b /\ (closed b -> closed (a ++ b)).
Proof.
  unfold closed, visible. intros Ha. rewrite strip_tags_app, tag_state_app, Ha. auto.
Qed.

(** *** Positions inside a tag *)

Lemma in_tag_at_app a : forall st s k,
  in_tag_at (String.length a + k) st (a ++ s) = in_tag_at k (tag_state st a) s.
Proof. induction a as [|c a IH]; intros st s k; simpl; [reflexivity|apply IH]. Qed.

Lemma in_tag_at_prefix a b : forall n st,
  in_tag_at n st a = true -> in_tag_at n st (a ++ b) = true.
Proof.
  induction a as [|c a IH]; intros n st H; [simpl in H; discriminate|].
  destruct n as [|n]; simpl in *; [exact H|apply IH; exact H].
Qed.

Lemma in_tag_at_length s : forall n st,
  in_tag_at n st s = true -> (n < String.length s)%nat.
Proof.
  induction s as [|c s IH]; intros n st H; [simpl in H; discriminate|].
  destruct n as [|n]; simpl in *; [lia|]. apply IH in H. lia.
Qed.

Lemma in_tag_at_state_true c st :
  st && negb (Ascii.eqb c ">") = true -> st = true /\ next_state st c = true.
Proof.
  intros H. apply andb_true_iff in H. destruct H as [-> H]. simpl. auto.
Qed.

(** Putting [R] at a position inside a tag changes neither what the reader
    sees nor where the other positions lie. *)
Lemma put_R_at_keeps s : forall n st,
  in_tag_at n st s = true ->
  tag_state st (put_R_at n s) = tag_state st s
  /\ strip_tags st (put_R_at n s) = strip_tags st s
  /\ forall m, in_tag_at m st (put_R_at n s) = true <-> in_tag_at m st s = true.
Proof.
  induction s as [|c s IH]; intros n st H; [simpl in H; discriminate|].
  destruct n as [|n]; cbn [in_tag_at put_R_at] in *.
  - destruct (in_tag_at_state_true c st H) as [-> E2].
    assert (E1 : next_state true "R" = true) by reflexivity.
    cbn [tag_state strip_tags orb].  rewrite E1, E2.
    split; [reflexivity|]. split; [reflexivity|].
    intros [|m]; cbn [in_tag_at]; [|tauto].
    apply andb_true_iff in H. destruct H as [_ Hc]. rewrite Hc. simpl. tauto.
  - destruct (IH n (next_state st c) H) as (A & B & D).
    cbn [tag_state strip_tags]. split; [exact A|]. split.
    + destruct (st || Ascii.eqb c "<") eqn:E; [exact B|].
      apply orb_false_iff in E. destruct E as [E1 E2]. subst st. f_equal.
      unfold next_state in B. rewrite E2 in B. exact B.
    + intros [|m]; cbn [in_tag_at]; [tauto|apply D].
Qed.

Lemma put_R_at_app a c b :
  put_R_at (String.length a) (a ++ String c b) = a ++ String "R" b.
Proof. induction a as [|x a IH]; simpl; [reflexivity|]. rewrite IH. reflexivity. Qed.

(** The patch of [_setlayerright], at a position that exists. *)
Lemma slice_put_R piece pos :
  0 <= pos -> in_tag_at (Z.to_nat pos) false piece = true ->
  JS.slice piece 0 pos ++ "R" ++ JS.slice_from piece (pos + 1)
  = put_R_at (Z.to_nat pos) piece.
Proof.
  intros H0 Hin. apply in_tag_at_length in Hin.
  destruct (string_split piece pos) as (a & r & E & La); [unfold JS.strlen; lia|].
  subst piece. destruct r as [|c b].
  { rewrite append_nil_r in Hin. unfold JS.strlen in La. lia. }
  rewrite <- La at 1. rewrite slice_prefix.
  replace (a ++ String c b) with ((a ++ String c "") ++ b) at 1
    by (rewrite append_assoc; reflexivity).
  replace (pos + 1) with (JS.strlen (a ++ String c ""))
    by (rewrite strlen_append, La; reflexivity).
  rewrite slice_suffix.
  replace (Z.to_nat pos) with (String.length a) by (unfold JS.strlen in La; lia).
  rewrite put_R_at_app. reflexivity.
Qed.

Lemma slice_join text a b :
  0 <= a <= b -> b <= JS.strlen text ->
  JS.slice text 0 a ++ JS.slice text a b = JS.slice text 0 b.
Proof.
  intros Hab Hb.
  destruct (string_split text a) as (t1 & r & E & L1); [lia|]. subst text.
  rewrite strlen_append in Hb.
  destruct (string_split r (b - a)) as (t2 & t3 & E & L2); [lia|]. subst r.
  rewrite <- L1 at 1 2. rewrite slice_prefix.
  replace b with (JS.strlen t1 + JS.strlen t2) at 1 by lia.
  rewrite slice_middle.
  replace b with (JS.strlen (t1 ++ t2)) by (rewrite strlen_append; lia).
  rewrite <- append_assoc. rewrite slice_prefix. reflexivity.
Qed.

Lemma slice_join_end text a :
  0 <= a <= JS.strlen text -> JS.slice text 0 a ++ JS.slice_from text a = text.
Proof.
  intros Ha. destruct (string_split text a) as (t1 & r & E & L1); [lia|]. subst text.
  rewrite <- L1. rewrite slice_prefix, slice_suffix. reflexivity.
Qed.

(** *** Lists of pieces *)

Lemma htmlstring_closed l : Forall closed l -> closed (SOT_map.htmlstring l).
Proof.
  induction l as [|p l IH]; intros H; [reflexivity|].
  inversion H as [|? ? Hp Hl]; subst.
  change (p :: l) with ([p] ++ l)%list. rewrite htmlstring_app.
  change (SOT_map.htmlstring [p]) with (String.append "" p). cbn [String.append].
  apply (visible_closed_app p _ Hp). exact (IH Hl).
Qed.

Lemma htmlstring_visible_app l1 l2 :
  Forall closed l1 ->
  visible (SOT_map.htmlstring (l1 ++ l2)%list)
  = visible (SOT_map.htmlstring l1) ++ visible (SOT_map.htmlstring l2).
Proof.
  intros H. rewrite htmlstring_app.
  apply (visible_closed_app _ _ (htmlstring_closed l1 H)).
Qed.

Lemma htmlstring_one p : SOT_map.htmlstring [p] = p.
Proof. reflexivity. Qed.

Lemma nth_error_set_piece html : forall k j x,
  nth_error (SOT_map.set_piece html k x) j
  = if Nat.eqb j k then (match nth_error html k with Some _ => Some x | None => None end)
    else nth_error html j.
Proof.
  induction html as [|h html IH]; intros k j x.
  - simpl. destruct (Nat.eqb j k); destruct j, k; reflexivity.
  - destruct k as [|k]; destruct j as [|j]; simpl; try reflexivity. apply IH.
Qed.

(** Replacing a piece by one that reads the same. *)
Lemma set_piece_keeps html k p p' :
  nth_error html k = Some p ->
  tag_state false p' = tag_state false p -> strip_tags false p' = strip_tags false p ->
  Forall closed html ->
  Forall closed (SOT_map.set_piece html k p')
  /\ visible (SOT_map.htmlstring (SOT_map.set_piece html k p'))
     = visible (SOT_map.htmlstring html).
Proof.
  intros Hk Hs Hv Hc. destruct (nth_error_split html k Hk) as (l & r & E & Ll).
  subst html k. rewrite set_piece_middle.
  apply Forall_app in Hc. destruct Hc as [Hl Hr].
  inversion Hr as [|? ? Hp Hr']; subst.
  assert (Hp' : closed p') by (unfold closed in *; congruence).
  split.
  - apply Forall_app. split; [exact Hl|]. constructor; assumption.
  - rewrite !htmlstring_visible_app by exact Hl. f_equal.
    change (p' :: r) with ([p'] ++ r)%list. change (p :: r) with ([p] ++ r)%list.
    rewrite !htmlstring_visible_app by (constructor; [assumption|constructor]).
    rewrite !htmlstring_one. unfold visible. rewrite Hv. reflexivity.
Qed.

End ReadingHTML.

Section KeepsText.
Local Open Scope string_scope.
Variable fulltext : string.
Variable map : TextMap.
Variable opts : option Opts.
Variable defs : option Defs.
Hypothesis Hopts : plain_opts opts.

Lemma opening_reads_as_tag s :
  no_angle s -> tag_state false (String "<" s) = true /\ strip_tags false (String "<" s) = "".
Proof.
  intros H. destruct (no_angle_inside s H) as [A B]. simpl. rewrite A, B. auto.
Qed.

Lemma no_angle_dq : no_angle JS.dq.
Proof. unfold JS.dq. simpl. repeat split; discriminate. Qed.

(** The opening tag of a layer: [P], the space that [R] may replace, and
    [Q]; the position recorded is that of the space. *)
Lemma tagstart_shape rg layer mi j pi offset sts :
  good_layer defs layer ->
  exists P Q,
    SOT_map._tagstart fulltext map opts defs None rg layer mi j pi offset sts
    = Some (P ++ " " ++ Q,
            assign (setname layer)
              {| pos := offset + JS.strlen P; pieceindex := pi; st_j := j; st_seg := rg |}
              sts)
    /\ tag_state false P = true /\ strip_tags false P = ""
    /\ tag_state true Q = false /\ strip_tags true Q = "".
Proof.
  intros [Hd Hn]. unfold SOT_map._tagstart.
  rewrite (tag_mark opts defs Hopts layer false Hd).
  set (cls := setname layer ++ (if (ostart (orange layer) =? rstart rg)%Z then " L" else "")).
  assert (E : match defs with
              | Some ds =>
                  match lookup (setname layer) ds with
                  | Some d => match htmlattrs d with
                              | Some add =>
                                  SOT_map._addattrs fulltext [("class", Some cls)] add
                                    (orange layer)
                              | None => [("class", Some cls)]
                              end
                  | None => [("class", Some cls)]
                  end
              | None => [("class", Some cls)]
              end = [("class", Some cls)]).
  { destruct defs as [ds|]; [|reflexivity].
    destruct Hd as (d & Hl & _ & _ & Ha). rewrite Hl, Ha. reflexivity. }
  rewrite E. cbn [SOT_map._tagstart_attrs JS.truthy]. rewrite String.eqb_refl.
  cbv beta iota zeta.
  assert (Hcls : no_angle cls).
  { unfold cls. apply no_angle_app; [exact Hn|].
    destruct (ostart (orange layer) =? rstart rg)%Z; simpl; repeat split; discriminate. }
  set (t1 := ("<" ++ "mark") ++ " " ++ "class"
             ++ (if JS.nonempty cls then "=" ++ JS.dq ++ cls else "")).
  set (X := if JS.nonempty cls then JS.dq else "").
  exists (t1 ++ " "), (X ++ ">").
  split; [|split; [|split; [|split]]].
  - assert (E1 : ((t1 ++ "  ") ++ X) ++ ">" = (t1 ++ " ") ++ " " ++ X ++ ">").
    { change "  " with (" " ++ " "). rewrite !append_assoc. reflexivity. }
    assert (E2 : (offset + JS.strlen (t1 ++ "  ") - 1 = offset + JS.strlen (t1 ++ " "))%Z).
    { rewrite !strlen_append. change (JS.strlen "  ") with 2%Z.
      change (JS.strlen " ") with 1%Z. lia. }
    rewrite E1, E2. reflexivity.
  - unfold t1. cbn [String.append].
    apply opening_reads_as_tag.
    change (no_angle ("mark class" ++ ((if JS.nonempty cls then "=" ++ JS.dq ++ cls else "")
                                        ++ " "))).
    apply no_angle_app; [simpl; repeat split; discriminate|].
    apply no_angle_app; [|simpl; repeat split; discriminate].
    destruct (JS.nonempty cls); [|exact I].
    apply (no_angle_app "="); [simpl; repeat split; discriminate|].
    apply no_angle_app; [exact no_angle_dq|exact Hcls].
  - unfold t1. cbn [String.append].
    apply opening_reads_as_tag.
    change (no_angle ("mark class" ++ ((if JS.nonempty cls then "=" ++ JS.dq ++ cls else "")
                                        ++ " "))).
    apply no_angle_app; [simpl; repeat split; discriminate|].
    apply no_angle_app; [|simpl; repeat split; discriminate].
    destruct (JS.nonempty cls); [|exact I].
    apply (no_angle_app "="); [simpl; repeat split; discriminate|].
    apply no_angle_app; [exact no_angle_dq|exact Hcls].
  - unfold X. destruct (JS.nonempty cls); reflexivity.
  - unfold X. destruct (JS.nonempty cls); reflexivity.
Qed.

Lemma only_tags_nil : only_tags "".
Proof. split; reflexivity. Qed.

Lemma only_tags_closed t : only_tags t -> closed t.
Proof. intros [H _]. exact H. Qed.

Lemma tag_state_true_nonempty P : tag_state false P = true -> JS.nonempty P = true.
Proof. destruct P; [discriminate|reflexivity]. Qed.

Lemma layersstart_loop_shape seg mi pi : forall layers j tags sts,
  Forall (good_layer defs) layers -> only_tags tags ->
  exists tags' sts',
    SOT_map._layersstart_loop fulltext map opts defs None seg layers mi j pi tags sts
    = Some (tags', sts')
    /\ only_tags tags'
    /\ (exists more, tags' = tags ++ more)
    /\ (layers <> [] -> JS.nonempty tags' = true)
    /\ forall name e, lookup name sts' = Some e ->
         lookup name sts = Some e
         \/ (pieceindex e = pi /\ 0 <= pos e
             /\ in_tag_at (Z.to_nat (pos e)) false tags' = true).
Proof.
  induction layers as [|l layers IH]; intros j tags sts Hg Ht.
  - exists tags, sts. split; [reflexivity|]. split; [exact Ht|].
    split; [exists ""; symmetry; apply append_nil_r|]. split; [congruence|]. auto.
  - inversion Hg as [|? ? Hl Hls]; subst. cbn [SOT_map._layersstart_loop].
    destruct (tagstart_shape (range seg) l mi j pi (JS.strlen tags) sts Hl)
      as (P & Q & E & P1 & P2 & Q1 & Q2).
    rewrite E. destruct Ht as [T1 T2].
    assert (Ht1 : only_tags (tags ++ P ++ " " ++ Q)).
    { split.
      - rewrite !tag_state_app, T1, P1. cbn [String.append tag_state].
        exact Q1.
      - rewrite !strip_tags_app, T1, T2, P1, P2. cbn [String.append strip_tags orb].
        exact Q2. }
    destruct (IH (S j) (tags ++ P ++ " " ++ Q)
                (assign (setname l)
                   {| pos := JS.strlen tags + JS.strlen P; pieceindex := pi; st_j := j;
                      st_seg := range seg |} sts) Hls Ht1)
      as (tags' & sts' & E2 & A & (more & B) & _ & D).
    exists tags', sts'. split; [exact E2|]. split; [exact A|].
    split; [exists ((P ++ " " ++ Q) ++ more); rewrite B, !append_assoc; reflexivity|].
    split.
    + intros _. rewrite B, !append_assoc. apply nonempty_app_r.
      apply nonempty_app_l. apply tag_state_true_nonempty. exact P1.
    + intros name e He. apply D in He. destruct He as [He|He]; [|right; exact He].
      rewrite lookup_assign in He.
      destruct (String.eqb (setname l) name); [|left; exact He].
      inversion He; subst e. right. cbn [pieceindex pos].
      pose proof (strlen_nonneg tags). pose proof (strlen_nonneg P).
      split; [reflexivity|]. split; [lia|].
      assert (Et : tags' = (tags ++ P) ++ String " " (Q ++ more)).
      { rewrite B, !append_assoc. reflexivity. }
      rewrite Et. rewrite <- strlen_append. unfold JS.strlen. rewrite Nat2Z.id.
      rewrite <- (Nat.add_0_r (String.length (tags ++ P))).
      rewrite in_tag_at_app, tag_state_app, T1, P1. reflexivity.
Qed.

Lemma layersend_loop_shape : forall layers t,
  Forall (good_layer defs) layers -> only_tags t ->
  exists t',
    SOT_map._layersend_loop opts defs layers t = Some t'
    /\ only_tags t'
    /\ (layers <> [] -> JS.nonempty t' = true).
Proof.
  induction layers as [|l layers IH]; intros t Hg Ht.
  - exists t. split; [reflexivity|]. split; [exact Ht|congruence].
  - inversion Hg as [|? ? [Hl _] Hls]; subst. cbn [SOT_map._layersend_loop].
    rewrite (tagend_mark opts defs Hopts l Hl).
    assert (Ht1 : only_tags (t ++ "</mark>")).
    { destruct Ht as [T1 T2]. split.
      - rewrite tag_state_app, T1. reflexivity.
      - rewrite strip_tags_app, T1, T2. reflexivity. }
    destruct (IH (t ++ "</mark>") Hls Ht1) as (t' & E & A & _).
    exists t'. split; [exact E|]. split; [exact A|]. intros _.
    assert (Hpre : forall ls u, JS.nonempty u = true ->
              forall u', SOT_map._layersend_loop opts defs ls u = Some u' ->
                         JS.nonempty u' = true).
    { induction ls as [|x ls IHl]; intros u Hu u' Hu'.
      - simpl in Hu'. inversion Hu'; subst. exact Hu.
      - cbn [SOT_map._layersend_loop] in Hu'.
        destruct (SOT_map._tagend opts defs x) as [ex|]; [|discriminate].
        apply (IHl (u ++ ex)); [apply nonempty_app_l; exact Hu|exact Hu']. }
    apply (Hpre layers (t ++ "</mark>")); [apply nonempty_app_r; reflexivity|exact E].
Qed.

Lemma starts_valid_app html l sts :
  starts_valid html sts -> starts_valid (html ++ l)%list sts.
Proof.
  intros H name e He. destruct (H name e He) as (p & Hp & A & B).
  exists p. split; [|auto]. rewrite nth_error_app1; [exact Hp|].
  apply nth_error_Some. congruence.
Qed.

Lemma setlayerright_loop_keeps seg : forall layers html sts,
  starts_valid html sts -> Forall closed html ->
  exists html' sts',
    SOT_map._setlayerright_loop layers seg html sts = Some (html', sts')
    /\ starts_valid html' sts' /\ Forall closed html'
    /\ visible (SOT_map.htmlstring html') = visible (SOT_map.htmlstring html).
Proof.
  induction layers as [|l layers IH]; intros html sts Hv Hc.
  - exists html, sts. auto.
  - cbn [SOT_map._setlayerright_loop].
    destruct (lookup (setname l) sts) as [st|] eqn:El; [|apply IH; assumption].
    destruct (oend (orange l) =? send seg)%Z; [|apply IH; assumption].
    destruct (Hv _ _ El) as (piece & Hp & H0 & Hin). rewrite Hp.
    rewrite (slice_put_R piece (pos st) H0 Hin).
    destruct (put_R_at_keeps piece (Z.to_nat (pos st)) false Hin) as (K1 & K2 & K3).
    destruct (set_piece_keeps html (pieceindex st) piece
                (put_R_at (Z.to_nat (pos st)) piece) Hp K1 K2 Hc) as [Hc' Hvis].
    destruct (IH (SOT_map.set_piece html (pieceindex st)
                    (put_R_at (Z.to_nat (pos st)) piece))
                (delete (setname l) sts)) as (html' & sts' & E & A & B & D).
    + intros name e He. apply lookup_delete_some in He.
      destruct (Hv name e He) as (q & Hq & Q0 & Qin).
      rewrite nth_error_set_piece.
      destruct (Nat.eqb (pieceindex e) (pieceindex st)) eqn:Ek.
      * apply Nat.eqb_eq in Ek. rewrite Ek in Hq. rewrite Hp in Hq.
        inversion Hq; subst q. rewrite Hp.
        eexists. split; [reflexivity|]. split; [exact Q0|]. apply K3. exact Qin.
      * exists q. auto.
    + exact Hc'.
    + exists html', sts'. split; [exact E|]. split; [exact A|]. split; [exact B|].
      rewrite D. exact Hvis.
Qed.

Lemma closed_opt p :
  closed p -> Forall closed (if JS.nonempty p then [p] else []).
Proof. intros H. destruct (JS.nonempty p); [constructor; [exact H|constructor]|constructor]. Qed.

Lemma no_angle_closed p : no_angle p -> closed p.
Proof. intros H. exact (proj2 (no_angle_outside p H)). Qed.

Lemma no_angle_visible p : no_angle p -> visible p = p.
Proof. intros H. exact (proj1 (no_angle_outside p H)). Qed.

Lemma nonempty_false p : JS.nonempty p = false -> p = "".
Proof. destruct p; [reflexivity|discriminate]. Qed.

Lemma visible_push html p :
  Forall closed html ->
  visible (SOT_map.htmlstring (html ++ (if JS.nonempty p then [p] else []))%list)
  = visible (SOT_map.htmlstring html) ++ visible p.
Proof.
  intros H. rewrite htmlstring_visible_app by exact H. rewrite htmlstring_opt. reflexivity.
Qed.

(** One turn of the main loop keeps what has been read of the text. *)
Lemma markup_step_keeps prevseg seg nextseg i st :
  Forall (good_layer defs) (origs seg) ->
  0 <= SOT_map.n st <= sstart seg -> sstart seg <= send seg ->
  send seg <= JS.strlen fulltext ->
  (JS.nonempty (SOT_map.text st) = true -> sstart seg = SOT_map.n st) ->
  Forall closed (SOT_map.html st) -> no_angle (SOT_map.text st) ->
  starts_valid (SOT_map.html st) (SOT_map.starts st) ->
  visible (SOT_map.htmlstring (SOT_map.html st)) ++ SOT_map.text st
  = SOT_text.raw2HTML (JS.slice fulltext 0 (SOT_map.n st)) ->
  exists st',
    SOT_map.markup_step fulltext map opts defs None prevseg seg nextseg i st = Some st'
    /\ SOT_map.n st' = send seg
    /\ Forall closed (SOT_map.html st') /\ no_angle (SOT_map.text st')
    /\ starts_valid (SOT_map.html st') (SOT_map.starts st')
    /\ visible (SOT_map.htmlstring (SOT_map.html st')) ++ SOT_map.text st'
       = SOT_text.raw2HTML (JS.slice fulltext 0 (send seg))
    /\ ((SOT_map._difdepth seg nextseg < List.length (origs seg))%nat ->
        SOT_map.text st' = "").
Proof.
  intros Hg Hn Hse Hlen Hpend Hc Htx Hv Hvis.
  set (gapE := SOT_text.raw2HTML (JS.slice fulltext (SOT_map.n st) (sstart seg))).
  set (insideE := SOT_text.raw2HTML (JS.slice fulltext (sstart seg) (send seg))).
  set (V := visible (SOT_map.htmlstring (SOT_map.html st))) in *.
  assert (Hgap : SOT_text.raw2HTML (JS.slice fulltext 0 (SOT_map.n st)) ++ gapE
                 = SOT_text.raw2HTML (JS.slice fulltext 0 (sstart seg))).
  { unfold gapE. rewrite <- raw2HTML_app, slice_join by lia. reflexivity. }
  assert (Hins : SOT_text.raw2HTML (JS.slice fulltext 0 (sstart seg)) ++ insideE
                 = SOT_text.raw2HTML (JS.slice fulltext 0 (send seg))).
  { unfold insideE. rewrite <- raw2HTML_app, slice_join by lia. reflexivity. }
  assert (Hswap : SOT_map.text st ++ gapE = gapE ++ SOT_map.text st).
  { destruct (JS.nonempty (SOT_map.text st)) eqn:E.
    - unfold gapE. rewrite (Hpend eq_refl), slice_empty, raw2HTML_empty.
      rewrite append_nil_r. reflexivity.
    - rewrite (nonempty_false _ E), append_nil_r. reflexivity. }
  assert (Hall : V ++ gapE ++ SOT_map.text st ++ insideE
                 = SOT_text.raw2HTML (JS.slice fulltext 0 (send seg))).
  { rewrite <- Hins, <- Hgap, <- Hvis. rewrite <- (append_assoc gapE), <- Hswap.
    rewrite !append_assoc. reflexivity. }
  assert (HgE : no_angle gapE) by apply raw2HTML_no_angle.
  assert (HiE : no_angle insideE) by apply raw2HTML_no_angle.
  unfold SOT_map.markup_step. fold gapE insideE.
  rewrite htmladd_app.
  set (html1 := (SOT_map.html st ++ (if JS.nonempty gapE then [gapE] else []))%list).
  assert (Hc1 : Forall closed html1)
    by (apply Forall_app; split; [exact Hc|apply closed_opt, no_angle_closed, HgE]).
  assert (Hv1 : visible (SOT_map.htmlstring html1) = V ++ gapE)
    by (unfold html1; rewrite visible_push by exact Hc;
        rewrite (no_angle_visible _ HgE); reflexivity).
  set (pi := if JS.nonempty (SOT_map.text st) then S (List.length html1)
             else List.length html1).
  unfold SOT_map._layersstart.
  destruct (layersstart_loop_shape seg i pi
              (skipn (SOT_map._difdepth seg prevseg) (origs seg))
              (SOT_map._difdepth seg prevseg) "" (SOT_map.starts st))
    as (tags & sts1 & E1 & Tok & _ & _ & Hent).
  { rewrite Forall_forall in *. intros o Ho. apply Hg. eapply in_skipn_in; exact Ho. }
  { exact only_tags_nil. }
  rewrite E1.
  set (html2 := if JS.nonempty tags
                then SOT_map.htmladd
                       (SOT_map.htmladd (SOT_map.htmladd html1 (SOT_map.text st)) tags)
                       insideE
                else html1).
  set (text2 := if JS.nonempty tags then "" else SOT_map.text st ++ insideE).
  assert (Epair : (if JS.nonempty tags
                   then (SOT_map.htmladd
                           (SOT_map.htmladd (SOT_map.htmladd html1 (SOT_map.text st)) tags)
                           insideE, "")
                   else (html1, SOT_map.text st ++ insideE))
                  = (html2, text2))
    by (unfold html2, text2; destruct (JS.nonempty tags); reflexivity).
  rewrite Epair.
  assert (Hmid : Forall closed html2 /\ no_angle text2 /\ starts_valid html2 sts1
                 /\ visible (SOT_map.htmlstring html2) ++ text2
                    = SOT_text.raw2HTML (JS.slice fulltext 0 (send seg))).
  { unfold html2, text2. destruct (JS.nonempty tags) eqn:Entags.
    - rewrite !htmladd_app, Entags.
      set (ht := (html1 ++ (if JS.nonempty (SOT_map.text st)
                            then [SOT_map.text st] else []))%list).
      assert (Hct : Forall closed ht)
        by (apply Forall_app; split; [exact Hc1|apply closed_opt, no_angle_closed, Htx]).
      assert (Hlen_ht : List.length ht = pi).
      { unfold ht, pi. rewrite length_app.
        destruct (JS.nonempty (SOT_map.text st)); simpl; lia. }
      assert (Hctt : Forall closed (ht ++ [tags])%list).
      { apply Forall_app. split; [exact Hct|].
        constructor; [apply only_tags_closed; exact Tok|constructor]. }
      split; [|split; [exact I|split]].
      + apply Forall_app. split; [exact Hctt|]. apply closed_opt, no_angle_closed, HiE.
      + intros name e He. apply Hent in He. destruct He as [He|(Hpi & H0 & Hin)].
        * destruct (Hv name e He) as (q & Hq & Q0 & Qin). exists q.
          split; [|auto].
          assert (Hlt : (pieceindex e < List.length (SOT_map.html st))%nat)
            by (apply nth_error_Some; congruence).
          unfold ht, html1. rewrite <- !app_assoc.
          rewrite nth_error_app1 by exact Hlt. exact Hq.
        * exists tags. split; [|auto].
          rewrite Hpi, <- Hlen_ht, <- app_assoc. apply nth_error_middle.
      + rewrite visible_push by exact Hctt.
        rewrite htmlstring_visible_app by exact Hct.
        unfold ht. rewrite visible_push by exact Hc1.
        rewrite Hv1, htmlstring_one.
        rewrite (no_angle_visible _ Htx), (no_angle_visible _ HiE).
        destruct Tok as [_ Tv]. unfold visible at 1. rewrite Tv.
        rewrite append_nil_r. cbn [String.append]. rewrite <- Hall.
        rewrite !append_assoc. reflexivity.
    - split; [exact Hc1|]. split; [apply no_angle_app; assumption|]. split.
      + intros name e He. apply Hent in He. destruct He as [He|(_ & _ & Hin)].
        * unfold html1. exact (starts_valid_app _ _ _ Hv name e He).
        * rewrite (nonempty_false _ Entags) in Hin. simpl in Hin. discriminate.
      + rewrite Hv1, <- Hall. rewrite !append_assoc. reflexivity. }
  destruct Hmid as (Hc2 & Htx2 & Hv2 & Hvis2).
  unfold SOT_map._layersend.
  destruct (layersend_loop_shape
              (rev (skipn (SOT_map._difdepth seg nextseg) (origs seg))) "")
    as (endtags & E2 & Eok & Enon).
  { apply Forall_rev. rewrite Forall_forall in *. intros o Ho. apply Hg.
    eapply in_skipn_in; exact Ho. }
  { exact only_tags_nil. }
  rewrite E2.
  assert (Hflush : (SOT_map._difdepth seg nextseg < List.length (origs seg))%nat ->
                   JS.nonempty endtags = true).
  { intros Hlt. apply Enon. intros Hnil.
    assert (Hl : List.length (rev (skipn (SOT_map._difdepth seg nextseg) (origs seg))) = 0%nat)
      by (rewrite Hnil; reflexivity).
    rewrite length_rev, length_skipn in Hl. lia. }
  destruct (JS.nonempty endtags) eqn:Eend.
  - set (piece := if JS.nonempty text2 then text2 ++ endtags else endtags).
    assert (Epair3 : (if JS.nonempty text2
                      then (SOT_map.htmladd html2 (text2 ++ endtags), "")
                      else (SOT_map.htmladd html2 endtags, text2))
                     = ((html2 ++ [piece])%list, "")).
    { unfold piece. rewrite !htmladd_app. destruct (JS.nonempty text2) eqn:Et2.
      - rewrite (nonempty_app_l text2 endtags Et2). reflexivity.
      - rewrite Eend, (nonempty_false _ Et2). reflexivity. }
    rewrite Epair3.
    assert (Hpc : closed piece /\ visible piece = text2).
    { unfold piece. destruct Eok as [Ek Ev]. destruct (JS.nonempty text2) eqn:Et2.
      - destruct (visible_closed_app text2 endtags (no_angle_closed _ Htx2)) as [A B].
        split; [apply B; exact Ek|]. rewrite A, (no_angle_visible _ Htx2).
        unfold visible. rewrite Ev. apply append_nil_r.
      - split; [exact Ek|]. rewrite (nonempty_false _ Et2). exact Ev. }
    destruct Hpc as [Hpc Hpv].
    assert (Hc3 : Forall closed (html2 ++ [piece])%list)
      by (apply Forall_app; split; [exact Hc2|constructor; [exact Hpc|constructor]]).
    assert (Hvis3 : visible (SOT_map.htmlstring (html2 ++ [piece])%list)
                    = SOT_text.raw2HTML (JS.slice fulltext 0 (send seg))).
    { rewrite htmlstring_visible_app by exact Hc2. rewrite htmlstring_one, Hpv.
      exact Hvis2. }
    unfold SOT_map._setlayerright.
    destruct (setlayerright_loop_keeps seg (origs seg) (html2 ++ [piece])%list sts1
                (starts_valid_app html2 [piece] sts1 Hv2) Hc3)
      as (html4 & sts4 & E4 & A4 & B4 & D4).
    rewrite E4. eexists. split; [reflexivity|].
    cbn [SOT_map.n SOT_map.html SOT_map.text SOT_map.starts].
    split; [reflexivity|]. split; [exact B4|]. split; [exact I|].
    split; [exact A4|]. split; [|reflexivity].
    rewrite D4, Hvis3. apply append_nil_r.
  - eexists. split; [reflexivity|].
    cbn [SOT_map.n SOT_map.html SOT_map.text SOT_map.starts].
    split; [reflexivity|]. split; [exact Hc2|]. split; [exact Htx2|].
    split; [exact Hv2|]. split; [exact Hvis2|].
    intros Hlt. apply Hflush in Hlt. discriminate.
Qed.

Lemma istagdif_first a b oa ob :
  hd_error (origs a) = Some oa -> hd_error (origs b) = Some ob ->
  same_name_seq oa ob = false -> SOT_map._istagdif a (Some b) 0 = true.
Proof.
  intros Ha Hb Hs. unfold SOT_map._istagdif.
  destruct (origs a) as [|oa' la]; [discriminate|].
  destruct (origs b) as [|ob' lb]; [discriminate|].
  simpl in Ha, Hb. injection Ha as ->. injection Hb as ->.
  cbn [nth_error]. rewrite <- negb_andb.
  unfold same_name_seq in Hs. rewrite Hs. reflexivity.
Qed.

Lemma markup_loop_keeps : forall segs prevseg i st,
  Forall (fun seg => origs seg <> [] /\ Forall (good_layer defs) (origs seg)) segs ->
  chain false (SOT_map.n st) segs ->
  0 <= SOT_map.n st <= JS.strlen fulltext ->
  Forall (fun s => send s <= JS.strlen fulltext) segs ->
  gaps_separate segs -> pending_ok segs st ->
  Forall closed (SOT_map.html st) -> no_angle (SOT_map.text st) ->
  starts_valid (SOT_map.html st) (SOT_map.starts st) ->
  visible (SOT_map.htmlstring (SOT_map.html st)) ++ SOT_map.text st
  = SOT_text.raw2HTML (JS.slice fulltext 0 (SOT_map.n st)) ->
  exists st',
    SOT_map.markup_loop fulltext map opts defs None prevseg segs i st = Some st'
    /\ 0 <= SOT_map.n st' <= JS.strlen fulltext
    /\ Forall closed (SOT_map.html st')
    /\ visible (SOT_map.htmlstring (SOT_map.html st'))
       = SOT_text.raw2HTML (JS.slice fulltext 0 (SOT_map.n st')).
Proof.
  induction segs as [|a rest IH]; intros prevseg i st Hall Hch Hn Hlen Hsep Hpend Hc Htx Hv Hvis.
  - exists st. simpl in Hpend. rewrite Hpend, append_nil_r in Hvis.
    split; [reflexivity|]. auto.
  - inversion Hall as [|? ? [Hne Hg] Hall']; subst.
    inversion Hlen as [|? ? Hla Hlen']; subst.
    destruct Hch as (Hlo & Hspan & Hch'). simpl in Hspan.
    destruct (markup_step_keeps prevseg a (hd_error rest) i st Hg)
      as (st1 & E1 & N1 & C1 & T1 & V1 & Vis1 & F1); try assumption; try lia.
    cbn [SOT_map.markup_loop]. rewrite E1.
    assert (Hlenpos : (0 < List.length (origs a))%nat)
      by (destruct (origs a); [congruence|simpl; lia]).
    apply IH; try assumption.
    + rewrite N1. exact Hch'.
    + rewrite N1. lia.
    + destruct rest as [|b rest']; [exact I|exact (proj2 Hsep)].
    + destruct rest as [|b rest']; simpl.
      * apply F1. cbn [hd_error]. rewrite difdepth_none. exact Hlenpos.
      * intros Hp. rewrite N1. destruct Hch' as (Hab & _ & _).
        destruct (Z.eq_dec (sstart b) (send a)) as [E|E]; [exact E|exfalso].
        destruct Hsep as [Hsep _].
        inversion Hall' as [|? ? [Hneb _] _]; subst.
        destruct (origs a) as [|oa la] eqn:Ea; [congruence|].
        destruct (origs b) as [|ob lb] eqn:Eb; [congruence|].
        assert (Hd : SOT_map._istagdif a (Some b) 0 = true).
        { apply istagdif_first with oa ob.
          - rewrite Ea. reflexivity.
          - rewrite Eb. reflexivity.
          - apply Hsep; [lia|reflexivity|reflexivity]. }
        assert (Ht : SOT_map.text st1 = "").
        { apply F1. cbn [hd_error].
          rewrite (difdepth_zero a (Some b) oa la Ea Hd). simpl. lia. }
        rewrite Ht in Hp. discriminate.
    + rewrite N1. exact Vis1.
Qed.

Lemma markup_keeps_text_aux :
  Forall (fun seg => origs seg <> [] /\ Forall (good_layer defs) (origs seg)) map ->
  chain false 0 map ->
  Forall (fun s => send s <= JS.strlen fulltext) map ->
  gaps_separate map ->
  exists h, SOT_map.markup fulltext map opts defs None = Some h
            /\ visible h = SOT_text.raw2HTML fulltext.
Proof.
  intros Hall Hch Hlen Hsep.
  destruct (markup_loop_keeps map None 0%nat
              {| SOT_map.html := []; SOT_map.text := ""; SOT_map.starts := [];
                 SOT_map.n := 0 |})
    as (st' & E & Hn & Hc & Hvis); try assumption.
  - cbn [SOT_map.n]. pose proof (strlen_nonneg fulltext). lia.
  - destruct map; simpl; [reflexivity|discriminate].
  - constructor.
  - exact I.
  - intros name e He. discriminate.
  - cbn [SOT_map.n SOT_map.html SOT_map.text]. rewrite slice_empty. reflexivity.
  - unfold SOT_map.markup. rewrite E. eexists. split; [reflexivity|].
    destruct (visible_closed_app (SOT_map.htmlstring (SOT_map.html st'))
                (SOT_text.raw2HTML (JS.slice_from fulltext (SOT_map.n st')))
                (htmlstring_closed _ Hc)) as [A _].
    rewrite A, Hvis, (no_angle_visible _ (raw2HTML_no_angle _)).
    rewrite <- raw2HTML_app, slice_join_end by exact Hn. reflexivity.
Qed.


End KeepsText.

Section KeepsTextExample.
Local Open Scope string_scope.


End KeepsTextExample.

(** ** A run of segments of one layer *)

Section SameLayerRun.
Local Open Scope string_scope.
Variable fulltext : string.
Variable map : TextMap.
Variable opts : option Opts.
Variable defs : option Defs.
Hypothesis Hopts : plain_opts opts.
Variable nm : string.
Variable k : Z.
Hypothesis Hd : plain_for defs nm.

Lemma tagstart_open rg layer mi j pi offset sts :
  plain_for defs (setname layer) -> ostart (orange layer) = rstart rg ->
  SOT_map._tagstart fulltext map opts defs None rg layer mi j pi offset sts
  = Some (mark_open (setname layer),
          assign (setname layer)
            {| pos := offset + JS.strlen (mark_head (setname layer));
               pieceindex := pi; st_j := j; st_seg := rg |} sts).
Proof. intros H1 H2. exact (tagstart_mark fulltext map opts defs Hopts _ _ _ _ _ _ _ H1 H2). Qed.

Lemma put_R_open name :
  JS.slice (mark_open name) 0 (JS.strlen (mark_head name)) ++ "R"
  ++ JS.slice_from (mark_open name) (JS.strlen (mark_head name) + 1)
  = class_tag "mark" (name ++ " L R").
Proof. exact (put_R name). Qed.

Lemma nonempty_mark_open name : JS.nonempty (mark_open name) = true.
Proof. reflexivity. Qed.

Lemma difdepth_same seg cs a b a' b' :
  origs seg = [orig nm a b k] -> origs cs = [orig nm a' b' k] ->
  SOT_map._difdepth seg (Some cs) = 1%nat.
Proof.
  intros E1 E2. unfold SOT_map._difdepth. rewrite E1.
  cbn [List.length SOT_map._difdepth_loop]. unfold SOT_map._istagdif. rewrite E1, E2.
  cbn [nth_error setname orig orange setindex].
  rewrite String.eqb_refl, Z.eqb_refl. reflexivity.
Qed.

Lemma run_slices pre g t rest :
  fulltext = pre ++ g ++ t ++ rest ->
  JS.slice fulltext (JS.strlen pre) (JS.strlen pre + JS.strlen g) = g
  /\ JS.slice fulltext (JS.strlen pre + JS.strlen g)
       (JS.strlen pre + JS.strlen g + JS.strlen t) = t.
Proof.
  intros Et. split.
  - rewrite Et. apply slice_middle.
  - rewrite Et. rewrite <- (append_assoc pre g), <- strlen_append. apply slice_middle.
Qed.

(** The first segment of a run, when the next one carries on. *)
Lemma run_step_first pre g t rest prevseg nextseg i st :
  fulltext = pre ++ g ++ t ++ rest ->
  SOT_map.n st = JS.strlen pre -> SOT_map.text st = "" -> SOT_map.starts st = [] ->
  let a := (JS.strlen pre + JS.strlen g)%Z in
  let b := (a + JS.strlen t)%Z in
  let seg := SOT_text_map.mk a b [orig nm a b k] in
  SOT_map._istagdif seg prevseg 0 = true ->
  SOT_map._difdepth seg nextseg = 1%nat ->
  SOT_map.markup_step fulltext map opts defs None prevseg seg nextseg i st
  = Some {| SOT_map.html :=
              SOT_map.htmladd
                (SOT_map.htmladd (SOT_map.htmladd (SOT_map.html st) (SOT_text.raw2HTML g))
                   (mark_open nm))
                (SOT_text.raw2HTML t);
            SOT_map.text := "";
            SOT_map.starts :=
              [(nm, {| pos := JS.strlen (mark_head nm);
                       pieceindex :=
                         List.length (SOT_map.htmladd (SOT_map.html st) (SOT_text.raw2HTML g));
                       st_j := 0; st_seg := range seg |})];
            SOT_map.n := b |}.
Proof.
  intros Et Hn Ht Hs a b seg Hprev Hnext.
  destruct (run_slices pre g t rest Et) as [Egap Etok]. fold a in Egap, Etok. fold b in Etok.
  unfold SOT_map.markup_step. rewrite Hn, Ht, Hs.
  change (sstart seg) with a. change (send seg) with b. rewrite Egap, Etok.
  cbn [JS.nonempty]. unfold SOT_map._layersstart.
  rewrite (difdepth_zero seg prevseg _ _ eq_refl Hprev).
  change (origs seg) with [orig nm a b k].
  cbn [skipn SOT_map._layersstart_loop].
  rewrite tagstart_open by (try exact Hd; reflexivity).
  cbn [setname orig String.append assign]. change (JS.strlen "") with 0%Z.
  rewrite Z.add_0_l, nonempty_mark_open.
  unfold SOT_map._layersend. rewrite Hnext.
  change (origs seg) with [orig nm a b k].
  cbn [skipn rev app SOT_map._layersend_loop JS.nonempty].
  reflexivity.
Qed.

(** A later segment of a run, when the next one carries on. *)
Lemma run_step_middle pre g t rest prevseg nextseg i st :
  fulltext = pre ++ g ++ t ++ rest ->
  SOT_map.n st = JS.strlen pre ->
  let a := (JS.strlen pre + JS.strlen g)%Z in
  let b := (a + JS.strlen t)%Z in
  let seg := SOT_text_map.mk a b [orig nm a b k] in
  SOT_map._difdepth seg prevseg = 1%nat ->
  SOT_map._difdepth seg nextseg = 1%nat ->
  SOT_map.markup_step fulltext map opts defs None prevseg seg nextseg i st
  = Some {| SOT_map.html := SOT_map.htmladd (SOT_map.html st) (SOT_text.raw2HTML g);
            SOT_map.text := SOT_map.text st ++ SOT_text.raw2HTML t;
            SOT_map.starts := SOT_map.starts st;
            SOT_map.n := b |}.
Proof.
  intros Et Hn a b seg Hprev Hnext.
  destruct (run_slices pre g t rest Et) as [Egap Etok]. fold a in Egap, Etok. fold b in Etok.
  unfold SOT_map.markup_step. rewrite Hn.
  change (sstart seg) with a. change (send seg) with b. rewrite Egap, Etok.
  unfold SOT_map._layersstart. rewrite Hprev.
  change (origs seg) with [orig nm a b k].
  cbn [skipn SOT_map._layersstart_loop JS.nonempty].
  unfold SOT_map._layersend. rewrite Hnext.
  change (origs seg) with [orig nm a b k].
  cbn [skipn rev app SOT_map._layersend_loop JS.nonempty].
  reflexivity.
Qed.

(** The last segment of a run: what was held back is put out with the
    closing tag, and the [R] goes into the opening tag of the first. *)
Lemma run_step_last pre g t rest prevseg i st H0 mid j0 rg0 :
  fulltext = pre ++ g ++ t ++ rest ->
  SOT_map.n st = JS.strlen pre ->
  let a := (JS.strlen pre + JS.strlen g)%Z in
  let b := (a + JS.strlen t)%Z in
  let seg := SOT_text_map.mk a b [orig nm a b k] in
  SOT_map._difdepth seg prevseg = 1%nat ->
  SOT_map.html st = (H0 ++ mark_open nm :: mid)%list ->
  SOT_map.starts st
  = [(nm, {| pos := JS.strlen (mark_head nm); pieceindex := List.length H0; st_j := j0;
             st_seg := rg0 |})] ->
  exists st',
    SOT_map.markup_step fulltext map opts defs None prevseg seg None i st = Some st'
    /\ SOT_map.n st' = b
    /\ SOT_map.htmlstring (SOT_map.html st')
       = SOT_map.htmlstring H0 ++ class_tag "mark" (nm ++ " L R")
         ++ SOT_map.htmlstring mid ++ SOT_text.raw2HTML g
         ++ SOT_map.text st ++ SOT_text.raw2HTML t ++ "</mark>".
Proof.
  intros Et Hn a b seg Hprev Hh Hs.
  destruct (run_slices pre g t rest Et) as [Egap Etok]. fold a in Egap, Etok. fold b in Etok.
  unfold SOT_map.markup_step. rewrite Hn, Hh, Hs.
  change (sstart seg) with a. change (send seg) with b. rewrite Egap, Etok.
  unfold SOT_map._layersstart. rewrite Hprev.
  change (origs seg) with [orig nm a b k].
  cbn [skipn SOT_map._layersstart_loop JS.nonempty].
  unfold SOT_map._layersend. rewrite difdepth_none.
  change (origs seg) with [orig nm a b k].
  cbn [skipn rev app SOT_map._layersend_loop].
  rewrite (tagend_mark opts defs Hopts) by exact Hd.
  cbn [String.append JS.nonempty].
  set (gE := SOT_text.raw2HTML g). set (tE := SOT_text.raw2HTML t).
  set (X := (SOT_map.text st ++ tE) ++ "</mark>").
  set (html1 := SOT_map.htmladd (H0 ++ mark_open nm :: mid)%list gE).
  assert (Epair : (if JS.nonempty (SOT_map.text st ++ tE)
                   then (SOT_map.htmladd html1 X, "")
                   else (SOT_map.htmladd html1 "</mark>", SOT_map.text st ++ tE))
                  = ((H0 ++ mark_open nm :: (mid ++ (if JS.nonempty gE then [gE] else []) ++ [X]))%list,
                     "")).
  { unfold html1, X. rewrite !htmladd_app.
    destruct (JS.nonempty (SOT_map.text st ++ tE)) eqn:E.
    - rewrite (nonempty_app_l _ "</mark>" E). rewrite <- !app_assoc. reflexivity.
    - rewrite (nonempty_false _ E). cbn [JS.nonempty String.append].
      rewrite <- !app_assoc. reflexivity. }
  rewrite Epair. unfold SOT_map._setlayerright.
  change (origs seg) with [orig nm a b k].
  cbn [SOT_map._setlayerright_loop setname orig lookup]. rewrite String.eqb_refl.
  change (oend (orange (orig nm a b k))) with b.
  change (send seg) with b. rewrite Z.eqb_refl. cbn [pieceindex pos].
  rewrite nth_error_middle, set_piece_middle. cbn [delete]. rewrite String.eqb_refl.
  eexists. split; [reflexivity|]. cbn [SOT_map.n SOT_map.html].
  split; [reflexivity|].
  rewrite put_R_open.
  change (class_tag "mark" (nm ++ " L R")
          :: (mid ++ (if JS.nonempty gE then [gE] else []) ++ [X]))%list
    with ([class_tag "mark" (nm ++ " L R")]
          ++ (mid ++ (if JS.nonempty gE then [gE] else []) ++ [X]))%list.
  rewrite !htmlstring_app, htmlstring_opt. unfold X.
  unfold SOT_map.htmlstring at 2 4. cbn [fold_left String.append].
  rewrite !append_assoc. reflexivity.
Qed.

(** The segments of a run after the first. *)
Lemma run_loop tail : forall ps q pre prevseg i st H0 mid j0 rg0 a0 b0,
  fulltext = pre ++ piece_text (q :: ps) tail ->
  SOT_map.n st = JS.strlen pre ->
  Forall (fun r => p_name r = nm /\ p_index r = k) (q :: ps) ->
  origs prevseg = [orig nm a0 b0 k] ->
  SOT_map.html st = (H0 ++ mark_open nm :: mid)%list ->
  SOT_map.starts st
  = [(nm, {| pos := JS.strlen (mark_head nm); pieceindex := List.length H0; st_j := j0;
             st_seg := rg0 |})] ->
  exists st',
    SOT_map.markup_loop fulltext map opts defs None (Some prevseg)
      (piece_map (JS.strlen pre) (q :: ps)) i st = Some st'
    /\ SOT_map.htmlstring (SOT_map.html st')
       ++ SOT_text.raw2HTML (JS.slice_from fulltext (SOT_map.n st'))
       = SOT_map.htmlstring H0 ++ class_tag "mark" (nm ++ " L R")
         ++ SOT_map.htmlstring mid ++ run_gaps (q :: ps)
         ++ SOT_map.text st ++ run_tokens (q :: ps) ++ "</mark>"
         ++ SOT_text.raw2HTML tail.
Proof.
  induction ps as [|r ps IH];
    intros q pre prevseg i st H0 mid j0 rg0 a0 b0 Et Hn Hall Hprev Hh Hs.
  - destruct (Forall_inv Hall) as [Hq1 Hq2].
    cbn [piece_text] in Et. cbn [piece_map SOT_map.markup_loop]. rewrite Hq1, Hq2.
    destruct (run_step_last pre (p_gap q) (p_token q) tail (Some prevseg) i st
                H0 mid j0 rg0 Et Hn) as (st1 & E1 & N1 & Hh1); trivial.
    { eapply difdepth_same; [reflexivity|exact Hprev]. }
    cbn [hd_error]. rewrite E1. exists st1. split; [reflexivity|].
    rewrite Hh1, N1.
    replace (JS.strlen pre + JS.strlen (p_gap q) + JS.strlen (p_token q))%Z
      with (JS.strlen (pre ++ p_gap q ++ p_token q))
      by (rewrite !strlen_append; lia).
    rewrite Et.
    replace (pre ++ p_gap q ++ p_token q ++ tail)
      with ((pre ++ p_gap q ++ p_token q) ++ tail)
      by (rewrite !append_assoc; reflexivity).
    rewrite slice_suffix. cbn [run_gaps run_tokens].
    rewrite !append_nil_r, !append_assoc. reflexivity.
  - destruct (Forall_inv Hall) as [Hq1 Hq2].
    pose proof (Forall_inv_tail Hall) as Hall'.
    destruct (Forall_inv Hall') as [Hr1 Hr2].
    change (piece_text (q :: r :: ps) tail)
      with (p_gap q ++ p_token q ++ piece_text (r :: ps) tail) in Et.
    change (piece_map (JS.strlen pre) (q :: r :: ps))
      with (let a := (JS.strlen pre + JS.strlen (p_gap q))%Z in
            let b := (a + JS.strlen (p_token q))%Z in
            SOT_text_map.mk a b [orig (p_name q) a b (p_index q)]
              :: piece_map b (r :: ps)).
    cbv zeta. cbn [SOT_map.markup_loop]. rewrite Hq1, Hq2.
    set (a := (JS.strlen pre + JS.strlen (p_gap q))%Z).
    set (b := (a + JS.strlen (p_token q))%Z).
    assert (Enext : hd_error (piece_map b (r :: ps))
                    = Some (SOT_text_map.mk (b + JS.strlen (p_gap r))
                              (b + JS.strlen (p_gap r) + JS.strlen (p_token r))
                              [orig nm (b + JS.strlen (p_gap r))
                                 (b + JS.strlen (p_gap r) + JS.strlen (p_token r)) k]))
      by (cbn [piece_map hd_error]; rewrite Hr1, Hr2; reflexivity).
    rewrite Enext.
    rewrite (run_step_middle pre (p_gap q) (p_token q)
               (piece_text (r :: ps) tail) (Some prevseg) _ i st Et Hn)
      by (eapply difdepth_same; [reflexivity|try exact Hprev; reflexivity]).
    fold a b.
    assert (Elen : b = JS.strlen (pre ++ p_gap q ++ p_token q))
      by (unfold b, a; rewrite !strlen_append; lia).
    edestruct (IH r (pre ++ p_gap q ++ p_token q)
                 (SOT_text_map.mk a b [orig nm a b k]) (S i)
                 {| SOT_map.html :=
                      SOT_map.htmladd (SOT_map.html st) (SOT_text.raw2HTML (p_gap q));
                    SOT_map.text := SOT_map.text st ++ SOT_text.raw2HTML (p_token q);
                    SOT_map.starts := SOT_map.starts st;
                    SOT_map.n := b |}
                 H0 (mid ++ (if JS.nonempty (SOT_text.raw2HTML (p_gap q))
                             then [SOT_text.raw2HTML (p_gap q)] else []))%list
                 j0 rg0 a b)
      as (st2 & E2 & Hh2).
    + rewrite Et. rewrite !append_assoc. reflexivity.
    + exact Elen.
    + exact Hall'.
    + reflexivity.
    + cbn [SOT_map.html]. rewrite Hh, htmladd_app, <- app_assoc. reflexivity.
    + cbn [SOT_map.starts]. exact Hs.
    + exists st2. rewrite <- Elen in E2. split; [exact E2|].
      rewrite Hh2. cbn [SOT_map.text run_gaps run_tokens].
      rewrite htmlstring_app, htmlstring_opt.
      rewrite !append_assoc. reflexivity.
Qed.

End SameLayerRun.

Section SameLayerRunTheorem.
Local Open Scope string_scope.

(** Segments that follow one another with the same name and the same
    sequence number are rendered as one [mark] element, opened before the
    token of the first and closed after the token of the last; the texts
    between them are put out as they are met, while the tokens after the
    first are held back until the element is closed, so that every gap of
    the run comes out before every later token. *)
Theorem same_layer_run_is_one_element opts defs p ps tail :
  plain_opts opts -> plain_for defs (p_name p) ->
  Forall (fun q => p_name q = p_name p /\ p_index q = p_index p) ps ->
  SOT_map.markup (piece_text (p :: ps) tail) (piece_map 0 (p :: ps)) opts defs None
  = Some (SOT_text.raw2HTML (p_gap p) ++ class_tag "mark" (p_name p ++ " L R")
          ++ SOT_text.raw2HTML (p_token p) ++ run_gaps ps ++ run_tokens ps
          ++ "</mark>" ++ SOT_text.raw2HTML tail).
Proof.
  intros Ho Hd Hall. unfold SOT_map.markup. destruct ps as [|q ps].
  - destruct (markup_loop_pieces (piece_text [p] tail) (piece_map 0 [p]) opts defs Ho
                tail [p] "" None None 0%nat
                {| SOT_map.html := []; SOT_map.text := ""; SOT_map.starts := [];
                   SOT_map.n := 0 |})
      as (st' & E & Hh); trivial.
    + intros p' [<-|[]]. exact Hd.
    + simpl. auto.
    + change (JS.strlen "") with 0 in E. rewrite E. f_equal. rewrite Hh.
      cbn [piece_html run_gaps run_tokens SOT_map.htmlstring fold_left String.append].
      reflexivity.
  - destruct (Forall_inv Hall) as [Hq1 Hq2].
    set (fulltext := piece_text (p :: q :: ps) tail).
    set (a := (0 + JS.strlen (p_gap p))%Z).
    set (b := (a + JS.strlen (p_token p))%Z).
    change (piece_map 0 (p :: q :: ps))
      with (SOT_text_map.mk a b [orig (p_name p) a b (p_index p)]
              :: piece_map b (q :: ps)).
    cbn [SOT_map.markup_loop].
    assert (Enext : hd_error (piece_map b (q :: ps))
                    = Some (SOT_text_map.mk (b + JS.strlen (p_gap q))
                              (b + JS.strlen (p_gap q) + JS.strlen (p_token q))
                              [orig (p_name p) (b + JS.strlen (p_gap q))
                                 (b + JS.strlen (p_gap q) + JS.strlen (p_token q))
                                 (p_index p)]))
      by (cbn [piece_map hd_error]; rewrite Hq1, Hq2; reflexivity).
    rewrite Enext.
    rewrite (run_step_first fulltext (piece_map 0 (p :: q :: ps)) opts defs Ho
               (p_name p) (p_index p) Hd "" (p_gap p) (p_token p)
               (piece_text (q :: ps) tail) None _ 0%nat
               {| SOT_map.html := []; SOT_map.text := ""; SOT_map.starts := [];
                  SOT_map.n := 0 |} eq_refl eq_refl eq_refl eq_refl eq_refl)
      by (eapply difdepth_same; reflexivity).
    change (JS.strlen "" + JS.strlen (p_gap p))%Z with a. fold b.
    assert (Elen : b = JS.strlen ("" ++ p_gap p ++ p_token p))
      by (unfold b, a; cbn [String.append]; rewrite !strlen_append; lia).
    set (gE := SOT_text.raw2HTML (p_gap p)). set (tE := SOT_text.raw2HTML (p_token p)).
    match goal with
    | |- context [SOT_map.markup_loop _ _ _ _ _ _ _ _ ?s] => set (st1 := s)
    end.
    destruct (run_loop fulltext
                (SOT_text_map.mk a b [orig (p_name p) a b (p_index p)]
                   :: piece_map b (q :: ps)) opts defs Ho
                (p_name p) (p_index p) Hd tail ps q ("" ++ p_gap p ++ p_token p)
                (SOT_text_map.mk a b [orig (p_name p) a b (p_index p)]) 1%nat
                st1 (if JS.nonempty gE then [gE] else [])
                (if JS.nonempty tE then [tE] else []) 0%nat
                (range (SOT_text_map.mk a b [orig (p_name p) a b (p_index p)])) a b)
      as (st2 & E2 & Hh2).
    + unfold fulltext. change ("" ++ p_gap p ++ p_token p) with (p_gap p ++ p_token p).
      rewrite append_assoc. reflexivity.
    + exact Elen.
    + exact Hall.
    + reflexivity.
    + unfold st1. cbn [SOT_map.html]. rewrite !htmladd_app, nonempty_mark_open.
      cbn [app]. rewrite <- !app_assoc. reflexivity.
    + unfold st1. cbn [SOT_map.starts]. rewrite htmladd_app. reflexivity.
    + rewrite <- Elen in E2. rewrite E2. f_equal. rewrite Hh2.
      unfold st1. cbn [SOT_map.text String.append]. rewrite !htmlstring_opt. reflexivity.
Qed.

Lemma same_layer_run_is_one_element_witness :
  SOT_map.markup "a-b-c"
    (SOT_text_map.addrange "a-b-c" {| rstart := 4; rend := 5 |} "s" true
       (SOT_text_map.addrange "a-b-c" {| rstart := 2; rend := 3 |} "s" true
          (SOT_text_map.addrange "a-b-c" {| rstart := 0; rend := 1 |} "s" true [])))
    None None None
  = Some (class_tag "mark" "s L R" ++ "a--bc</mark>").
Proof.
  refine (same_layer_run_is_one_element None None (mkPiece "" "a" "s" 0)
            [mkPiece "-" "b" "s" 0; mkPiece "-" "c" "s" 0] "" I I _).
  repeat constructor.
Defined.

End SameLayerRunTheorem.

(** ** Rendering a map built by Segment-mode insertions *)

Section BuiltMap.
Local Open Scope string_scope.

Lemma chain_true_false : forall l lo, chain true lo l -> chain false lo l.
Proof.
  induction l as [|s l IH]; intros lo; simpl; [trivial|].
  intros (H1 & H2 & H3). repeat split; [exact H1|lia|apply IH; exact H3].
Qed.

Lemma chain_relax lo l :
  chain true lo l -> Forall (fun s => 0 <= sstart s) l -> chain false 0 l.
Proof.
  destruct l as [|s l]; simpl; [trivial|].
  intros (H1 & H2 & H3) F. inversion F; subst.
  repeat split; [assumption|lia|apply chain_true_false; exact H3].
Qed.

Lemma gaps_separate_intro : forall l,
  (forall i a b, nth_error l i = Some a -> nth_error l (S i) = Some b ->
     send a < sstart b ->
     forall oa ob, hd_error (origs a) = Some oa -> hd_error (origs b) = Some ob ->
                   same_name_seq oa ob = false) ->
  gaps_separate l.
Proof.
  induction l as [|a l IH]; intros H; [exact I|].
  destruct l as [|b l]; [exact I|]. split.
  - exact (H 0%nat a b eq_refl eq_refl).
  - apply IH. intros i a' b' Ha Hb. exact (H (S i) a' b' Ha Hb).
Qed.

Lemma match_layer_inv name ms x : forall k0 o,
  In o (match_layer name k0 ms x) ->
  exists n s e, nth_error ms n = Some (s, e) /\ o = orig name s e (k0 + Z.of_nat n)
                /\ s <= x < e.
Proof.
  induction ms as [|[s e] ms IH]; intros k0 o Hin; [destruct Hin|].
  cbn [match_layer] in Hin. destruct ((s <=? x) && (x <? e))%Z eqn:E.
  - destruct Hin as [<-|[]]. exists 0%nat, s, e.
    apply andb_true_iff in E. destruct E as [E1 E2].
    apply Z.leb_le in E1. apply Z.ltb_lt in E2.
    repeat split; trivial. f_equal. lia.
  - destruct (IH _ _ Hin) as (n & s' & e' & Hn & Ho & Hx).
    exists (S n), s', e'. repeat split; trivial; try lia.
    rewrite Ho. f_equal. lia.
Qed.

Lemma match_layer_nonempty name ms x : forall k0,
  in_matches ms x -> match_layer name k0 ms x <> [].
Proof.
  induction ms as [|[s e] ms IH]; intros k0 (s' & e' & Hin & Hx); [destruct Hin|].
  cbn [match_layer]. destruct ((s <=? x) && (x <? e))%Z eqn:E; [discriminate|].
  destruct Hin as [Heq|Hin].
  - inversion Heq; subst. exfalso.
    apply andb_false_iff in E. destruct E as [E|E];
      [apply Z.leb_gt in E|apply Z.ltb_ge in E]; lia.
  - apply IH. exists s', e'. split; assumption.
Qed.

Lemma inserted_layer ins x : inserted ins x -> layer_of ins x <> [].
Proof.
  destruct ins as [text regex name|text r name]; simpl.
  - intros [Hg Hm]. rewrite Hg. apply match_layer_nonempty. exact Hm.
  - unfold in_range. intros H.
    replace ((Z.min (rstart r) (rend r) <=? x) && (x <? Z.max (rstart r) (rend r)))%Z
      with true; [discriminate|].
    symmetry. apply andb_true_iff. split; [apply Z.leb_le|apply Z.ltb_lt]; lia.
Qed.

Lemma inserted_within len ins x : ins_within len ins -> inserted ins x -> 0 <= x < len.
Proof.
  destruct ins as [text regex name|text r name]; simpl.
  - intros F [_ (s & e & Hin & Hx)]. rewrite Forall_forall in F.
    specialize (F (s, e) Hin). simpl in F. lia.
  - unfold in_range. lia.
Qed.

Lemma layer_name ins x o : In o (layer_of ins x) -> setname o = ins_name ins.
Proof.
  destruct ins as [text regex name|text r name]; simpl.
  - destruct (global regex); [|intros []]. intros H.
    destruct (match_layer_inv _ _ _ _ _ H) as (n & s & e & _ & -> & _). reflexivity.
  - destruct ((Z.min (rstart r) (rend r) <=? x) && (x <? Z.max (rstart r) (rend r)))%Z;
      [|intros []].
    intros [<-|[]]. reflexivity.
Qed.

(** Two origins of one insertion with the same sequence number come from
    the same match, or from the range: the insertion holds every position
    between theirs. *)
Lemma layer_same ins x y oa ob :
  In oa (layer_of ins x) -> In ob (layer_of ins y) ->
  setindex (orange oa) = setindex (orange ob) ->
  forall g, x <= g <= y -> inserted ins g.
Proof.
  destruct ins as [text regex name|text r name]; simpl.
  - destruct (global regex); [|intros []]. intros Ha Hb Hk g Hg.
    destruct (match_layer_inv _ _ _ _ _ Ha) as (n & s & e & Hn & -> & Hx).
    destruct (match_layer_inv _ _ _ _ _ Hb) as (n' & s' & e' & Hn' & -> & Hy).
    simpl in Hk. assert (n' = n) by lia. subst n'.
    rewrite Hn in Hn'. inversion Hn'; subst s' e'.
    split; [reflexivity|]. exists s, e. split; [|lia].
    eapply nth_error_In; exact Hn.
  - destruct ((Z.min (rstart r) (rend r) <=? x) && (x <? Z.max (rstart r) (rend r)))%Z
      eqn:Ex; [|intros []].
    destruct ((Z.min (rstart r) (rend r) <=? y) && (y <? Z.max (rstart r) (rend r)))%Z
      eqn:Ey; [|intros _ []].
    intros _ _ _ g Hg. unfold in_range.
    apply andb_true_iff in Ex. destruct Ex as [X1 X2].
    apply andb_true_iff in Ey. destruct Ey as [Y1 Y2].
    apply Z.leb_le in X1. apply Z.ltb_lt in X2. apply Z.leb_le in Y1. apply Z.ltb_lt in Y2.
    lia.
Qed.

Lemma same_name_same_ins (inss : list Insertion) a b :
  NoDup (List.map ins_name inss) -> In a inss -> In b inss ->
  ins_name a = ins_name b -> a = b.
Proof.
  induction inss as [|c inss IH]; intros Hnd Ha Hb Hn; [destruct Ha|].
  simpl in Hnd. inversion Hnd as [|? ? Hnot Hnd']; subst.
  destruct Ha as [->|Ha], Hb as [->|Hb]; trivial.
  - exfalso. apply Hnot. rewrite Hn. apply in_map. exact Hb.
  - exfalso. apply Hnot. rewrite <- Hn. apply in_map. exact Ha.
  - apply IH; assumption.
Qed.

Variable fulltext : string.
Variable inss : list Insertion.
Variable opts : option Opts.
Variable defs : option Defs.
Hypothesis Hopts : plain_opts opts.
Hypothesis Hok : Forall (ins_ok true) inss.
Hypothesis Hnd : NoDup (List.map ins_name inss).
Hypothesis Hgood :
  Forall (fun ins => plain_for defs (ins_name ins) /\ no_angle (ins_name ins)) inss.
Hypothesis Hin : Forall (ins_within (JS.strlen fulltext)) inss.

Lemma built_ok : map_ok (build inss).
Proof. exact (proj1 (fold_insert_spec true inss [] (ex_intro _ 0 I) Hok)). Qed.

Lemma built_covers x : covers (build inss) x <-> Exists (fun ins => inserted ins x) inss.
Proof.
  unfold build. rewrite (proj2 (fold_insert_spec true inss [] (ex_intro _ 0 I) Hok) x).
  rewrite covers_nil. tauto.
Qed.

Lemma built_layers x : origs_at (build inss) x = flat_map (fun ins => layer_of ins x) inss.
Proof.
  unfold build.
  destruct (fold_insert_layers inss [] (ex_intro _ 0 I) Hok) as [_ H].
  rewrite H. reflexivity.
Qed.

Lemma built_span seg : In seg (build inss) -> sstart seg < send seg.
Proof.
  intros Hs. destruct built_ok as [lo Hc].
  pose proof (chain_spans true lo _ Hc) as F. rewrite Forall_forall in F.
  exact (F seg Hs).
Qed.

Lemma built_origs seg x :
  In seg (build inss) -> inseg seg x ->
  origs seg = flat_map (fun ins => layer_of ins x) inss.
Proof.
  intros Hs Hx. destruct built_ok as [lo Hc].
  rewrite <- built_layers. symmetry. exact (origs_at_in lo _ Hc seg x Hs Hx).
Qed.

Lemma built_inside seg x :
  In seg (build inss) -> inseg seg x -> 0 <= x < JS.strlen fulltext.
Proof.
  intros Hs Hx.
  assert (Hc : covers (build inss) x) by (exists seg; split; assumption).
  apply built_covers in Hc. apply Exists_exists in Hc. destruct Hc as (ins & Hi & Hins).
  rewrite Forall_forall in Hin. exact (inserted_within _ ins x (Hin ins Hi) Hins).
Qed.

Lemma built_segments :
  Forall (fun seg => origs seg <> [] /\ Forall (good_layer defs) (origs seg)) (build inss).
Proof.
  apply Forall_forall. intros seg Hs.
  pose proof (built_span seg Hs) as Hsp.
  assert (Hx : inseg seg (sstart seg)) by (unfold inseg; lia).
  rewrite (built_origs seg _ Hs Hx). split.
  - assert (Hc : covers (build inss) (sstart seg)) by (exists seg; split; assumption).
    apply built_covers in Hc. apply Exists_exists in Hc. destruct Hc as (ins & Hi & Hins).
    intros E. apply (inserted_layer ins _ Hins).
    destruct (layer_of ins (sstart seg)) as [|o l] eqn:El; [reflexivity|exfalso].
    assert (Ho : In o (flat_map (fun ins => layer_of ins (sstart seg)) inss)).
    { apply in_flat_map. exists ins. split; [exact Hi|]. rewrite El. left. reflexivity. }
    rewrite E in Ho. destruct Ho.
  - apply Forall_forall. intros o Ho. apply in_flat_map in Ho.
    destruct Ho as (ins & Hi & Ho). unfold good_layer.
    rewrite (layer_name ins _ o Ho). rewrite Forall_forall in Hgood.
    exact (Hgood ins Hi).
Qed.

Lemma built_gaps : gaps_separate (build inss).
Proof.
  apply gaps_separate_intro. intros i a b Ha Hb Hgap oa ob Hoa Hob.
  destruct (same_name_seq oa ob) eqn:Es; [exfalso|reflexivity].
  unfold same_name_seq in Es. apply andb_true_iff in Es. destruct Es as [En Ek].
  apply String.eqb_eq in En. apply Z.eqb_eq in Ek.
  assert (Ia : In a (build inss)) by (eapply nth_error_In; exact Ha).
  assert (Ib : In b (build inss)) by (eapply nth_error_In; exact Hb).
  pose proof (built_span a Ia) as Sa. pose proof (built_span b Ib) as Sb.
  assert (Xa : inseg a (sstart a)) by (unfold inseg; lia).
  assert (Xb : inseg b (sstart b)) by (unfold inseg; lia).
  assert (Oa : In oa (flat_map (fun ins => layer_of ins (sstart a)) inss)).
  { rewrite <- (built_origs a _ Ia Xa). destruct (origs a); [discriminate|].
    simpl in Hoa. injection Hoa as ->. left. reflexivity. }
  assert (Ob : In ob (flat_map (fun ins => layer_of ins (sstart b)) inss)).
  { rewrite <- (built_origs b _ Ib Xb). destruct (origs b); [discriminate|].
    simpl in Hob. injection Hob as ->. left. reflexivity. }
  apply in_flat_map in Oa. destruct Oa as (ia & Iia & Oa).
  apply in_flat_map in Ob. destruct Ob as (ib & Iib & Ob).
  assert (ia = ib).
  { apply (same_name_same_ins inss); trivial.
    rewrite <- (layer_name ia _ oa Oa), <- (layer_name ib _ ob Ob). exact En. }
  subst ib.
  assert (Hg : inserted ia (send a))
    by (apply (layer_same ia (sstart a) (sstart b) oa ob Oa Ob Ek); lia).
  assert (Hc : covers (build inss) (send a))
    by (apply built_covers, Exists_exists; exists ia; split; assumption).
  destruct Hc as (c & Ic & Xc). unfold inseg in Xc.
  apply In_nth_error in Ic. destruct Ic as (j & Hj).
  pose proof (map_ok_pairwise _ built_ok) as Hp.
  destruct (Nat.lt_trichotomy j i) as [L|[E|L]].
  - destruct (Hp j i c a L Hj Ha) as (_ & ? & _). lia.
  - subst j. rewrite Ha in Hj. inversion Hj; subst c. lia.
  - destruct (Nat.eq_dec j (S i)) as [E|N].
    + subst j. rewrite Hb in Hj. inversion Hj; subst c. lia.
    + assert (L' : (S i < j)%nat) by lia.
      destruct (Hp (S i) j b c L' Hb Hj) as (_ & ? & _). lia.
Qed.

Lemma built_chain : chain false 0 (build inss).
Proof.
  destruct built_ok as [lo Hc]. apply (chain_relax lo _ Hc).
  apply Forall_forall. intros seg Hs. pose proof (built_span seg Hs).
  assert (Hx : inseg seg (sstart seg)) by (unfold inseg; lia).
  pose proof (built_inside seg _ Hs Hx). lia.
Qed.

Lemma built_ends : Forall (fun s => send s <= JS.strlen fulltext) (build inss).
Proof.
  apply Forall_forall. intros seg Hs. pose proof (built_span seg Hs).
  assert (Hx : inseg seg (send seg - 1)) by (unfold inseg; lia).
  pose proof (built_inside seg _ Hs Hx). lia.
Qed.

Lemma built_map_keeps_text_aux :
  exists h, SOT_map.markup fulltext (build inss) opts defs None = Some h
            /\ visible h = SOT_text.raw2HTML fulltext.
Proof.
  apply (markup_keeps_text_aux fulltext (build inss) opts defs Hopts).
  - exact built_segments.
  - exact built_chain.
  - exact built_ends.
  - exact built_gaps.
Qed.

(** A map built from the empty map by Segment-mode insertions under
    distinct set names, of non-empty ranges and of ordered, non-empty
    matches that lie within the text, rendered with the default [mark] tag:
    the output read without its tags is the escaped text. *)
Theorem built_map_keeps_text :
  exists h, SOT_map.markup fulltext (build inss) opts defs None = Some h
            /\ visible h = SOT_text.raw2HTML fulltext.
Proof.
  destruct built_map_keeps_text_aux as (h & E & V).
  exists h. split; [exact E|exact V].
Qed.

End BuiltMap.

(** ** Rendering the map of a pattern series *)

Section SeriesKeepsText.
Local Open Scope string_scope.

Lemma fold_flat {E} (f : TextMap -> E -> TextMap) (g : E -> list Insertion) :
  (forall m e, f m e = fold_left insert (g e) m) ->
  forall l m, fold_left f l m = fold_left insert (flat_map g l) m.
Proof.
  intros H. induction l as [|e l IH]; intros m; simpl; [reflexivity|].
  rewrite fold_left_app, <- H. apply IH.
Qed.

(** [buildmap] makes the insertions of [series_insertions], in order. *)
Lemma buildmap_build defs text map overlay :
  PatternSeries.buildmap defs text map overlay
  = fold_left insert (series_insertions defs text overlay) map.
Proof.
  unfold PatternSeries.buildmap, series_insertions. destruct overlay.
  - rewrite fold_left_app.
    unfold PatternSeries.buildrangesmap, PatternSeries.buildmatchesmap.
    rewrite (fold_flat
               (fun m (e : string * Def) =>
                  match drange (snd e) with
                  | Some r => addrange text r (fst e) true m
                  | None => m
                  end) (range_insertions text)).
    2:{ intros m e. unfold range_insertions. destruct (drange (snd e)); reflexivity. }
    rewrite (fold_flat
               (fun m (e : string * Def) =>
                  match regex (snd e) with
                  | Some rx => addmatches text rx (fst e) true m
                  | None => m
                  end) (matcher_insertions text)).
    2:{ intros m e. unfold matcher_insertions. destruct (regex (snd e)); reflexivity. }
    reflexivity.
  - apply fold_flat. intros m e. unfold mixed_insertions, range_insertions.
    destruct (regex (snd e)); [reflexivity|]. destruct (drange (snd e)); reflexivity.
Qed.

Lemma series_origin defs text overlay ins :
  In ins (series_insertions defs text overlay) ->
  exists e, In e defs /\ ins_name ins = fst e
    /\ ((exists rx, regex (snd e) = Some rx /\ ins = InsMatches text rx (fst e))
        \/ (exists r, drange (snd e) = Some r /\ ins = InsRange text r (fst e))).
Proof.
  assert (Hm : forall e, In ins (matcher_insertions text e) ->
            ins_name ins = fst e
            /\ exists rx, regex (snd e) = Some rx /\ ins = InsMatches text rx (fst e)).
  { intros e. unfold matcher_insertions. destruct (regex (snd e)) as [rx|]; [|intros []].
    intros [<-|[]]. split; [reflexivity|]. exists rx. split; reflexivity. }
  assert (Hr : forall e, In ins (range_insertions text e) ->
            ins_name ins = fst e
            /\ exists r, drange (snd e) = Some r /\ ins = InsRange text r (fst e)).
  { intros e. unfold range_insertions. destruct (drange (snd e)) as [r|]; [|intros []].
    intros [<-|[]]. split; [reflexivity|]. exists r. split; reflexivity. }
  unfold series_insertions. destruct overlay.
  - intros H. apply in_app_or in H. destruct H as [H|H];
      apply in_flat_map in H; destruct H as (e & He & Hi); exists e.
    + destruct (Hm e Hi) as [A B]. auto.
    + destruct (Hr e Hi) as [A B]. auto.
  - intros H. apply in_flat_map in H. destruct H as (e & He & Hi). exists e.
    unfold mixed_insertions in Hi. destruct (regex (snd e)) as [rx|] eqn:Er.
    + destruct Hi as [<-|[]]. split; [exact He|]. split; [reflexivity|].
      left. exists rx. split; reflexivity.
    + destruct (Hr e Hi) as [A B]. auto.
Qed.

Lemma nodup_map_inj {A B} (f : A -> B) (l : list A) a b :
  NoDup (List.map f l) -> In a l -> In b l -> f a = f b -> a = b.
Proof.
  induction l as [|c l IH]; intros Hnd Ha Hb Hn; [destruct Ha|].
  simpl in Hnd. inversion Hnd as [|? ? Hnot Hnd']; subst.
  destruct Ha as [->|Ha], Hb as [->|Hb]; trivial.
  - exfalso. apply Hnot. rewrite Hn. apply in_map. exact Hb.
  - exfalso. apply Hnot. rewrite <- Hn. apply in_map. exact Ha.
  - apply IH; assumption.
Qed.

Lemma lookup_nodup {A} (l : list (string * A)) k v :
  NoDup (List.map fst l) -> In (k, v) l -> lookup k l = Some v.
Proof.
  induction l as [|[k' v'] l IH]; intros Hnd Hin; [destruct Hin|].
  simpl in Hnd. inversion Hnd as [|? ? Hnot Hnd']; subst. cbn [lookup].
  destruct Hin as [E|Hin].
  - inversion E; subst. rewrite String.eqb_refl. reflexivity.
  - destruct (String.eqb k' k) eqn:Ek.
    + apply String.eqb_eq in Ek. subst k'. exfalso. apply Hnot.
      change k with (fst (k, v)). apply in_map. exact Hin.
    + apply IH; assumption.
Qed.

Lemma flat_names (g : string * Def -> list Insertion) (defs : Defs) :
  (forall e ins, In ins (g e) -> g e = [ins] /\ ins_name ins = fst e) ->
  NoDup (List.map fst defs) -> NoDup (List.map ins_name (flat_map g defs)).
Proof.
  intros Hg. induction defs as [|e defs IH]; simpl; intros Hnd; [constructor|].
  inversion Hnd as [|? ? Hnot Hnd']; subst. rewrite map_app.
  destruct (g e) as [|ins l] eqn:Eg; simpl; [apply IH; exact Hnd'|].
  destruct (Hg e ins) as [E1 E2]; [rewrite Eg; left; reflexivity|].
  rewrite Eg in E1. inversion E1; subst l. simpl. constructor; [|apply IH; exact Hnd'].
  intros Hin. apply in_map_iff in Hin. destruct Hin as (ins' & En & Hin').
  apply in_flat_map in Hin'. destruct Hin' as (e' & He' & Hi').
  destruct (Hg e' ins' Hi') as [_ En']. apply Hnot.
  rewrite <- E2, <- En, En'. apply in_map. exact He'.
Qed.

Lemma series_names defs text overlay :
  NoDup (List.map fst defs) ->
  Forall (fun e => def_fits text (snd e)) defs ->
  NoDup (List.map ins_name (series_insertions defs text overlay)).
Proof.
  intros Hnd Hfit.
  assert (Gm : forall e ins, In ins (matcher_insertions text e) ->
            matcher_insertions text e = [ins] /\ ins_name ins = fst e).
  { intros e ins. unfold matcher_insertions. destruct (regex (snd e)); [|intros []].
    intros [<-|[]]. split; reflexivity. }
  assert (Gr : forall e ins, In ins (range_insertions text e) ->
            range_insertions text e = [ins] /\ ins_name ins = fst e).
  { intros e ins. unfold range_insertions. destruct (drange (snd e)); [|intros []].
    intros [<-|[]]. split; reflexivity. }
  unfold series_insertions. destruct overlay.
  - rewrite map_app. apply NoDup_app.
    + apply flat_names; assumption.
    + apply flat_names; assumption.
    + intros a H1 H2.
      apply in_map_iff in H1. destruct H1 as (i1 & N1 & H1).
      apply in_flat_map in H1. destruct H1 as (e1 & He1 & Hi1).
      apply in_map_iff in H2. destruct H2 as (i2 & N2 & H2).
      apply in_flat_map in H2. destruct H2 as (e2 & He2 & Hi2).
      destruct (Gm e1 i1 Hi1) as [_ A1]. destruct (Gr e2 i2 Hi2) as [_ A2].
      assert (e1 = e2) by (apply (nodup_map_inj fst defs); trivial; congruence).
      subst e2. rewrite Forall_forall in Hfit. specialize (Hfit e1 He1).
      unfold def_fits in Hfit. unfold matcher_insertions in Hi1.
      unfold range_insertions in Hi2.
      destruct (regex (snd e1)); [|destruct Hi1].
      destruct Hfit as [Hn _]. rewrite Hn in Hi2. destruct Hi2.
  - apply flat_names; [|exact Hnd]. intros e ins. unfold mixed_insertions.
    destruct (regex (snd e)); [|apply Gr]. intros [<-|[]]. split; reflexivity.
Qed.

(** A pattern series whose definitions name no tag and no attributes,
    under names without angle brackets, each a matcher with ordered,
    non-empty matches within the text or a non-empty range within the text:
    [markup] of a text, from the empty map and with no tag named in [opts],
    returns markup that reads, with the tags taken out, as the escaped
    text.  Holds for both orders of [overlayranges]. *)
Theorem series_markup_keeps_text defs text opts :
  o_htmltag opts = None ->
  NoDup (List.map fst defs) ->
  Forall (fun e => no_angle (fst e) /\ plain_def (snd e) /\ def_fits text (snd e)) defs ->
  exists h, PatternSeries.markup defs None text [] opts = Some h
            /\ visible h = SOT_text.raw2HTML text.
Proof.
  intros Ho Hnd Hall. unfold PatternSeries.markup. rewrite buildmap_build.
  assert (Hfit : Forall (fun e => def_fits text (snd e)) defs)
    by (eapply Forall_impl; [|exact Hall]; simpl; tauto).
  rewrite Forall_forall in Hall.
  apply (built_map_keeps_text_aux text (series_insertions defs text (overlayranges opts))
           (Some opts) (Some defs)).
  - exact Ho.
  - apply Forall_forall. intros ins Hi.
    destruct (series_origin _ _ _ _ Hi) as (e & He & _ & [(rx & Er & ->)|(r & Er & ->)]);
      destruct (Hall e He) as (_ & _ & Hf); unfold def_fits in Hf; simpl.
    + rewrite Er in Hf. tauto.
    + destruct (regex (snd e)); [destruct Hf as [Hn _]; congruence|].
      rewrite Er in Hf. tauto.
  - apply series_names; assumption.
  - apply Forall_forall. intros ins Hi.
    destruct (series_origin _ _ _ _ Hi) as (e & He & -> & _).
    destruct (Hall e He) as (Hna & Hp & _). split; [|exact Hna].
    exists (snd e). split; [|exact Hp]. apply lookup_nodup; [exact Hnd|].
    destruct e; exact He.
  - apply Forall_forall. intros ins Hi.
    destruct (series_origin _ _ _ _ Hi) as (e & He & _ & [(rx & Er & ->)|(r & Er & ->)]);
      destruct (Hall e He) as (_ & _ & Hf); unfold def_fits in Hf; simpl.
    + rewrite Er in Hf. tauto.
    + destruct (regex (snd e)); [destruct Hf as [Hn _]; congruence|].
      rewrite Er in Hf. tauto.
Qed.

End SeriesKeepsText.

Section KeepsTextExamples.
Local Open Scope string_scope.

Lemma built_map_keeps_text_witness :
  exists h,
    SOT_map.markup "a<b&c>d"
      (build [InsMatches "a<b&c>d" (matcher_of [(0, 2); (3, 5)]) "w";
              InsRange "a<b&c>d" (mkRange 6 1) "sel"]) None None None = Some h
    /\ visible h = SOT_text.raw2HTML "a<b&c>d".
Proof.
  apply (built_map_keeps_text "a<b&c>d"
           [InsMatches "a<b&c>d" (matcher_of [(0, 2); (3, 5)]) "w";
            InsRange "a<b&c>d" (mkRange 6 1) "sel"] None None).
  - exact I.
  - repeat (apply Forall_cons || apply Forall_nil); simpl; lia.
  - simpl. repeat (apply NoDup_cons || apply NoDup_nil); simpl; intuition discriminate.
  - repeat (apply Forall_cons || apply Forall_nil); simpl; intuition discriminate.
  - repeat (apply Forall_cons || apply Forall_nil); simpl;
      repeat (apply Forall_cons || apply Forall_nil);
      vm_compute; intuition discriminate.
Defined.

Lemma series_markup_keeps_text_witness :
  exists h,
    PatternSeries.markup
      [("w", matcher_def (matcher_of [(0, 2); (3, 5)])); ("sel", range_def (mkRange 6 1))]
      None "a<b&c>d" [] PatternSeries.default_opts = Some h
    /\ visible h = SOT_text.raw2HTML "a<b&c>d".
Proof.
  apply (series_markup_keeps_text
           [("w", matcher_def (matcher_of [(0, 2); (3, 5)]));
            ("sel", range_def (mkRange 6 1))] "a<b&c>d" PatternSeries.default_opts).
  - reflexivity.
  - simpl. repeat (apply NoDup_cons || apply NoDup_nil); simpl; intuition discriminate.
  - repeat (apply Forall_cons || apply Forall_nil); unfold def_fits, plain_def; simpl;
      (repeat split; trivial; try discriminate; try lia);
      repeat (apply Forall_cons || apply Forall_nil);
      vm_compute; intuition discriminate.
Defined.

End KeepsTextExamples.

(** ** The nesting of the output *)

Section ReadingNesting.
Local Open Scope string_scope.

Lemma ctl_after_app a : forall ctl b,
  ctl_after ctl (a ++ b) = ctl_after (ctl_after ctl a) b.
Proof. induction a as [|c a IH]; intros ctl b; simpl; [reflexivity|apply IH]. Qed.

Lemma stack_after_app a : forall ctl st b,
  stack_after ctl st (a ++ b) = stack_after (ctl_after ctl a) (stack_after ctl st a) b.
Proof. induction a as [|c a IH]; intros ctl st b; simpl; [reflexivity|apply IH]. Qed.

Lemma read_html_app a : forall ctl st b,
  read_html ctl st (a ++ b)
  = (read_html ctl st a ++ read_html (ctl_after ctl a) (stack_after ctl st a) b)%list.
Proof.
  induction a as [|c a IH]; intros ctl st b; simpl; [reflexivity|].
  rewrite IH, app_assoc. reflexivity.
Qed.

Lemma annot_app names a b : annot names (a ++ b) = (annot names a ++ annot names b)%list.
Proof.
  unfold annot. induction a as [|c a IH]; simpl; [reflexivity|]. rewrite IH. reflexivity.
Qed.

(** Text without angle brackets is read as it stands. *)
Lemma read_text s : no_angle s -> forall st,
  ctl_after COut s = COut /\ stack_after COut st s = st
  /\ read_html COut st s = annot (rev st) s.
Proof.
  induction s as [|c s IH]; intros H st; [repeat split|].
  destruct H as (H1 & H2 & H3). cbn [ctl_after stack_after read_html cnext snext].
  replace (Ascii.eqb c "<") with false by (symmetry; apply Ascii.eqb_neq; exact H1).
  destruct (IH H3 st) as (A & B & D). rewrite A, B, D. repeat split.
Qed.

(** A word of a class list is gathered whole. *)
Lemma read_word w : class_word w -> forall acc st,
  ctl_after (CName acc) w = CName (acc ++ w)
  /\ stack_after (CName acc) st w = st
  /\ read_html (CName acc) st w = [].
Proof.
  induction w as [|c w IH]; intros H acc st.
  - rewrite append_nil_r. repeat split.
  - destruct H as (H1 & H2 & H3 & H4 & H5).
    cbn [ctl_after stack_after read_html cnext snext].
    replace (Ascii.eqb c ">") with false by (symmetry; apply Ascii.eqb_neq; exact H2).
    replace (Ascii.eqb c " ") with false by (symmetry; apply Ascii.eqb_neq; exact H3).
    replace (Ascii.eqb c dqc) with false by (symmetry; apply Ascii.eqb_neq; exact H4).
    cbn [orb app]. destruct (IH H5 (acc ++ String c "") st) as (A & B & D).
    rewrite A, B, D. rewrite append_assoc. repeat split.
Qed.

Lemma class_word_no_angle w : class_word w -> no_angle w.
Proof.
  induction w as [|c w IH]; simpl; [trivial|]. intros (H1 & H2 & _ & _ & H5). auto.
Qed.

(** *** Positions that the reader passes over *)

Lemma inert_R ctl c :
  inert ctl c = true ->
  cnext ctl "R" = cnext ctl c /\ (forall st, snext ctl st "R" = snext ctl st c)
  /\ inert ctl "R" = true /\ ctl <> COut.
Proof.
  destruct ctl; simpl; try discriminate; intros H.
  - apply andb_true_iff in H. destruct H as [H1 H2].
    apply negb_true_iff in H1. apply negb_true_iff in H2. rewrite H1, H2.
    repeat split; discriminate.
  - apply negb_true_iff in H. rewrite H. repeat split; discriminate.
Qed.

Lemma free_at_app a : forall ctl s k,
  free_at (String.length a + k) ctl (a ++ s) = free_at k (ctl_after ctl a) s.
Proof. induction a as [|c a IH]; intros ctl s k; simpl; [reflexivity|apply IH]. Qed.

Lemma free_at_length s : forall n ctl,
  free_at n ctl s = true -> (n < String.length s)%nat.
Proof.
  induction s as [|c s IH]; intros n ctl H; [simpl in H; discriminate|].
  destruct n as [|n]; simpl in *; [lia|]. apply IH in H. lia.
Qed.

(** Putting [R] at such a position changes neither what the reader finds
    nor the other positions. *)
Lemma put_R_at_reads s : forall n ctl,
  free_at n ctl s = true ->
  ctl_after ctl (put_R_at n s) = ctl_after ctl s
  /\ (forall st, stack_after ctl st (put_R_at n s) = stack_after ctl st s
                 /\ read_html ctl st (put_R_at n s) = read_html ctl st s)
  /\ forall m, free_at m ctl (put_R_at n s) = free_at m ctl s.
Proof.
  induction s as [|c s IH]; intros n ctl H; [simpl in H; discriminate|].
  destruct n as [|n]; cbn [free_at put_R_at] in *.
  - destruct (inert_R ctl c H) as (E1 & E2 & E3 & E4).
    cbn [ctl_after stack_after read_html]. rewrite E1.
    split; [reflexivity|]. split.
    + intros st. rewrite E2. split; [reflexivity|].
      destruct ctl; try reflexivity. congruence.
    + intros [|m]; cbn [free_at]; [congruence|reflexivity].
  - destruct (IH n (cnext ctl c) H) as (A & B & D).
    cbn [ctl_after stack_after read_html]. split; [exact A|]. split.
    + intros st. destruct (B (snext ctl st c)) as [B1 B2]. rewrite B1, B2. auto.
    + intros [|m]; cbn [free_at]; [reflexivity|apply D].
Qed.

Lemma slice_put_R_free piece pos :
  0 <= pos -> free_at (Z.to_nat pos) COut piece = true ->
  JS.slice piece 0 pos ++ "R" ++ JS.slice_from piece (pos + 1)
  = put_R_at (Z.to_nat pos) piece.
Proof.
  intros H0 Hin. apply free_at_length in Hin.
  destruct (string_split piece pos) as (a & r & E & La); [unfold JS.strlen; lia|].
  subst piece. destruct r as [|c b].
  { rewrite append_nil_r in Hin. unfold JS.strlen in La. lia. }
  rewrite <- La at 1. rewrite slice_prefix.
  replace (a ++ String c b) with ((a ++ String c "") ++ b) at 1
    by (rewrite append_assoc; reflexivity).
  replace (pos + 1) with (JS.strlen (a ++ String c ""))
    by (rewrite strlen_append, La; reflexivity).
  rewrite slice_suffix.
  replace (Z.to_nat pos) with (String.length a) by (unfold JS.strlen in La; lia).
  rewrite put_R_at_app. reflexivity.
Qed.

(** *** Lists of pieces *)

Lemma htmlstring_cons p l : SOT_map.htmlstring (p :: l) = p ++ SOT_map.htmlstring l.
Proof.
  change (p :: l) with ([p] ++ l)%list. rewrite htmlstring_app. reflexivity.
Qed.

Lemma htmlstring_rclosed l : Forall rclosed l -> rclosed (SOT_map.htmlstring l).
Proof.
  induction l as [|p l IH]; intros H; [reflexivity|].
  inversion H as [|? ? Hp Hl]; subst. rewrite htmlstring_cons.
  unfold rclosed in *. rewrite ctl_after_app, Hp. exact (IH Hl).
Qed.

Lemma read_pieces_app l1 l2 st :
  Forall rclosed l1 ->
  stack_after COut st (SOT_map.htmlstring (l1 ++ l2)%list)
  = stack_after COut (stack_after COut st (SOT_map.htmlstring l1)) (SOT_map.htmlstring l2)
  /\ read_html COut st (SOT_map.htmlstring (l1 ++ l2)%list)
     = (read_html COut st (SOT_map.htmlstring l1)
        ++ read_html COut (stack_after COut st (SOT_map.htmlstring l1))
             (SOT_map.htmlstring l2))%list.
Proof.
  intros H. pose proof (htmlstring_rclosed l1 H) as Hc. unfold rclosed in Hc.
  rewrite htmlstring_app, stack_after_app, read_html_app, Hc. split; reflexivity.
Qed.

(** Replacing a piece by one that reads the same. *)
Lemma set_piece_reads html k p p' :
  nth_error html k = Some p ->
  ctl_after COut p' = ctl_after COut p ->
  (forall st, stack_after COut st p' = stack_after COut st p
              /\ read_html COut st p' = read_html COut st p) ->
  Forall rclosed html ->
  Forall rclosed (SOT_map.set_piece html k p')
  /\ forall st,
       stack_after COut st (SOT_map.htmlstring (SOT_map.set_piece html k p'))
       = stack_after COut st (SOT_map.htmlstring html)
       /\ read_html COut st (SOT_map.htmlstring (SOT_map.set_piece html k p'))
          = read_html COut st (SOT_map.htmlstring html).
Proof.
  intros Hk Hs Hv Hc. destruct (nth_error_split html k Hk) as (l & r & E & Ll).
  subst html k. rewrite set_piece_middle.
  apply Forall_app in Hc. destruct Hc as [Hl Hr].
  inversion Hr as [|? ? Hp Hr']; subst.
  assert (Hp' : rclosed p') by (unfold rclosed in *; congruence).
  split.
  - apply Forall_app. split; [exact Hl|]. constructor; assumption.
  - intros st.
    destruct (read_pieces_app l (p' :: r) st Hl) as [A1 A2].
    destruct (read_pieces_app l (p :: r) st Hl) as [B1 B2].
    rewrite A1, A2, B1, B2. rewrite !htmlstring_cons.
    rewrite !stack_after_app, !read_html_app. unfold rclosed in Hp, Hp'.
    rewrite Hp, Hp'.
    destruct (Hv (stack_after COut st (SOT_map.htmlstring l))) as [V1 V2].
    rewrite V1, V2. split; reflexivity.
Qed.

End ReadingNesting.

Section NestingRender.
Local Open Scope string_scope.
Variable fulltext : string.
Variable map : TextMap.
Variable opts : option Opts.
Variable defs : option Defs.
Hypothesis Hopts : plain_opts opts.

Lemma push_one_reads html p :
  Forall rclosed html ->
  stack_of (html ++ [p])%list = stack_after COut (stack_of html) p
  /\ reading_of (html ++ [p])%list
     = (reading_of html ++ read_html COut (stack_of html) p)%list.
Proof.
  intros H. unfold stack_of, reading_of.
  destruct (read_pieces_app html [p] [] H) as [A B]. rewrite A, B.
  rewrite htmlstring_one. split; reflexivity.
Qed.

Lemma push_reads html p :
  Forall rclosed html ->
  stack_of (html ++ (if JS.nonempty p then [p] else []))%list
  = stack_after COut (stack_of html) p
  /\ reading_of (html ++ (if JS.nonempty p then [p] else []))%list
     = (reading_of html ++ read_html COut (stack_of html) p)%list.
Proof.
  intros H. destruct (JS.nonempty p) eqn:E.
  - apply push_one_reads. exact H.
  - rewrite (nonempty_false _ E), !app_nil_r. split; reflexivity.
Qed.

Lemma rclosed_opt p :
  rclosed p -> Forall rclosed (if JS.nonempty p then [p] else []).
Proof. intros H. destruct (JS.nonempty p); [constructor; [exact H|constructor]|constructor]. Qed.

Lemma no_angle_rclosed p : no_angle p -> rclosed p.
Proof. intros H. exact (proj1 (read_text p H [])). Qed.

(** The opening tag of a layer: [P], the space that [R] may replace, and
    [Q]; the position recorded is that of the space, and the tag opens an
    element under the name of the layer. *)
Lemma tagstart_reads rg layer mi j pi offset sts :
  good_class defs layer ->
  exists P Q,
    SOT_map._tagstart fulltext map opts defs None rg layer mi j pi offset sts
    = Some (P ++ " " ++ Q,
            assign (setname layer)
              {| pos := offset + JS.strlen P; pieceindex := pi; st_j := j; st_seg := rg |}
              sts)
    /\ JS.nonempty P = true
    /\ ctl_after COut (P ++ " " ++ Q) = COut
    /\ (forall st, stack_after COut st (P ++ " " ++ Q) = setname layer :: st
                   /\ read_html COut st (P ++ " " ++ Q) = [])
    /\ free_at (String.length P) COut (P ++ " " ++ Q) = true.
Proof.
  intros [Hd Hn]. unfold SOT_map._tagstart.
  rewrite (tag_mark opts defs Hopts layer false Hd).
  set (L := if (ostart (orange layer) =? rstart rg)%Z then " L" else "").
  set (cls := setname layer ++ L).
  assert (E : match defs with
              | Some ds =>
                  match lookup (setname layer) ds with
                  | Some d => match htmlattrs d with
                              | Some add =>
                                  SOT_map._addattrs fulltext [("class", Some cls)] add
                                    (orange layer)
                              | None => [("class", Some cls)]
                              end
                  | None => [("class", Some cls)]
                  end
              | None => [("class", Some cls)]
              end = [("class", Some cls)]).
  { destruct defs as [ds|]; [|reflexivity].
    destruct Hd as (d & Hl & _ & _ & Ha). rewrite Hl, Ha. reflexivity. }
  rewrite E. cbn [SOT_map._tagstart_attrs JS.truthy]. rewrite String.eqb_refl.
  cbv beta iota zeta.
  set (t1 := ("<" ++ "mark") ++ " " ++ "class"
             ++ (if JS.nonempty cls then "=" ++ JS.dq ++ cls else "")).
  set (X := if JS.nonempty cls then JS.dq else "").
  exists (t1 ++ " "), (X ++ ">").
  assert (E1 : ((t1 ++ "  ") ++ X) ++ ">" = (t1 ++ " ") ++ " " ++ X ++ ">").
  { change "  " with (" " ++ " "). rewrite !append_assoc. reflexivity. }
  assert (E2 : (offset + JS.strlen (t1 ++ "  ") - 1 = offset + JS.strlen (t1 ++ " "))%Z).
  { rewrite !strlen_append. change (JS.strlen "  ") with 2%Z.
    change (JS.strlen " ") with 1%Z. lia. }
  split; [rewrite E1, E2; reflexivity|].
  split; [reflexivity|].
  assert (HL : L = " L" \/ L = "")
    by (unfold L; destruct (ostart (orange layer) =? rstart rg)%Z; auto).
  unfold t1, X, cls. clearbody L. clear E E1 E2 t1 X cls.
  destruct (setname layer) as [|c0 nm] eqn:En.
  - destruct HL as [-> | ->]; repeat split.
  - set (name := String c0 nm) in *.
    assert (Hne : JS.nonempty (name ++ L) = true) by reflexivity.
    rewrite Hne.
    remember ("<mark class=" ++ JS.dq) as A eqn:EA.
    assert (Es : forall tail,
              (("<" ++ "mark") ++ " " ++ "class" ++ "=" ++ JS.dq ++ name ++ L) ++ tail
              = A ++ name ++ (L ++ tail)).
    { intros tail. rewrite EA, !append_assoc. reflexivity. }
    assert (C0 : ctl_after COut A = CName "") by (rewrite EA; reflexivity).
    assert (D0 : forall st, stack_after COut st A = st /\ read_html COut st A = [])
      by (intros st; rewrite EA; split; reflexivity).
    assert (Hmid : forall tail st,
              ctl_after COut (A ++ name ++ tail) = ctl_after (CName name) tail
              /\ stack_after COut st (A ++ name ++ tail)
                 = stack_after (CName name) st tail
              /\ read_html COut st (A ++ name ++ tail)
                 = read_html (CName name) st tail).
    { intros tail st. destruct (read_word name Hn "" st) as (W1 & W2 & W3).
      destruct (D0 st) as [D1 D2]. cbn [String.append] in W1.
      rewrite (ctl_after_app A), (stack_after_app A), (read_html_app A), C0, D1, D2.
      rewrite (ctl_after_app name), (stack_after_app name), (read_html_app name).
      rewrite W1, W2, W3. repeat split. }
    split; [|split].
    + replace ((((("<" ++ "mark") ++ " " ++ "class" ++ "=" ++ JS.dq ++ name ++ L) ++ " ")
                ++ " " ++ JS.dq ++ ">"))
        with ((("<" ++ "mark") ++ " " ++ "class" ++ "=" ++ JS.dq ++ name ++ L)
              ++ (" " ++ " " ++ JS.dq ++ ">"))
        by (rewrite !append_assoc; reflexivity).
      rewrite Es. rewrite (proj1 (Hmid _ [])).
      destruct HL as [-> | ->]; reflexivity.
    + intros st.
      replace ((((("<" ++ "mark") ++ " " ++ "class" ++ "=" ++ JS.dq ++ name ++ L) ++ " ")
                ++ " " ++ JS.dq ++ ">"))
        with ((("<" ++ "mark") ++ " " ++ "class" ++ "=" ++ JS.dq ++ name ++ L)
              ++ (" " ++ " " ++ JS.dq ++ ">"))
        by (rewrite !append_assoc; reflexivity).
      rewrite Es. destruct (Hmid (L ++ " " ++ " " ++ JS.dq ++ ">") st) as (_ & M2 & M3).
      rewrite M2, M3. destruct HL as [-> | ->]; split; reflexivity.
    + rewrite <- (Nat.add_0_r (String.length _)). rewrite free_at_app.
      rewrite Es. rewrite (proj1 (Hmid _ [])).
      destruct HL as [-> | ->]; reflexivity.
Qed.

Lemma layersstart_loop_reads seg mi pi : forall layers j tags sts,
  Forall (good_class defs) layers -> rclosed tags ->
  exists tags' sts',
    SOT_map._layersstart_loop fulltext map opts defs None seg layers mi j pi tags sts
    = Some (tags', sts')
    /\ rclosed tags'
    /\ (forall st,
          stack_after COut st tags'
          = (rev (List.map setname layers) ++ stack_after COut st tags)%list
          /\ read_html COut st tags' = read_html COut st tags)
    /\ (layers = [] -> tags' = tags)
    /\ (layers <> [] -> JS.nonempty tags' = true)
    /\ forall name e, lookup name sts' = Some e ->
         lookup name sts = Some e
         \/ (pieceindex e = pi /\ 0 <= pos e
             /\ free_at (Z.to_nat (pos e)) COut tags' = true).
Proof.
  induction layers as [|l layers IH]; intros j tags sts Hg Ht.
  - exists tags, sts. split; [reflexivity|]. split; [exact Ht|].
    split; [intros st; split; reflexivity|]. split; [reflexivity|].
    split; [congruence|]. auto.
  - inversion Hg as [|? ? Hl Hls]; subst. cbn [SOT_map._layersstart_loop].
    destruct (tagstart_reads (range seg) l mi j pi (JS.strlen tags) sts Hl)
      as (P & Q & E & Pn & Tc & Ts & Tf).
    rewrite E. unfold rclosed in Ht.
    assert (Ht1 : rclosed (tags ++ P ++ " " ++ Q))
      by (unfold rclosed; rewrite ctl_after_app, Ht; exact Tc).
    destruct (IH (S j) (tags ++ P ++ " " ++ Q)
                (assign (setname l)
                   {| pos := JS.strlen tags + JS.strlen P; pieceindex := pi; st_j := j;
                      st_seg := range seg |} sts) Hls Ht1)
      as (tags' & sts' & E2 & A & B & B0 & _ & D).
    exists tags', sts'. split; [exact E2|]. split; [exact A|].
    assert (Hmore : exists more, tags' = (tags ++ P ++ " " ++ Q) ++ more).
    { clear - E2. revert E2. generalize (tags ++ P ++ " " ++ Q).
      generalize (assign (setname l)
                    {| pos := JS.strlen tags + JS.strlen P; pieceindex := pi; st_j := j;
                       st_seg := range seg |} sts).
      generalize (S j). induction layers as [|x ls IHl]; intros k s0 t0 H.
      - simpl in H. inversion H; subst. exists "". symmetry. apply append_nil_r.
      - cbn [SOT_map._layersstart_loop] in H.
        destruct (SOT_map._tagstart fulltext map opts defs None (range seg) x mi k pi
                    (JS.strlen t0) s0) as [[t u]|]; [|discriminate].
        destruct (IHl _ _ _ H) as (more & Em). exists (t ++ more).
        rewrite Em, append_assoc. reflexivity. }
    destruct Hmore as (more & Em).
    split; [|split; [discriminate|split]].
    + intros st. destruct (B st) as [B1 B2]. rewrite B1, B2.
      rewrite stack_after_app, read_html_app, Ht.
      destruct (Ts (stack_after COut st tags)) as [T1 T2]. rewrite T1, T2.
      cbn [List.map rev]. rewrite <- app_assoc, app_nil_r. split; reflexivity.
    + intros _. rewrite Em, !append_assoc. apply nonempty_app_r.
      apply nonempty_app_l. exact Pn.
    + intros name e He. apply D in He. destruct He as [He|He]; [|right; exact He].
      rewrite lookup_assign in He.
      destruct (String.eqb (setname l) name); [|left; exact He].
      inversion He; subst e. right. cbn [pieceindex pos].
      pose proof (strlen_nonneg tags). pose proof (strlen_nonneg P).
      split; [reflexivity|]. split; [lia|].
      assert (Et : tags' = tags ++ ((P ++ " " ++ Q) ++ more)).
      { rewrite Em, !append_assoc. reflexivity. }
      rewrite Et.
      replace (Z.to_nat (JS.strlen tags + JS.strlen P))
        with (String.length tags + String.length P)%nat by (unfold JS.strlen; lia).
      rewrite free_at_app, Ht.
      assert (Hpre : forall a b n, free_at n COut a = true -> free_at n COut (a ++ b) = true).
      { clear. intros a b n. generalize COut. revert n.
        induction a as [|c a IHa]; intros n ctl Hf; [simpl in Hf; discriminate|].
        destruct n as [|n]; simpl in *; [exact Hf|apply IHa; exact Hf]. }
      apply Hpre. exact Tf.
Qed.

Lemma layersend_loop_reads : forall layers t,
  Forall (good_class defs) layers -> rclosed t ->
  exists t',
    SOT_map._layersend_loop opts defs layers t = Some t'
    /\ rclosed t'
    /\ (forall st,
          stack_after COut st t' = skipn (List.length layers) (stack_after COut st t)
          /\ read_html COut st t' = read_html COut st t)
    /\ (layers = [] -> t' = t)
    /\ (layers <> [] -> JS.nonempty t' = true).
Proof.
  induction layers as [|l layers IH]; intros t Hg Ht.
  - exists t. split; [reflexivity|]. split; [exact Ht|].
    split; [intros st; split; reflexivity|]. split; [reflexivity|congruence].
  - inversion Hg as [|? ? [Hl _] Hls]; subst. cbn [SOT_map._layersend_loop].
    rewrite (tagend_mark opts defs Hopts l Hl). unfold rclosed in Ht.
    assert (Ht1 : rclosed (t ++ "</mark>"))
      by (unfold rclosed; rewrite ctl_after_app, Ht; reflexivity).
    destruct (IH (t ++ "</mark>") Hls Ht1) as (t' & E & A & B & _ & _).
    exists t'. split; [exact E|]. split; [exact A|].
    split; [|split; [discriminate|]].
    + intros st. destruct (B st) as [B1 B2]. rewrite B1, B2.
      rewrite stack_after_app, read_html_app, Ht.
      change (stack_after COut (stack_after COut st t) "</mark>")
        with (tl (stack_after COut st t)).
      change (read_html COut (stack_after COut st t) "</mark>")
        with (@nil (ascii * list string)).
      rewrite app_nil_r. split; [|reflexivity].
      destruct (stack_after COut st t) as [|x S]; [destruct (List.length layers)|];
        reflexivity.
    + intros _.
      assert (Hpre : forall ls u, JS.nonempty u = true ->
                forall u', SOT_map._layersend_loop opts defs ls u = Some u' ->
                           JS.nonempty u' = true).
      { induction ls as [|x ls IHl]; intros u Hu u' Hu'.
        - simpl in Hu'. inversion Hu'; subst. exact Hu.
        - cbn [SOT_map._layersend_loop] in Hu'.
          destruct (SOT_map._tagend opts defs x) as [ex|]; [|discriminate].
          apply (IHl (u ++ ex)); [apply nonempty_app_l; exact Hu|exact Hu']. }
      apply (Hpre layers (t ++ "</mark>")); [apply nonempty_app_r; reflexivity|exact E].
Qed.

Lemma starts_free_app html l sts :
  starts_free html sts -> starts_free (html ++ l)%list sts.
Proof.
  intros H name e He. destruct (H name e He) as (p & Hp & A & B).
  exists p. split; [|auto]. rewrite nth_error_app1; [exact Hp|].
  apply nth_error_Some. congruence.
Qed.

Lemma setlayerright_loop_reads seg : forall layers html sts,
  starts_free html sts -> Forall rclosed html ->
  exists html' sts',
    SOT_map._setlayerright_loop layers seg html sts = Some (html', sts')
    /\ starts_free html' sts' /\ Forall rclosed html'
    /\ stack_of html' = stack_of html /\ reading_of html' = reading_of html.
Proof.
  induction layers as [|l layers IH]; intros html sts Hv Hc.
  - exists html, sts. auto.
  - cbn [SOT_map._setlayerright_loop].
    destruct (lookup (setname l) sts) as [st|] eqn:El; [|apply IH; assumption].
    destruct (oend (orange l) =? send seg)%Z; [|apply IH; assumption].
    destruct (Hv _ _ El) as (piece & Hp & H0 & Hin). rewrite Hp.
    rewrite (slice_put_R_free piece (pos st) H0 Hin).
    destruct (put_R_at_reads piece (Z.to_nat (pos st)) COut Hin) as (K1 & K2 & K3).
    destruct (set_piece_reads html (pieceindex st) piece
                (put_R_at (Z.to_nat (pos st)) piece) Hp K1 K2 Hc) as [Hc' Hrd].
    destruct (IH (SOT_map.set_piece html (pieceindex st)
                    (put_R_at (Z.to_nat (pos st)) piece))
                (delete (setname l) sts)) as (html' & sts' & E & A & B & D1 & D2).
    + intros name e He. apply lookup_delete_some in He.
      destruct (Hv name e He) as (q & Hq & Q0 & Qin).
      rewrite nth_error_set_piece.
      destruct (Nat.eqb (pieceindex e) (pieceindex st)) eqn:Ek.
      * apply Nat.eqb_eq in Ek. rewrite Ek in Hq. rewrite Hp in Hq.
        inversion Hq; subst q. rewrite Hp.
        eexists. split; [reflexivity|]. split; [exact Q0|]. rewrite K3. exact Qin.
      * exists q. auto.
    + exact Hc'.
    + exists html', sts'. split; [exact E|]. split; [exact A|]. split; [exact B|].
      unfold stack_of, reading_of in *. destruct (Hrd []) as [R1 R2].
      rewrite D1, D2, R1, R2. split; reflexivity.
Qed.

Lemma skipn_app_exact {A} (a b : list A) : skipn (List.length a) (a ++ b)%list = b.
Proof. induction a as [|x a IH]; simpl; [reflexivity|exact IH]. Qed.

Lemma skipn_length_rev {A} (l : list A) d :
  skipn (List.length (skipn d l)) (rev l) = rev (firstn d l).
Proof.
  rewrite <- (firstn_skipn d l) at 2. rewrite rev_app_distr.
  rewrite <- (length_rev (skipn d l)). apply skipn_app_exact.
Qed.

Lemma annot_nil names : annot names "" = [].
Proof. reflexivity. Qed.

(** One turn of the main loop: the gap is read bare, the text of the segment
    inside the elements of its layers, and the elements left open are those
    of the layers shared with the next segment. *)
Lemma markup_step_reads prevseg seg nextseg i st K E :
  Forall (good_class defs) (origs seg) ->
  0 <= SOT_map.n st <= sstart seg -> sstart seg <= send seg ->
  send seg <= JS.strlen fulltext ->
  (SOT_map.n st < sstart seg -> SOT_map.text st = "" /\ K = []) ->
  K = rev (List.map setname (firstn (SOT_map._difdepth seg prevseg) (origs seg))) ->
  Forall rclosed (SOT_map.html st) -> no_angle (SOT_map.text st) ->
  starts_free (SOT_map.html st) (SOT_map.starts st) ->
  stack_of (SOT_map.html st) = K ->
  (reading_of (SOT_map.html st) ++ annot (rev K) (SOT_map.text st))%list = E ->
  exists st',
    SOT_map.markup_step fulltext map opts defs None prevseg seg nextseg i st = Some st'
    /\ SOT_map.n st' = send seg
    /\ Forall rclosed (SOT_map.html st') /\ no_angle (SOT_map.text st')
    /\ starts_free (SOT_map.html st') (SOT_map.starts st')
    /\ stack_of (SOT_map.html st')
       = rev (List.map setname (firstn (SOT_map._difdepth seg nextseg) (origs seg)))
    /\ (reading_of (SOT_map.html st')
        ++ annot (rev (stack_of (SOT_map.html st'))) (SOT_map.text st'))%list
       = (E ++ annot [] (SOT_text.raw2HTML
                           (JS.slice fulltext (SOT_map.n st) (sstart seg)))
            ++ annot (layer_names seg)
                 (SOT_text.raw2HTML (JS.slice fulltext (sstart seg) (send seg))))%list
    /\ ((SOT_map._difdepth seg nextseg < List.length (origs seg))%nat ->
        SOT_map.text st' = "").
Proof.
  intros Hg Hn Hse Hlen Hgap HS Hc Htx Hv Hst Hrd.
  set (gapE := SOT_text.raw2HTML (JS.slice fulltext (SOT_map.n st) (sstart seg))).
  set (insideE := SOT_text.raw2HTML (JS.slice fulltext (sstart seg) (send seg))).
  set (d := SOT_map._difdepth seg prevseg) in *.
  set (d' := SOT_map._difdepth seg nextseg).
  assert (HgE : no_angle gapE) by apply raw2HTML_no_angle.
  assert (HiE : no_angle insideE) by apply raw2HTML_no_angle.
  assert (HG : ((reading_of (SOT_map.html st) ++ annot (rev K) gapE)
                ++ annot (rev K) (SOT_map.text st))%list
               = (E ++ annot [] gapE)%list).
  { destruct (Z.eq_dec (SOT_map.n st) (sstart seg)) as [Eq|Ne].
    - unfold gapE. rewrite Eq, slice_empty, raw2HTML_empty, !annot_nil, !app_nil_r.
      exact Hrd.
    - destruct Hgap as [Ht0 HS0]; [lia|]. rewrite <- Hrd, Ht0, HS0.
      rewrite !annot_nil, !app_nil_r. reflexivity. }
  unfold SOT_map.markup_step. fold gapE insideE.
  rewrite htmladd_app.
  set (html1 := (SOT_map.html st ++ (if JS.nonempty gapE then [gapE] else []))%list).
  assert (Hc1 : Forall rclosed html1)
    by (apply Forall_app; split; [exact Hc|apply rclosed_opt, no_angle_rclosed, HgE]).
  destruct (push_reads (SOT_map.html st) gapE Hc) as [P1 P2]. fold html1 in P1, P2.
  rewrite Hst in P1, P2.
  destruct (read_text gapE HgE K) as (_ & G2 & G3). rewrite G2 in P1. rewrite G3 in P2.
  set (pi := if JS.nonempty (SOT_map.text st) then S (List.length html1)
             else List.length html1).
  unfold SOT_map._layersstart. fold d.
  destruct (layersstart_loop_reads seg i pi (skipn d (origs seg)) d "" (SOT_map.starts st))
    as (tags & sts1 & E1 & Tc & Ts & T0 & Tn & Hent).
  { rewrite Forall_forall in *. intros o Ho. apply Hg. eapply in_skipn_in; exact Ho. }
  { reflexivity. }
  rewrite E1.
  set (S1 := (rev (List.map setname (skipn d (origs seg))) ++ K)%list).
  assert (HS1 : rev S1 = layer_names seg).
  { unfold S1, layer_names. rewrite HS, <- rev_app_distr, <- map_app, firstn_skipn.
    apply rev_involutive. }
  assert (Hts : stack_after COut K tags = S1 /\ read_html COut K tags = [])
    by (destruct (Ts K) as [A B]; rewrite A, B; split; reflexivity).
  destruct Hts as [Ts1 Ts2].
  set (html2 := if JS.nonempty tags
                then SOT_map.htmladd
                       (SOT_map.htmladd (SOT_map.htmladd html1 (SOT_map.text st)) tags)
                       insideE
                else html1).
  set (text2 := if JS.nonempty tags then "" else SOT_map.text st ++ insideE).
  assert (Epair : (if JS.nonempty tags
                   then (SOT_map.htmladd
                           (SOT_map.htmladd (SOT_map.htmladd html1 (SOT_map.text st)) tags)
                           insideE, "")
                   else (html1, SOT_map.text st ++ insideE))
                  = (html2, text2))
    by (unfold html2, text2; destruct (JS.nonempty tags); reflexivity).
  rewrite Epair.
  assert (Hmid : Forall rclosed html2 /\ no_angle text2 /\ starts_free html2 sts1
                 /\ stack_of html2 = S1
                 /\ (reading_of html2 ++ annot (rev S1) text2)%list
                    = (E ++ annot [] gapE ++ annot (layer_names seg) insideE)%list).
  { unfold html2, text2. destruct (JS.nonempty tags) eqn:Entags.
    - rewrite !htmladd_app, Entags.
      set (ht := (html1 ++ (if JS.nonempty (SOT_map.text st)
                            then [SOT_map.text st] else []))%list).
      assert (Hct : Forall rclosed ht)
        by (apply Forall_app; split; [exact Hc1|apply rclosed_opt, no_angle_rclosed, Htx]).
      assert (Hlen_ht : List.length ht = pi).
      { unfold ht, pi. rewrite length_app.
        destruct (JS.nonempty (SOT_map.text st)); simpl; lia. }
      destruct (push_reads html1 (SOT_map.text st) Hc1) as [Q1 Q2]. fold ht in Q1, Q2.
      rewrite P1 in Q1, Q2. rewrite P2 in Q2.
      destruct (read_text (SOT_map.text st) Htx K) as (_ & X2 & X3).
      rewrite X2 in Q1. rewrite X3 in Q2.
      assert (Hctt : Forall rclosed (ht ++ [tags])%list).
      { apply Forall_app. split; [exact Hct|]. constructor; [exact Tc|constructor]. }
      destruct (push_one_reads ht tags Hct) as [R1 R2].
      rewrite Q1 in R1, R2. rewrite Ts1 in R1. rewrite Ts2, app_nil_r, Q2 in R2.
      destruct (push_reads (ht ++ [tags])%list insideE Hctt) as [U1 U2].
      rewrite R1 in U1, U2. rewrite R2 in U2.
      destruct (read_text insideE HiE S1) as (_ & Y2 & Y3).
      rewrite Y2 in U1. rewrite Y3, HS1 in U2.
      split; [|split; [exact I|split; [|split]]].
      + apply Forall_app. split; [exact Hctt|]. apply rclosed_opt, no_angle_rclosed, HiE.
      + intros name e He. apply Hent in He. destruct He as [He|(Hpi & H0 & Hin)].
        * destruct (Hv name e He) as (q & Hq & Q0 & Qin). exists q.
          split; [|auto].
          assert (Hlt : (pieceindex e < List.length (SOT_map.html st))%nat)
            by (apply nth_error_Some; congruence).
          unfold ht, html1. rewrite <- !app_assoc.
          rewrite nth_error_app1 by exact Hlt. exact Hq.
        * exists tags. split; [|auto].
          rewrite Hpi, <- Hlen_ht, <- app_assoc. apply nth_error_middle.
      + exact U1.
      + rewrite U2, annot_nil, app_nil_r, HG, <- app_assoc. reflexivity.
    - assert (Hnil : skipn d (origs seg) = []).
      { destruct (skipn d (origs seg)) as [|o l] eqn:Esk; [reflexivity|exfalso].
        assert (Hne : o :: l <> []) by congruence. specialize (Tn Hne). congruence. }
      assert (ES : S1 = K) by (unfold S1; rewrite Hnil; reflexivity).
      split; [exact Hc1|]. split; [apply no_angle_app; assumption|]. split; [|split].
      + intros name e He. apply Hent in He. destruct He as [He|(_ & _ & Hin)].
        * unfold html1. exact (starts_free_app _ _ _ Hv name e He).
        * rewrite (nonempty_false _ Entags) in Hin. simpl in Hin. discriminate.
      + rewrite ES. exact P1.
      + rewrite P2, annot_app, app_assoc, ES, HG, <- HS1, ES, <- app_assoc. reflexivity. }
  destruct Hmid as (Hc2 & Htx2 & Hv2 & Hst2 & Hrd2).
  unfold SOT_map._layersend. fold d'.
  destruct (layersend_loop_reads (rev (skipn d' (origs seg))) "")
    as (endtags & E2 & Ec & Es & E0 & En).
  { apply Forall_rev. rewrite Forall_forall in *. intros o Ho. apply Hg.
    eapply in_skipn_in; exact Ho. }
  { reflexivity. }
  rewrite E2.
  assert (HS' : skipn (List.length (rev (skipn d' (origs seg)))) S1
                = rev (List.map setname (firstn d' (origs seg)))).
  { rewrite length_rev. rewrite <- (rev_involutive S1), HS1. unfold layer_names.
    rewrite <- (length_map setname), <- skipn_map, skipn_length_rev, firstn_map.
    reflexivity. }
  assert (Hes : stack_after COut S1 endtags
                = rev (List.map setname (firstn d' (origs seg)))
                /\ read_html COut S1 endtags = []).
  { destruct (Es S1) as [A B]. rewrite A, B. split; [exact HS'|reflexivity]. }
  destruct Hes as [Es1 Es2].
  assert (Hflush : (d' < List.length (origs seg))%nat -> JS.nonempty endtags = true).
  { intros Hlt. apply En. intros Hnil.
    assert (Hl : List.length (rev (skipn d' (origs seg))) = 0%nat)
      by (rewrite Hnil; reflexivity).
    rewrite length_rev, length_skipn in Hl. lia. }
  destruct (JS.nonempty endtags) eqn:Eend.
  - set (piece := text2 ++ endtags).
    assert (Epair3 : (if JS.nonempty text2
                      then (SOT_map.htmladd html2 piece, "")
                      else (SOT_map.htmladd html2 endtags, text2))
                     = ((html2 ++ [piece])%list, "")).
    { unfold piece. rewrite !htmladd_app. destruct (JS.nonempty text2) eqn:Et2.
      - rewrite (nonempty_app_l text2 endtags Et2). reflexivity.
      - rewrite Eend, (nonempty_false _ Et2). reflexivity. }
    rewrite Epair3.
    destruct (read_text text2 Htx2 S1) as (Z1 & Z2 & Z3).
    assert (Hpc : rclosed piece).
    { unfold rclosed, piece. rewrite ctl_after_app, Z1. exact Ec. }
    assert (Hc3 : Forall rclosed (html2 ++ [piece])%list)
      by (apply Forall_app; split; [exact Hc2|constructor; [exact Hpc|constructor]]).
    destruct (push_one_reads html2 piece Hc2) as [V1 V2].
    rewrite Hst2 in V1, V2. unfold piece in V1, V2.
    rewrite stack_after_app, Z1, Z2, Es1 in V1.
    rewrite read_html_app, Z1, Z2, Z3, Es2, app_nil_r, Hrd2 in V2.
    fold piece in V1, V2.
    unfold SOT_map._setlayerright.
    destruct (setlayerright_loop_reads seg (origs seg) (html2 ++ [piece])%list sts1
                (starts_free_app html2 [piece] sts1 Hv2) Hc3)
      as (html4 & sts4 & E4 & A4 & B4 & D4 & D5).
    rewrite E4. eexists. split; [reflexivity|].
    cbn [SOT_map.n SOT_map.html SOT_map.text SOT_map.starts].
    split; [reflexivity|]. split; [exact B4|]. split; [exact I|].
    split; [exact A4|]. split; [rewrite D4; exact V1|].
    split; [|reflexivity].
    rewrite D5, V2, annot_nil, app_nil_r. reflexivity.
  - assert (Hnil : rev (skipn d' (origs seg)) = []).
    { destruct (rev (skipn d' (origs seg))) as [|o l] eqn:Er; [reflexivity|exfalso].
      assert (Hne : o :: l <> []) by congruence. specialize (En Hne). congruence. }
    rewrite Hnil in HS'. cbn [List.length skipn] in HS'.
    eexists. split; [reflexivity|].
    cbn [SOT_map.n SOT_map.html SOT_map.text SOT_map.starts].
    split; [reflexivity|]. split; [exact Hc2|]. split; [exact Htx2|].
    split; [exact Hv2|]. split; [rewrite Hst2; exact HS'|].
    split; [rewrite Hst2; exact Hrd2|].
    intros Hlt. apply Hflush in Hlt. discriminate.
Qed.

Lemma same_name_seq_sym a b : same_name_seq a b = same_name_seq b a.
Proof. unfold same_name_seq. rewrite String.eqb_sym, Z.eqb_sym. reflexivity. Qed.

Lemma common_prefix_names_sym : forall l1 l2,
  List.map setname (firstn (common_prefix_length same_name_seq l1 l2) l1)
  = List.map setname (firstn (common_prefix_length same_name_seq l2 l1) l2).
Proof.
  induction l1 as [|a l1 IH]; intros [|b l2]; simpl; try reflexivity.
  rewrite (same_name_seq_sym b a). destruct (same_name_seq a b) eqn:E; [|reflexivity].
  simpl. rewrite IH. f_equal.
  unfold same_name_seq in E. apply andb_true_iff in E. destruct E as [E _].
  apply String.eqb_eq in E. exact E.
Qed.

(** The layers left open after a segment are those that the next segment
    finds open. *)
Lemma difdepth_names_sym a b :
  List.map setname (firstn (SOT_map._difdepth a (Some b)) (origs a))
  = List.map setname (firstn (SOT_map._difdepth b (Some a)) (origs b)).
Proof.
  unfold SOT_map._difdepth. rewrite !difdepth_loop_spec by reflexivity.
  cbn [skipn Nat.add]. apply common_prefix_names_sym.
Qed.

Lemma markup_loop_reads : forall segs prevseg i st E,
  Forall (fun seg => origs seg <> [] /\ Forall (good_class defs) (origs seg)) segs ->
  chain false (SOT_map.n st) segs ->
  0 <= SOT_map.n st <= JS.strlen fulltext ->
  Forall (fun s => send s <= JS.strlen fulltext) segs ->
  gaps_separate segs ->
  match segs with
  | [] => SOT_map.text st = "" /\ stack_of (SOT_map.html st) = []
  | seg :: _ =>
      (SOT_map.n st < sstart seg ->
       SOT_map.text st = "" /\ stack_of (SOT_map.html st) = [])
      /\ stack_of (SOT_map.html st)
         = rev (List.map setname (firstn (SOT_map._difdepth seg prevseg) (origs seg)))
  end ->
  Forall rclosed (SOT_map.html st) -> no_angle (SOT_map.text st) ->
  starts_free (SOT_map.html st) (SOT_map.starts st) ->
  (reading_of (SOT_map.html st)
   ++ annot (rev (stack_of (SOT_map.html st))) (SOT_map.text st))%list = E ->
  exists st',
    SOT_map.markup_loop fulltext map opts defs None prevseg segs i st = Some st'
    /\ 0 <= SOT_map.n st' <= JS.strlen fulltext
    /\ Forall rclosed (SOT_map.html st')
    /\ stack_of (SOT_map.html st') = []
    /\ (reading_of (SOT_map.html st')
        ++ annot [] (SOT_text.raw2HTML (JS.slice_from fulltext (SOT_map.n st'))))%list
       = (E ++ seg_expected fulltext (SOT_map.n st) segs)%list.
Proof.
  induction segs as [|a rest IH];
    intros prevseg i st E Hall Hch Hn Hlen Hsep Hent Hc Htx Hv Hrd.
  - exists st. destruct Hent as [Ht Hs]. rewrite Ht, annot_nil, app_nil_r in Hrd.
    split; [reflexivity|]. split; [exact Hn|]. split; [exact Hc|]. split; [exact Hs|].
    cbn [seg_expected]. rewrite Hrd. reflexivity.
  - destruct (Forall_inv Hall) as [Hne Hg]. pose proof (Forall_inv_tail Hall) as Hall'.
    pose proof (Forall_inv Hlen) as Hla. pose proof (Forall_inv_tail Hlen) as Hlen'.
    simpl in Hla.
    destruct Hch as (Hlo & Hspan & Hch'). simpl in Hspan.
    destruct Hent as [Hgap HK].
    assert (HnA : 0 <= SOT_map.n st <= sstart a) by lia.
    destruct (markup_step_reads prevseg a (hd_error rest) i st
                (stack_of (SOT_map.html st)) E Hg HnA Hspan Hla Hgap HK Hc Htx Hv
                eq_refl Hrd)
      as (st1 & E1 & N1 & C1 & T1 & V1 & K1 & R1 & F1).
    cbn [SOT_map.markup_loop]. rewrite E1.
    assert (Hlenpos : (0 < List.length (origs a))%nat)
      by (destruct (origs a); [congruence|simpl; lia]).
    assert (Hch1 : chain false (SOT_map.n st1) rest) by (rewrite N1; exact Hch').
    assert (Hn1 : 0 <= SOT_map.n st1 <= JS.strlen fulltext) by (rewrite N1; lia).
    assert (Hsep1 : gaps_separate rest)
      by (destruct rest as [|b rest']; [exact I|exact (proj2 Hsep)]).
    assert (Hent1 : match rest with
                    | [] => SOT_map.text st1 = "" /\ stack_of (SOT_map.html st1) = []
                    | seg :: _ =>
                        (SOT_map.n st1 < sstart seg ->
                         SOT_map.text st1 = "" /\ stack_of (SOT_map.html st1) = [])
                        /\ stack_of (SOT_map.html st1)
                           = rev (List.map setname
                                    (firstn (SOT_map._difdepth seg (Some a)) (origs seg)))
                    end).
    { destruct rest as [|b rest'].
      - cbn [hd_error] in K1, F1. rewrite difdepth_none in K1, F1.
        split; [apply F1; exact Hlenpos|exact K1].
      - cbn [hd_error] in K1, F1. split.
        + intros Hlt. rewrite N1 in Hlt. destruct Hsep as [Hsep _].
          destruct (Forall_inv Hall') as [Hneb _].
          destruct (origs a) as [|oa la] eqn:Ea; [congruence|].
          destruct (origs b) as [|ob lb] eqn:Eb; [congruence|].
          assert (Hd : SOT_map._istagdif a (Some b) 0 = true).
          { apply istagdif_first with oa ob.
            - rewrite Ea. reflexivity.
            - rewrite Eb. reflexivity.
            - apply Hsep; [lia|reflexivity|reflexivity]. }
          pose proof (difdepth_zero a (Some b) oa la Ea Hd) as Hz.
          rewrite Hz in K1, F1.
          split; [apply F1; simpl; lia|exact K1].
        + rewrite K1, difdepth_names_sym. reflexivity. }
    destruct (IH (Some a) (S i) st1 _ Hall' Hch1 Hn1 Hlen' Hsep1 Hent1 C1 T1 V1 R1)
      as (st2 & E2 & N2 & C2 & K2 & R2).
    exists st2. split; [exact E2|]. split; [exact N2|]. split; [exact C2|].
    split; [exact K2|]. rewrite R2, N1. cbn [seg_expected].
    rewrite <- !app_assoc. reflexivity.
Qed.

(** With the default [mark] tag and one-word names, every segment carrying
    a layer, the segments in order within the text and any two segments
    with text between them differing in their first layer: the reader finds
    in the output of [SOT.map.markup] the escaped text, bare between the
    segments and, in each segment, inside the elements of its layers,
    outermost first in the order of its origin list. *)
Lemma markup_reads_aux :
  Forall (fun seg => origs seg <> [] /\ Forall (good_class defs) (origs seg)) map ->
  chain false 0 map ->
  Forall (fun s => send s <= JS.strlen fulltext) map ->
  gaps_separate map ->
  exists h, SOT_map.markup fulltext map opts defs None = Some h
            /\ annotate h = seg_expected fulltext 0 map.
Proof.
  intros Hall Hch Hlen Hsep.
  destruct (markup_loop_reads map None 0%nat
              {| SOT_map.html := []; SOT_map.text := ""; SOT_map.starts := [];
                 SOT_map.n := 0 |} [] Hall)
    as (st' & E & Hn & Hc & HK & Hrd); try assumption.
  - cbn [SOT_map.n]. pose proof (strlen_nonneg fulltext). lia.
  - destruct map as [|seg rest]; [split; reflexivity|].
    split; [intros _; split; reflexivity|]. rewrite difdepth_none. reflexivity.
  - constructor.
  - exact I.
  - intros name e He. discriminate.
  - reflexivity.
  - unfold SOT_map.markup. rewrite E. eexists. split; [reflexivity|].
    unfold annotate. rewrite read_html_app.
    pose proof (htmlstring_rclosed _ Hc) as Hcl. unfold rclosed in Hcl. rewrite Hcl.
    fold (stack_of (SOT_map.html st')). fold (reading_of (SOT_map.html st')).
    rewrite HK.
    destruct (read_text _ (raw2HTML_no_angle (JS.slice_from fulltext (SOT_map.n st'))) [])
      as (_ & _ & X3).
    rewrite X3. cbn [rev]. rewrite Hrd. reflexivity.
Qed.

End NestingRender.

Section NestingOfAMap.
Local Open Scope string_scope.



End NestingOfAMap.

(** ** Entries that hold a position, and the layers of the built map *)

Section BuiltNesting.
Local Open Scope string_scope.

Lemma match_layer_names name ms x : forall k,
  List.map setname (match_layer name k ms x)
  = if existsb (fun m => (fst m <=? x) && (x <? snd m))%Z ms then [name] else [].
Proof.
  induction ms as [|[s e] ms IH]; intros k; [reflexivity|].
  cbn [match_layer existsb fst snd].
  destruct ((s <=? x) && (x <? e))%Z; [reflexivity|]. cbn [orb]. apply IH.
Qed.

Lemma layer_names_holds ins x :
  List.map setname (layer_of ins x) = if holds ins x then [ins_name ins] else [].
Proof.
  destruct ins as [text regex name|text r name]; cbn [layer_of holds ins_name].
  - destruct (global regex); [|reflexivity]. cbn [andb]. apply match_layer_names.
  - destruct ((Z.min (rstart r) (rend r) <=? x) && (x <? Z.max (rstart r) (rend r)))%Z;
      reflexivity.
Qed.

Lemma names_at_layers inss x :
  List.map setname (flat_map (fun ins => layer_of ins x) inss) = names_at inss x.
Proof.
  unfold names_at. induction inss as [|ins inss IH]; [reflexivity|].
  cbn [flat_map]. rewrite map_app, IH, layer_names_holds. reflexivity.
Qed.

Lemma holds_inserted ins x : holds ins x = true <-> inserted ins x.
Proof.
  destruct ins as [text regex name|text r name]; cbn [holds inserted].
  - rewrite andb_true_iff, existsb_exists. unfold in_matches. split.
    + intros [Hg ([s e] & Hin & Hx)]. split; [exact Hg|]. exists s, e.
      cbn [fst snd] in Hx. apply andb_true_iff in Hx. destruct Hx as [A B].
      apply Z.leb_le in A. apply Z.ltb_lt in B. split; [exact Hin|lia].
    + intros [Hg (s & e & Hin & Hx)]. split; [exact Hg|]. exists (s, e).
      split; [exact Hin|]. cbn [fst snd]. apply andb_true_iff.
      split; [apply Z.leb_le|apply Z.ltb_lt]; lia.
  - unfold in_range. rewrite andb_true_iff, Z.leb_le, Z.ltb_lt. tauto.
Qed.

Lemma names_at_held inss x :
  names_at inss x <> [] <-> Exists (fun ins => inserted ins x) inss.
Proof.
  unfold names_at. induction inss as [|ins inss IH]; cbn [flat_map].
  - rewrite Exists_nil. split; [intros H; apply H; reflexivity|intros []].
  - rewrite Exists_cons, <- IH, <- holds_inserted.
    destruct (holds ins x); cbn [app].
    + split; [auto|discriminate].
    + split; [intros H; right; exact H|intros [H|H]; [discriminate|exact H]].
Qed.

(** *** The expectation, position by position *)

Lemma expected_app F a : forall x b,
  expected_from F x (a ++ b)
  = (expected_from F x a ++ expected_from F (x + JS.strlen a) b)%list.
Proof.
  induction a as [|c a IH]; intros x b.
  - cbn [String.append expected_from app]. change (JS.strlen "") with 0.
    rewrite Z.add_0_r. reflexivity.
  - cbn [String.append expected_from]. rewrite IH, <- app_assoc.
    replace (x + 1 + JS.strlen a) with (x + JS.strlen (String c a))
      by (unfold JS.strlen; cbn [String.length]; lia).
    reflexivity.
Qed.

Lemma expected_const F names s : forall x,
  (forall y, x <= y < x + JS.strlen s -> F y = names) ->
  expected_from F x s = annot names (SOT_text.raw2HTML s).
Proof.
  rewrite raw2HTML_escaped.
  induction s as [|c s IH]; intros x H; [reflexivity|].
  cbn [expected_from escaped]. rewrite annot_app.
  assert (Hl : JS.strlen (String c s) = 1 + JS.strlen s)
    by (unfold JS.strlen; cbn [String.length]; lia).
  pose proof (strlen_nonneg s).
  rewrite (H x) by lia. f_equal. apply IH. intros y Hy. apply H. lia.
Qed.

Lemma slices_of text a b :
  0 <= a <= b -> b <= JS.strlen text ->
  exists t1 t2 t3,
    text = t1 ++ t2 ++ t3 /\ JS.strlen t1 = a /\ JS.strlen t2 = b - a
    /\ JS.slice text a b = t2 /\ JS.slice_from text a = t2 ++ t3
    /\ JS.slice_from text b = t3.
Proof.
  intros Hab Hb.
  destruct (string_split text a) as (t1 & r & E & L1); [lia|]. subst text.
  rewrite strlen_append in Hb.
  destruct (string_split r (b - a)) as (t2 & t3 & E & L2); [lia|]. subst r.
  exists t1, t2, t3. split; [reflexivity|]. split; [exact L1|]. split; [exact L2|].
  split; [|split].
  - replace b with (JS.strlen t1 + JS.strlen t2) by lia. rewrite <- L1.
    apply slice_middle.
  - rewrite <- L1. apply slice_suffix.
  - replace b with (JS.strlen (t1 ++ t2)) by (rewrite strlen_append; lia).
    rewrite <- append_assoc. apply slice_suffix.
Qed.

Lemma seg_expected_pointwise F text : forall segs n,
  chain true n segs -> 0 <= n <= JS.strlen text ->
  Forall (fun s => send s <= JS.strlen text) segs ->
  (forall seg x, In seg segs -> inseg seg x -> layer_names seg = F x) ->
  (forall x, n <= x -> (forall seg, In seg segs -> ~ inseg seg x) -> F x = []) ->
  seg_expected text n segs = expected_from F n (JS.slice_from text n).
Proof.
  induction segs as [|seg rest IH]; intros n Hc Hn Hlen Hin Hout.
  - cbn [seg_expected]. symmetry. apply expected_const.
    intros y Hy. apply Hout; [lia|]. intros seg [].
  - destruct Hc as (H1 & H2 & H3). simpl in H2.
    pose proof (Forall_inv Hlen) as Hl. simpl in Hl.
    pose proof (Forall_inv_tail Hlen) as Hlen'.
    pose proof (chain_starts true _ _ H3) as Fs. rewrite Forall_forall in Fs.
    destruct (slices_of text n (sstart seg)) as (t1 & g & r & Et & L1 & Lg & Sg & Sf & Sr);
      [lia|lia|].
    destruct (slices_of text (sstart seg) (send seg))
      as (u1 & t & r' & Et' & M1 & Mt & St & Sf' & Sr'); [lia|lia|].
    cbn [seg_expected]. rewrite Sf, Sg, St. rewrite Sr in Sf'. rewrite Sf'.
    rewrite !expected_app.
    rewrite (expected_const F [] g n).
    2:{ intros y Hy. apply Hout; [lia|]. intros s [<-|Hs] Hy'.
        - unfold inseg in Hy'. lia.
        - specialize (Fs s Hs). simpl in Fs. unfold inseg in Hy'. lia. }
    rewrite (expected_const F (layer_names seg) t (n + JS.strlen g)).
    2:{ intros y Hy. symmetry. apply (Hin seg y); [left; reflexivity|].
        unfold inseg. lia. }
    f_equal. f_equal.
    replace (n + JS.strlen g + JS.strlen t) with (send seg) by lia.
    rewrite <- Sr'. apply IH.
    + exact H3.
    + lia.
    + exact Hlen'.
    + intros s x Hs Hx. apply Hin; [right; exact Hs|exact Hx].
    + intros x Hx Hno. apply Hout; [lia|]. intros s [<-|Hs].
      * unfold inseg. lia.
      * apply Hno. exact Hs.
Qed.

Variable fulltext : string.
Variable inss : list Insertion.
Variable opts : option Opts.
Variable defs : option Defs.
Hypothesis Hopts : plain_opts opts.
Hypothesis Hok : Forall (ins_ok true) inss.
Hypothesis Hnd : NoDup (List.map ins_name inss).
Hypothesis Hgood :
  Forall (fun ins => plain_for defs (ins_name ins) /\ class_word (ins_name ins)) inss.
Hypothesis Hin : Forall (ins_within (JS.strlen fulltext)) inss.

(** In the built map the names of the layers of a segment are the names of
    the insertions that hold its positions, in the order of insertion. *)
Lemma built_names seg x :
  In seg (build inss) -> inseg seg x -> layer_names seg = names_at inss x.
Proof.
  intros Hs Hx. unfold layer_names. rewrite (built_origs inss Hok seg x Hs Hx).
  apply names_at_layers.
Qed.

Lemma built_classes :
  Forall (fun seg => origs seg <> [] /\ Forall (good_class defs) (origs seg)) (build inss).
Proof.
  assert (Hg' : Forall (fun ins => plain_for defs (ins_name ins)
                                   /\ no_angle (ins_name ins)) inss).
  { eapply Forall_impl; [|exact Hgood]. simpl. intros ins [A B].
    split; [exact A|apply class_word_no_angle; exact B]. }
  pose proof (built_segments inss defs Hok Hg') as F.
  rewrite Forall_forall in F. apply Forall_forall.
  intros seg Hs. destruct (F seg Hs) as [Hne _].
  split; [exact Hne|].
  pose proof (built_span inss Hok seg Hs) as Hsp.
  assert (Hx : inseg seg (sstart seg)) by (unfold inseg; lia).
  rewrite (built_origs inss Hok seg _ Hs Hx).
  apply Forall_forall. intros o Ho. apply in_flat_map in Ho.
  destruct Ho as (ins & Hi & Ho). unfold good_class.
  rewrite (layer_name ins _ o Ho). exact (proj1 (Forall_forall _ _) Hgood ins Hi).
Qed.

Lemma slice_from_zero s : JS.slice_from s 0 = s.
Proof. exact (slice_suffix "" s). Qed.

(** Every character of the text comes out escaped inside the elements named
    after the insertions that hold its position, outermost first in the
    order of insertion. *)
Lemma built_map_reads :
  exists h, SOT_map.markup fulltext (build inss) opts defs None = Some h
            /\ annotate h = expected_from (names_at inss) 0 fulltext.
Proof.
  destruct (markup_reads_aux fulltext (build inss) opts defs Hopts built_classes
              (built_chain fulltext inss Hok Hin) (built_ends fulltext inss Hok Hin)
              (built_gaps inss Hok Hnd)) as (h & E & A).
  exists h. split; [exact E|]. rewrite A.
  destruct (built_ok inss Hok) as [lo Hc].
  assert (Hc0 : chain true 0 (build inss)).
  { apply (chain_raise lo 0 _ Hc). apply Forall_forall. intros seg Hs.
    pose proof (built_span inss Hok seg Hs).
    assert (Hx : inseg seg (sstart seg)) by (unfold inseg; lia).
    pose proof (built_inside fulltext inss Hok Hin seg _ Hs Hx). lia. }
  rewrite (seg_expected_pointwise (names_at inss) fulltext (build inss) 0 Hc0).
  - rewrite slice_from_zero. reflexivity.
  - pose proof (strlen_nonneg fulltext). lia.
  - exact (built_ends fulltext inss Hok Hin).
  - intros seg x Hs Hx. apply built_names; assumption.
  - intros x _ Hno.
    destruct (names_at inss x) as [|nm l] eqn:En; [reflexivity|exfalso].
    assert (Hne : names_at inss x <> []) by (rewrite En; discriminate).
    apply names_at_held in Hne. apply (built_covers inss Hok) in Hne.
    destruct Hne as (seg & Hs & Hx). exact (Hno seg Hs Hx).
Qed.

End BuiltNesting.

(** ** The claim on nesting *)

Section ClaimNesting.
Local Open Scope string_scope.

Lemma series_ok defs text overlay :
  entries_ok defs text -> Forall (ins_ok true) (series_insertions defs text overlay).
Proof.
  intros Hok. apply Forall_forall. intros ins Hi.
  destruct (series_origin _ _ _ _ Hi) as ([n d] & He & _ & [(rx & Er & ->)|(r & Er & ->)]);
    destruct (Hok n d He) as [Hm Hr]; simpl in *.
  - exact (Hm rx Er).
  - exact (Hr r Er).
Qed.

Lemma series_application_names defs text overlay :
  List.map ins_name (series_insertions defs text overlay) = application_order overlay defs.
Proof.
  assert (Hm : forall l, List.map ins_name (flat_map (matcher_insertions text) l)
                         = regex_names l).
  { unfold regex_names. induction l as [|e l IH]; [reflexivity|].
    cbn [flat_map]. rewrite map_app, IH. unfold matcher_insertions.
    destruct (regex (snd e)); reflexivity. }
  assert (Hr : forall l, List.map ins_name (flat_map (range_insertions text) l)
                         = range_names l).
  { unfold range_names. induction l as [|e l IH]; [reflexivity|].
    cbn [flat_map]. rewrite map_app, IH. unfold range_insertions.
    destruct (drange (snd e)); reflexivity. }
  assert (He : forall l, List.map ins_name (flat_map (mixed_insertions text) l)
                         = entry_names l).
  { unfold entry_names. induction l as [|e l IH]; [reflexivity|].
    cbn [flat_map]. rewrite map_app, IH. unfold mixed_insertions, range_insertions.
    destruct (regex (snd e)); [reflexivity|]. destruct (drange (snd e)); reflexivity. }
  unfold series_insertions, application_order. destruct overlay.
  - rewrite map_app, Hm, Hr. reflexivity.
  - apply He.
Qed.

Lemma entry_names_registered defs :
  (forall n d, In (n, d) defs -> regex d <> None \/ drange d <> None) ->
  entry_names defs = registration_order defs.
Proof.
  unfold entry_names, registration_order.
  induction defs as [|[n d] defs' IH]; intros Hall; [reflexivity|]. simpl.
  rewrite IH by (intros n' d' Hin; apply (Hall n' d'); right; exact Hin).
  destruct (Hall n d (or_introl eq_refl)) as [H|H];
    destruct (regex d); destruct (drange d); try congruence; reflexivity.
Qed.



End ClaimNesting.
